(** * Codex example editor (site/examples/codex.js) over a model of the Slate core

    The example composes four feature plugins (math blocks, links, images,
    checklists) over a Slate editor and defines the toolbar commands
    [toggleBlock], [toggleMark], [insertLink], [insertImage] and
    [insertMathBlock].  The commands and plugins are embedded from the source
    file, and so are the keyboard and toolbar handlers and the render
    functions [Element] and [Leaf].  The Slate core they call ([Editor.nodes], [Transforms.setNodes],
    ...) is not part of the example file: it is modelled from the written
    specification of the document tree, the range model and the transform
    engine. *)

From Stdlib Require Import Ascii String.
From stdpp Require Import base option list strings gmap.

Open Scope string_scope.
Open Scope nat_scope.
Open Scope list_scope.

(** ** JavaScript values used by the example *)

Module JS.

(** [s && ...] on a string: the empty string is falsy. *)
Definition truthy (s : string) : bool :=
  match s with EmptyString => false | String _ _ => true end.

(** [s.split(sep)] for a one-character separator. *)
Fixpoint split (sep : ascii) (s : string) : list string :=
  match s with
  | EmptyString => [EmptyString]
  | String ch s' =>
      if Ascii.eqb ch sep then EmptyString :: split sep s'
      else match split sep s' with
           | [] => [String ch EmptyString]
           | w :: ws => String ch w :: ws
           end
  end.

(** [const [x] = arr]: the first element, or [undefined]. *)
Definition first {A} (l : list A) : option A := head l.

(** [arr.pop()]: the last element, or [undefined]. *)
Definition pop {A} (l : list A) : option A := last l.

(** [arr.includes(x)] on an array of strings. *)
Definition includes (l : list string) (x : string) : bool :=
  existsb (String.eqb x) l.

End JS.

(** ** Document tree *)

(** A mark or attribute value: the booleans and strings of the data model. *)
Inductive Value :=
  | VBool (b : bool)
  | VStr (s : string).

Global Instance Value_eq_dec : EqDecision Value.
Proof. solve_decision. Defined.

(** [v === true] *)
Definition is_true_value (v : option Value) : bool :=
  match v with Some (VBool true) => true | _ => false end.

(** Modelled from the spec: the Node of the data model.  A Text node holds a
    string and its mark attributes; an Element node holds a [type] tag, its
    other attributes ([url], [checked]) and an ordered sequence of children.
    Only elements carry a [type]: [n.type] of a Text is [undefined]. *)
#[local] Unset Elimination Schemes.
Inductive Node :=
  | Text (text : string) (marks : gmap string Value)
  | Element (type : string) (props : gmap string Value) (children : list Node).

#[local] Set Elimination Schemes.

(** [n.type], [undefined] (here [None]) on a Text. *)
Definition node_type (n : Node) : option string :=
  match n with
  | Text _ _ => None
  | Element t _ _ => Some t
  end.

(** [n.type === ty] *)
Definition has_type (ty : string) (n : Node) : bool :=
  match node_type n with
  | Some t => String.eqb t ty
  | None => false
  end.

Definition node_children (n : Node) : list Node :=
  match n with
  | Text _ _ => []
  | Element _ _ ks => ks
  end.

Definition isText (n : Node) : bool :=
  match n with Text _ _ => true | Element _ _ _ => false end.

Definition isElement (n : Node) : bool := negb (isText n).

(** The induction principle for the nested tree. *)
Section Node_induction.
Variable P : Node -> Prop.
Hypothesis P_text : forall s m, P (Text s m).
Hypothesis P_element : forall t a ks, Forall P ks -> P (Element t a ks).

Fixpoint Node_forall_ind (n : Node) : P n :=
  match n with
  | Text s m => P_text s m
  | Element t a ks =>
      P_element t a ks
        ((fix go (l : list Node) : Forall P l :=
            match l with
            | [] => List.Forall_nil P
            | k :: l' => List.Forall_cons P k l' (Node_forall_ind k) (go l')
            end) ks)
  end.
End Node_induction.

(** Modelled from the spec: a Path is the sequence of child indices from the
    root; a Point is a path to a Text node and an offset in its string; a Range
    is an anchor and a focus Point, collapsed when the two are equal. *)
Abbreviation Path := (list nat).

Module Path.

(** The order of two paths in the document: [Lt], [Gt], or [Eq] when one is
    an ancestor of (or equal to) the other. *)
Fixpoint compare (p q : Path) : comparison :=
  match p, q with
  | i :: p', j :: q' =>
      match Nat.compare i j with
      | Eq => compare p' q'
      | o => o
      end
  | _, _ => Eq
  end.

Definition equals (p q : Path) : bool := bool_decide (p = q).

Definition parent (p : Path) : Path := removelast p.

(** The longest common prefix of two paths. *)
Fixpoint common (p q : Path) : Path :=
  match p, q with
  | i :: p', j :: q' => if Nat.eqb i j then i :: common p' q' else []
  | _, _ => []
  end.

End Path.

Module Point.
Record t := mk { path : Path; offset : nat }.

Global Instance eq_dec : EqDecision t.
Proof. solve_decision. Defined.

Definition equals (a b : t) : bool :=
  Path.equals (path a) (path b) && Nat.eqb (offset a) (offset b).

(** Points are ordered by path, then by offset. *)
Definition isBefore (a b : t) : bool :=
  match Path.compare (path a) (path b) with
  | Lt => true
  | Gt => false
  | Eq => Nat.ltb (offset a) (offset b)
  end.
End Point.

Module Range.
Record t := mk { anchor : Point.t; focus : Point.t }.

Global Instance eq_dec : EqDecision t.
Proof. solve_decision. Defined.

Definition isCollapsed (r : t) : bool := Point.equals (anchor r) (focus r).

(** The start and end points of the range, in document order. *)
Definition edges (r : t) : Point.t * Point.t :=
  if Point.isBefore (focus r) (anchor r) then (focus r, anchor r)
  else (anchor r, focus r).

Definition start (r : t) : Point.t := fst (edges r).
Definition end_ (r : t) : Point.t := snd (edges r).
End Range.

(** A file of a drop or paste payload: its media type and the data URL that
    reading it yields. *)
Record File := { file_type : string; file_dataURL : string }.

(** The payload handed to [insertData]: [data.getData('text/plain')] and
    [data.files]. *)
Record Data := { text_plain : string; files : option (list File) }.

(** The mutable part of the editor object: the document, the selection, the
    pending marks, and the file reads started with [readAsDataURL] whose
    [load] callback has not run yet. *)
Record EditorState := {
  children : list Node;
  selection : option Range.t;
  marks : option (gmap string Value);
  reading : list File
}.

(** [editor.marks], the marks set at a caret for the text typed next. *)
Definition pending (e : EditorState) : option (gmap string Value) := marks e.

Definition with_children (ks : list Node) (e : EditorState) : EditorState :=
  {| children := ks; selection := selection e; marks := marks e;
     reading := reading e |}.

Definition with_selection (s : option Range.t) (e : EditorState) : EditorState :=
  {| children := children e; selection := s; marks := marks e;
     reading := reading e |}.

Definition with_marks (m : option (gmap string Value)) (e : EditorState)
  : EditorState :=
  {| children := children e; selection := selection e; marks := m;
     reading := reading e |}.

Definition with_reading (fs : list File) (e : EditorState) : EditorState :=
  {| children := children e; selection := selection e; marks := marks e;
     reading := fs |}.

(** The two classification methods of the editor object, which the transform
    engine consults. *)
Record Classify := {
  isVoid : Node -> bool;
  isInline : Node -> bool
}.

(** [Editor.isBlock]: an element that is not inline. *)
Definition isBlock (c : Classify) (n : Node) : bool :=
  isElement n && negb (isInline c n).

(** ** The Slate core: queries *)

(** A node of the document together with its path. *)
Definition Entry : Type := Node * Path.

(** The entry of a child, seen from its parent. *)
Definition under (i : nat) (e : Entry) : Entry := (fst e, i :: snd e).

(** The span of a traversal inside one subtree: the part of the start path
    ([lo]) and of the end path ([hi]) that lies below the subtree's root, or
    [None] on a side where the subtree is not cut by the range. *)
Definition Bound := option Path.

(** Child [i] is not before the start path. *)
Definition lo_in (lo : Bound) (i : nat) : bool :=
  match lo with
  | Some (a :: _) => Nat.leb a i
  | _ => true
  end.

(** Child [i] is not after the end path. *)
Definition hi_in (hi : Bound) (i : nat) : bool :=
  match hi with
  | Some (b :: _) => Nat.leb i b
  | _ => true
  end.

Definition in_span (lo hi : Bound) (i : nat) : bool := lo_in lo i && hi_in hi i.

(** The bound inside child [i]: it stays only under the child the boundary
    path goes through. *)
Definition sub (b : Bound) (i : nat) : Bound :=
  match b with
  | Some (a :: r) => if Nat.eqb a i then Some r else None
  | _ => None
  end.

Module Tree.

Section Queries.
Context (c : Classify).

(** Modelled from the spec: the document-order traversal behind every
    query, bounded by a range.  It visits the nodes from the start path to
    the end path of the range together with their ancestors, and treats a
    void element as a whole: its placeholder child is not visited. *)
Fixpoint walk (lo hi : Bound) (n : Node) : list Entry :=
  (n, []) ::
  match n with
  | Text _ _ => []
  | Element _ _ ks =>
      if isVoid c n then []
      else
        (fix kids (i : nat) (ks : list Node) {struct ks} : list Entry :=
           match ks with
           | [] => []
           | k :: ks' =>
               (if in_span lo hi i
                then map (under i) (walk (sub lo i) (sub hi i) k)
                else [])
               ++ kids (S i) ks'
           end) 0 ks
  end.

Definition walk_kids (lo hi : Bound)
  : nat -> list Node -> list Entry :=
  fix kids (i : nat) (ks : list Node) {struct ks} : list Entry :=
  match ks with
  | [] => []
  | k :: ks' =>
      (if in_span lo hi i
       then map (under i) (walk (sub lo i) (sub hi i) k)
       else [])
      ++ kids (S i) ks'
  end.

(** The nodes strictly below [n] that the traversal visits. *)
Definition walk_below (lo hi : Bound) (n : Node) : list Entry :=
  match n with
  | Text _ _ => []
  | Element _ _ ks => if isVoid c n then [] else walk_kids lo hi 0 ks
  end.

(** The bounds of the traversal of the whole document for a range. *)
Definition span_lo (r : Range.t) : Bound := Some (Point.path (Range.start r)).
Definition span_hi (r : Range.t) : Bound := Some (Point.path (Range.end_ r)).

(** Modelled from the spec: [Editor.nodes(editor, {match})], the lazy
    sequence of [(node, path)] pairs matching a predicate, in document
    order, bounded by the selection.  The editor root carries no type and
    is no Text, so it matches none of the predicates of the example. *)
Definition nodes (m : Node -> bool) (e : EditorState) : list Entry :=
  match selection e with
  | None => []
  | Some r =>
      List.filter (fun en => m (fst en))
        (walk_kids (span_lo r) (span_hi r) 0 (children e))
  end.

(** [n] matches and no node below it in the traversal does: the matches of
    a transform, which acts on the lowest matching nodes. *)
Definition lowest_hit (m : Node -> bool) (lo hi : Bound) (n : Node) : bool :=
  m n && negb (existsb (fun en => m (fst en)) (walk_below lo hi n)).

(** The lowest matches in the selection, in document order. *)
Fixpoint lowest_in (m : Node -> bool) (lo hi : Bound) (n : Node)
  : list Entry :=
  match
    match n with
    | Text _ _ => []
    | Element _ _ ks =>
        if isVoid c n then []
        else
          (fix kids (i : nat) (ks : list Node) {struct ks} : list Entry :=
             match ks with
             | [] => []
             | k :: ks' =>
                 (if in_span lo hi i
                  then map (under i) (lowest_in m (sub lo i) (sub hi i) k)
                  else [])
                 ++ kids (S i) ks'
             end) 0 ks
    end
  with
  | [] => if m n then [(n, [])] else []
  | below => below
  end.

Definition lowest_kids (m : Node -> bool) (lo hi : Bound)
  : nat -> list Node -> list Entry :=
  fix kids (i : nat) (ks : list Node) {struct ks} : list Entry :=
  match ks with
  | [] => []
  | k :: ks' =>
      (if in_span lo hi i
       then map (under i) (lowest_in m (sub lo i) (sub hi i) k)
       else [])
      ++ kids (S i) ks'
  end.

(** The lowest matches strictly below a node. *)
Definition lowest_below (m : Node -> bool) (lo hi : Bound) (n : Node)
  : list Entry :=
  match n with
  | Text _ _ => []
  | Element _ _ ks => if isVoid c n then [] else lowest_kids m lo hi 0 ks
  end.

Definition nodes_lowest (m : Node -> bool) (e : EditorState) : list Entry :=
  match selection e with
  | None => []
  | Some r => lowest_kids m (span_lo r) (span_hi r) 0 (children e)
  end.

End Queries.

(** The path from [n] down its first children to its first leaf. *)
Fixpoint first_leaf (n : Node) : Path :=
  match n with
  | Text _ _ => []
  | Element _ _ ks =>
      match ks with
      | [] => []
      | k :: _ => 0 :: first_leaf k
      end
  end.

(** The node at a path below [n]. *)
Fixpoint descend (n : Node) (p : Path) : option Node :=
  match p with
  | [] => Some n
  | x :: r =>
      match node_children n !! x with
      | Some k => descend k r
      | None => None
      end
  end.

(** The node at a path below a list of children. *)
Definition node_at (ks : list Node) (p : Path) : option Node :=
  match p with
  | [] => None
  | x :: r =>
      match ks !! x with
      | Some k => descend k r
      | None => None
      end
  end.

End Tree.

(** ** The Slate core: transforms *)

(** The property changes of [setNodes]. *)
Definition set_type (ty : string) (n : Node) : Node :=
  match n with
  | Text _ _ => n
  | Element _ a ks => Element ty a ks
  end.

Definition set_prop (k : string) (v : Value) (n : Node) : Node :=
  match n with
  | Text s mk => Text s (<[k := v]> mk)
  | Element t a ks => Element t (<[k := v]> a) ks
  end.

Definition unset_prop (k : string) (n : Node) : Node :=
  match n with
  | Text s mk => Text s (delete k mk)
  | Element t a ks => Element t (delete k a) ks
  end.

(** The first child index of a parent that the span reaches, and the index
    after the last one. *)
Definition lo_idx (lo : Bound) : nat :=
  match lo with
  | Some (a :: _) => a
  | _ => 0
  end.

Definition hi_idx (hi : Bound) (len : nat) : nat :=
  match hi with
  | Some (b :: _) => S b
  | _ => len
  end.

(** Add [d] to the first index of a path. *)
Definition shift (d : nat) (p : Path) : Path :=
  match p with
  | [] => []
  | x :: r => (d + x) :: r
  end.

Module Transforms.

Section Engine.
Context (c : Classify).

(** *** select and collapse *)

Definition select (r : Range.t) (e : EditorState) : EditorState :=
  with_selection (Some r) e.

(** Modelled from the spec: [collapse({edge: 'end'})] moves the selection
    to the single Point at the end of the current selection. *)
Definition collapse_end (e : EditorState) : EditorState :=
  match selection e with
  | None => e
  | Some r => select (Range.mk (Range.end_ r) (Range.end_ r)) e
  end.

(** *** setNodes *)

(** Modelled from the spec: [setNodes(properties, {match})] finds the
    nodes matching the predicate within the selection and merges the
    properties onto them; with no selection it does nothing. *)
Fixpoint set_node (patch : Node -> Node) (m : Node -> bool)
  (lo hi : Bound) (n : Node) : Node :=
  if Tree.lowest_hit c m lo hi n then patch n
  else
    match n with
    | Text _ _ => n
    | Element t a ks =>
        if isVoid c n then n
        else
          Element t a
            ((fix kids (i : nat) (ks : list Node) {struct ks} : list Node :=
                match ks with
                | [] => []
                | k :: ks' =>
                    (if in_span lo hi i
                     then set_node patch m (sub lo i) (sub hi i) k
                     else k)
                    :: kids (S i) ks'
                end) 0 ks)
    end.

Definition set_kids (patch : Node -> Node) (m : Node -> bool)
  (lo hi : Bound)
  : nat -> list Node -> list Node :=
  fix kids (i : nat) (ks : list Node) {struct ks} : list Node :=
  match ks with
  | [] => []
  | k :: ks' =>
      (if in_span lo hi i
       then set_node patch m (sub lo i) (sub hi i) k
       else k)
      :: kids (S i) ks'
  end.

Definition setNodes (patch : Node -> Node) (m : Node -> bool)
  (e : EditorState) : EditorState :=
  match selection e with
  | None => e
  | Some r =>
      with_children
        (set_kids patch m (Tree.span_lo r) (Tree.span_hi r) 0
           (children e)) e
  end.

(** *** unwrapNodes *)

(** What remains of an unwrapped element: the lifted children, between the
    part of the element before them and the part after them, each kept
    only when it still has children. *)
Definition halves (t : string) (a : gmap string Value)
  (before inside after : list Node) : list Node :=
  (match before with [] => [] | _ => [Element t a before] end)
  ++ inside
  ++ (match after with [] => [] | _ => [Element t a after] end).

(** Modelled from the spec: [unwrapNodes({match, split})] removes one
    level of wrapping Element, lifting the children of each matched
    element to its parent.  With [split] only the children inside the
    selection are lifted, and the element is split around them. *)
Fixpoint unwrap_node (split : bool) (m : Node -> bool)
  (lo hi : Bound) (n : Node) : list Node :=
  match n with
  | Text _ _ => [n]
  | Element t a ks =>
      if isVoid c n then [n]
      else if Tree.lowest_hit c m lo hi n then
        let i := if split then lo_idx lo else 0 in
        let j := if split then hi_idx hi (length ks) else length ks in
        match take (j - i) (drop i ks) with
        | [] => [n]
        | inside => halves t a (take i ks) inside (drop j ks)
        end
      else
        [Element t a
           ((fix kids (i : nat) (ks : list Node) {struct ks} : list Node :=
               match ks with
               | [] => []
               | k :: ks' =>
                   (if in_span lo hi i
                    then unwrap_node split m (sub lo i) (sub hi i) k
                    else [k])
                   ++ kids (S i) ks'
               end) 0 ks)]
  end.

Definition unwrap_kids (split : bool) (m : Node -> bool)
  (lo hi : Bound)
  : nat -> list Node -> list Node :=
  fix kids (i : nat) (ks : list Node) {struct ks} : list Node :=
  match ks with
  | [] => []
  | k :: ks' =>
      (if in_span lo hi i
       then unwrap_node split m (sub lo i) (sub hi i) k
       else [k])
      ++ kids (S i) ks'
  end.

(** Where a path below [n] leads after [unwrap_node]: its first index
    counts in the list that replaces [n]. *)
Fixpoint unwrap_path (split : bool) (m : Node -> bool)
  (lo hi : Bound) (n : Node) (p : Path) : Path :=
  match n with
  | Text _ _ => 0 :: p
  | Element t a ks =>
      if isVoid c n then 0 :: p
      else if Tree.lowest_hit c m lo hi n then
        let i := if split then lo_idx lo else 0 in
        let j := if split then hi_idx hi (length ks) else length ks in
        match take (j - i) (drop i ks) with
        | [] => 0 :: p
        | inside =>
            match p with
            | [] => [0]
            | x :: r =>
                let nb := match take i ks with [] => 0 | _ => 1 end in
                if x <? i then 0 :: x :: r
                else if x <? j then (nb + (x - i)) :: r
                else (nb + length inside) :: (x - j) :: r
            end
        end
      else
        match p with
        | [] => [0]
        | x :: r =>
            0 ::
            (fix kids (i : nat) (ks : list Node) {struct ks} : Path :=
               match ks with
               | [] => (x - i) :: r
               | k :: ks' =>
                   if Nat.eqb x i then
                     if in_span lo hi i
                     then unwrap_path split m (sub lo i) (sub hi i) k r
                     else 0 :: r
                   else
                     shift
                       (length
                          (if in_span lo hi i
                           then unwrap_node split m (sub lo i) (sub hi i) k
                           else [k]))
                       (kids (S i) ks')
               end) 0 ks
        end
  end.

Definition unwrap_kids_path (split : bool) (m : Node -> bool)
  (lo hi : Bound) (x : nat) (r : Path)
  : nat -> list Node -> Path :=
  fix kids (i : nat) (ks : list Node) {struct ks} : Path :=
  match ks with
  | [] => (x - i) :: r
  | k :: ks' =>
      if Nat.eqb x i then
        if in_span lo hi i
        then unwrap_path split m (sub lo i) (sub hi i) k r
        else 0 :: r
      else
        shift
          (length
             (if in_span lo hi i
              then unwrap_node split m (sub lo i) (sub hi i) k
              else [k]))
          (kids (S i) ks')
  end.

(** The point that a point of the old document becomes. *)
Definition unwrap_point (split : bool) (m : Node -> bool)
  (lo hi : Bound) (ks : list Node) (pt : Point.t) : Point.t :=
  match Point.path pt with
  | [] => pt
  | x :: r =>
      Point.mk (unwrap_kids_path split m lo hi x r 0 ks) (Point.offset pt)
  end.

Definition unwrapNodes (m : Node -> bool) (split : bool)
  (e : EditorState) : EditorState :=
  match selection e with
  | None => e
  | Some r =>
      let lo := Tree.span_lo r in
      let hi := Tree.span_hi r in
      {| children := unwrap_kids split m lo hi 0 (children e);
         selection :=
           Some (Range.mk
                   (unwrap_point split m lo hi (children e) (Range.anchor r))
                   (unwrap_point split m lo hi (children e) (Range.focus r)));
         marks := marks e;
         reading := reading e |}
  end.


(** *** wrapNodes *)

(** The run of siblings to wrap: the children of the common parent of the
    first and the last match, from the one holding the first match to the
    one holding the last. *)
Definition wrap_span (ms : list Entry) : option (Path * nat * nat) :=
  match ms with
  | [] => None
  | first :: _ =>
      let fp := snd first in
      let lp := snd (List.last ms first) in
      let cp :=
        if Path.equals fp lp then Path.parent fp else Path.common fp lp in
      match fp !! length cp, lp !! length cp with
      | Some i, Some j => Some (cp, i, j)
      | _, _ => None
      end
  end.

(** The new Element built from the wrapper template around [ks]. *)
Definition rewrap (w : Node) (ks : list Node) : Node :=
  match w with
  | Text _ _ => w
  | Element t a _ => Element t a ks
  end.

(** Wrap the children [i..j] of the node at [cp]. *)
Fixpoint wrap_at (w : Node) (cp : Path) (i j : nat) (ks : list Node)
  : list Node :=
  match cp with
  | [] => take i ks ++ [rewrap w (take (S j - i) (drop i ks))] ++ drop (S j) ks
  | x :: cp' =>
      match ks !! x with
      | Some (Element t a ks') =>
          <[x := Element t a (wrap_at w cp' i j ks')]> ks
      | _ => ks
      end
  end.

Fixpoint wrap_path (cp : Path) (i j : nat) (p : Path) : Path :=
  match cp, p with
  | [], x :: r =>
      if x <? i then p
      else if x <=? j then i :: (x - i) :: r
      else (x - (j - i)) :: r
  | x0 :: cp', x :: r =>
      if Nat.eqb x x0 then x :: wrap_path cp' i j r else p
  | _, [] => p
  end.

Definition wrap_run (w : Node) (ms : list Entry) (ks : list Node)
  : list Node :=
  match wrap_span ms with
  | Some (cp, i, j) => wrap_at w cp i j ks
  | None => ks
  end.

Definition wrap_run_path (ms : list Entry) (p : Path) : Path :=
  match wrap_span ms with
  | Some (cp, i, j) => wrap_path cp i j p
  | None => p
  end.

Definition map_range (f : Path -> Path) (r : Range.t) : Range.t :=
  Range.mk
    (Point.mk (f (Point.path (Range.anchor r))) (Point.offset (Range.anchor r)))
    (Point.mk (f (Point.path (Range.focus r))) (Point.offset (Range.focus r))).

(** Modelled from the spec: [wrapNodes(wrapperTemplate)] for a block
    wrapper wraps the matched nodes, the lowest blocks of the selection,
    inside one new Element built from the template. *)
Definition wrapNodes_block (w : Node) (e : EditorState) : EditorState :=
  match selection e with
  | None => e
  | Some r =>
      let ms := Tree.nodes_lowest c (isBlock c) e in
      {| children := wrap_run w ms (children e);
         selection := Some (map_range (wrap_run_path ms) r);
         marks := marks e;
         reading := reading e |}
  end.

(** The matches of an inline wrapper inside one block: its inline
    elements and texts. *)
Definition inline_or_text (n : Node) : bool :=
  isText n || (isElement n && isInline c n).

(** An inline wrapper is applied inside each lowest block of the
    selection, around the lowest inline nodes and texts selected there. *)
Fixpoint wrap_inline (w : Node) (lo hi : Bound) (n : Node) : Node :=
  match n with
  | Text _ _ => n
  | Element t a ks =>
      if isVoid c n then n
      else if Tree.lowest_hit c (isBlock c) lo hi n then
        Element t a (wrap_run w (Tree.lowest_kids c inline_or_text lo hi 0 ks) ks)
      else
        Element t a
          ((fix kids (i : nat) (ks : list Node) {struct ks} : list Node :=
              match ks with
              | [] => []
              | k :: ks' =>
                  (if in_span lo hi i
                   then wrap_inline w (sub lo i) (sub hi i) k
                   else k)
                  :: kids (S i) ks'
              end) 0 ks)
  end.

Definition wrap_inline_kids (w : Node) (lo hi : Bound)
  : nat -> list Node -> list Node :=
  fix kids (i : nat) (ks : list Node) {struct ks} : list Node :=
  match ks with
  | [] => []
  | k :: ks' =>
      (if in_span lo hi i then wrap_inline w (sub lo i) (sub hi i) k else k)
      :: kids (S i) ks'
  end.

Fixpoint wrap_inline_path (lo hi : Bound) (n : Node) (p : Path) : Path :=
  match n with
  | Text _ _ => p
  | Element t a ks =>
      if isVoid c n then p
      else if Tree.lowest_hit c (isBlock c) lo hi n then
        wrap_run_path (Tree.lowest_kids c inline_or_text lo hi 0 ks) p
      else
        match p with
        | [] => []
        | x :: r =>
            x ::
            (fix kids (i : nat) (ks : list Node) {struct ks} : Path :=
               match ks with
               | [] => r
               | k :: ks' =>
                   if Nat.eqb x i then
                     if in_span lo hi i
                     then wrap_inline_path (sub lo i) (sub hi i) k r
                     else r
                   else kids (S i) ks'
               end) 0 ks
        end
  end.

Definition wrap_inline_kids_path (lo hi : Bound) (x : nat) (r : Path)
  : nat -> list Node -> Path :=
  fix kids (i : nat) (ks : list Node) {struct ks} : Path :=
  match ks with
  | [] => r
  | k :: ks' =>
      if Nat.eqb x i then
        if in_span lo hi i
        then wrap_inline_path (sub lo i) (sub hi i) k r
        else r
      else kids (S i) ks'
  end.

Definition wrapNodes_inline (w : Node) (e : EditorState) : EditorState :=
  match selection e with
  | None => e
  | Some r =>
      let lo := Tree.span_lo r in
      let hi := Tree.span_hi r in
      let f p :=
        match p with
        | [] => []
        | x :: q => x :: wrap_inline_kids_path lo hi x q 0 (children e)
        end in
      {| children := wrap_inline_kids w lo hi 0 (children e);
         selection := Some (map_range f r);
         marks := marks e;
         reading := reading e |}
  end.

(** *** Splitting at a point *)

(** Modelled from the spec: "splits the containing node so only the
    selected portion" is affected.  [split_node n p o] cuts [n] at the
    point with path [p] (below [n]) and offset [o] into the part before
    the point and the part after it.  A point at the start or the end of
    a node leaves that node whole; a void element is never cut. *)
Fixpoint split_node (n : Node) (p : Path) (o : nat)
  : list Node * list Node :=
  match n with
  | Text s mk =>
      if String.length s <=? o then ([n], [])
      else if Nat.eqb o 0 then ([], [n])
      else ([Text (substring 0 o s) mk],
            [Text (substring o (String.length s - o) s) mk])
  | Element t a ks =>
      if isVoid c n then ([n], [])
      else
        match p with
        | [] => ([n], [])
        | x :: r =>
            match
              (fix kids (x : nat) (ks : list Node) {struct ks}
                 : list Node * list Node :=
                 match ks with
                 | [] => ([], [])
                 | k :: ks' =>
                     match x with
                     | 0 => let (l, rr) := split_node k r o in (l, rr ++ ks')
                     | S x' => let (l, rr) := kids x' ks' in (k :: l, rr)
                     end
                 end) x ks
            with
            | (_, []) => ([n], [])
            | ([], _) => ([], [n])
            | (l, rr) => ([Element t a l], [Element t a rr])
            end
        end
  end.

Definition split_kids (r : Path) (o : nat)
  : nat -> list Node -> list Node * list Node :=
  fix kids (x : nat) (ks : list Node) {struct ks}
    : list Node * list Node :=
  match ks with
  | [] => ([], [])
  | k :: ks' =>
      match x with
      | 0 => let (l, rr) := split_node k r o in (l, rr ++ ks')
      | S x' => let (l, rr) := kids x' ks' in (k :: l, rr)
      end
  end.

(** Where the point [(q, qo)] below [n] lies after [split_node n p o]:
    in the part after the cut ([true]) or before it, and its path and
    offset there.  A point exactly at the cut goes to the part after it
    when [incl] is set. *)
Fixpoint split_point (incl : bool) (n : Node) (p : Path) (o : nat)
  (q : Path) (qo : nat) : bool * Path * nat :=
  match n with
  | Text s mk =>
      if String.length s <=? o then (false, q, qo)
      else if Nat.eqb o 0 then (true, q, qo)
      else if (o <? qo) || (incl && Nat.eqb qo o) then (true, q, qo - o)
      else (false, q, qo)
  | Element t a ks =>
      match split_node n p o with
      | (_, []) => (false, q, qo)
      | ([], _) => (true, q, qo)
      | _ =>
          match p, q with
          | x :: r, y :: r' =>
              if y <? x then (false, q, qo)
              else
                (fix kids (i : nat) (ks : list Node) {struct ks}
                   : bool * Path * nat :=
                   match ks with
                   | [] => (false, q, qo)
                   | k :: ks' =>
                       if Nat.eqb i x then
                         if Nat.eqb y x then
                           match split_point incl k r o r' qo with
                           | (true, q', qo') => (true, 0 :: q', qo')
                           | (false, q', qo') => (false, x :: q', qo')
                           end
                         else
                           (true,
                             (length (snd (split_node k r o)) + (y - x - 1))
                               :: r', qo)
                       else kids (S i) ks'
                   end) 0 ks
          | _, _ => (false, q, qo)
          end
      end
  end.

(** Cut the node at depth [d] on the path [p], in place. *)
Fixpoint split_at (d : nat) (p : Path) (o : nat) (ks : list Node)
  : list Node :=
  match p with
  | [] => ks
  | x :: r =>
      match d with
      | 0 =>
          match ks !! x with
          | Some k =>
              let (l, rr) := split_node k r o in
              take x ks ++ l ++ rr ++ drop (S x) ks
          | None => ks
          end
      | S d' =>
          match ks !! x with
          | Some (Element t a ks') =>
              <[x := Element t a (split_at d' r o ks')]> ks
          | _ => ks
          end
      end
  end.

Fixpoint split_at_point (incl : bool) (d : nat) (p : Path) (o : nat)
  (ks : list Node) (q : Path) (qo : nat) : Path * nat :=
  match p, q with
  | x :: r, y :: r' =>
      match d with
      | 0 =>
          match ks !! x with
          | Some k =>
              let (l, rr) := split_node k r o in
              if y <? x then (q, qo)
              else if x <? y then ((y + (length l + length rr - 1)) :: r', qo)
              else
                match split_point incl k r o r' qo with
                | (true, q', qo') => ((x + length l) :: q', qo')
                | (false, q', qo') => (x :: q', qo')
                end
          | None => (q, qo)
          end
      | S d' =>
          if Nat.eqb x y then
            match ks !! x with
            | Some (Element t a ks') =>
                let (q', qo') := split_at_point incl d' r o ks' r' qo in
                (y :: q', qo')
            | _ => (q, qo)
            end
          else (q, qo)
      end
  | _, _ => (q, qo)
  end.

(** The depth of the lowest node matching [m] on the way to [p]. *)
Definition match_depth (m : Node -> bool) (p : Path) (ks : list Node)
  : option nat :=
  match Tree.lowest_kids c m (Some p) (Some p) 0 ks with
  | [] => None
  | en :: _ => Some (length (snd en) - 1)
  end.

(** [splitNodes({at: point, match})]: cut the lowest matching node at the
    point, and move the selection along. *)
Definition splitNodes (m : Node -> bool) (incl : bool) (pt : Point.t)
  (e : EditorState) : EditorState :=
  match match_depth m (Point.path pt) (children e) with
  | None => e
  | Some d =>
      let f q :=
        let (q', qo') :=
          split_at_point incl d (Point.path pt) (Point.offset pt)
            (children e) (Point.path q) (Point.offset q) in
        Point.mk q' qo' in
      {| children := split_at d (Point.path pt) (Point.offset pt) (children e);
         selection :=
           match selection e with
           | None => None
           | Some r => Some (Range.mk (f (Range.anchor r)) (f (Range.focus r)))
           end;
         marks := marks e;
         reading := reading e |}
  end.

(** Cut at both edges of the selection, the end first, so that the
    selection covers whole matching nodes. *)
Definition splitRange (m : Node -> bool) (e : EditorState) : EditorState :=
  match selection e with
  | None => e
  | Some r =>
      let e1 := splitNodes m false (Range.end_ r) e in
      match selection e1 with
      | None => e1
      | Some r1 => splitNodes m true (Range.start r1) e1
      end
  end.

(** Modelled from the spec: [wrapNodes(wrapperTemplate, {split})].  With
    [split] the nodes cut by the selection edges are split first, so that
    only the selected portion is wrapped.  The matched nodes are the
    blocks of the selection for a block wrapper, and its inline nodes and
    texts for an inline wrapper. *)
Definition wrapNodes (w : Node) (split : bool) (e : EditorState)
  : EditorState :=
  if isElement w && isInline c w then
    wrapNodes_inline w (if split then splitRange inline_or_text e else e)
  else
    wrapNodes_block w (if split then splitRange (isBlock c) e else e).

(** [setNodes] with [split]: the matching nodes are cut at the edges of
    the selection, and only the selected part gets the properties. *)
Definition setNodes_split (patch : Node -> Node) (m : Node -> bool)
  (e : EditorState) : EditorState :=
  setNodes patch m (splitRange m e).

(** *** insertNodes *)

(** [Transforms.delete] of the content of an expanded selection is kept
    abstract: it is expected to leave a caret in its place. *)
Context (deleteFragment : EditorState -> EditorState).

(** The path to the last leaf below [n], and the length of its text. *)
Fixpoint last_leaf (n : Node) : Path * nat :=
  match n with
  | Text s _ => ([], String.length s)
  | Element _ _ ks =>
      (fix go (i : nat) (ks : list Node) {struct ks} : Path * nat :=
         match ks with
         | [] => ([], 0)
         | k :: ks' =>
             match ks' with
             | [] => let (p, o) := last_leaf k in (i :: p, o)
             | _ => go (S i) ks'
             end
         end) 0 ks
  end.

(** Put [node] at the point [(p, o)], cutting the node at depth [d] there;
    the result comes with the path of the inserted node. *)
Fixpoint insert_at (node : Node) (d : nat) (p : Path) (o : nat)
  (ks : list Node) : list Node * Path :=
  match p with
  | [] => (ks, [])
  | x :: r =>
      match d with
      | 0 =>
          match ks !! x with
          | Some k =>
              let (l, rr) := split_node k r o in
              (take x ks ++ l ++ [node] ++ rr ++ drop (S x) ks,
               [x + length l])
          | None => (ks, [])
          end
      | S d' =>
          match ks !! x with
          | Some (Element t a ks') =>
              let (ks'', ip) := insert_at node d' r o ks' in
              (<[x := Element t a ks'']> ks, x :: ip)
          | _ => (ks, [])
          end
      end
  end.

(** Modelled from the spec: [insertNodes(nodes)] inserts the new node at
    the current location and leaves the caret at its end.  A text or an
    inline node goes into the text under the caret, a block after, before
    or between the parts of the block under the caret; with no selection
    nothing is inserted. *)
Definition insertNodes (node : Node) (e : EditorState) : EditorState :=
  match selection e with
  | None => e
  | Some r =>
      let e1 := if Range.isCollapsed r then e else deleteFragment e in
      match selection e1 with
      | None => e1
      | Some r1 =>
          let pt := Range.anchor r1 in
          let m :=
            if isText node then isText
            else if isInline c node then inline_or_text
            else isBlock c in
          match match_depth m (Point.path pt) (children e1) with
          | None => e1
          | Some d =>
              let (ks', ip) :=
                insert_at node d (Point.path pt) (Point.offset pt)
                  (children e1) in
              let (lp, lo) := last_leaf node in
              {| children := ks';
                 selection :=
                   Some (Range.mk (Point.mk (ip ++ lp) lo)
                           (Point.mk (ip ++ lp) lo));
                 marks := marks e1;
                 reading := reading e1 |}
          end
      end
  end.

End Engine.
End Transforms.

Module Editor.

Section Interface.
Context (c : Classify).

(** Modelled from the spec: [Editor.nodes(editor, {match})], the sequence
    of [(node, path)] pairs matching a predicate, in document order,
    bounded by the selection. *)
Definition nodes (m : Node -> bool) (e : EditorState) : list Entry :=
  Tree.nodes c m e.

(** Modelled from the spec: [Editor.start(editor, path)], the start Point
    of the subtree at [path]: offset 0 of its first Text. *)
Definition start (e : EditorState) (p : Path) : Point.t :=
  match Tree.node_at (children e) p with
  | Some n => Point.mk (p ++ Tree.first_leaf n) 0
  | None => Point.mk p 0
  end.

(** Modelled from the spec: [Editor.marks(editor)], the effective set of
    mark attributes at the selection: the pending marks when there are
    some, else the marks of the Text under the caret, or of the first
    Text of an expanded selection; [null] without a selection. *)
Definition marks (e : EditorState) : option (gmap string Value) :=
  match selection e with
  | None => None
  | Some r =>
      match pending e with
      | Some pending => Some pending
      | None =>
          if Range.isCollapsed r then
            match Tree.node_at (children e) (Point.path (Range.anchor r)) with
            | Some (Text _ mk) => Some mk
            | _ => Some ∅
            end
          else
            match nodes isText e with
            | (Text _ mk, _) :: _ => Some mk
            | _ => Some ∅
            end
      end
  end.

(** Modelled from the spec: adding a mark sets it on the text of an
    expanded selection, and on the pending marks at a caret. *)
Definition addMark (k : string) (v : Value) (e : EditorState)
  : EditorState :=
  match selection e with
  | None => e
  | Some r =>
      if Range.isCollapsed r
      then with_marks (Some (<[k := v]> (default ∅ (marks e)))) e
      else Transforms.setNodes_split c (set_prop k v) isText e
  end.

(** Modelled from the spec: removing a mark unsets it on the text of an
    expanded selection, and in the pending marks at a caret. *)
Definition removeMark (k : string) (e : EditorState) : EditorState :=
  match selection e with
  | None => e
  | Some r =>
      if Range.isCollapsed r
      then with_marks (Some (delete k (default ∅ (marks e)))) e
      else Transforms.setNodes_split c (unset_prop k) isText e
  end.

End Interface.
End Editor.

(** ** The example: site/examples/codex.js *)

(** The editor object: its two classification methods and the three
    behaviours the plugins override.  A behaviour receives the classification
    of the editor object it is called on, because the transforms it runs
    consult [editor.isVoid] and [editor.isInline] of the finished editor.
    [insertData] yields [None] when it ends with an exception. *)
Record EditorObject := {
  classify : Classify;
  insertText : Classify -> string -> EditorState -> EditorState;
  insertData : Classify -> Data -> EditorState -> option EditorState;
  deleteBackward : Classify -> string -> EditorState -> EditorState
}.

(** [createEditor()]: no element is void or inline; the default behaviours
    are those of the core, [withReact] and [withHistory]. *)
Definition createEditor
  (defaultInsertText : string -> EditorState -> EditorState)
  (defaultInsertData : Data -> EditorState -> option EditorState)
  (defaultDeleteBackward : string -> EditorState -> EditorState)
  : EditorObject :=
  {| classify := {| isVoid := fun _ => false; isInline := fun _ => false |};
     insertText := fun _ => defaultInsertText;
     insertData := fun _ => defaultInsertData;
     deleteBackward := fun _ => defaultDeleteBackward |}.

Definition LIST_TYPES : list string := ["numbered-list"; "bulleted-list"].

(** [n => LIST_TYPES.includes(n.type)] *)
Definition isListType (n : Node) : bool :=
  match node_type n with
  | Some t => JS.includes LIST_TYPES t
  | None => false
  end.

Section Codex.
(** The packages [is-url] and [image-extensions] and the pathname of the
    [URL] constructor, which throws on a string it cannot parse. *)
Context (isUrl : string -> bool).
Context (imageExtensions : list string).
Context (urlPathname : string -> option string).
(** [Transforms.delete] on an expanded selection. *)
Context (deleteFragment : EditorState -> EditorState).

Definition isBlockActive (c : Classify) (e : EditorState) (format : string)
  : bool :=
  match JS.first (Editor.nodes c (has_type format) e) with
  | Some _ => true
  | None => false
  end.

Definition toggleBlock (c : Classify) (format : string) (e : EditorState)
  : EditorState :=
  let isActive := isBlockActive c e format in
  let isList := JS.includes LIST_TYPES format in
  let e1 := Transforms.unwrapNodes c isListType true e in
  let e2 :=
    Transforms.setNodes c
      (set_type (if isActive then "paragraph"
                 else if isList then "list-item" else format))
      (isBlock c) e1 in
  if negb isActive && isList
  then Transforms.wrapNodes c (Element format ∅ []) false e2
  else e2.

Definition isMarkActive (c : Classify) (e : EditorState) (format : string)
  : bool :=
  match Editor.marks c e with
  | Some marks => is_true_value (marks !! format)
  | None => false
  end.

Definition toggleMark (c : Classify) (format : string) (e : EditorState)
  : EditorState :=
  let isActive := isMarkActive c e format in
  if isActive then Editor.removeMark c format e
  else Editor.addMark c format (VBool true) e.

Definition withMathBlocks (editor : EditorObject) : EditorObject :=
  let isVoid0 := isVoid (classify editor) in
  {| classify :=
       {| isVoid := fun element =>
            if has_type "math-block" element then true else isVoid0 element;
          isInline := isInline (classify editor) |};
     insertText := insertText editor;
     insertData := insertData editor;
     deleteBackward := deleteBackward editor |}.

Definition insertMathBlock (c : Classify) (e : EditorState) : EditorState :=
  let text := Text "" ∅ in
  let voidNode := Element "math-block" ∅ [text] in
  Transforms.insertNodes c deleteFragment voidNode e.

Definition isLinkActive (c : Classify) (e : EditorState) : bool :=
  match JS.first (Editor.nodes c (has_type "link") e) with
  | Some _ => true
  | None => false
  end.

Definition unwrapLink (c : Classify) (e : EditorState) : EditorState :=
  Transforms.unwrapNodes c (has_type "link") false e.

Definition wrapLink (c : Classify) (url : string) (e : EditorState)
  : EditorState :=
  let e1 := if isLinkActive c e then unwrapLink c e else e in
  let isCollapsed :=
    match selection e1 with
    | Some sel => Range.isCollapsed sel
    | None => false
    end in
  let link :=
    Element "link" {[ "url" := VStr url ]}
      (if isCollapsed then [Text url ∅] else []) in
  if isCollapsed then Transforms.insertNodes c deleteFragment link e1
  else Transforms.collapse_end (Transforms.wrapNodes c link true e1).

Definition withLinks (editor : EditorObject) : EditorObject :=
  let insertData0 := insertData editor in
  let insertText0 := insertText editor in
  let isInline0 := isInline (classify editor) in
  {| classify :=
       {| isVoid := isVoid (classify editor);
          isInline := fun element =>
            if has_type "link" element then true else isInline0 element |};
     insertText := fun self text e =>
       if JS.truthy text && isUrl text then wrapLink self text e
       else insertText0 self text e;
     insertData := fun self data e =>
       let text := text_plain data in
       if JS.truthy text && isUrl text then Some (wrapLink self text e)
       else insertData0 self data e;
     deleteBackward := deleteBackward editor |}.

Definition insertLink (c : Classify) (url : string) (e : EditorState)
  : EditorState :=
  match selection e with
  | Some _ => wrapLink c url e
  | None => e
  end.

(** The body of the checklist [deleteBackward] up to its [return]: the new
    state when it returns early, [None] when it falls through to the
    captured [deleteBackward]. *)
Definition checklistBackspace (c : Classify) (e : EditorState)
  : option EditorState :=
  match selection e with
  | Some sel =>
      if Range.isCollapsed sel then
        match JS.first (Editor.nodes c (has_type "check-list-item") e) with
        | Some (_, path) =>
            let start := Editor.start e path in
            if Point.equals (Range.anchor sel) start then
              Some (Transforms.setNodes c (set_type "paragraph")
                      (has_type "check-list-item") e)
            else None
        | None => None
        end
      else None
  | None => None
  end.

Definition withChecklists (editor : EditorObject) : EditorObject :=
  let deleteBackward0 := deleteBackward editor in
  {| classify := classify editor;
     insertText := insertText editor;
     insertData := insertData editor;
     deleteBackward := fun self unit e =>
       match checklistBackspace self e with
       | Some e' => e'
       | None => deleteBackward0 self unit e
       end |}.

Definition insertImage (c : Classify) (url : string) (e : EditorState)
  : EditorState :=
  let text := Text "" ∅ in
  let image := Element "image" {[ "url" := VStr url ]} [text] in
  Transforms.insertNodes c deleteFragment image e.

(** [isImageUrl]; [None] when [new URL(url)] throws. *)
Definition isImageUrl (url : string) : option bool :=
  if negb (JS.truthy url) then Some false
  else if negb (isUrl url) then Some false
  else
    match urlPathname url with
    | None => None
    | Some pathname =>
        match JS.pop (JS.split "." pathname) with
        | Some ext => Some (JS.includes imageExtensions ext)
        | None => Some false
        end
    end.

(** One turn of the loop over the dropped files: an image file is handed
    to a [FileReader], whose [load] callback inserts the image later. *)
Definition readFile (e : EditorState) (file : File) : EditorState :=
  match JS.first (JS.split "/" (file_type file)) with
  | Some mime =>
      if String.eqb mime "image" then with_reading (reading e ++ [file]) e
      else e
  | None => e
  end.

(** The [load] callback of the reader of [file]. *)
Definition readerLoaded (c : Classify) (file : File) (e : EditorState)
  : EditorState :=
  insertImage c (file_dataURL file) e.

Definition withImages (editor : EditorObject) : EditorObject :=
  let insertData0 := insertData editor in
  let isVoid0 := isVoid (classify editor) in
  {| classify :=
       {| isVoid := fun element =>
            if has_type "image" element then true else isVoid0 element;
          isInline := isInline (classify editor) |};
     insertText := insertText editor;
     insertData := fun self data e =>
       let text := text_plain data in
       match files data with
       | Some (file :: rest) => Some (fold_left readFile (file :: rest) e)
       | _ =>
           match isImageUrl text with
           | None => None
           | Some true => Some (insertImage self text e)
           | Some false => insertData0 self data e
           end
       end;
     deleteBackward := deleteBackward editor |}.

(** The editor of [CodexExample]. *)
Definition codexEditor (base : EditorObject) : EditorObject :=
  withMathBlocks (withLinks (withImages (withChecklists base))).

(** Calling a method on an editor object. *)
Definition callInsertText (ed : EditorObject) (text : string)
  (e : EditorState) : EditorState :=
  insertText ed (classify ed) text e.

Definition callInsertData (ed : EditorObject) (data : Data)
  (e : EditorState) : option EditorState :=
  insertData ed (classify ed) data e.

Definition callDeleteBackward (ed : EditorObject) (unit : string)
  (e : EditorState) : EditorState :=
  deleteBackward ed (classify ed) unit e.

End Codex.

(** ** Sample documents *)

Definition txt (s : string) : Node := Text s ∅.
Definition el (t : string) (ks : list Node) : Node := Element t ∅ ks.
Definition caret (p : Path) (o : nat) : Range.t :=
  Range.mk (Point.mk p o) (Point.mk p o).
Definition doc (ks : list Node) (s : option Range.t) : EditorState :=
  {| children := ks; selection := s; marks := None; reading := [] |}.

(** The classification chain in the words of the specification: each plugin
    of the chain, from the outermost to the innermost, either answers for a
    node or passes; the classification is the first answer, and "not void /
    not inline" when every plugin passes. *)
Definition Claim : Type := Node -> option bool.

Fixpoint firstAnswer (chain : list Claim) (n : Node) : bool :=
  match chain with
  | [] => false
  | claim :: inner =>
      match claim n with
      | Some answer => answer
      | None => firstAnswer inner n
      end
  end.

Definition claims (ty : string) : Claim :=
  fun n => if has_type ty n then Some true else None.

Definition passes : Claim := fun _ => None.

(** math blocks, links, images, checklists *)
Definition voidChain : list Claim :=
  [claims "math-block"; passes; claims "image"; passes].

Definition inlineChain : list Claim :=
  [passes; claims "link"; passes; passes].

(** The classification methods of the composed editor, written out. *)
Definition codexClassify : Classify :=
  {| isVoid := fun element =>
       if has_type "math-block" element then true
       else if has_type "image" element then true else false;
     isInline := fun element =>
       if has_type "link" element then true else false |}.

(** ** Document properties for the list commands *)

(** No list container is a direct child of a list container: [n] is well
    nested below a parent that is ([under_list]) or is not a list
    container. *)
Fixpoint well_nested (under_list : bool) (n : Node) : bool :=
  negb (under_list && isListType n) &&
  match n with
  | Text _ _ => true
  | Element _ _ ks => forallb (well_nested (isListType n)) ks
  end.

Definition no_nested_lists (ks : list Node) : bool :=
  forallb (well_nested false) ks.

(** Every child of a list container is a block element. *)
Fixpoint lists_hold_blocks (c : Classify) (n : Node) : bool :=
  match n with
  | Text _ _ => true
  | Element _ _ ks =>
      (negb (isListType n) || forallb (isBlock c) ks) &&
      forallb (lists_hold_blocks c) ks
  end.

(** The path leads through elements that are not void down to a Text. *)
Fixpoint text_below (c : Classify) (n : Node) (p : Path) : bool :=
  match p with
  | [] => isText n
  | x :: r =>
      isElement n && negb (isVoid c n) &&
      match node_children n !! x with
      | Some k => text_below c k r
      | None => false
      end
  end.

Definition caret_in_text (c : Classify) (ks : list Node) (p : Path) : bool :=
  match p with
  | [] => false
  | x :: r =>
      match ks !! x with
      | Some k => text_below c k r
      | None => false
      end
  end.

(** The nodes on the way from [n] down the path, [n] first. *)
Fixpoint ancestors (n : Node) (p : Path) : list Node :=
  n ::
  match p with
  | [] => []
  | x :: r =>
      match node_children n !! x with
      | Some k => ancestors k r
      | None => []
      end
  end.

Definition chain (ks : list Node) (p : Path) : list Node :=
  match p with
  | [] => []
  | x :: r =>
      match ks !! x with
      | Some k => ancestors k r
      | None => []
      end
  end.

(** The number of list containers around a point of the document. *)
Definition list_depth (ks : list Node) (p : Path) : nat :=
  length (List.filter isListType (chain ks p)).

(** The document and the path of the anchor of the selection. *)
Definition anchor_path (e : EditorState) : Path :=
  match selection e with
  | Some r => Point.path (Range.anchor r)
  | None => []
  end.

(** The document at a caret: the selection is collapsed and its path leads
    to a Text. *)
Definition at_caret (c : Classify) (e : EditorState) : bool :=
  match selection e with
  | None => false
  | Some r =>
      Range.isCollapsed r &&
      caret_in_text c (children e) (Point.path (Range.anchor r))
  end.

(** The position in a chain of the lowest entry matching [m]. *)
Fixpoint lowest_index {A} (m : A -> bool) (ch : list A) : option nat :=
  match ch with
  | [] => None
  | k :: ch' =>
      match lowest_index m ch' with
      | Some i => Some (S i)
      | None => if m k then Some 0 else None
      end
  end.

(** ** Chains of types

    What the list commands do at a caret depends only on the types of the
    nodes from the root down to the caret ([None] for the Text). *)

Definition is_list_ty (o : option string) : bool :=
  match o with
  | Some t => JS.includes LIST_TYPES t
  | None => false
  end.

(** A block of the composed editor: an element whose type is not 'link'. *)
Definition is_block_ty (o : option string) : bool :=
  match o with
  | Some t => negb (String.eqb t "link")
  | None => false
  end.

(** The chain without its lowest entry satisfying [f]. *)
Fixpoint drop_lowest (f : option string -> bool) (tys : list (option string))
  : list (option string) :=
  match tys with
  | [] => []
  | t :: rest =>
      if f t && negb (existsb f rest) then rest else t :: drop_lowest f rest
  end.

(** The chain with type [ty] at its lowest entry satisfying [f]. *)
Fixpoint retype_lowest (ty : string) (f : option string -> bool)
  (tys : list (option string)) : list (option string) :=
  match tys with
  | [] => []
  | t :: rest =>
      if f t && negb (existsb f rest) then Some ty :: rest
      else t :: retype_lowest ty f rest
  end.


(** Every list container of the chain is followed by a block. *)
Fixpoint chain_holds (tys : list (option string)) : bool :=
  match tys with
  | [] => true
  | t :: rest =>
      (negb (is_list_ty t) ||
       match rest with
       | t' :: _ => is_block_ty t'
       | [] => false
       end) && chain_holds rest
  end.



(** ** Sample environment *)

(** Stand-ins for the packages and the default behaviours, for the worked
    examples. *)
Definition sampleIsUrl (s : string) : bool := String.prefix "https://" s.
Definition sampleExtensions : list string := ["png"; "jpg"; "gif"].
Definition samplePathname (s : string) : option string :=
  if String.prefix "https://" s
  then Some (substring 8 (String.length s - 8) s) else None.
Definition sampleDelete (e : EditorState) : EditorState := e.
Definition sampleInsertText (text : string) (e : EditorState) : EditorState :=
  with_children (children e ++ [Text text ∅]) e.
Definition sampleInsertData (data : Data) (e : EditorState)
  : option EditorState :=
  Some (with_children (children e ++ [Text (text_plain data) ∅]) e).
Definition sampleDeleteBackward (unit : string) (e : EditorState)
  : EditorState :=
  with_children (removelast (children e)) e.

Definition sampleEditor : EditorObject :=
  codexEditor sampleIsUrl sampleExtensions samplePathname sampleDelete
    (createEditor sampleInsertText sampleInsertData sampleDeleteBackward).

(** Three checklist items after a paragraph, as in the initial value. *)
Definition checklistDocument : list Node :=
  [ el "paragraph" [txt "Try it out for yourself!"];
    Element "check-list-item" {[ "checked" := VBool true ]}
      [txt "Slide to the left."];
    Element "check-list-item" {[ "checked" := VBool false ]}
      [txt "Criss-cross."] ].

(** A dropped PDF file with no text, and an image URL pasted as text. *)
Definition pdfDrop : Data :=
  {| text_plain := "";
     files := Some [ {| file_type := "application/pdf";
                        file_dataURL := "data:application/pdf;base64,AA==" |} ] |}.

Definition plainPaste : Data := {| text_plain := "hello"; files := None |}.

Definition imageUrlPaste : Data :=
  {| text_plain := "https://example.com/cat.png"; files := None |}.

Definition emptyParagraph : EditorState :=
  doc [el "paragraph" [txt ""]] (Some (caret [0; 0] 0)).

(** The number of list containers around the anchor of the selection. *)
Definition caret_list_depth (e : EditorState) : nat :=
  list_depth (children e) (anchor_path e).


Definition bareListDocument : list Node :=
  [ el "numbered-list" [el "list-item" [el "numbered-list" [txt "x"]]] ].

(** A list container directly inside a list container. *)
Definition doubleListDocument : list Node :=
  [ el "bulleted-list" [el "numbered-list" [el "list-item" [txt "a"]]] ].

(** A list of three items and a paragraph. *)
Definition listDocument : list Node :=
  [ el "numbered-list"
      [ el "list-item" [txt "a"];
        el "list-item" [txt "b"];
        el "list-item" [txt "c"] ];
    el "paragraph" [txt "z"] ].

(** The number of link elements around the anchor of the selection. *)
Definition caret_link_depth (e : EditorState) : nat :=
  length (List.filter (has_type "link") (chain (children e) (anchor_path e))).

Definition is_link_ty (o : option string) : bool :=
  match o with
  | Some t => String.eqb t "link"
  | None => false
  end.


(** The characters of the document, text by text, in document order. *)
Fixpoint node_text (n : Node) : list string :=
  match n with
  | Text s _ => [s]
  | Element _ _ ks => concat (map node_text ks)
  end.

Definition document_text (e : EditorState) : list string :=
  concat (map node_text (children e)).

(** The test of the checklist [deleteBackward], as the code makes it: the
    selection is collapsed, [Editor.nodes] yields a check-list-item, and the
    anchor is the start point of the first one it yields.  Around a caret
    that is the outermost check-list-item, which is not the one the caret
    starts when check-list-items are nested. *)
Definition atChecklistStart (c : Classify) (e : EditorState) : bool :=
  match selection e with
  | None => false
  | Some sel =>
      Range.isCollapsed sel &&
      match Editor.nodes c (has_type "check-list-item") e with
      | [] => false
      | (_, path) :: _ => Point.equals (Range.anchor sel) (Editor.start e path)
      end
  end.

(** ** The example: keyboard and toolbar handlers *)

(** The hotkey table, an entry per key in the order of the object literal,
    which is the order of [for (const hotkey in HOTKEYS)]. *)
Definition HOTKEYS : list (string * string) :=
  [ ("mod+b", "bold"); ("mod+i", "italic"); ("mod+u", "underline");
    ("mod+`", "code") ].

Section Handlers.
(** The package [is-hotkey] and the keyboard event it looks at. *)
Context {KeyEvent : Type}.
Context (isHotkey : string -> KeyEvent -> bool).
Context (deleteFragment : EditorState -> EditorState).

(** [onKeyDown] of the editable area.  The first component of the result
    tells whether [event.preventDefault()] was called. *)
Definition onKeyDown (c : Classify) (event : KeyEvent) (e : EditorState)
  : bool * EditorState :=
  fold_left
    (fun (st : bool * EditorState) (entry : string * string) =>
       let (hotkey, mark) := entry in
       if isHotkey hotkey event
       then (true, toggleMark c mark (snd st))
       else st)
    HOTKEYS (false, e).

(** [onMouseDown] of [LinkButton]; [answer] is what [window.prompt]
    returned, [null] (here [None]) when the dialog was cancelled. *)
Definition LinkButton_onMouseDown (c : Classify) (answer : option string)
  (e : EditorState) : EditorState :=
  match answer with
  | None => e
  | Some url =>
      if negb (JS.truthy url) then e
      else insertLink deleteFragment c url e
  end.

(** [onMouseDown] of [InsertImageButton]. *)
Definition InsertImageButton_onMouseDown (c : Classify)
  (answer : option string) (e : EditorState) : EditorState :=
  match answer with
  | None => e
  | Some url =>
      if negb (JS.truthy url) then e
      else insertImage deleteFragment c url e
  end.

End Handlers.

(** [checked ? ... : ...], [leaf.bold] in a condition: the truthiness of an
    attribute value, [undefined] when the attribute is missing. *)
Definition truthy_value (v : option Value) : bool :=
  match v with
  | Some (VBool b) => b
  | Some (VStr s) => JS.truthy s
  | None => false
  end.

(** Modelled from the spec: [setNodes(properties, {at: path})] merges the
    properties onto the node at the path, whatever the selection.  The
    traversal does not go below a void element, so a node inside one is not
    reached and stays as it is; a path that leads to no node is an error
    ([None]). *)
Fixpoint set_at (c : Classify) (patch : Node -> Node) (p : Path) (n : Node)
  : option Node :=
  match p with
  | [] => Some (patch n)
  | x :: r =>
      match n with
      | Text _ _ => None
      | Element t a ks =>
          match ks !! x with
          | None => None
          | Some k =>
              match set_at c patch r k with
              | None => None
              | Some k' =>
                  if isVoid c n then Some n
                  else Some (Element t a (<[x := k']> ks))
              end
          end
      end
  end.

Definition setNodes_at (c : Classify) (patch : Node -> Node) (p : Path)
  (e : EditorState) : option EditorState :=
  match p with
  | [] => None
  | x :: r =>
      match children e !! x with
      | None => None
      | Some k =>
          match set_at c patch r k with
          | None => None
          | Some k' => Some (with_children (<[x := k']> (children e)) e)
          end
      end
  end.

(** [onChange] of the checkbox of [CheckListItemElement]: [path] is the
    path of the element that [ReactEditor.findPath] returns, [checked] is
    [event.target.checked]. *)
Definition CheckListItemElement_onChange (c : Classify) (path : Path)
  (checked : bool) (e : EditorState) : option EditorState :=
  setNodes_at c (set_prop "checked" (VBool checked)) path e.

(** ** The example: rendering *)

(** What a render function returns: the place of the rendered children
    ([{children}]), or an HTML element with its content.  Of the attributes
    only those are kept that the example computes from the node or the
    editor, and [contentEditable]; the attributes that Slate hands through
    ([{...attributes}]) and the class names of fixed style rules are left
    out. *)
#[local] Unset Elimination Schemes.
Inductive View :=
  | Slot
  | Tag (name : string) (attrs : list (string * Value)) (body : list View).
#[local] Set Elimination Schemes.

(** An attribute that React leaves out when its value is [undefined]. *)
Definition attr (k : string) (v : option Value) : list (string * Value) :=
  match v with
  | Some v => [(k, v)]
  | None => []
  end.

(** The values of the hooks a component reads: the text typed into a math
    block ([useState]), [useReadOnly], [useSelected] and [useFocused]. *)
Record Hooks := {
  inputValue : string;
  readOnly : bool;
  selected : bool;
  focused : bool
}.

(** The properties of an element node: [element.url], [element.checked]. *)
Definition node_props (n : Node) : gmap string Value :=
  match n with
  | Text _ mk => mk
  | Element _ a _ => a
  end.

Definition MathBlock (h : Hooks) : View :=
  Tag "div" [("contentEditable", VBool false)]
    [ Tag "div" []
        [ Tag "textarea" [("type", VStr "text"); ("value", VStr (inputValue h))]
            [];
          Tag "div" [] [] ];
      Slot ].

Definition ImageElement (h : Hooks) (element : Node) : View :=
  Tag "div" []
    [ Tag "div" [("contentEditable", VBool false)]
        [ Tag "img"
            (attr "src" (node_props element !! "url")
             ++ [("box-shadow",
                  VStr (if selected h && focused h then "0 0 0 3px #B4D5FF"
                        else "none"))])
            [] ];
      Slot ].

Definition CheckListItemElement (h : Hooks) (element : Node) : View :=
  let checked := node_props element !! "checked" in
  Tag "div" []
    [ Tag "span" [("contentEditable", VBool false)]
        [ Tag "input" ([("type", VStr "checkbox")] ++ attr "checked" checked)
            [] ];
      Tag "span"
        [ ("contentEditable", VBool (negb (readOnly h)));
          ("opacity", VStr (if truthy_value checked then "0.666" else "1"));
          ("text-decoration",
           VStr (if truthy_value checked then "none" else "line-through")) ]
        [Slot] ].

(** [Element], the renderer of element nodes: a [switch] on [element.type]
    whose default is a paragraph. *)
Definition Element_view (h : Hooks) (element : Node) : View :=
  let type_is t := has_type t element in
  if type_is "math-block" then MathBlock h
  else if type_is "block-quote" then Tag "blockquote" [] [Slot]
  else if type_is "bulleted-list" then Tag "ul" [] [Slot]
  else if type_is "heading-one" then Tag "h1" [] [Slot]
  else if type_is "heading-two" then Tag "h2" [] [Slot]
  else if type_is "heading-three" then Tag "h3" [] [Slot]
  else if type_is "heading-four" then Tag "h4" [] [Slot]
  else if type_is "heading-five" then Tag "h5" [] [Slot]
  else if type_is "heading-six" then Tag "h6" [] [Slot]
  else if type_is "horizontal-rule" then Tag "hr" [] []
  else if type_is "list-item" then Tag "li" [] [Slot]
  else if type_is "numbered-list" then Tag "ol" [] [Slot]
  else if type_is "check-list-item" then CheckListItemElement h element
  else if type_is "image" then ImageElement h element
  else if type_is "link" then
    Tag "a" (attr "href" (node_props element !! "url")) [Slot]
  else Tag "p" [] [Slot].



(** The number of places where a view shows the children of its node. *)
Fixpoint slots (v : View) : nat :=
  match v with
  | Slot => 1
  | Tag _ _ body =>
      (fix go (l : list View) : nat :=
         match l with
         | [] => 0
         | b :: l' => slots b + go l'
         end) body
  end.



(** The value of an attribute of the outermost element of a view. *)
Definition view_attr (k : string) (v : View) : option Value :=
  match v with
  | Slot => None
  | Tag _ attrs _ =>
      snd <$> List.find (fun kv => String.eqb (fst kv) k) attrs
  end.

(** The document the example starts with. *)
Definition initialValue : list Node :=
  [ el "paragraph"
      [ txt "This is editable ";
        Text "rich" {[ "bold" := VBool true ]};
        txt " text, ";
        Text "much" {[ "italic" := VBool true ]};
        txt " better than a ";
        Text "<textarea>" {[ "code" := VBool true ]};
        txt "!" ];
    el "paragraph"
      [ txt "Since it's rich text, you can do things like turn a selection of text ";
        Text "bold" {[ "bold" := VBool true ]};
        txt ", or add a semantically rendered block quote in the middle of the page, like this:" ];
    Element "check-list-item" {[ "checked" := VBool true ]}
      [txt "Slide to the left."];
    Element "check-list-item" {[ "checked" := VBool true ]}
      [txt "Slide to the right."];
    Element "check-list-item" {[ "checked" := VBool false ]}
      [txt "Criss-cross."];
    el "block-quote" [txt "A wise quote."];
    el "paragraph" [txt "Try it out for yourself!"] ].

(** ** Notions for the statements about files, URLs and paths *)

(** The character [ch] occurs in [s]. *)
Fixpoint has_char (ch : ascii) (s : string) : bool :=
  match s with
  | EmptyString => false
  | String a s' => Ascii.eqb a ch || has_char ch s'
  end.

(** The test of the file loop of [withImages]: the part of the media type
    before its first '/' is 'image'. *)
Definition isImageFile (file : File) : bool :=
  match JS.first (JS.split "/" (file_type file)) with
  | Some mime => String.eqb mime "image"
  | None => false
  end.

(** The path leads from [n] to a node, and no node above that node is
    void. *)
Fixpoint reaches (c : Classify) (n : Node) (p : Path) : bool :=
  match p with
  | [] => true
  | x :: r =>
      negb (isVoid c n) &&
      match node_children n !! x with
      | Some k => reaches c k r
      | None => false
      end
  end.

Definition path_reaches (c : Classify) (ks : list Node) (p : Path) : bool :=
  match p with
  | [] => false
  | x :: r =>
      match ks !! x with
      | Some k => reaches c k r
      | None => false
      end
  end.

(** The texts below a list of nodes, in document order. *)
Definition texts (ks : list Node) : list string := concat (map node_text ks).

(** The type of the lowest block around the anchor of the selection. *)
Definition caret_block_type (c : Classify) (e : EditorState) : option string :=
  let ch := chain (children e) (anchor_path e) in
  match lowest_index (isBlock c) ch with
  | Some i =>
      match ch !! i with
      | Some n => node_type n
      | None => None
      end
  | None => None
  end.

(** [n.type === format] on the type of a node. *)
Definition is_ty (format : string) (o : option string) : bool :=
  match o with
  | Some t => String.eqb t format
  | None => false
  end.

(** The characters of the document: its texts, joined in document order. *)
Definition chars (l : list string) : string :=
  fold_right String.append EmptyString l.

Definition document_chars (e : EditorState) : string :=
  chars (document_text e).

(** ** Notions for the statements about selections cut at their edges *)

(** The string of the Text that the path leads to through elements that are
    not void. *)
Fixpoint text_on (c : Classify) (n : Node) (p : Path) : option string :=
  match p with
  | [] => match n with Text s _ => Some s | Element _ _ _ => None end
  | x :: r =>
      if isElement n && negb (isVoid c n) then
        match node_children n !! x with
        | Some k => text_on c k r
        | None => None
        end
      else None
  end.

Definition text_of (c : Classify) (ks : list Node) (p : Path) : option string :=
  match p with
  | [] => None
  | x :: r =>
      match ks !! x with
      | Some k => text_on c k r
      | None => None
      end
  end.

(** A cut at this offset of the string leaves it whole. *)
Definition at_edge (s : string) (o : nat) : bool :=
  (String.length s <=? o) || Nat.eqb o 0.

(** The point lies at the start of its Text, or at or after its end. *)
Definition idle (c : Classify) (ks : list Node) (pt : Point.t) : bool :=
  match text_of c ks (Point.path pt) with
  | Some s => at_edge s (Point.offset pt)
  | None => false
  end.

(** The piece of the string [s], cut at [o], in which the offset [qo]
    lies, and the offset there. *)
Definition cut_string (incl : bool) (o : nat) (s : string) (qo : nat)
  : string * nat :=
  if at_edge s o then (s, qo)
  else if (o <? qo) || (incl && Nat.eqb qo o)
       then (substring o (String.length s - o) s, qo - o)
       else (substring 0 o s, qo).

(** Where a point lies after [splitNodes] at the point [pt] of a Text. *)
Definition cut_point (c : Classify) (incl : bool) (pt : Point.t)
  (ks : list Node) (q : Point.t) : Point.t :=
  match Point.path pt with
  | [] => q
  | x :: r =>
      let (q', qo') :=
        Transforms.split_at_point c incl (length r) (x :: r) (Point.offset pt)
          ks (Point.path q) (Point.offset q) in
      Point.mk q' qo'
  end.

(** The document cut at the point [pt] of a Text. *)
Definition cut_at (c : Classify) (pt : Point.t) (ks : list Node) : list Node :=
  match Point.path pt with
  | [] => ks
  | x :: r => Transforms.split_at c (length r) (x :: r) (Point.offset pt) ks
  end.

(** A change of a Text that keeps its string. *)
Definition keeps_text (P : Node -> Node) : Prop :=
  forall s mk, exists mk', P (Text s mk) = Text s mk'.

(** The end path of the span does not come before its start path. *)
Definition bound_ok (r : Path) (hi : Bound) : Prop :=
  match hi with
  | Some h => Path.compare r h <> Gt
  | None => True
  end.

(** An entry of the traversal with its node changed. *)
Definition patched (P : Node -> Node) (en : Entry) : Entry := (P (fst en), snd en).

(** ** Notions for the statements about the containers around the texts *)

(** The number of elements of the types [f] around each Text below [n], in
    document order; [d] is the number of those above [n]. *)
Fixpoint text_depths (f : option string -> bool) (d : nat) (n : Node)
  : list nat :=
  match n with
  | Text _ _ => [d]
  | Element t _ ks =>
      concat (map (text_depths f (if f (Some t) then S d else d)) ks)
  end.

Definition depths_of (f : option string -> bool) (d : nat) (ks : list Node)
  : list nat :=
  concat (map (text_depths f d) ks).















(** ** Notions for the statements about wrapped runs *)



(** The points of some texts, given by path and length, and the ranges
    between them. *)
Definition points_of (paths : list (Path * nat)) : list Point.t :=
  flat_map (fun po => map (Point.mk (fst po)) (seq 0 (S (snd po)))) paths.

Definition ranges_of (pts : list Point.t) : list Range.t :=
  flat_map (fun a => map (Range.mk a) pts) pts.

(** Every selection between two points of the texts of [listDocument]. *)
Definition listDocumentRanges : list Range.t :=
  ranges_of (points_of [([0; 0; 0], 1); ([0; 1; 0], 1); ([0; 2; 0], 1); ([1; 0], 1)]).

(** ** Notions for the statements about nested items *)

(** The position in a chain of the first entry matching [m]. *)
Fixpoint first_index {A} (m : A -> bool) (ch : list A) : option nat :=
  match ch with
  | [] => None
  | k :: ch' => if m k then Some 0 else option_map S (first_index m ch')
  end.

(** A check-list-item that holds a paragraph and a check-list-item, and a
    check-list-item whose only child is a check-list-item. *)
Definition nestedChecklistDocument : list Node :=
  [ el "check-list-item"
      [ el "paragraph" [txt "a"];
        el "check-list-item" [txt "b"] ] ].

Definition doubleChecklistDocument : list Node :=
  [ Element "check-list-item" {[ "checked" := VBool true ]}
      [ Element "check-list-item" {[ "checked" := VBool false ]} [txt "b"] ] ].

(** ** Notions for the statements about new elements *)

(** [n] is an element with the type and the properties of [w]. *)
Definition built_from (w n : Node) : bool :=
  match w, n with
  | Element t a _, Element t' a' _ => bool_decide (t' = t /\ a' = a)
  | _, _ => false
  end.

(** The number of elements built from [w] below [n], [n] included. *)
Fixpoint count_built (w n : Node) : nat :=
  match n with
  | Text _ _ => 0
  | Element _ _ ks =>
      (if built_from w n then 1 else 0) + list_sum (map (count_built w) ks)
  end.

(** The number of elements built from [w] in the document [ks]. *)
Definition built_in (w : Node) (ks : list Node) : nat :=
  list_sum (map (count_built w) ks).

(** No block element lies below [n], [n] included. *)
Fixpoint no_blocks (c : Classify) (n : Node) : bool :=
  negb (isBlock c n) &&
  match n with
  | Text _ _ => true
  | Element _ _ ks => forallb (no_blocks c) ks
  end.

(** Below [n], the children of an element are all blocks, or no block lies
    below them. *)
Fixpoint blocks_sorted (c : Classify) (n : Node) : bool :=
  match n with
  | Text _ _ => true
  | Element _ _ ks =>
      (forallb (isBlock c) ks || forallb (no_blocks c) ks) &&
      forallb (blocks_sorted c) ks
  end.

(** The layout of a document in blocks: the top-level nodes are blocks, and
    the children of an element are all blocks, or texts and inline elements
    with no block below them. *)
Definition block_layout (c : Classify) (ks : list Node) : bool :=
  forallb (isBlock c) ks && forallb (blocks_sorted c) ks.



(** A paragraph that holds an image between two texts, and a paragraph
    that holds a link between two texts. *)
Definition mixedParagraph : list Node :=
  [ el "paragraph"
      [ txt "s";
        Element "image" {[ "url" := VStr "https://example.com/cat.png" ]}
          [txt ""];
        txt "e" ] ].


(** * Properties *)

(** ** Plugin composition *)

Section Composition.
Context (isUrl : string -> bool).
Context (imageExtensions : list string).
Context (urlPathname : string -> option string).
Context (deleteFragment : EditorState -> EditorState).
Context (defaultInsertText : string -> EditorState -> EditorState).
Context (defaultInsertData : Data -> EditorState -> option EditorState).
Context (defaultDeleteBackward : string -> EditorState -> EditorState).

Let base : EditorObject :=
  createEditor defaultInsertText defaultInsertData defaultDeleteBackward.
Let editor : EditorObject :=
  codexEditor isUrl imageExtensions urlPathname deleteFragment base.

Lemma classify_codexEditor : classify editor = codexClassify.
Proof. reflexivity. Qed.

Lemma has_type_spec ty n : has_type ty n = true <-> node_type n = Some ty.
Proof.
  unfold has_type. destruct (node_type n) as [t|]; [|split; discriminate].
  rewrite String.eqb_eq. split; [intros ->; reflexivity | congruence].
Qed.

(** C1: the void and inline classification of the composed editor is the
    first answer found walking the plugin chain from the outermost plugin
    to the innermost, and "not void, not inline" when no plugin claims the
    node: a node is void exactly when its type is 'math-block' or 'image',
    and inline exactly when its type is 'link'. *)
Theorem classification_first_answer (n : Node) :
  isVoid (classify editor) n = firstAnswer voidChain n /\
  isInline (classify editor) n = firstAnswer inlineChain n /\
  (isVoid (classify editor) n = true <->
     node_type n = Some "math-block" \/ node_type n = Some "image") /\
  (isInline (classify editor) n = true <-> node_type n = Some "link").
Proof.
  rewrite classify_codexEditor. cbn [isVoid isInline codexClassify].
  unfold voidChain, inlineChain, firstAnswer, claims, passes.
  rewrite <- !has_type_spec.
  destruct (has_type "math-block" n), (has_type "image" n),
    (has_type "link" n); intuition discriminate.
Qed.

(** The behaviours of the composed editor, layer by layer. *)
Lemma callInsertData_codexEditor data e :
  callInsertData editor data e =
    let text := text_plain data in
    if JS.truthy text && isUrl text
    then Some (wrapLink deleteFragment codexClassify text e)
    else
      match files data with
      | Some (file :: rest) => Some (fold_left readFile (file :: rest) e)
      | _ =>
          match isImageUrl isUrl imageExtensions urlPathname text with
          | None => None
          | Some true => Some (insertImage deleteFragment codexClassify text e)
          | Some false => defaultInsertData data e
          end
      end.
Proof. reflexivity. Qed.

Lemma callInsertText_codexEditor text e :
  callInsertText editor text e =
    if JS.truthy text && isUrl text
    then wrapLink deleteFragment codexClassify text e
    else defaultInsertText text e.
Proof. reflexivity. Qed.

Lemma callDeleteBackward_codexEditor unit e :
  callDeleteBackward editor unit e =
    match checklistBackspace codexClassify e with
    | Some e' => e'
    | None => defaultDeleteBackward unit e
    end.
Proof. reflexivity. Qed.

(** When the text is no URL, [isImageUrl] answers [false] before it builds
    a [URL]. *)
Lemma isImageUrl_not_url text :
  JS.truthy text && isUrl text = false ->
  isImageUrl isUrl imageExtensions urlPathname text = Some false.
Proof.
  unfold isImageUrl. destruct (JS.truthy text); [|reflexivity].
  cbn. intros ->. reflexivity.
Qed.

(** C7 (amended): a payload with no attached file whose plain text is not
    a URL goes to the default [insertData], whose result, error or not, is
    the result.  A payload with attached files whose plain text is not a
    URL never reaches the default: the images plugin starts a read for each
    image file and returns without error. *)
Theorem insertData_falls_through (data : Data) (e : EditorState) :
  JS.truthy (text_plain data) && isUrl (text_plain data) = false ->
  (files data = None \/ files data = Some [] ->
     callInsertData editor data e = defaultInsertData data e) /\
  (forall file rest, files data = Some (file :: rest) ->
     callInsertData editor data e
       = Some (fold_left readFile (file :: rest) e)).
Proof.
  intros Hurl. rewrite callInsertData_codexEditor. cbn zeta. rewrite Hurl.
  split.
  - intros [-> | ->]; rewrite (isImageUrl_not_url _ Hurl); reflexivity.
  - intros file rest ->. reflexivity.
Qed.

End Composition.

(** C8: [insertLink] without a selection is a no-op: the editor state, and
    with it the document, is unchanged, and no link is created. *)
Theorem insertLink_no_selection (deleteFragment : EditorState -> EditorState)
  (c : Classify) (url : string) (e : EditorState) :
  selection e = None -> insertLink deleteFragment c url e = e.
Proof. intros H. unfold insertLink. rewrite H. reflexivity. Qed.

(** ** Facts about the traversal and [setNodes] *)

Section TreeFacts.
Context (c : Classify).

Lemma walk_eq lo hi n :
  Tree.walk c lo hi n = (n, []) :: Tree.walk_below c lo hi n.
Proof. destruct n; reflexivity. Qed.

Lemma lowest_in_eq m lo hi n :
  Tree.lowest_in c m lo hi n =
    match
      match n with
      | Text _ _ => []
      | Element _ _ ks =>
          if isVoid c n then [] else Tree.lowest_kids c m lo hi 0 ks
      end
    with
    | [] => if m n then [(n, [])] else []
    | below => below
    end.
Proof. destruct n; reflexivity. Qed.

Lemma set_node_eq patch m lo hi n :
  Transforms.set_node c patch m lo hi n =
    if Tree.lowest_hit c m lo hi n then patch n
    else
      match n with
      | Text _ _ => n
      | Element t a ks =>
          if isVoid c n then n
          else Element t a (Transforms.set_kids c patch m lo hi 0 ks)
      end.
Proof. destruct n; reflexivity. Qed.

Lemma walk_kids_cons lo hi i k ks :
  Tree.walk_kids c lo hi i (k :: ks) =
    (if in_span lo hi i
     then map (under i) (Tree.walk c (sub lo i) (sub hi i) k) else [])
    ++ Tree.walk_kids c lo hi (S i) ks.
Proof. reflexivity. Qed.

Lemma lowest_kids_cons m lo hi i k ks :
  Tree.lowest_kids c m lo hi i (k :: ks) =
    (if in_span lo hi i
     then map (under i) (Tree.lowest_in c m (sub lo i) (sub hi i) k) else [])
    ++ Tree.lowest_kids c m lo hi (S i) ks.
Proof. reflexivity. Qed.

Lemma set_kids_cons patch m lo hi i k ks :
  Transforms.set_kids c patch m lo hi i (k :: ks) =
    (if in_span lo hi i
     then Transforms.set_node c patch m (sub lo i) (sub hi i) k else k)
    :: Transforms.set_kids c patch m lo hi (S i) ks.
Proof. reflexivity. Qed.

Lemma existsb_under (m : Node -> bool) i (l : list Entry) :
  existsb (fun en => m (fst en)) (map (under i) l)
  = existsb (fun en => m (fst en)) l.
Proof. induction l as [|en l IHl]; [reflexivity|]. cbn. rewrite IHl. reflexivity. Qed.

(** Some node of the traversal matches exactly when there is a lowest
    match. *)
Lemma lowest_nil m n : forall lo hi,
  Tree.lowest_in c m lo hi n = [] <->
  existsb (fun en => m (fst en)) (Tree.walk c lo hi n) = false.
Proof.
  induction n as [s mk | t a ks IH] using Node_forall_ind; intros lo hi.
  - rewrite lowest_in_eq, walk_eq. cbn. destruct (m (Text s mk)); cbn;
      split; congruence.
  - rewrite lowest_in_eq, walk_eq. cbn [Tree.walk_below existsb fst].
    destruct (isVoid c (Element t a ks)).
    + cbn. destruct (m (Element t a ks)); cbn; split; congruence.
    + assert (Hk : forall i,
        Tree.lowest_kids c m lo hi i ks = [] <->
        existsb (fun en => m (fst en)) (Tree.walk_kids c lo hi i ks) = false).
      { induction IH as [| k ks' Hk _ IHks]; intros i; [cbn; tauto|].
        rewrite lowest_kids_cons, walk_kids_cons, existsb_app.
        rewrite orb_false_iff, <- IHks.
        destruct (in_span lo hi i).
        - rewrite existsb_under, <- (Hk (sub lo i) (sub hi i)).
          split.
          + intros H. apply app_eq_nil in H as [H1 H2].
            apply map_eq_nil in H1. tauto.
          + intros [-> ->]. reflexivity.
        - cbn. tauto. }
      specialize (Hk 0).
      destruct (Tree.lowest_kids c m lo hi 0 ks) eqn:El.
      * destruct Hk as [Hk _]. rewrite (Hk eq_refl), orb_false_r.
        destruct (m (Element t a ks)); cbn; split; congruence.
      * destruct (existsb (fun en => m (fst en))
                    (Tree.walk_kids c lo hi 0 ks)) eqn:Ew.
        -- rewrite orb_true_r. split; congruence.
        -- destruct Hk as [_ Hk]. discriminate (Hk eq_refl).
Qed.

Lemma lowest_kids_nil m lo hi ks : forall i,
  Tree.lowest_kids c m lo hi i ks = [] <->
  existsb (fun en => m (fst en)) (Tree.walk_kids c lo hi i ks) = false.
Proof.
  induction ks as [|k ks IH]; intros i; [cbn; tauto|].
  rewrite lowest_kids_cons, walk_kids_cons, existsb_app.
  rewrite orb_false_iff, <- IH.
  destruct (in_span lo hi i).
  - rewrite existsb_under, <- lowest_nil. split.
    + intros H. apply app_eq_nil in H as [H1 H2].
      apply map_eq_nil in H1. tauto.
    + intros [-> ->]. reflexivity.
  - cbn. tauto.
Qed.

Lemma lowest_below_nil m lo hi n :
  Tree.lowest_below c m lo hi n = [] <->
  existsb (fun en => m (fst en)) (Tree.walk_below c lo hi n) = false.
Proof.
  destruct n as [s mk | t a ks]; [cbn; tauto|].
  unfold Tree.lowest_below, Tree.walk_below.
  destruct (isVoid c (Element t a ks)); [cbn; tauto|].
  apply lowest_kids_nil.
Qed.

Lemma lowest_in_below m lo hi n :
  Tree.lowest_in c m lo hi n =
    match Tree.lowest_below c m lo hi n with
    | [] => if m n then [(n, [])] else []
    | below => below
    end.
Proof. destruct n; reflexivity. Qed.

Lemma lowest_hit_true m lo hi n :
  Tree.lowest_hit c m lo hi n = true ->
  Tree.lowest_in c m lo hi n = [(n, [])].
Proof.
  unfold Tree.lowest_hit. rewrite andb_true_iff, negb_true_iff.
  intros [Hm Hb]. apply lowest_below_nil in Hb.
  rewrite lowest_in_below, Hb, Hm. reflexivity.
Qed.

Lemma lowest_hit_false m lo hi n :
  Tree.lowest_hit c m lo hi n = false ->
  Tree.lowest_in c m lo hi n = Tree.lowest_below c m lo hi n.
Proof.
  unfold Tree.lowest_hit. rewrite andb_false_iff, negb_false_iff.
  rewrite lowest_in_below. intros [Hm | Hb].
  - rewrite Hm. destruct (Tree.lowest_below c m lo hi n); reflexivity.
  - destruct (Tree.lowest_below c m lo hi n) eqn:E; [|reflexivity].
    apply lowest_below_nil in E. congruence.
Qed.

Lemma set_kids_lookup patch m lo hi ks : forall i x,
  Transforms.set_kids c patch m lo hi i ks !! x =
    (fun k => if in_span lo hi (i + x)
              then Transforms.set_node c patch m
                     (sub lo (i + x)) (sub hi (i + x)) k
              else k) <$> (ks !! x).
Proof.
  induction ks as [|k ks IH]; intros i x; [reflexivity|].
  rewrite set_kids_cons. destruct x as [|x].
  - cbn. rewrite Nat.add_0_r. reflexivity.
  - cbn [lookup list_lookup]. rewrite IH, Nat.add_succ_r. reflexivity.
Qed.

Lemma lowest_kids_In m lo hi n' p ks : forall i,
  In (n', p) (Tree.lowest_kids c m lo hi i ks) ->
  exists x r k,
    p = (i + x) :: r /\ ks !! x = Some k /\ in_span lo hi (i + x) = true /\
    In (n', r) (Tree.lowest_in c m (sub lo (i + x)) (sub hi (i + x)) k).
Proof.
  induction ks as [|k ks IH]; intros i H; [destruct H|].
  rewrite lowest_kids_cons in H. apply in_app_or in H as [H|H].
  - destruct (in_span lo hi i) eqn:Es; [|destruct H].
    apply in_map_iff in H as [[n0 r] [E H]].
    unfold under in E. cbn in E. injection E as -> <-.
    exists 0, r, k. rewrite Nat.add_0_r. auto.
  - apply IH in H as (x & r & k' & -> & Hl & Hs & H).
    exists (S x), r, k'. rewrite Nat.add_succ_r. auto.
Qed.

(** [setNodes] applies the change to each lowest match. *)
Lemma set_node_lowest patch m n : forall lo hi n' p,
  In (n', p) (Tree.lowest_in c m lo hi n) ->
  Tree.descend (Transforms.set_node c patch m lo hi n) p = Some (patch n').
Proof.
  induction n as [s mk | t a ks IH] using Node_forall_ind;
    intros lo hi n' p H; rewrite set_node_eq.
  - destruct (Tree.lowest_hit c m lo hi (Text s mk)) eqn:Eh.
    + rewrite (lowest_hit_true _ _ _ _ Eh) in H.
      destruct H as [[= <- <-]|[]]. reflexivity.
    + rewrite (lowest_hit_false _ _ _ _ Eh) in H. destruct H.
  - destruct (Tree.lowest_hit c m lo hi (Element t a ks)) eqn:Eh.
    + rewrite (lowest_hit_true _ _ _ _ Eh) in H.
      destruct H as [[= <- <-]|[]]. reflexivity.
    + rewrite (lowest_hit_false _ _ _ _ Eh) in H.
      unfold Tree.lowest_below in H.
      destruct (isVoid c (Element t a ks)); [destruct H|].
      apply lowest_kids_In in H as (x & r & k & -> & Hl & Hs & H).
      cbn [Tree.descend node_children]. cbn [Nat.add] in *.
      rewrite set_kids_lookup, Hl. cbn [fmap option_fmap option_map Nat.add].
      rewrite Hs. rewrite Forall_lookup in IH. eapply IH; eauto.
Qed.

Lemma setNodes_lowest patch m e n' p :
  In (n', p) (Tree.nodes_lowest c m e) ->
  Tree.node_at (children (Transforms.setNodes c patch m e)) p
    = Some (patch n').
Proof.
  unfold Tree.nodes_lowest, Transforms.setNodes.
  destruct (selection e) as [r|]; [|intros []].
  intros H. apply lowest_kids_In in H as (x & q & k & -> & Hl & Hs & H).
  cbn [children with_children Tree.node_at Nat.add] in *.
  rewrite set_kids_lookup, Hl. cbn [fmap option_fmap option_map Nat.add].
  rewrite Hs. eapply set_node_lowest; eauto.
Qed.

(** [setNodes] with a change that keeps the text of a node keeps the text
    of the document. *)
Lemma set_node_text patch m n :
  (forall k, node_text (patch k) = node_text k) ->
  forall lo hi, node_text (Transforms.set_node c patch m lo hi n) = node_text n.
Proof.
  intros Hp.
  induction n as [s mk | t a ks IH] using Node_forall_ind; intros lo hi;
    rewrite set_node_eq.
  - destruct (Tree.lowest_hit c m lo hi (Text s mk)); [apply Hp|reflexivity].
  - destruct (Tree.lowest_hit c m lo hi (Element t a ks)); [apply Hp|].
    destruct (isVoid c (Element t a ks)); [reflexivity|].
    cbn [node_text]. f_equal. generalize 0.
    induction IH as [|k ks' Hk _ IHks]; intros i; [reflexivity|].
    rewrite set_kids_cons. cbn [map]. rewrite IHks. f_equal.
    destruct (in_span lo hi i); [apply Hk|reflexivity].
Qed.

Lemma setNodes_text patch m e :
  (forall k, node_text (patch k) = node_text k) ->
  document_text (Transforms.setNodes c patch m e) = document_text e.
Proof.
  intros Hp. unfold Transforms.setNodes, document_text.
  destruct (selection e) as [r|]; [|reflexivity].
  cbn [children with_children]. f_equal. generalize 0.
  induction (children e) as [|k ks IH]; intros i; [reflexivity|].
  rewrite set_kids_cons. cbn [map]. rewrite IH. f_equal.
  destruct (in_span _ _ i); [apply set_node_text, Hp|reflexivity].
Qed.

Lemma set_type_text ty k : node_text (set_type ty k) = node_text k.
Proof. destruct k; reflexivity. Qed.

Lemma filter_none {A} (f : A -> bool) (l : list A) :
  existsb f l = false -> List.filter f l = [].
Proof.
  induction l as [|x l IH]; [reflexivity|]. cbn.
  intros E. apply orb_false_iff in E as [-> E]. auto.
Qed.

(** A match of [Editor.nodes] gives a lowest match. *)
Lemma nodes_lowest_nonempty m e :
  Editor.nodes c m e <> [] -> Tree.nodes_lowest c m e <> [].
Proof.
  unfold Editor.nodes, Tree.nodes, Tree.nodes_lowest.
  destruct (selection e) as [r|]; [|tauto].
  intros H E. apply lowest_kids_nil in E. apply H.
  apply filter_none, E.
Qed.

End TreeFacts.

(** ** Checklists: backspace at the start of an item *)

Section Checklists.
Context (isUrl : string -> bool).
Context (imageExtensions : list string).
Context (urlPathname : string -> option string).
Context (deleteFragment : EditorState -> EditorState).
Context (defaultInsertText : string -> EditorState -> EditorState).
Context (defaultInsertData : Data -> EditorState -> option EditorState).
Context (defaultDeleteBackward : string -> EditorState -> EditorState).

Let editor : EditorObject :=
  codexEditor isUrl imageExtensions urlPathname deleteFragment
    (createEditor defaultInsertText defaultInsertData defaultDeleteBackward).

Lemma checklistBackspace_spec e :
  checklistBackspace codexClassify e =
    if atChecklistStart codexClassify e
    then Some (Transforms.setNodes codexClassify (set_type "paragraph")
                 (has_type "check-list-item") e)
    else None.
Proof.
  unfold checklistBackspace, atChecklistStart, JS.first.
  destruct (selection e) as [sel|]; [|reflexivity].
  destruct (Range.isCollapsed sel); [|reflexivity].
  destruct (Editor.nodes codexClassify (has_type "check-list-item") e)
    as [|[n path] l]; [reflexivity|].
  cbn. destruct (Point.equals _ _); reflexivity.
Qed.

Lemma lowest_in_match m n : forall lo hi n' p,
  In (n', p) (Tree.lowest_in codexClassify m lo hi n) -> m n' = true.
Proof.
  induction n as [s mk | t a ks IH] using Node_forall_ind;
    intros lo hi n' p H; rewrite lowest_in_below in H.
  - cbn in H. destruct (m (Text s mk)) eqn:Em; [|destruct H].
    destruct H as [[= <- <-]|[]]. exact Em.
  - destruct (Tree.lowest_below codexClassify m lo hi (Element t a ks))
      as [|en l] eqn:Eb.
    + destruct (m (Element t a ks)) eqn:Em; [|destruct H].
      destruct H as [[= <- <-]|[]]. exact Em.
    + rewrite <- Eb in H. unfold Tree.lowest_below in H.
      destruct (isVoid codexClassify (Element t a ks)); [destruct H|].
      apply lowest_kids_In in H as (x & r & k & -> & Hl & Hs & H).
      rewrite Forall_lookup in IH. eapply IH; eauto.
Qed.

(** When the test of the handler succeeds, [deleteBackward] sets the type
    of the lowest matched check-list-items to 'paragraph' and returns: the
    default deletion is not run, so every text of the document and the
    selection are as before.  When the test fails, [deleteBackward] is the
    captured default behaviour. *)
Lemma checklistBackspace_fires (unit : string) (e : EditorState) :
  (atChecklistStart codexClassify e = true ->
     let e' := callDeleteBackward editor unit e in
     e' = Transforms.setNodes codexClassify (set_type "paragraph")
            (has_type "check-list-item") e /\
     Tree.nodes_lowest codexClassify (has_type "check-list-item") e <> [] /\
     (forall n p,
        In (n, p)
          (Tree.nodes_lowest codexClassify (has_type "check-list-item") e) ->
        node_type n = Some "check-list-item" /\
        Tree.node_at (children e') p = Some (set_type "paragraph" n)) /\
     document_text e' = document_text e /\
     selection e' = selection e) /\
  (atChecklistStart codexClassify e = false ->
     callDeleteBackward editor unit e = defaultDeleteBackward unit e).
Proof.
  unfold editor. rewrite callDeleteBackward_codexEditor, checklistBackspace_spec.
  split; intros Hs; rewrite Hs; [|reflexivity].
  cbn zeta. split; [reflexivity|]. split; [|split; [|split]].
  - apply nodes_lowest_nonempty. unfold atChecklistStart in Hs.
    destruct (selection e); [|discriminate].
    apply andb_true_iff in Hs as [_ Hs].
    destruct (Editor.nodes _ _ e); [discriminate|congruence].
  - intros n p Hin. split; [|apply setNodes_lowest, Hin].
    apply has_type_spec. unfold Tree.nodes_lowest in Hin.
    destruct (selection e); [|destruct Hin].
    apply lowest_kids_In in Hin as (x & r & k & -> & _ & _ & H).
    eapply lowest_in_match; eauto.
  - apply setNodes_text, set_type_text.
  - unfold Transforms.setNodes.
    destruct (selection e) eqn:E; [cbn; exact E | exact E].
Qed.

End Checklists.

(** ** Auto-link on inserted text *)

(** C6: inserting the text "https://example.com" with [insertText] into an
    empty paragraph with a collapsed selection puts a link element into the
    paragraph whose [url] is that string and whose single child is a Text
    with that same string, and leaves the caret at the end of that text. *)
Theorem insertText_url_makes_link
  (isUrl : string -> bool) (imageExtensions : list string)
  (urlPathname : string -> option string)
  (deleteFragment : EditorState -> EditorState)
  (defaultInsertText : string -> EditorState -> EditorState)
  (defaultInsertData : Data -> EditorState -> option EditorState)
  (defaultDeleteBackward : string -> EditorState -> EditorState) :
  let url := "https://example.com" in
  let editor :=
    codexEditor isUrl imageExtensions urlPathname deleteFragment
      (createEditor defaultInsertText defaultInsertData defaultDeleteBackward) in
  isUrl url = true ->
  let e' :=
    callInsertText editor url
      (doc [el "paragraph" [txt ""]] (Some (caret [0; 0] 0))) in
  children e' =
    [ el "paragraph"
        [ txt "";
          Element "link" {[ "url" := VStr url ]} [Text url ∅] ] ] /\
  selection e' = Some (caret [0; 1; 0] (String.length url)).
Proof.
  intros url editor Hurl. unfold editor.
  rewrite callInsertText_codexEditor. unfold url in *. rewrite Hurl.
  cbn [JS.truthy andb]. split; vm_compute; reflexivity.
Qed.

Lemma insertText_url_makes_link_witness :
  sampleIsUrl "https://example.com" = true /\
  children
    (callInsertText sampleEditor "https://example.com"
       (doc [el "paragraph" [txt ""]] (Some (caret [0; 0] 0))))
  = [ el "paragraph"
        [ txt "";
          Element "link" {[ "url" := VStr "https://example.com" ]}
            [Text "https://example.com" ∅] ] ].
Proof.
  split; [reflexivity|].
  exact (proj1 (insertText_url_makes_link sampleIsUrl sampleExtensions
                  samplePathname sampleDelete sampleInsertText
                  sampleInsertData sampleDeleteBackward eq_refl)).
Defined.

(** ** Marks *)

(** C3 (as stated) fails on a selection over a text without the mark
    followed by a text with it: the first [toggleMark] reads the first text
    only and adds the mark to both, the second removes it from both, and the
    mark of the second text is lost. *)
Lemma toggleMark_twice_mixed_selection :
  let e :=
    doc [ el "paragraph" [txt "a"];
          el "paragraph" [Text "b" {[ "bold" := VBool true ]}] ]
      (Some (Range.mk (Point.mk [0; 0] 0) (Point.mk [1; 0] 1))) in
  let e2 := toggleMark codexClassify "bold" (toggleMark codexClassify "bold" e) in
  selection e2 = selection e /\
  Tree.node_at (children e) [1; 0] = Some (Text "b" {[ "bold" := VBool true ]}) /\
  Tree.node_at (children e2) [1; 0] = Some (Text "b" ∅) /\
  children e2 <> children e.
Proof.
  cbn zeta. split; [vm_compute; reflexivity|].
  split; [vm_compute; reflexivity|]. split; [vm_compute; reflexivity|].
  vm_compute. discriminate.
Qed.

(** A mark whose value is not [true] counts as inactive, and two toggles
    remove it. *)
Lemma toggleMark_twice_false_value :
  let e :=
    doc [el "paragraph" [Text "a" {[ "bold" := VBool false ]}]]
      (Some (caret [0; 0] 1)) in
  let e2 := toggleMark codexClassify "bold" (toggleMark codexClassify "bold" e) in
  Editor.marks codexClassify e = Some {[ "bold" := VBool false ]} /\
  Editor.marks codexClassify e2 = Some ∅.
Proof. cbn zeta. split; vm_compute; reflexivity. Qed.

Section Marks.
Context (c : Classify).

Lemma marks_no_selection e : selection e = None -> Editor.marks c e = None.
Proof. unfold Editor.marks. intros ->. reflexivity. Qed.

Lemma marks_pending e r m :
  selection e = Some r -> Editor.marks c (with_marks (Some m) e) = Some m.
Proof. unfold Editor.marks. cbn. intros ->. reflexivity. Qed.

Lemma toggleMark_caret e r format :
  selection e = Some r -> Range.isCollapsed r = true ->
  toggleMark c format e =
    with_marks
      (Some (if isMarkActive c e format
             then delete format (default ∅ (Editor.marks c e))
             else <[format := VBool true]> (default ∅ (Editor.marks c e))))
      e.
Proof.
  intros Hs Hc. unfold toggleMark, Editor.removeMark, Editor.addMark.
  rewrite Hs, Hc. destruct (isMarkActive c e format); reflexivity.
Qed.

End Marks.

(** ** Worked examples for the composed [insertData] and [insertLink] *)

(** C7 (as stated) fails on a dropped file that is not an image: the text is
    no URL, no file has an image media type, the text is no image URL, and
    yet the payload does not reach the default insertion: the editor state
    is returned unchanged, where the default would have inserted. *)
Lemma insertData_drops_other_files :
  JS.truthy (text_plain pdfDrop) && sampleIsUrl (text_plain pdfDrop) = false /\
  isImageUrl sampleIsUrl sampleExtensions samplePathname (text_plain pdfDrop)
    = Some false /\
  Forall (fun file => JS.first (JS.split "/" (file_type file)) <> Some "image")
    (default [] (files pdfDrop)) /\
  callInsertData sampleEditor pdfDrop emptyParagraph = Some emptyParagraph /\
  callInsertData sampleEditor pdfDrop emptyParagraph
    <> sampleInsertData pdfDrop emptyParagraph.
Proof.
  split; [reflexivity|]. split; [reflexivity|]. split.
  - repeat constructor. vm_compute. discriminate.
  - split; [reflexivity|]. vm_compute. discriminate.
Qed.

Lemma insertData_falls_through_witness :
  JS.truthy (text_plain plainPaste) && sampleIsUrl (text_plain plainPaste)
    = false /\
  callInsertData sampleEditor plainPaste emptyParagraph
    = sampleInsertData plainPaste emptyParagraph.
Proof.
  split; [reflexivity|].
  refine (proj1 (insertData_falls_through sampleIsUrl sampleExtensions
                   samplePathname sampleDelete sampleInsertText
                   sampleInsertData sampleDeleteBackward plainPaste
                   emptyParagraph _) _).
  - reflexivity.
  - left. reflexivity.
Defined.

(** The pasted image URL ends up as a link in the paragraph; there is no
    image element. *)
Lemma paste_image_url_gives_link :
  option_map children (callInsertData sampleEditor imageUrlPaste emptyParagraph)
  = Some [ el "paragraph"
             [ txt "";
               Element "link" {[ "url" := VStr "https://example.com/cat.png" ]}
                 [Text "https://example.com/cat.png" ∅] ] ].
Proof. vm_compute. reflexivity. Qed.

Lemma insertLink_no_selection_witness :
  selection (doc [el "paragraph" [txt "a"]] None) = None /\
  insertLink sampleDelete codexClassify "https://example.com"
    (doc [el "paragraph" [txt "a"]] None)
  = doc [el "paragraph" [txt "a"]] None.
Proof.
  split; [reflexivity|].
  apply (insertLink_no_selection sampleDelete codexClassify); reflexivity.
Defined.

(** ** Lists: what [unwrapNodes] and [setNodes] keep *)

Section NestingFacts.
Context (c : Classify).

Lemma unwrap_node_eq split m lo hi n :
  Transforms.unwrap_node c split m lo hi n =
    match n with
    | Text _ _ => [n]
    | Element t a ks =>
        if isVoid c n then [n]
        else if Tree.lowest_hit c m lo hi n then
          let i := if split then lo_idx lo else 0 in
          let j := if split then hi_idx hi (length ks) else length ks in
          match take (j - i) (drop i ks) with
          | [] => [n]
          | inside => Transforms.halves t a (take i ks) inside (drop j ks)
          end
        else [Element t a (Transforms.unwrap_kids c split m lo hi 0 ks)]
    end.
Proof. destruct n; reflexivity. Qed.

Lemma unwrap_kids_cons split m lo hi i k ks :
  Transforms.unwrap_kids c split m lo hi i (k :: ks) =
    (if in_span lo hi i
     then Transforms.unwrap_node c split m (sub lo i) (sub hi i) k else [k])
    ++ Transforms.unwrap_kids c split m lo hi (S i) ks.
Proof. reflexivity. Qed.

Lemma isListType_element t a ks a' ks' :
  isListType (Element t a ks) = isListType (Element t a' ks').
Proof. reflexivity. Qed.










End NestingFacts.

(** ** The traversal at a caret *)

Section CaretFacts.
Context (c : Classify).

Lemma in_span_caret x r i :
  in_span (Some (x :: r)) (Some (x :: r)) i = Nat.eqb i x.
Proof.
  unfold in_span, lo_in, hi_in.
  destruct (Nat.eqb_spec i x) as [->|Hne].
  - rewrite Nat.leb_refl. reflexivity.
  - destruct (Nat.leb_spec x i), (Nat.leb_spec i x); try reflexivity; lia.
Qed.

Lemma sub_caret x r : sub (Some (x :: r)) x = Some r.
Proof. unfold sub. rewrite Nat.eqb_refl. reflexivity. Qed.

Lemma map_fst_under i (l : list Entry) : map fst (map (under i) l) = map fst l.
Proof. induction l as [|en l IH]; [reflexivity|]. cbn. rewrite IH. reflexivity. Qed.

(** At a caret only the child on the path is visited. *)
Lemma walk_kids_caret x r ks : forall i, i <= x ->
  Tree.walk_kids c (Some (x :: r)) (Some (x :: r)) i ks =
    match ks !! (x - i) with
    | Some k => map (under x) (Tree.walk c (Some r) (Some r) k)
    | None => []
    end.
Proof.
  induction ks as [|k ks IH]; intros i Hi; [reflexivity|].
  rewrite walk_kids_cons, in_span_caret.
  destruct (Nat.eqb_spec i x) as [->|Hne].
  - rewrite Nat.sub_diag, sub_caret. cbn [lookup list_lookup].
    assert (Hout : forall ks j, x < j ->
              Tree.walk_kids c (Some (x :: r)) (Some (x :: r)) j ks = []).
    { clear. induction ks as [|k ks IH]; intros j Hj; [reflexivity|].
      rewrite walk_kids_cons, in_span_caret.
      destruct (Nat.eqb_spec j x); [lia|]. rewrite IH by lia. reflexivity. }
    rewrite Hout by lia. apply app_nil_r.
  - replace (x - i) with (S (x - S i)) by lia. cbn [lookup list_lookup].
    rewrite IH by lia. reflexivity.
Qed.

Lemma lowest_kids_caret m x r ks : forall i, i <= x ->
  Tree.lowest_kids c m (Some (x :: r)) (Some (x :: r)) i ks =
    match ks !! (x - i) with
    | Some k => map (under x) (Tree.lowest_in c m (Some r) (Some r) k)
    | None => []
    end.
Proof.
  induction ks as [|k ks IH]; intros i Hi; [reflexivity|].
  rewrite lowest_kids_cons, in_span_caret.
  destruct (Nat.eqb_spec i x) as [->|Hne].
  - rewrite Nat.sub_diag, sub_caret. cbn [lookup list_lookup].
    assert (Hout : forall ks j, x < j ->
              Tree.lowest_kids c m (Some (x :: r)) (Some (x :: r)) j ks = []).
    { clear. induction ks as [|k ks IH]; intros j Hj; [reflexivity|].
      rewrite lowest_kids_cons, in_span_caret.
      destruct (Nat.eqb_spec j x); [lia|]. rewrite IH by lia. reflexivity. }
    rewrite Hout by lia. apply app_nil_r.
  - replace (x - i) with (S (x - S i)) by lia. cbn [lookup list_lookup].
    rewrite IH by lia. reflexivity.
Qed.

Lemma set_kids_caret patch m x r ks : forall i, i <= x ->
  Transforms.set_kids c patch m (Some (x :: r)) (Some (x :: r)) i ks =
    match ks !! (x - i) with
    | Some k =>
        <[x - i := Transforms.set_node c patch m (Some r) (Some r) k]> ks
    | None => ks
    end.
Proof.
  induction ks as [|k ks IH]; intros i Hi; [reflexivity|].
  rewrite set_kids_cons, in_span_caret.
  destruct (Nat.eqb_spec i x) as [->|Hne].
  - rewrite Nat.sub_diag, sub_caret. cbn [lookup list_lookup]. cbn. f_equal.
    assert (Hout : forall ks j, x < j ->
              Transforms.set_kids c patch m (Some (x :: r)) (Some (x :: r)) j ks
              = ks).
    { clear. induction ks as [|k ks IH]; intros j Hj; [reflexivity|].
      rewrite set_kids_cons, in_span_caret.
      destruct (Nat.eqb_spec j x); [lia|]. rewrite IH by lia. reflexivity. }
    apply Hout. lia.
  - replace (x - i) with (S (x - S i)) by lia. cbn [lookup list_lookup].
    rewrite IH by lia. destruct (ks !! (x - S i)); reflexivity.
Qed.

Lemma unwrap_kids_caret split m x r ks : forall i, i <= x ->
  Transforms.unwrap_kids c split m (Some (x :: r)) (Some (x :: r)) i ks =
    match ks !! (x - i) with
    | Some k =>
        take (x - i) ks
        ++ Transforms.unwrap_node c split m (Some r) (Some r) k
        ++ drop (S (x - i)) ks
    | None => ks
    end.
Proof.
  induction ks as [|k ks IH]; intros i Hi; [reflexivity|].
  rewrite unwrap_kids_cons, in_span_caret.
  destruct (Nat.eqb_spec i x) as [->|Hne].
  - rewrite Nat.sub_diag, sub_caret. cbn [lookup list_lookup take drop app].
    f_equal.
    assert (Hout : forall ks j, x < j ->
              Transforms.unwrap_kids c split m (Some (x :: r)) (Some (x :: r))
                j ks = ks).
    { clear. induction ks as [|k ks IH]; intros j Hj; [reflexivity|].
      rewrite unwrap_kids_cons, in_span_caret.
      destruct (Nat.eqb_spec j x); [lia|]. rewrite IH by lia. reflexivity. }
    apply Hout. lia.
  - replace (x - i) with (S (x - S i)) by lia. cbn [lookup list_lookup].
    rewrite IH by lia. destruct (ks !! (x - S i)); reflexivity.
Qed.

Lemma unwrap_kids_path_cons split m lo hi x r i k ks :
  Transforms.unwrap_kids_path c split m lo hi x r i (k :: ks) =
    if Nat.eqb x i then
      if in_span lo hi i
      then Transforms.unwrap_path c split m (sub lo i) (sub hi i) k r
      else 0 :: r
    else
      shift
        (length
           (if in_span lo hi i
            then Transforms.unwrap_node c split m (sub lo i) (sub hi i) k
            else [k]))
        (Transforms.unwrap_kids_path c split m lo hi x r (S i) ks).
Proof. reflexivity. Qed.

Lemma unwrap_kids_path_caret split m x r ks : forall i, i <= x ->
  Transforms.unwrap_kids_path c split m (Some (x :: r)) (Some (x :: r)) x r i ks =
    match ks !! (x - i) with
    | Some k =>
        shift (x - i)
          (Transforms.unwrap_path c split m (Some r) (Some r) k r)
    | None => (x - i) :: r
    end.
Proof.
  induction ks as [|k ks IH]; intros i Hi.
  - cbn. destruct (x - i); reflexivity.
  - rewrite unwrap_kids_path_cons, in_span_caret, (Nat.eqb_sym x i).
    destruct (Nat.eqb_spec i x) as [->|Hne].
    + rewrite Nat.sub_diag, sub_caret. cbn [lookup list_lookup].
      destruct (Transforms.unwrap_path c split m (Some r) (Some r) k r);
        reflexivity.
    + replace (x - i) with (S (x - S i)) by lia. cbn [lookup list_lookup].
      rewrite IH by lia. cbn [length].
      destruct (ks !! (x - S i)).
      * destruct (Transforms.unwrap_path c split m (Some r) (Some r) n r);
          reflexivity.
      * reflexivity.
Qed.

(** The nodes visited from a node above a caret are the chain down to the
    Text. *)
Lemma walk_caret r : forall k,
  text_below c k r = true ->
  map fst (Tree.walk c (Some r) (Some r) k) = ancestors k r.
Proof.
  induction r as [|x r IH]; intros k Hk.
  - destruct k; [reflexivity|discriminate].
  - destruct k as [|t a ks]; [discriminate|].
    cbn [text_below isElement isText negb node_children andb] in Hk.
    rewrite walk_eq. cbn [map fst ancestors node_children Tree.walk_below].
    destruct (isVoid c (Element t a ks)); [discriminate|].
    rewrite walk_kids_caret, Nat.sub_0_r by lia.
    destruct (ks !! x) as [k'|]; [|discriminate].
    rewrite map_fst_under, IH by exact Hk. reflexivity.
Qed.

Lemma existsb_fst (m : Node -> bool) (l : list Entry) :
  existsb (fun en => m (fst en)) l = existsb m (map fst l).
Proof. induction l as [|en l IH]; [reflexivity|]. cbn. rewrite IH. reflexivity. Qed.

Lemma lowest_hit_caret m r k :
  text_below c k r = true ->
  Tree.lowest_hit c m (Some r) (Some r) k =
    m k && negb (existsb m (tail (ancestors k r))).
Proof.
  intros Hk. unfold Tree.lowest_hit. f_equal. f_equal.
  pose proof (walk_caret r k Hk) as Hw. rewrite walk_eq in Hw.
  cbn [map fst] in Hw. rewrite existsb_fst.
  destruct (ancestors k r); [discriminate|]. injection Hw as _ ->. reflexivity.
Qed.

End CaretFacts.

(** ** Chains of types: the list commands at a caret *)

Section ChainFacts.

Lemma drop_lowest_none f tys :
  existsb f tys = false -> drop_lowest f tys = tys.
Proof.
  induction tys as [|t rest IH]; [reflexivity|]. cbn.
  intros H. apply orb_false_iff in H as [-> H]. cbn. rewrite IH; auto.
Qed.

Lemma existsb_retype ty f g tys :
  g (Some ty) = true ->
  (forall t, f t = true -> g t = true) ->
  existsb g (retype_lowest ty f tys) = existsb g tys.
Proof.
  intros Hty Hfg. induction tys as [|t rest IH]; [reflexivity|]. cbn.
  destruct (f t) eqn:Ef; cbn.
  - destruct (existsb f rest); cbn; [rewrite IH; reflexivity|].
    rewrite Hty, (Hfg _ Ef). reflexivity.
  - rewrite IH. reflexivity.
Qed.

Lemma existsb_retype_none ty f g tys :
  g (Some ty) = false ->
  existsb g tys = false -> existsb g (retype_lowest ty f tys) = false.
Proof.
  intros Hty. induction tys as [|t rest IH]; [reflexivity|]. cbn.
  intros H. apply orb_false_iff in H as [Ht H].
  destruct (f t && negb (existsb f rest)); cbn.
  - rewrite Hty, H. reflexivity.
  - rewrite Ht, IH; auto.
Qed.


Lemma is_list_is_block t : is_list_ty t = true -> is_block_ty t = true.
Proof.
  destruct t as [t|]; [|discriminate]. cbn.
  destruct (String.eqb_spec t "link") as [->|]; [discriminate|reflexivity].
Qed.

(** Below the lowest list container of a chain that holds blocks there is a
    block. *)
Lemma block_below_list tys :
  chain_holds tys = true -> existsb is_list_ty tys = true ->
  existsb is_block_ty (drop_lowest is_list_ty tys) = true.
Proof.
  induction tys as [|t rest IH]; [discriminate|].
  cbn [chain_holds drop_lowest existsb]. intros Hh Hl.
  apply andb_true_iff in Hh as [Ht Hh].
  destruct (existsb is_list_ty rest) eqn:Er.
  - rewrite andb_false_r. cbn. rewrite (IH Hh eq_refl). apply orb_true_r.
  - rewrite orb_false_r in Hl. rewrite Hl in Ht |- *. cbn in Ht |- *.
    destruct rest as [|t' rest']; [discriminate|]. cbn. rewrite Ht. reflexivity.
Qed.


Lemma filter_drop_lowest (f : option string -> bool) tys :
  existsb f tys = true ->
  S (length (List.filter f (drop_lowest f tys))) = length (List.filter f tys).
Proof.
  induction tys as [|t rest IH]; [discriminate|]. cbn [existsb drop_lowest].
  intros H. destruct (existsb f rest) eqn:Er.
  - rewrite andb_false_r. cbn [List.filter].
    destruct (f t); cbn [length]; rewrite IH; auto.
  - rewrite orb_false_r in H. rewrite H. cbn [andb negb List.filter].
    rewrite H. reflexivity.
Qed.

(** The lowest block below the unwrapped list container is no list
    container, so retyping it changes no list container. *)
Lemma filter_retype_lowest ty tys :
  is_list_ty (Some ty) = false ->
  chain_holds tys = true ->
  List.filter is_list_ty
    (retype_lowest ty is_block_ty (drop_lowest is_list_ty tys))
  = List.filter is_list_ty (drop_lowest is_list_ty tys).
Proof.
  intros Hty.
  assert (Hnone : forall l, existsb is_list_ty l = false ->
            List.filter is_list_ty (retype_lowest ty is_block_ty l)
            = List.filter is_list_ty l).
  { induction l as [|t rest IHl]; [reflexivity|]. cbn [existsb retype_lowest].
    intros H. apply orb_false_iff in H as [Ht H].
    destruct (is_block_ty t && negb (existsb is_block_ty rest)).
    - cbn [List.filter]. rewrite Hty, Ht. reflexivity.
    - cbn [List.filter]. rewrite Ht. apply IHl, H. }
  induction tys as [|t rest IH]; intros Hh; [reflexivity|].
  pose proof Hh as Hh0.
  cbn [chain_holds] in Hh. apply andb_true_iff in Hh as [Ht Hh].
  cbn [drop_lowest].
  destruct (existsb is_list_ty rest) eqn:Er.
  - rewrite andb_false_r. cbn [retype_lowest].
    rewrite (block_below_list rest Hh Er), andb_false_r.
    cbn [List.filter]. rewrite IH by exact Hh. reflexivity.
  - destruct (is_list_ty t) eqn:Et; cbn [andb negb].
    + apply Hnone, Er.
    + rewrite drop_lowest_none by exact Er.
      apply Hnone. cbn. rewrite Et, Er. reflexivity.
Qed.

End ChainFacts.

(** ** [toggleBlock] at a caret of the composed editor *)

Section ToggleAtCaret.
Local Abbreviation cc := codexClassify.

Lemma isBlock_cc n : isBlock cc n = is_block_ty (node_type n).
Proof.
  destruct n as [s mk | t a ks]; [reflexivity|].
  unfold isBlock. cbn. destruct (String.eqb t "link"); reflexivity.
Qed.

Lemma isVoid_cc_type t a ks a' ks' :
  isVoid cc (Element t a ks) = isVoid cc (Element t a' ks').
Proof. reflexivity. Qed.

Lemma existsb_types (f : option string -> bool) (l : list Node) :
  existsb (fun n => f (node_type n)) l = existsb f (map node_type l).
Proof. induction l as [|n l IH]; [reflexivity|]. cbn. rewrite IH. reflexivity. Qed.

Lemma existsb_ext_eq {A} (f g : A -> bool) (l : list A) :
  (forall x, f x = g x) -> existsb f l = existsb g l.
Proof.
  intros H. induction l as [|x l IH]; [reflexivity|]. cbn.
  rewrite H, IH. reflexivity.
Qed.

Lemma existsb_isListType l :
  existsb isListType l = existsb is_list_ty (map node_type l).
Proof. apply (existsb_types is_list_ty). Qed.

Lemma existsb_isBlock l :
  existsb (isBlock cc) l = existsb is_block_ty (map node_type l).
Proof.
  rewrite <- (existsb_types is_block_ty). apply existsb_ext_eq, isBlock_cc.
Qed.

Lemma unwrap_path_eq split m lo hi n p :
  Transforms.unwrap_path cc split m lo hi n p =
    match n with
    | Text _ _ => 0 :: p
    | Element t a ks =>
        if isVoid cc n then 0 :: p
        else if Tree.lowest_hit cc m lo hi n then
          let i := if split then lo_idx lo else 0 in
          let j := if split then hi_idx hi (length ks) else length ks in
          match take (j - i) (drop i ks) with
          | [] => 0 :: p
          | inside =>
              match p with
              | [] => [0]
              | x :: r =>
                  let nb := match take i ks with [] => 0 | _ => 1 end in
                  if x <? i then 0 :: x :: r
                  else if x <? j then (nb + (x - i)) :: r
                  else (nb + length inside) :: (x - j) :: r
              end
          end
        else
          match p with
          | [] => [0]
          | x :: r =>
              0 :: Transforms.unwrap_kids_path cc split m lo hi x r 0 ks
          end
    end.
Proof. destruct n; reflexivity. Qed.

(** The elements unwrapped at a caret: the chain of the caret loses its
    lowest element of the matched types, and the caret stays in its Text. *)
Lemma unwrap_caret_types (split : bool) (f : option string -> bool) r :
  f None = false ->
  forall k,
  text_below cc k r = true ->
  let m := fun n => f (node_type n) in
  exists j q k1,
    Transforms.unwrap_path cc split m (Some r) (Some r) k r = j :: q /\
    Transforms.unwrap_node cc split m (Some r) (Some r) k !! j = Some k1 /\
    text_below cc k1 q = true /\
    map node_type (ancestors k1 q)
      = drop_lowest f (map node_type (ancestors k r)).
Proof.
  intros Hf. cbn zeta. induction r as [|x r IH]; intros k Hk.
  - destruct k as [s mk|]; [|discriminate].
    exists 0, [], (Text s mk). repeat split; try reflexivity.
    cbn. rewrite Hf. reflexivity.
  - destruct k as [|t a ks]; [discriminate|].
    pose proof Hk as Hk0.
    cbn [text_below isElement isText negb node_children andb] in Hk.
    destruct (isVoid cc (Element t a ks)) eqn:Ev; [discriminate|].
    destruct (ks !! x) as [k'|] eqn:Ex; [|discriminate].
    cbn [negb] in Hk.
    assert (Hx : x < length ks) by (eapply lookup_lt_Some; eauto).
    rewrite unwrap_path_eq, unwrap_node_eq, Ev.
    rewrite (lowest_hit_caret cc _ (x :: r) _ Hk0).
    cbn [ancestors node_children tail map drop_lowest]. rewrite Ex.
    change (node_type (Element t a ks)) with (Some t).
    rewrite (existsb_types f).
    destruct (f (Some t)
              && negb (existsb f (map node_type (ancestors k' r)))) eqn:Eh.
    + cbn zeta. destruct split.
      * cbn [lo_idx hi_idx].
        replace (S x - x) with 1 by lia.
        rewrite (drop_S ks k' x Ex). cbn [take].
        rewrite Nat.ltb_irrefl.
        assert (Hlt : (x <? S x) = true) by (apply Nat.ltb_lt; lia).
        rewrite Hlt, Nat.sub_diag, Nat.add_0_r.
        exists (match take x ks with [] => 0 | _ => 1 end), r, k'.
        split; [reflexivity|]. split; [|split; [exact Hk|reflexivity]].
        unfold Transforms.halves. destruct (take x ks); reflexivity.
      * rewrite Nat.sub_0_r, drop_0, take_ge by lia.
        destruct ks as [|k0 ks0] eqn:Eks; [discriminate|]. rewrite <- Eks in *.
        assert (Hlt : (x <? length ks) = true) by (apply Nat.ltb_lt; lia).
        cbn [take]. rewrite Hlt, Nat.sub_0_r. cbn [Nat.ltb Nat.leb Nat.add].
        exists x, r, k'.
        split; [reflexivity|]. split; [|split; [exact Hk|reflexivity]].
        unfold Transforms.halves. rewrite drop_all, app_nil_r. exact Ex.
    + destruct (IH k' Hk) as (j & q & k1 & Hp & Ho & Hv & Hty).
      rewrite unwrap_kids_path_caret, unwrap_kids_caret by lia.
      rewrite Nat.sub_0_r, Ex.
      assert (Hlook :
        (take x ks
         ++ Transforms.unwrap_node cc split (fun n => f (node_type n))
              (Some r) (Some r) k'
         ++ drop (S x) ks) !! (x + j) = Some k1).
      { rewrite lookup_app_r by (rewrite length_take; lia).
        rewrite length_take.
        replace (x + j - x `min` length ks) with j by lia.
        apply lookup_app_l_Some, Ho. }
      eexists 0, ((x + j) :: q), _. split; [rewrite Hp; reflexivity|].
      split; [reflexivity|]. split.
      * cbn [text_below isElement isText negb node_children andb].
        rewrite (isVoid_cc_type t a _ a ks), Ev, Hlook. exact Hv.
      * cbn [ancestors node_children map]. rewrite Hlook, Hty. reflexivity.
Qed.

Lemma lowest_index_map {A B} (g : A -> B) (f : B -> bool) (l : list A) :
  lowest_index (fun x => f (g x)) l = lowest_index f (map g l).
Proof.
  induction l as [|x l IH]; [reflexivity|]. cbn. rewrite IH. reflexivity.
Qed.

Lemma lowest_index_ext {A} (f g : A -> bool) (l : list A) :
  (forall x, f x = g x) -> lowest_index f l = lowest_index g l.
Proof.
  intros H. induction l as [|x l IH]; [reflexivity|]. cbn.
  rewrite IH, H. reflexivity.
Qed.

Lemma lowest_index_none {A} (f : A -> bool) (l : list A) :
  lowest_index f l = None <-> existsb f l = false.
Proof.
  induction l as [|x l IH]; [cbn; tauto|]. cbn.
  destruct (lowest_index f l) as [i|].
  - split; [discriminate|]. intros H. apply orb_false_iff in H as [_ H].
    apply IH in H. discriminate.
  - destruct IH as [IH _]. rewrite (IH eq_refl), orb_false_r.
    destruct (f x); split; congruence.
Qed.

Lemma lowest_index_lookup {A} (f : A -> bool) (l : list A) : forall i,
  lowest_index f l = Some i -> exists x, l !! i = Some x /\ f x = true.
Proof.
  induction l as [|x l IH]; intros i H; [discriminate|]. cbn in H.
  destruct (lowest_index f l) as [i'|].
  - injection H as <-. destruct (IH i' eq_refl) as (y & Hy & Hf). eauto.
  - destruct (f x) eqn:Ef; [|discriminate]. injection H as <-. eauto.
Qed.

(** The lowest block of a retyped chain is the retyped entry. *)
Lemma lowest_index_retype ty f tys : forall i,
  f (Some ty) = true ->
  lowest_index f (retype_lowest ty f tys) = Some i ->
  retype_lowest ty f tys !! i = Some (Some ty).
Proof.
  induction tys as [|t rest IH]; intros i Hty H; [discriminate|].
  cbn [retype_lowest] in H |- *.
  destruct (f t && negb (existsb f rest)) eqn:Eh.
  - apply andb_true_iff in Eh as [_ Eh]. apply negb_true_iff in Eh.
    cbn in H. apply lowest_index_none in Eh. rewrite Eh, Hty in H.
    injection H as <-. reflexivity.
  - cbn in H. destruct (lowest_index f (retype_lowest ty f rest)) as [i'|] eqn:El.
    + injection H as <-. cbn. apply IH; auto.
    + exfalso. apply lowest_index_none in El.
      assert (Er : existsb f rest = false).
      { destruct (existsb f rest) eqn:Er; [|reflexivity].
        rewrite (existsb_retype ty f f) in El by auto. congruence. }
      rewrite Er, andb_true_r in Eh. rewrite Eh in H. discriminate.
Qed.

(** The nodes setting a type at a caret: the lowest block of the chain gets
    the type. *)
Lemma set_caret_types ty r : forall k,
  text_below cc k r = true ->
  map node_type
    (ancestors
       (Transforms.set_node cc (set_type ty) (isBlock cc) (Some r) (Some r) k) r)
  = retype_lowest ty is_block_ty (map node_type (ancestors k r)).
Proof.
  induction r as [|x r IH]; intros k Hk.
  - destruct k as [s mk|]; [|discriminate]. reflexivity.
  - destruct k as [|t a ks]; [discriminate|].
    pose proof Hk as Hk0.
    cbn [text_below isElement isText negb node_children andb] in Hk.
    destruct (isVoid cc (Element t a ks)) eqn:Ev; [discriminate|].
    destruct (ks !! x) as [k'|] eqn:Ex; [|discriminate].
    cbn [negb andb] in Hk.
    rewrite set_node_eq, Ev.
    rewrite (lowest_hit_caret cc (isBlock cc) (x :: r) _ Hk0).
    cbn [ancestors node_children tail map retype_lowest]. rewrite Ex.
    rewrite isBlock_cc, existsb_isBlock.
    change (node_type (Element t a ks)) with (Some t).
    destruct (is_block_ty (Some t)
              && negb (existsb is_block_ty (map node_type (ancestors k' r)))).
    + cbn [set_type ancestors node_children map]. rewrite Ex. reflexivity.
    + rewrite set_kids_caret, Nat.sub_0_r, Ex by lia.
      cbn [ancestors node_children map].
      assert (Hx : x < length ks) by (eapply lookup_lt_Some; eauto).
      rewrite list_lookup_insert_eq by exact Hx. rewrite IH by exact Hk.
      reflexivity.
Qed.

Lemma set_caret_valid ty r : forall k,
  isVoid cc (Element ty ∅ []) = false ->
  text_below cc k r = true ->
  text_below cc
    (Transforms.set_node cc (set_type ty) (isBlock cc) (Some r) (Some r) k) r
  = true.
Proof.
  intros k Hty. revert k.
  induction r as [|x r IH]; intros k Hk.
  - destruct k as [s mk|]; [|discriminate]. reflexivity.
  - destruct k as [|t a ks]; [discriminate|].
    cbn [text_below isElement isText negb node_children andb] in Hk.
    destruct (isVoid cc (Element t a ks)) eqn:Ev; [discriminate|].
    destruct (ks !! x) as [k'|] eqn:Ex; [|discriminate].
    cbn [negb andb] in Hk.
    rewrite set_node_eq, Ev.
    destruct (Tree.lowest_hit cc (isBlock cc) _ _ (Element t a ks)).
    + cbn [set_type text_below isElement isText negb node_children andb].
      rewrite (isVoid_cc_type ty a ks ∅ []), Hty, Ex. exact Hk.
    + rewrite set_kids_caret, Nat.sub_0_r, Ex by lia.
      cbn [text_below isElement isText negb node_children andb].
      rewrite (isVoid_cc_type t a _ a ks), Ev.
      assert (Hx : x < length ks) by (eapply lookup_lt_Some; eauto).
      rewrite list_lookup_insert_eq by exact Hx. apply IH, Hk.
Qed.

(** The lowest match at a caret is the lowest match of the chain. *)
Lemma lowest_in_caret m r : forall k,
  text_below cc k r = true ->
  Tree.lowest_in cc m (Some r) (Some r) k =
    match lowest_index m (ancestors k r) with
    | Some i =>
        match ancestors k r !! i with
        | Some n => [(n, take i r)]
        | None => []
        end
    | None => []
    end.
Proof.
  induction r as [|x r IH]; intros k Hk.
  - destruct k as [s mk|]; [|discriminate].
    rewrite lowest_in_below. cbn. destruct (m (Text s mk)); reflexivity.
  - destruct k as [|t a ks]; [discriminate|].
    cbn [text_below isElement isText negb node_children andb] in Hk.
    destruct (isVoid cc (Element t a ks)) eqn:Ev; [discriminate|].
    destruct (ks !! x) as [k'|] eqn:Ex; [|discriminate].
    cbn [negb andb] in Hk.
    rewrite lowest_in_below. unfold Tree.lowest_below. rewrite Ev.
    rewrite lowest_kids_caret, Nat.sub_0_r, Ex, (IH k' Hk) by lia.
    cbn [ancestors node_children lowest_index]. rewrite Ex.
    destruct (lowest_index m (ancestors k' r)) as [i|] eqn:El.
    + destruct (lowest_index_lookup _ _ _ El) as (n & Hn & _).
      change ((Element t a ks :: ancestors k' r) !! S i)
        with (ancestors k' r !! i).
      rewrite Hn. reflexivity.
    + cbn. destruct (m (Element t a ks)); reflexivity.
Qed.

Lemma forallb_lookup {A} (f : A -> bool) (l : list A) i x :
  forallb f l = true -> l !! i = Some x -> f x = true.
Proof.
  revert i. induction l as [|y l IH]; intros i H Hi; [discriminate|].
  cbn in H. apply andb_true_iff in H as [H1 H2].
  destruct i as [|i]; [injection Hi as <-; exact H1|]. eapply IH; eauto.
Qed.

Lemma forallb_insert {A} (f : A -> bool) (l : list A) i x :
  forallb f l = true -> f x = true -> forallb f (<[i := x]> l) = true.
Proof.
  revert i. induction l as [|y l IH]; intros i H Hx; [reflexivity|].
  cbn in H. apply andb_true_iff in H as [H1 H2].
  destruct i as [|i]; cbn; [rewrite Hx, H2; reflexivity|].
  rewrite H1, IH; auto.
Qed.

Lemma ancestors_head k r : exists tl, ancestors k r = k :: tl.
Proof. destruct r; cbn; eauto. Qed.



Lemma chain_holds_of r : forall k,
  lists_hold_blocks cc k = true -> text_below cc k r = true ->
  chain_holds (map node_type (ancestors k r)) = true.
Proof.
  induction r as [|x r IH]; intros k Hl Hk.
  - destruct k as [s mk|]; [reflexivity|discriminate].
  - destruct k as [|t a ks]; [discriminate|].
    cbn [text_below isElement isText negb node_children andb] in Hk.
    destruct (isVoid cc (Element t a ks)); [discriminate|].
    destruct (ks !! x) as [k'|] eqn:Ex; [|discriminate].
    cbn [negb andb] in Hk.
    cbn [lists_hold_blocks] in Hl. apply andb_true_iff in Hl as [Hb Hl].
    cbn [ancestors node_children map chain_holds]. rewrite Ex.
    rewrite (IH k') by (eauto using forallb_lookup).
    rewrite andb_true_r.
    destruct (ancestors_head k' r) as [tl ->]. cbn [map].
    change (is_list_ty (node_type (Element t a ks)))
      with (isListType (Element t a ks)).
    destruct (isListType (Element t a ks)); [|reflexivity].
    cbn in Hb |- *. rewrite <- isBlock_cc. eapply forallb_lookup; eauto.
Qed.




Lemma point_equals_eq a b : Point.equals a b = true -> a = b.
Proof.
  unfold Point.equals, Path.equals. destruct a as [p o], b as [q o'].
  cbn. rewrite andb_true_iff, Nat.eqb_eq, bool_decide_eq_true.
  intros [-> ->]. reflexivity.
Qed.

Lemma collapsed_span r :
  Range.isCollapsed r = true ->
  Range.focus r = Range.anchor r /\
  Tree.span_lo r = Some (Point.path (Range.anchor r)) /\
  Tree.span_hi r = Some (Point.path (Range.anchor r)).
Proof.
  intros H. apply point_equals_eq in H.
  unfold Tree.span_lo, Tree.span_hi, Range.start, Range.end_, Range.edges.
  rewrite <- H. destruct (Point.isBefore _ _); auto.
Qed.

Lemma at_caret_inv e :
  at_caret cc e = true ->
  exists pt x r k,
    selection e = Some (Range.mk pt pt) /\ Point.path pt = x :: r /\
    children e !! x = Some k /\ text_below cc k r = true.
Proof.
  unfold at_caret. destruct (selection e) as [[a f]|]; [|discriminate].
  rewrite andb_true_iff. intros [Hc Hp].
  apply point_equals_eq in Hc. cbn in Hc, Hp. subst f.
  unfold caret_in_text in Hp. destruct (Point.path a) as [|x r] eqn:Ea;
    [discriminate|].
  destruct (children e !! x) as [k|] eqn:Ex; [|discriminate].
  exists a, x, r, k. auto.
Qed.

Lemma caret_span pt :
  Tree.span_lo (Range.mk pt pt) = Some (Point.path pt) /\
  Tree.span_hi (Range.mk pt pt) = Some (Point.path pt).
Proof.
  unfold Tree.span_lo, Tree.span_hi, Range.start, Range.end_, Range.edges.
  cbn. destruct (Point.isBefore pt pt); auto.
Qed.

Lemma caret_collapsed pt : Range.isCollapsed (Range.mk pt pt) = true.
Proof.
  unfold Range.isCollapsed, Point.equals, Path.equals. cbn.
  rewrite bool_decide_eq_true_2, Nat.eqb_refl; reflexivity.
Qed.

(** [unwrapNodes] at a caret, for a match by type. *)
Lemma unwrapNodes_caret_types (split : bool) (f : option string -> bool) e :
  f None = false ->
  at_caret cc e = true ->
  let e1 := Transforms.unwrapNodes cc (fun n => f (node_type n)) split e in
  at_caret cc e1 = true /\
  map node_type (chain (children e1) (anchor_path e1))
  = drop_lowest f (map node_type (chain (children e) (anchor_path e))).
Proof.
  intros Hf H.
  destruct (at_caret_inv e H) as (pt & x & r & k & Hs & Hp & Hx & Hk).
  cbn zeta. unfold Transforms.unwrapNodes, anchor_path at 2. rewrite Hs.
  destruct (caret_span pt) as [-> ->]. cbn [Range.anchor Range.focus].
  unfold Transforms.unwrap_point. rewrite Hp.
  rewrite unwrap_kids_path_caret, unwrap_kids_caret, Nat.sub_0_r, Hx by lia.
  destruct (unwrap_caret_types split f r Hf k Hk) as (j & q & k1 & Hq & Ho & Hv & Hty).
  rewrite Hq. cbn [shift].
  assert (Hxl : x < length (children e)) by (eapply lookup_lt_Some; eauto).
  assert (Hlook :
    (take x (children e)
     ++ Transforms.unwrap_node cc split (fun n => f (node_type n))
          (Some r) (Some r) k
     ++ drop (S x) (children e)) !! (x + j) = Some k1).
  { rewrite lookup_app_r by (rewrite length_take; lia).
    rewrite length_take.
    replace (x + j - x `min` length (children e)) with j by lia.
    apply lookup_app_l_Some, Ho. }
  unfold at_caret, anchor_path. cbn [selection children Range.anchor Point.path].
  rewrite caret_collapsed. unfold caret_in_text, chain.
  rewrite Hlook, Hx. auto.
Qed.

(** [unwrapNodes] of list containers at a caret. *)
Lemma unwrapNodes_caret e :
  at_caret cc e = true ->
  let e1 := Transforms.unwrapNodes cc isListType true e in
  at_caret cc e1 = true /\
  map node_type (chain (children e1) (anchor_path e1))
  = drop_lowest is_list_ty (map node_type (chain (children e) (anchor_path e))).
Proof. exact (unwrapNodes_caret_types true is_list_ty e eq_refl). Qed.

(** [setNodes] of a type on the blocks at a caret. *)
Lemma setNodes_caret ty e :
  at_caret cc e = true ->
  let e2 := Transforms.setNodes cc (set_type ty) (isBlock cc) e in
  selection e2 = selection e /\
  map node_type (chain (children e2) (anchor_path e2))
  = retype_lowest ty is_block_ty
      (map node_type (chain (children e) (anchor_path e))) /\
  (isVoid cc (Element ty ∅ []) = false -> at_caret cc e2 = true).
Proof.
  intros H. destruct (at_caret_inv e H) as (pt & x & r & k & Hs & Hp & Hx & Hk).
  cbn zeta. unfold Transforms.setNodes, anchor_path. rewrite Hs.
  destruct (caret_span pt) as [-> ->].
  cbn [selection with_children children Range.anchor]. rewrite Hs, Hp.
  rewrite set_kids_caret, Nat.sub_0_r, Hx by lia.
  assert (Hxl : x < length (children e)) by (eapply lookup_lt_Some; eauto).
  split; [reflexivity|]. unfold chain. cbn [Range.anchor]. rewrite Hp.
  rewrite list_lookup_insert_eq, Hx by exact Hxl.
  split; [apply set_caret_types, Hk|].
  intros Hty. unfold at_caret. cbn [selection with_children children].
  rewrite Hs, caret_collapsed. cbn [Range.anchor]. rewrite Hp.
  unfold caret_in_text. rewrite list_lookup_insert_eq by exact Hxl.
  apply set_caret_valid; assumption.
Qed.

Lemma ancestors_length k r : length (ancestors k r) <= S (length r).
Proof.
  revert k. induction r as [|x r IH]; intros k; [cbn; lia|].
  cbn [ancestors length]. destruct (node_children k !! x); [|cbn; lia].
  specialize (IH n). lia.
Qed.

Lemma take_succ_parent (l : Path) i :
  i < length l ->
  Path.parent (take (S i) l) = take i l /\
  take (S i) l !! i = Some (nth i l 0).
Proof.
  unfold Path.parent. revert i.
  induction l as [|x l IH]; intros i Hi; [cbn in Hi; lia|].
  destruct i as [|i].
  - destruct l; auto.
  - cbn [length] in Hi. destruct (IH i ltac:(lia)) as [IH1 IH2].
    change (take (S (S i)) (x :: l)) with (x :: take (S i) l).
    change (take (S i) (x :: l)) with (x :: take i l).
    change (nth (S i) (x :: l) 0) with (nth i l 0).
    split; [|exact IH2].
    destruct l as [|y l]; [cbn in Hi; lia|].
    change (take (S i) (y :: l)) with (y :: take i l) in *.
    cbn [removelast] in *. f_equal. exact IH1.
Qed.


Lemma list_format_cases format :
  JS.includes LIST_TYPES format = true ->
  format = "numbered-list" \/ format = "bulleted-list".
Proof.
  unfold JS.includes, LIST_TYPES. cbn [existsb].
  rewrite !orb_true_iff, !String.eqb_eq. intuition discriminate.
Qed.


Lemma descend_node_at t a ks z q :
  Tree.descend (Element t a ks) (z :: q) = Tree.node_at ks (z :: q).
Proof. reflexivity. Qed.






Lemma filter_types_length (l : list Node) :
  length (List.filter isListType l)
  = length (List.filter is_list_ty (map node_type l)).
Proof.
  induction l as [|n l IH]; [reflexivity|]. cbn [List.filter map].
  change (is_list_ty (node_type n)) with (isListType n).
  destruct (isListType n); cbn [length]; rewrite IH; reflexivity.
Qed.

Lemma filter_length_none {A} (f : A -> bool) (l : list A) :
  existsb f l = false -> length (List.filter f l) = 0.
Proof. intros H. rewrite filter_none by exact H. reflexivity. Qed.


Lemma first_filter {A} (g : A -> bool) (l : list A) :
  match JS.first (List.filter g l) with Some _ => true | None => false end
  = existsb g l.
Proof.
  induction l as [|x l IH]; [reflexivity|]. cbn.
  destruct (g x); [reflexivity|exact IH].
Qed.

(** At a caret a type is active when it is the type of a node of the
    chain. *)
Lemma nodes_caret_exists m e :
  at_caret cc e = true ->
  match JS.first (Editor.nodes cc m e) with Some _ => true | None => false end
  = existsb m (chain (children e) (anchor_path e)).
Proof.
  intros H. destruct (at_caret_inv e H) as (pt & x & r & k & Hs & Hp & Hx & Hk).
  unfold Editor.nodes, Tree.nodes, anchor_path, chain. rewrite Hs.
  destruct (caret_span pt) as [-> ->]. cbn [Range.anchor]. rewrite Hp, Hx.
  rewrite first_filter, walk_kids_caret, Nat.sub_0_r, Hx by lia.
  rewrite existsb_fst, map_fst_under. f_equal. apply walk_caret, Hk.
Qed.

Lemma lowest_index_text r : forall k,
  text_below cc k r = true ->
  lowest_index (Transforms.inline_or_text cc) (ancestors k r)
  = Some (length r).
Proof.
  induction r as [|x r IH]; intros k Hk.
  - destruct k as [s mk|]; [reflexivity|discriminate].
  - destruct k as [|t a ks]; [discriminate|].
    cbn [text_below isElement isText negb node_children andb] in Hk.
    destruct (isVoid cc (Element t a ks)); [discriminate|].
    destruct (ks !! x) as [k'|] eqn:Ex; [|discriminate].
    cbn [ancestors node_children lowest_index length]. rewrite Ex.
    rewrite (IH k' Hk). reflexivity.
Qed.

(** The node inserted at a caret is in the document, at the path that
    [insert_at] reports. *)
Lemma insert_at_node node o r : forall ks x k,
  ks !! x = Some k -> text_below cc k r = true ->
  exists ks' z q,
    Transforms.insert_at cc node (length r) (x :: r) o ks = (ks', z :: q) /\
    Tree.node_at ks' (z :: q) = Some node.
Proof.
  induction r as [|y r IH]; intros ks x k Hx Hk.
  - cbn [Transforms.insert_at length]. rewrite Hx.
    destruct (Transforms.split_node cc k [] o) as [l rr].
    eexists _, _, _. split; [reflexivity|].
    assert (Hxl : x < length ks) by (eapply lookup_lt_Some; eauto).
    cbn [Tree.node_at].
    rewrite lookup_app_r by (rewrite length_take; lia).
    rewrite length_take.
    replace (x + length l - x `min` length ks) with (length l) by lia.
    rewrite lookup_app_r by lia. rewrite Nat.sub_diag. reflexivity.
  - destruct k as [|t a ks0]; [discriminate|].
    cbn [text_below isElement isText negb node_children andb] in Hk.
    destruct (isVoid cc (Element t a ks0)); [discriminate|].
    destruct (ks0 !! y) as [k'|] eqn:Ey; [|discriminate].
    destruct (IH ks0 y k' Ey Hk) as (ks' & z & q & Hi & Hn).
    cbn [Transforms.insert_at length]. rewrite Hx.
    cbn [length] in Hi. rewrite Hi.
    eexists _, _, _. split; [reflexivity|].
    assert (Hxl : x < length ks) by (eapply lookup_lt_Some; eauto).
    cbn [Tree.node_at]. rewrite list_lookup_insert_eq by exact Hxl.
    rewrite descend_node_at. exact Hn.
Qed.

(** [insertNodes] of an inline element at a caret. *)
Lemma insertNodes_caret deleteFragment node e :
  at_caret cc e = true ->
  isText node = false -> isInline cc node = true ->
  let e' := Transforms.insertNodes cc deleteFragment node e in
  exists ip,
    Tree.node_at (children e') ip = Some node /\
    selection e' =
      Some (Range.mk
              (Point.mk (ip ++ fst (Transforms.last_leaf node))
                 (snd (Transforms.last_leaf node)))
              (Point.mk (ip ++ fst (Transforms.last_leaf node))
                 (snd (Transforms.last_leaf node)))).
Proof.
  intros H Ht Hi.
  destruct (at_caret_inv e H) as (pt & x & r & k & Hs & Hp & Hx & Hk).
  cbn zeta. unfold Transforms.insertNodes. rewrite Hs, caret_collapsed, Hs.
  cbn [Range.anchor]. rewrite Ht, Hi, Hp.
  unfold Transforms.match_depth.
  rewrite lowest_kids_caret, Nat.sub_0_r, Hx by lia.
  rewrite (lowest_in_caret _ _ _ Hk), (lowest_index_text r k Hk).
  destruct (lowest_index_lookup _ _ _ (lowest_index_text r k Hk))
    as (n & Hn & _).
  rewrite Hn. cbn [map under fst snd length].
  rewrite firstn_all.
  replace (S (length r) - 1) with (length r) by lia.
  destruct (insert_at_node node (Point.offset pt) r (children e) x k Hx Hk)
    as (ks' & z & q & Hins & Hnode).
  rewrite Hins. destruct (Transforms.last_leaf node) as [lp lo].
  exists (z :: q). cbn [children selection fst snd]. auto.
Qed.

Lemma splitNodes_selection c m incl pt e :
  is_Some (selection e) ->
  is_Some (selection (Transforms.splitNodes c m incl pt e)).
Proof.
  intros [r Hr]. unfold Transforms.splitNodes.
  destruct (Transforms.match_depth c m _ _); [|rewrite Hr; eauto].
  cbn [selection]. rewrite Hr. eauto.
Qed.

Lemma splitRange_selection c m e :
  is_Some (selection e) -> is_Some (selection (Transforms.splitRange c m e)).
Proof.
  intros H. unfold Transforms.splitRange.
  destruct (selection e) as [r|] eqn:Hr; [|rewrite Hr; exact H].
  pose proof (splitNodes_selection c m false (Range.end_ r) e
                ltac:(rewrite Hr; eauto)) as [r1 Hr1].
  rewrite Hr1. apply splitNodes_selection. rewrite Hr1. eauto.
Qed.

Lemma wrapNodes_selection c w split e :
  is_Some (selection e) ->
  is_Some (selection (Transforms.wrapNodes c w split e)).
Proof.
  intros H. unfold Transforms.wrapNodes.
  destruct (isElement w && isInline c w).
  - unfold Transforms.wrapNodes_inline.
    assert (Hs : is_Some (selection
                   (if split then Transforms.splitRange c
                                    (Transforms.inline_or_text c) e else e))).
    { destruct split; [apply splitRange_selection|]; exact H. }
    destruct Hs as [r Hr]. rewrite Hr. cbn [selection]. eauto.
  - unfold Transforms.wrapNodes_block.
    assert (Hs : is_Some (selection
                   (if split then Transforms.splitRange c (isBlock c) e
                    else e))).
    { destruct split; [apply splitRange_selection|]; exact H. }
    destruct Hs as [r Hr]. rewrite Hr. cbn [selection]. eauto.
Qed.

Lemma filter_link_length (l : list Node) :
  length (List.filter (has_type "link") l)
  = length (List.filter is_link_ty (map node_type l)).
Proof.
  induction l as [|n l IH]; [reflexivity|]. cbn [List.filter map].
  change (is_link_ty (node_type n)) with (has_type "link" n).
  destruct (has_type "link" n); cbn [length]; rewrite IH; reflexivity.
Qed.

End ToggleAtCaret.

(** ** Worked examples for [toggleBlock] *)

(** Without a selection every transform of [toggleBlock] is a no-op, and a
    list container that is already directly in a list container stays. *)
Lemma toggleBlock_without_selection_keeps_nesting :
  let e := doc doubleListDocument None in
  toggleBlock codexClassify "numbered-list" e = e /\
  no_nested_lists (children (toggleBlock codexClassify "numbered-list" e))
    = false.
Proof. cbn zeta. split; vm_compute; reflexivity. Qed.


(** With a caret in a text that a list container holds directly, the block
    at the caret after the unwrap is the item of the outer list, and the new
    container is built directly inside the outer list container. *)
Lemma toggleBlock_bare_list_nests :
  let e := doc bareListDocument (Some (caret [0; 0; 0; 0] 0)) in
  at_caret codexClassify e = true /\
  no_nested_lists (children e) = true /\
  children (toggleBlock codexClassify "bulleted-list" e) =
    [ el "numbered-list"
        [el "bulleted-list" [el "list-item" [txt "x"]]] ].
Proof. cbn zeta. repeat split; vm_compute; reflexivity. Qed.

(** * Further properties of the example *)

(** ** Hotkeys *)

Section KeyDown.
Context {KeyEvent : Type}.
Context (isHotkey : string -> KeyEvent -> bool).
Context (c : Classify).

(** The handler toggles the marks of the hotkeys that match, in the order of
    the table. *)
Lemma onKeyDown_fold event e :
  onKeyDown isHotkey c event e =
    (existsb (fun hk => isHotkey (fst hk) event) HOTKEYS,
     fold_left (fun e mark => toggleMark c mark e)
       (map snd (List.filter (fun hk => isHotkey (fst hk) event) HOTKEYS)) e).
Proof.
  unfold onKeyDown, HOTKEYS. cbn.
  destruct (isHotkey "mod+b" event), (isHotkey "mod+i" event),
    (isHotkey "mod+u" event), (isHotkey "mod+`" event); reflexivity.
Qed.

(** At a caret, and without a selection, [toggleMark] changes the pending
    marks only, and there only the mark it is given. *)
Lemma toggleMark_frame format e :
  match selection e with
  | Some r => Range.isCollapsed r = true
  | None => True
  end ->
  children (toggleMark c format e) = children e /\
  selection (toggleMark c format e) = selection e /\
  forall other, other <> format ->
    isMarkActive c (toggleMark c format e) other = isMarkActive c e other.
Proof.
  intros Hsel. destruct (selection e) as [r|] eqn:Hs.
  - rewrite (toggleMark_caret c e r format Hs Hsel).
    split; [reflexivity|]. split; [exact Hs|]. intros other Hne.
    unfold isMarkActive at 1. rewrite (marks_pending c e r _ Hs).
    unfold isMarkActive.
    destruct (Editor.marks c e) as [m|] eqn:Hm.
    + cbn [default]. destruct (is_true_value (m !! format)).
      * rewrite lookup_delete_ne by congruence. reflexivity.
      * rewrite lookup_insert_ne by congruence. reflexivity.
    + unfold Editor.marks in Hm. rewrite Hs in Hm.
      destruct (pending e); [discriminate|]. rewrite Hsel in Hm.
      destruct (Tree.node_at _ _) as [[]|]; discriminate.
  - assert (Ht : toggleMark c format e = e).
    { unfold toggleMark, isMarkActive.
      rewrite (marks_no_selection c e Hs). unfold Editor.addMark.
      rewrite Hs. reflexivity. }
    rewrite Ht. auto.
Qed.

(** X1: a key event that matches no hotkey changes nothing and does not
    prevent the default action; an event that matches one hotkey of the
    table and no other toggles the mark of that hotkey once and prevents
    the default action. *)
Theorem onKeyDown_hotkeys (event : KeyEvent) (e : EditorState) :
  ((forall hotkey mark, In (hotkey, mark) HOTKEYS ->
      isHotkey hotkey event = false) ->
   onKeyDown isHotkey c event e = (false, e)) /\
  (forall hotkey mark,
     In (hotkey, mark) HOTKEYS ->
     isHotkey hotkey event = true ->
     (forall other mark', In (other, mark') HOTKEYS -> other <> hotkey ->
        isHotkey other event = false) ->
     onKeyDown isHotkey c event e = (true, toggleMark c mark e)).
Proof.
  split.
  - intros Hno. unfold onKeyDown, HOTKEYS. cbn.
    rewrite !(Hno _ _) by (unfold HOTKEYS; cbn; eauto 6). reflexivity.
  - intros hotkey mark Hin Hyes Hothers. unfold onKeyDown.
    unfold HOTKEYS in Hin, Hothers |- *. cbn in Hin.
    destruct Hin as [[= <- <-] | [[= <- <-] | [[= <- <-] | [[= <- <-] | []]]]];
      cbn; rewrite Hyes;
      rewrite ?(Hothers "mod+b" "bold"), ?(Hothers "mod+i" "italic"),
        ?(Hothers "mod+u" "underline"), ?(Hothers "mod+`" "code")
        by (cbn; (eauto 6 || discriminate)); reflexivity.
Qed.

(** X2: with a caret or without a selection, a key event never changes
    the document or the selection, and it leaves every mark that is not in
    the hotkey table as active or inactive as it was. *)
Theorem onKeyDown_frame (event : KeyEvent) (e : EditorState) :
  match selection e with
  | Some r => Range.isCollapsed r = true
  | None => True
  end ->
  let e' := snd (onKeyDown isHotkey c event e) in
  children e' = children e /\
  selection e' = selection e /\
  forall format, ~ In format (map snd HOTKEYS) ->
    isMarkActive c e' format = isMarkActive c e format.
Proof.
  intros Hsel. cbn zeta. rewrite onKeyDown_fold. cbn [snd].
  set (hit := List.filter _ HOTKEYS).
  assert (Hsub : forall m, In m (map snd hit) -> In m (map snd HOTKEYS)).
  { intros m Hm. apply in_map_iff in Hm as (hk & <- & Hk).
    apply in_map. unfold hit in Hk. apply filter_In in Hk. tauto. }
  revert e Hsel Hsub. generalize (map snd hit). clear hit.
  intros l. induction l as [|m l IH]; intros e Hsel Hsub; [cbn; auto|].
  cbn [fold_left].
  destruct (toggleMark_frame m e Hsel) as (Hc & Hs & Hm).
  destruct (IH (toggleMark c m e)) as (Hc' & Hs' & Hm').
  - rewrite Hs. exact Hsel.
  - intros m' H'. apply Hsub. right. exact H'.
  - split; [congruence|]. split; [congruence|]. intros format Hf.
    rewrite Hm' by exact Hf. apply Hm. intros ->. apply Hf, Hsub. left.
    reflexivity.
Qed.

(** X3: at a caret one [toggleMark] turns an inactive mark active and an
    active mark inactive. *)
Theorem toggleMark_flips (format : string) (e : EditorState)
  (r : Range.t) :
  selection e = Some r -> Range.isCollapsed r = true ->
  isMarkActive c (toggleMark c format e) format
  = negb (isMarkActive c e format).
Proof.
  intros Hs Hc. rewrite (toggleMark_caret c e r format Hs Hc).
  unfold isMarkActive at 1. rewrite (marks_pending c e r _ Hs).
  destruct (isMarkActive c e format).
  - rewrite lookup_delete_eq. reflexivity.
  - rewrite lookup_insert_eq. reflexivity.
Qed.

End KeyDown.

Lemma onKeyDown_hotkeys_witness :
  let e := doc initialValue (Some (caret [0; 1] 2)) in
  onKeyDown String.eqb codexClassify "mod+i" e
    = (true, toggleMark codexClassify "italic" e) /\
  onKeyDown String.eqb codexClassify "mod+k" e = (false, e).
Proof.
  cbn zeta. split.
  - apply (proj2 (onKeyDown_hotkeys String.eqb codexClassify "mod+i"
                    (doc initialValue (Some (caret [0; 1] 2))))
             "mod+i" "italic").
    + cbn. auto.
    + reflexivity.
    + intros other mark' _ Hne. apply String.eqb_neq. exact Hne.
  - apply (proj1 (onKeyDown_hotkeys String.eqb codexClassify "mod+k"
                    (doc initialValue (Some (caret [0; 1] 2))))).
    intros hotkey mark Hin. cbn in Hin.
    destruct Hin as [[= <- <-] | [[= <- <-] | [[= <- <-] | [[= <- <-] | []]]]];
      reflexivity.
Defined.

Lemma onKeyDown_frame_witness :
  let e := doc initialValue (Some (caret [0; 1] 2)) in
  Range.isCollapsed (caret [0; 1] 2) = true /\
  children (snd (onKeyDown String.eqb codexClassify "mod+b" e)) = initialValue.
Proof.
  cbn zeta. split; [reflexivity|].
  apply (onKeyDown_frame String.eqb codexClassify "mod+b"
           (doc initialValue (Some (caret [0; 1] 2)))).
  reflexivity.
Defined.

Lemma toggleMark_flips_witness :
  let e := doc initialValue (Some (caret [0; 1] 2)) in
  isMarkActive codexClassify e "bold" = true /\
  isMarkActive codexClassify (toggleMark codexClassify "bold" e) "bold"
  = negb (isMarkActive codexClassify e "bold").
Proof.
  cbn zeta. split; [reflexivity|].
  apply (toggleMark_flips codexClassify "bold"
           (doc initialValue (Some (caret [0; 1] 2))) (caret [0; 1] 2));
    reflexivity.
Defined.

(** ** Rendering *)



(** X5: [Element] shows the children of every element exactly once, except
    for the type 'horizontal-rule', whose children it does not show. *)
Theorem Element_shows_children (h : Hooks) (element : Node) :
  slots (Element_view h element)
  = if has_type "horizontal-rule" element then 0 else 1.
Proof.
  unfold Element_view, has_type.
  destruct (node_type element) as [t|]; [|reflexivity].
  repeat match goal with
         | |- context [String.eqb t ?s] =>
             destruct (String.eqb_spec t s) as [->|_]; [reflexivity|]
         end.
  reflexivity.
Qed.


(** ** Strings cut at a separator *)

Section Split.
Context (sep : ascii).

Lemma split_nonempty s : JS.split sep s <> [].
Proof.
  destruct s as [|ch s]; cbn; [discriminate|].
  destruct (Ascii.eqb ch sep); [discriminate|].
  destruct (JS.split sep s); discriminate.
Qed.

Lemma split_whole w : has_char sep w = false -> JS.split sep w = [w].
Proof.
  induction w as [|ch w IH]; [reflexivity|]. cbn.
  intros H. apply orb_false_iff in H as [H1 H2].
  rewrite H1, (IH H2). reflexivity.
Qed.

Lemma app_nil_s (s : string) : ("" ++ s)%string = s.
Proof. reflexivity. Qed.

Lemma app_cons_s ch (s1 s2 : string) :
  (String ch s1 ++ s2)%string = String ch (s1 ++ s2)%string.
Proof. reflexivity. Qed.

Lemma split_app pre w :
  JS.split sep (pre ++ String sep w)%string
  = JS.split sep pre ++ JS.split sep w.
Proof.
  induction pre as [|ch pre IH]; rewrite ?app_nil_s, ?app_cons_s; cbn.
  - rewrite Ascii.eqb_refl. reflexivity.
  - rewrite IH. destruct (Ascii.eqb ch sep); [reflexivity|].
    pose proof (split_nonempty pre).
    destruct (JS.split sep pre); [congruence|reflexivity].
Qed.

(** A string has no separator, or a last one. *)
Lemma last_separator s :
  has_char sep s = false \/
  exists pre w, s = (pre ++ String sep w)%string /\ has_char sep w = false.
Proof.
  induction s as [|ch s IH]; [left; reflexivity|].
  destruct IH as [IH | (pre & w & -> & Hw)].
  - cbn. destruct (Ascii.eqb_spec ch sep) as [->|Hne]; [|left; exact IH].
    right. exists "", s. auto.
  - right. exists (String ch pre), w. auto.
Qed.

Lemma pop_split s w :
  JS.pop (JS.split sep s) = Some w <->
  has_char sep w = false /\
  (s = w \/ exists pre, s = (pre ++ String sep w)%string).
Proof.
  assert (Hback : forall w,
            has_char sep w = false ->
            (JS.pop (JS.split sep w) = Some w) /\
            forall pre, JS.pop (JS.split sep (pre ++ String sep w)%string)
                        = Some w).
  { intros w0 Hw. split.
    - rewrite (split_whole w0 Hw). reflexivity.
    - intros pre. rewrite split_app, (split_whole w0 Hw).
      unfold JS.pop. apply last_snoc. }
  split.
  - intros H. destruct (last_separator s) as [Hs | (pre & w0 & -> & Hw)].
    + rewrite (proj1 (Hback s Hs)) in H. injection H as <-. auto.
    + rewrite (proj2 (Hback w0 Hw)) in H. injection H as <-. eauto.
  - intros [Hw [-> | [pre ->]]]; apply Hback; exact Hw.
Qed.

Lemma first_split s w :
  has_char sep w = false ->
  JS.first (JS.split sep s) = Some w <->
  s = w \/ exists rest, s = (w ++ String sep rest)%string.
Proof.
  revert s. induction w as [|a w IH]; intros s Hw.
  - destruct s as [|ch s]; cbn.
    + split; auto.
    + destruct (Ascii.eqb_spec ch sep) as [->|Hne]; cbn.
      * split; eauto.
      * split.
        -- destruct (JS.split sep s); discriminate.
        -- intros [H | [rest H]]; [discriminate|].
           rewrite app_nil_s in H. congruence.
  - cbn in Hw. apply orb_false_iff in Hw as [Ha Hw].
    apply Ascii.eqb_neq in Ha.
    destruct s as [|ch s]; cbn.
    + split; [discriminate|]. intros [H | [rest H]]; discriminate.
    + destruct (Ascii.eqb_spec ch sep) as [->|Hne]; cbn.
      * split; [discriminate|].
        intros [H | [rest H]]; rewrite ?app_cons_s in H; congruence.
      * specialize (IH s Hw). pose proof (split_nonempty s) as Hn.
        destruct (JS.split sep s) as [|w1 ws]; [congruence|]. cbn in IH |- *.
        split.
        -- intros [= -> ->]. destruct (proj1 IH eq_refl) as [-> | [rest ->]];
             eauto.
        -- intros [H | [rest H]]; rewrite ?app_cons_s in H;
             injection H as -> ->;
             f_equal; f_equal; symmetry;
             assert (Some w1 = Some w) as [= ->] by (apply IH; eauto);
             reflexivity.
Qed.

End Split.

(** ** Dropped files *)

(** X6: dropping files starts one read for each file whose media type is
    'image' or begins with 'image/', in the order of the files, and changes
    neither the document nor the selection nor the pending marks at that
    time. *)
Theorem dropped_files_are_read (files : list File) (e : EditorState) :
  let e' := fold_left readFile files e in
  children e' = children e /\
  selection e' = selection e /\
  marks e' = marks e /\
  reading e' = reading e ++ List.filter isImageFile files /\
  forall file,
    isImageFile file = true <->
    file_type file = "image" \/
    exists rest, file_type file = ("image/" ++ rest)%string.
Proof.
  cbn zeta. split; [|split; [|split; [|split]]].
  - revert e. induction files as [|f fs IH]; intros e; [reflexivity|].
    cbn [fold_left]. rewrite IH. unfold readFile.
    destruct (JS.first _); [destruct (String.eqb _ _)|]; reflexivity.
  - revert e. induction files as [|f fs IH]; intros e; [reflexivity|].
    cbn [fold_left]. rewrite IH. unfold readFile.
    destruct (JS.first _); [destruct (String.eqb _ _)|]; reflexivity.
  - revert e. induction files as [|f fs IH]; intros e; [reflexivity|].
    cbn [fold_left]. rewrite IH. unfold readFile.
    destruct (JS.first _); [destruct (String.eqb _ _)|]; reflexivity.
  - revert e. induction files as [|f fs IH]; intros e.
    + cbn. rewrite app_nil_r. reflexivity.
    + cbn [fold_left List.filter]. rewrite IH. unfold readFile, isImageFile.
      destruct (JS.first _) as [mime|]; [destruct (String.eqb mime "image")|];
        cbn [reading with_reading]; rewrite <- ?app_assoc; reflexivity.
  - intros file. unfold isImageFile.
    rewrite <- (first_split "/" (file_type file) "image" eq_refl).
    destruct (JS.first _) as [mime|]; [|split; discriminate].
    rewrite String.eqb_eq. split; congruence.
Qed.

(** ** Image URLs *)

Section ImageUrl.
Context (isUrl : string -> bool).
Context (imageExtensions : list string).
Context (urlPathname : string -> option string).

Lemma includes_In l x : JS.includes l x = true <-> In x l.
Proof.
  unfold JS.includes. rewrite existsb_exists. split.
  - intros (y & Hy & He). apply String.eqb_eq in He. subst. exact Hy.
  - intros H. exists x. split; [exact H|apply String.eqb_refl].
Qed.

(** X7: [isImageUrl] ends with an error exactly when the text is not
    empty, [isUrl] accepts it and the [URL] constructor throws on it.  It
    answers [true] exactly when the text is not empty, [isUrl] accepts it,
    and the part of the pathname after its last '.', or the whole pathname
    when it has no '.', is one of the image extensions, compared as it is
    written. *)
Theorem isImageUrl_spec (url : string) :
  (isImageUrl isUrl imageExtensions urlPathname url = None <->
     JS.truthy url = true /\ isUrl url = true /\ urlPathname url = None) /\
  (isImageUrl isUrl imageExtensions urlPathname url = Some true <->
     JS.truthy url = true /\ isUrl url = true /\
     exists pathname ext,
       urlPathname url = Some pathname /\
       In ext imageExtensions /\
       has_char "." ext = false /\
       (pathname = ext \/
        exists pre, pathname = (pre ++ String "." ext)%string)).
Proof.
  unfold isImageUrl.
  destruct (JS.truthy url); cbn [negb];
    [|split; split; [discriminate | intros [? _]; discriminate
                     | discriminate | intros [? _]; discriminate]].
  destruct (isUrl url); cbn [negb];
    [|split; split; [discriminate | intros (_ & ? & _); discriminate
                     | discriminate | intros (_ & ? & _); discriminate]].
  destruct (urlPathname url) as [pathname|].
  - split.
    + split; [|intros (_ & _ & ?); discriminate].
      destruct (JS.pop _); discriminate.
    + split.
      * destruct (JS.pop (JS.split "." pathname)) as [ext|] eqn:Ep;
          [|discriminate].
        intros [= Hin]. apply includes_In in Hin.
        apply pop_split in Ep as [Hd Hs].
        split; [reflexivity|]. split; [reflexivity|]. eauto 6.
      * intros (_ & _ & p & ext & [= <-] & Hin & Hd & Hs).
        rewrite (proj2 (pop_split "." pathname ext) (conj Hd Hs)).
        f_equal. apply includes_In, Hin.
  - split; split; try discriminate; auto.
    intros (_ & _ & p & ext & ? & _). discriminate.
Qed.

End ImageUrl.

(** ** The texts of the document under the block commands *)

Section TextFacts.
Context (c : Classify).

Lemma concat_insert_text (ks : list Node) x k k' :
  ks !! x = Some k -> node_text k' = node_text k ->
  concat (map node_text (<[x := k']> ks)) = concat (map node_text ks).
Proof.
  intros Hx Hk. rewrite <- (take_drop_middle ks x k Hx) at 2.
  rewrite insert_take_drop by (eapply lookup_lt_Some; eauto).
  rewrite !map_app, !map_cons, Hk. reflexivity.
Qed.

Lemma texts_app ks1 ks2 : texts (ks1 ++ ks2) = texts ks1 ++ texts ks2.
Proof. unfold texts. rewrite map_app, concat_app. reflexivity. Qed.

Lemma halves_text t a before inside after :
  texts (Transforms.halves t a before inside after)
  = texts before ++ texts inside ++ texts after.
Proof.
  unfold Transforms.halves. rewrite !texts_app.
  destruct before, after; unfold texts; cbn [map concat node_text];
    rewrite ?app_nil_r; reflexivity.
Qed.

Lemma take_mid_drop {A} (ks : list A) i j :
  i <= j -> take i ks ++ take (j - i) (drop i ks) ++ drop j ks = ks.
Proof.
  intros H. rewrite <- (take_drop i ks) at 4. f_equal.
  rewrite <- (take_drop (j - i) (drop i ks)) at 2. f_equal.
  rewrite drop_drop. f_equal. lia.
Qed.

Lemma unwrap_node_text split m n : forall lo hi,
  texts (Transforms.unwrap_node c split m lo hi n) = node_text n.
Proof.
  induction n as [s mk | t a ks IH] using Node_forall_ind; intros lo hi;
    rewrite unwrap_node_eq; [reflexivity|].
  destruct (isVoid c (Element t a ks));
    [unfold texts; cbn [map concat]; rewrite ?app_nil_r; reflexivity|].
  destruct (Tree.lowest_hit c m lo hi (Element t a ks)).
  - cbn zeta.
    set (i := if split then lo_idx lo else 0).
    set (j := if split then hi_idx hi (length ks) else length ks).
    destruct (take (j - i) (drop i ks)) as [|k0 inside] eqn:Ei;
      [unfold texts; cbn [map concat]; rewrite ?app_nil_r; reflexivity|].
    rewrite <- Ei, halves_text, <- !texts_app.
    destruct (Nat.le_gt_cases i j) as [Hij|Hij].
    + rewrite take_mid_drop by exact Hij. reflexivity.
    + replace (j - i) with 0 in Ei by lia. discriminate.
  - unfold texts at 1. cbn [map concat node_text]. rewrite app_nil_r.
    generalize 0.
    induction IH as [|k ks' Hk _ IHks]; intros i; [reflexivity|].
    rewrite unwrap_kids_cons. fold (texts (k :: ks')).
    change (texts (k :: ks')) with (node_text k ++ texts ks').
    fold (texts ((if in_span lo hi i
                  then Transforms.unwrap_node c split m (sub lo i) (sub hi i) k
                  else [k])
                 ++ Transforms.unwrap_kids c split m lo hi (S i) ks')).
    rewrite texts_app. unfold texts at 2. rewrite IHks. f_equal.
    destruct (in_span lo hi i); [apply Hk|].
    unfold texts; cbn [map concat]; rewrite ?app_nil_r; reflexivity.
Qed.

Lemma unwrapNodes_text m split e :
  document_text (Transforms.unwrapNodes c m split e) = document_text e.
Proof.
  unfold Transforms.unwrapNodes, document_text.
  destruct (selection e) as [r|]; [|reflexivity]. cbn [children].
  generalize 0. induction (children e) as [|k ks IH]; intros i; [reflexivity|].
  rewrite unwrap_kids_cons. fold (texts (k :: ks)).
  change (texts (k :: ks)) with (node_text k ++ texts ks).
  match goal with |- concat (map node_text ?l) = _ => fold (texts l) end.
  rewrite texts_app. unfold texts at 2. rewrite IH. f_equal.
  destruct (in_span _ _ i); [apply unwrap_node_text|].
  unfold texts; cbn [map concat]; rewrite ?app_nil_r; reflexivity.
Qed.

(** *** The matches of a transform come in document order *)

Lemma compare_refl p : Path.compare p p = Eq.
Proof.
  induction p as [|x p IH]; [reflexivity|]. cbn.
  rewrite Nat.compare_refl. exact IH.
Qed.

(** The first lowest match is not after any other. *)
Lemma lowest_in_first m n : forall lo hi a l b,
  Tree.lowest_in c m lo hi n = a :: l -> In b (a :: l) ->
  Path.compare (snd a) (snd b) <> Gt.
Proof.
  induction n as [s mk | t a0 ks IH] using Node_forall_ind;
    intros lo hi a l b Hl Hb; rewrite lowest_in_below in Hl.
  - cbn in Hl. destruct (m (Text s mk)); [|discriminate].
    injection Hl as <- <-. destruct Hb as [<-|[]]. cbn. discriminate.
  - destruct (Tree.lowest_below c m lo hi (Element t a0 ks)) as [|a' l'] eqn:Eb.
    { destruct (m (Element t a0 ks)); [|discriminate].
      injection Hl as <- <-. destruct Hb as [<-|[]]. cbn. discriminate. }
    injection Hl as -> ->. unfold Tree.lowest_below in Eb.
    destruct (isVoid c (Element t a0 ks)); [discriminate|].
    revert Eb. generalize 0.
    induction IH as [|k ks' Hk _ IHks]; intros i Eb; [discriminate|].
    rewrite lowest_kids_cons in Eb.
    destruct (if in_span lo hi i
              then map (under i) (Tree.lowest_in c m (sub lo i) (sub hi i) k)
              else []) as [|a1 l1] eqn:E1.
    + cbn [app] in Eb. eapply IHks; eauto.
    + cbn [app] in Eb. injection Eb as -> El.
      destruct (in_span lo hi i); [|discriminate].
      destruct (Tree.lowest_in c m (sub lo i) (sub hi i) k) as [|a2 l2] eqn:E2;
        [discriminate|].
      cbn [map] in E1. injection E1 as <- <-.
      destruct Hb as [<- | Hb].
      * rewrite compare_refl. discriminate.
      * rewrite <- El in Hb. apply in_app_or in Hb as [Hb | Hb].
        -- apply in_map_iff in Hb as (b0 & <- & Hb0).
           unfold under. cbn [snd Path.compare]. rewrite Nat.compare_refl.
           eapply Hk; [exact E2 | right; exact Hb0].
        -- destruct b as [nb pb].
           apply lowest_kids_In in Hb as (x & r & k' & -> & _ & _ & _).
           unfold under. cbn [snd Path.compare].
           destruct (Nat.compare_spec i (S i + x)); [lia | | lia].
           discriminate.
Qed.

Lemma lowest_kids_first m lo hi ks : forall i a l b,
  Tree.lowest_kids c m lo hi i ks = a :: l -> In b (a :: l) ->
  Path.compare (snd a) (snd b) <> Gt.
Proof.
  induction ks as [|k ks IH]; intros i a l b Eb Hb; [discriminate|].
  rewrite lowest_kids_cons in Eb.
  destruct (if in_span lo hi i
            then map (under i) (Tree.lowest_in c m (sub lo i) (sub hi i) k)
            else []) as [|a1 l1] eqn:E1.
  - cbn [app] in Eb. eapply IH; eauto.
  - cbn [app] in Eb. injection Eb as -> El.
    destruct (in_span lo hi i); [|discriminate].
    destruct (Tree.lowest_in c m (sub lo i) (sub hi i) k) as [|a2 l2] eqn:E2;
      [discriminate|].
    cbn [map] in E1. injection E1 as <- <-.
    destruct Hb as [<- | Hb].
    + rewrite compare_refl. discriminate.
    + rewrite <- El in Hb. apply in_app_or in Hb as [Hb | Hb].
      * apply in_map_iff in Hb as (b0 & <- & Hb0).
        unfold under. cbn [snd Path.compare]. rewrite Nat.compare_refl.
        eapply lowest_in_first; [exact E2 | right; exact Hb0].
      * destruct b as [nb pb].
        apply lowest_kids_In in Hb as (x & r & k' & -> & _ & _ & _).
        unfold under. cbn [snd Path.compare].
        destruct (Nat.compare_spec i (S i + x)); [lia | | lia].
        discriminate.
Qed.

Lemma common_order : forall fp lp i j,
  Path.compare fp lp <> Gt ->
  fp !! length (Path.common fp lp) = Some i ->
  lp !! length (Path.common fp lp) = Some j ->
  i <= j.
Proof.
  induction fp as [|a fp IH]; intros lp i j Hc Hi Hj; [discriminate|].
  destruct lp as [|b lp]; [discriminate|].
  cbn [Path.compare Path.common] in *.
  destruct (Nat.compare_spec a b) as [->|Hlt|Hgt].
  - rewrite Nat.eqb_refl in Hi, Hj. cbn in Hi, Hj. eapply IH; eauto.
  - destruct (Nat.eqb_spec a b); [lia|]. cbn in Hi, Hj.
    injection Hi as <-. injection Hj as <-. lia.
  - congruence.
Qed.

Lemma wrap_span_order (ms : list Entry) a l cp i j :
  ms = a :: l ->
  (forall b, In b (a :: l) -> Path.compare (snd a) (snd b) <> Gt) ->
  Transforms.wrap_span ms = Some (cp, i, j) -> i <= j.
Proof.
  intros -> Hfirst. unfold Transforms.wrap_span.
  set (fp := snd a). set (lp := snd (List.last (a :: l) a)).
  assert (Hc : Path.compare fp lp <> Gt).
  { apply Hfirst. destruct (exists_last (l := a :: l)) as (l' & z & E);
      [discriminate|].
    rewrite E, last_last. rewrite <- E. rewrite E. apply in_or_app. right.
    left. reflexivity. }
  unfold Path.equals. destruct (bool_decide (fp = lp)) eqn:Ee.
  - apply bool_decide_eq_true in Ee. rewrite <- Ee.
    destruct (fp !! _) as [i0|]; [|discriminate]. intros [= _ <- <-]. lia.
  - destruct (fp !! _) as [i0|] eqn:Ei; [|discriminate].
    destruct (lp !! _) as [j0|] eqn:Ej; [|discriminate].
    intros [= _ <- <-]. eapply common_order; eauto.
Qed.

Lemma wrap_at_text t a wks cp : forall ks i j,
  i <= j ->
  texts (Transforms.wrap_at (Element t a wks) cp i j ks) = texts ks.
Proof.
  induction cp as [|x cp IH]; intros ks i j Hij; cbn [Transforms.wrap_at].
  - rewrite !texts_app. unfold texts at 2.
    cbn [map concat Transforms.rewrap node_text]. rewrite app_nil_r.
    fold (texts (take (S j - i) (drop i ks))). rewrite <- !texts_app.
    rewrite take_mid_drop by lia. reflexivity.
  - destruct (ks !! x) as [[s mk | t' a' ks']|] eqn:Ex; try reflexivity.
    unfold texts. apply concat_insert_text with (k := Element t' a' ks');
      [exact Ex|]. cbn [node_text]. apply IH, Hij.
Qed.

End TextFacts.

(** ** Commands without a selection, and the buttons that ask for a URL *)

(** X8: without a selection no format, mark or link is active, and
    [toggleBlock] and [toggleMark] leave the editor state as it is, for
    every format. *)
Theorem commands_without_selection (c : Classify) (format : string)
  (e : EditorState) :
  selection e = None ->
  toggleBlock c format e = e /\
  toggleMark c format e = e /\
  isBlockActive c e format = false /\
  isMarkActive c e format = false /\
  isLinkActive c e = false.
Proof.
  intros Hs.
  assert (Hn : forall m, Editor.nodes c m e = []).
  { intros m. unfold Editor.nodes, Tree.nodes. rewrite Hs. reflexivity. }
  assert (Hb : forall f, isBlockActive c e f = false).
  { intros f. unfold isBlockActive. rewrite Hn. reflexivity. }
  assert (Hm : isMarkActive c e format = false).
  { unfold isMarkActive, Editor.marks. rewrite Hs. reflexivity. }
  split; [|split; [|split; [|split]]].
  - unfold toggleBlock. rewrite Hb. cbn [negb andb].
    assert (H1 : Transforms.unwrapNodes c isListType true e = e).
    { unfold Transforms.unwrapNodes. rewrite Hs. reflexivity. }
    rewrite H1.
    assert (H2 : forall ty,
              Transforms.setNodes c (set_type ty) (isBlock c) e = e).
    { intros ty. unfold Transforms.setNodes. rewrite Hs. reflexivity. }
    rewrite H2.
    destruct (JS.includes LIST_TYPES format); [|reflexivity].
    unfold Transforms.wrapNodes, Transforms.wrapNodes_inline,
      Transforms.wrapNodes_block.
    rewrite Hs. destruct (_ && _); reflexivity.
  - unfold toggleMark. rewrite Hm. unfold Editor.addMark. rewrite Hs.
    reflexivity.
  - apply Hb.
  - exact Hm.
  - unfold isLinkActive. rewrite Hn. reflexivity.
Qed.

(** X9: the link button and the image button change nothing when the
    prompt is cancelled or left empty, and the link button changes nothing
    without a selection; with a text typed into the prompt they run
    [wrapLink] (with a selection) and [insertImage]. *)
Theorem prompt_buttons (deleteFragment : EditorState -> EditorState)
  (c : Classify) (answer : option string) (e : EditorState) :
  (answer = None \/ answer = Some "" ->
   LinkButton_onMouseDown deleteFragment c answer e = e /\
   InsertImageButton_onMouseDown deleteFragment c answer e = e) /\
  (selection e = None ->
   LinkButton_onMouseDown deleteFragment c answer e = e) /\
  (forall url, answer = Some url -> JS.truthy url = true ->
   InsertImageButton_onMouseDown deleteFragment c answer e
     = insertImage deleteFragment c url e /\
   (is_Some (selection e) ->
    LinkButton_onMouseDown deleteFragment c answer e
      = wrapLink deleteFragment c url e)).
Proof.
  split; [|split].
  - intros [-> | ->]; split; reflexivity.
  - intros Hs. unfold LinkButton_onMouseDown, insertLink. rewrite Hs.
    destruct answer as [url|]; [|reflexivity].
    destruct (JS.truthy url); reflexivity.
  - intros url -> Hu. unfold LinkButton_onMouseDown,
      InsertImageButton_onMouseDown, insertLink.
    rewrite Hu. split; [reflexivity|]. intros [r ->]. reflexivity.
Qed.

(** ** The checkbox of a checklist item *)

Lemma set_at_reaches c patch :
  (forall k, node_text (patch k) = node_text k) ->
  forall p n, reaches c n p = true ->
  exists n0 n',
    Tree.descend n p = Some n0 /\
    set_at c patch p n = Some n' /\
    Tree.descend n' p = Some (patch n0) /\
    node_text n' = node_text n.
Proof.
  intros Hpatch p. induction p as [|x r IH]; intros n Hr.
  - exists n, (patch n). cbn. auto.
  - cbn [reaches] in Hr. apply andb_true_iff in Hr as [Hv Hr].
    apply negb_true_iff in Hv.
    destruct n as [s mk | t a ks]; [discriminate|]. cbn [node_children] in Hr.
    destruct (ks !! x) as [k|] eqn:Ex; [|discriminate].
    destruct (IH k Hr) as (n0 & k' & Hd & Hset & Hd' & Ht).
    exists n0, (Element t a (<[x := k']> ks)).
    cbn [Tree.descend node_children set_at]. rewrite Ex, Hset, Hv.
    split; [exact Hd|]. split; [reflexivity|].
    rewrite list_lookup_insert_eq by (eapply lookup_lt_Some; eauto).
    split; [exact Hd'|]. cbn [node_text].
    apply concat_insert_text with (k := k); assumption.
Qed.

Lemma set_prop_text key v k : node_text (set_prop key v k) = node_text k.
Proof. destruct k; reflexivity. Qed.

(** X10: ticking or clearing the checkbox of the checklist item at a path
    sets the [checked] attribute of that element and nothing else of it;
    the texts of the document and the selection stay as they are.  The item
    is then drawn with the box in that state, and its text is struck
    through when the box is clear and plain when it is ticked. *)
Theorem checkbox_sets_checked (c : Classify) (path : Path) (checked : bool)
  (e : EditorState) (a : gmap string Value) (ks : list Node) :
  path_reaches c (children e) path = true ->
  Tree.node_at (children e) path = Some (Element "check-list-item" a ks) ->
  let item :=
    Element "check-list-item" (<["checked" := VBool checked]> a) ks in
  exists e',
    CheckListItemElement_onChange c path checked e = Some e' /\
    Tree.node_at (children e') path = Some item /\
    document_text e' = document_text e /\
    selection e' = selection e /\
    forall h,
      Element_view h item =
        Tag "div" []
          [ Tag "span" [("contentEditable", VBool false)]
              [ Tag "input"
                  [("type", VStr "checkbox"); ("checked", VBool checked)] [] ];
            Tag "span"
              [ ("contentEditable", VBool (negb (readOnly h)));
                ("opacity", VStr (if checked then "0.666" else "1"));
                ("text-decoration",
                 VStr (if checked then "none" else "line-through")) ]
              [Slot] ].
Proof.
  intros Hr Hn. cbn zeta.
  destruct path as [|x r]; [discriminate|].
  cbn [path_reaches Tree.node_at] in Hr, Hn.
  destruct (children e !! x) as [k|] eqn:Ex; [|discriminate].
  destruct (set_at_reaches c (set_prop "checked" (VBool checked))
              (set_prop_text _ _) r k Hr) as (n0 & k' & Hd & Hset & Hd' & Ht).
  rewrite Hn in Hd. injection Hd as <-.
  exists (with_children (<[x := k']> (children e)) e).
  unfold CheckListItemElement_onChange, setNodes_at. rewrite Ex, Hset.
  split; [reflexivity|]. split; [|split; [|split]].
  - cbn [Tree.node_at with_children children].
    rewrite list_lookup_insert_eq by (eapply lookup_lt_Some; eauto).
    exact Hd'.
  - unfold document_text. cbn [with_children children].
    apply concat_insert_text with (k := k); assumption.
  - reflexivity.
  - intros h. unfold Element_view, has_type. cbn [node_type].
    cbn [String.eqb Ascii.eqb Bool.eqb].
    unfold CheckListItemElement. cbn [node_props].
    rewrite lookup_insert_eq. cbn [attr truthy_value app]. reflexivity.
Qed.

Lemma commands_without_selection_witness :
  selection (doc initialValue None) = None /\
  toggleBlock codexClassify "numbered-list" (doc initialValue None)
  = doc initialValue None.
Proof.
  split; [reflexivity|].
  apply (commands_without_selection codexClassify "numbered-list"
           (doc initialValue None)).
  reflexivity.
Defined.

Lemma prompt_buttons_witness :
  LinkButton_onMouseDown sampleDelete codexClassify (Some "")
    (doc initialValue (Some (caret [0; 0] 0)))
  = doc initialValue (Some (caret [0; 0] 0)).
Proof.
  apply (proj1 (prompt_buttons sampleDelete codexClassify (Some "")
                  (doc initialValue (Some (caret [0; 0] 0))))).
  right. reflexivity.
Defined.

Lemma checkbox_sets_checked_witness :
  path_reaches codexClassify initialValue [4] = true /\
  Tree.node_at initialValue [4]
    = Some (Element "check-list-item" {[ "checked" := VBool false ]}
              [txt "Criss-cross."]) /\
  exists e',
    CheckListItemElement_onChange codexClassify [4] true
      (doc initialValue None) = Some e' /\
    Tree.node_at (children e') [4]
      = Some (Element "check-list-item"
                (<["checked" := VBool true]> {[ "checked" := VBool false ]})
                [txt "Criss-cross."]).
Proof.
  split; [reflexivity|]. split; [reflexivity|].
  destruct (checkbox_sets_checked codexClassify [4] true
              (doc initialValue None) {[ "checked" := VBool false ]}
              [txt "Criss-cross."] eq_refl eq_refl)
    as (e' & H1 & H2 & _).
  exists e'. split; [exact H1 | exact H2].
Defined.

(** ** [toggleBlock]: the texts, and the block at the caret *)

Section ToggleFacts.
Local Abbreviation cc := codexClassify.

Lemma wrapNodes_block_text c t a wks e :
  document_text (Transforms.wrapNodes_block c (Element t a wks) e)
  = document_text e.
Proof.
  unfold Transforms.wrapNodes_block, document_text.
  destruct (selection e) as [r|] eqn:Hs; [|reflexivity]. cbn [children].
  unfold Transforms.wrap_run.
  destruct (Transforms.wrap_span (Tree.nodes_lowest c (isBlock c) e))
    as [[[cp i] j]|] eqn:Ew; [|reflexivity].
  apply wrap_at_text.
  destruct (Tree.nodes_lowest c (isBlock c) e) as [|a0 l] eqn:El;
    [discriminate|].
  eapply wrap_span_order; [reflexivity | | exact Ew].
  intros b Hb. unfold Tree.nodes_lowest in El. rewrite Hs in El.
  eapply lowest_kids_first; eauto.
Qed.

(** X11: [toggleBlock] changes no text of the document: for every format
    and every selection the texts are the same, in the same order. *)
Theorem toggleBlock_keeps_text (format : string) (e : EditorState) :
  document_text (toggleBlock cc format e) = document_text e.
Proof.
  unfold toggleBlock.
  set (ty := if isBlockActive cc e format then "paragraph"
             else if JS.includes LIST_TYPES format then "list-item"
                  else format).
  assert (H2 : document_text
                 (Transforms.setNodes cc (set_type ty) (isBlock cc)
                    (Transforms.unwrapNodes cc isListType true e))
               = document_text e).
  { rewrite setNodes_text by apply set_type_text. apply unwrapNodes_text. }
  destruct (negb (isBlockActive cc e format)); cbn [andb]; [|exact H2].
  destruct (JS.includes LIST_TYPES format) eqn:Hf; [|exact H2].
  assert (Hw : forall e2,
            Transforms.wrapNodes cc (Element format ∅ []) false e2
            = Transforms.wrapNodes_block cc (Element format ∅ []) e2).
  { intros e2. unfold Transforms.wrapNodes. cbn.
    destruct (list_format_cases format Hf) as [-> | ->]; reflexivity. }
  rewrite Hw, wrapNodes_block_text. exact H2.
Qed.

(** *** The chain of the caret after a block is wrapped *)

Lemma wrap_path_caret cp x r :
  Transforms.wrap_path cp x x (cp ++ x :: r) = cp ++ x :: 0 :: r.
Proof.
  induction cp as [|y cp IH]; cbn [app Transforms.wrap_path].
  - rewrite Nat.ltb_irrefl, Nat.leb_refl, Nat.sub_diag. reflexivity.
  - rewrite Nat.eqb_refl, IH. reflexivity.
Qed.

Lemma text_below_element t a ks z q :
  text_below cc (Element t a ks) (z :: q)
  = negb (isVoid cc (Element t a ks)) && caret_in_text cc ks (z :: q).
Proof. reflexivity. Qed.

Lemma ancestors_element t a ks z q :
  ancestors (Element t a ks) (z :: q) = Element t a ks :: chain ks (z :: q).
Proof. reflexivity. Qed.

Lemma wrap_at_chain wt wa wks cp : forall ks x r,
  isVoid cc (Element wt wa []) = false ->
  caret_in_text cc ks (cp ++ x :: r) = true ->
  let ks' := Transforms.wrap_at (Element wt wa wks) cp x x ks in
  let tys := map node_type (chain ks (cp ++ x :: r)) in
  caret_in_text cc ks' (cp ++ x :: 0 :: r) = true /\
  map node_type (chain ks' (cp ++ x :: 0 :: r))
  = take (length cp) tys ++ Some wt :: drop (length cp) tys.
Proof.
  induction cp as [|y cp IH]; intros ks x r Hv Hc; cbn zeta.
  - cbn [app Transforms.wrap_at length take drop] in *.
    unfold caret_in_text, chain in *.
    destruct (ks !! x) as [k|] eqn:Ex; [|discriminate].
    assert (Hx : x < length ks) by (eapply lookup_lt_Some; eauto).
    rewrite lookup_app_r by (rewrite length_take; lia).
    rewrite length_take. replace (x - x `min` length ks) with 0 by lia.
    replace (S x - x) with 1 by lia. rewrite (drop_S ks k x Ex).
    cbn [take lookup list_lookup app Transforms.rewrap].
    split.
    + cbn [text_below isElement isText negb node_children andb].
      rewrite (isVoid_cc_type wt wa _ wa []), Hv. cbn. exact Hc.
    + reflexivity.
  - cbn [app Transforms.wrap_at length] in *.
    destruct (cp ++ x :: r) as [|z q] eqn:Ep; [destruct cp; discriminate|].
    destruct (cp ++ x :: 0 :: r) as [|z' q'] eqn:Ep';
      [destruct cp; discriminate|].
    unfold caret_in_text in Hc |- *. unfold chain.
    destruct (ks !! y) as [k0|] eqn:Ey; [|discriminate].
    destruct k0 as [s mk | t a ks0]; [discriminate|].
    rewrite text_below_element in Hc. apply andb_true_iff in Hc as [Hnv Hc].
    assert (Hy : y < length ks) by (eapply lookup_lt_Some; eauto).
    rewrite list_lookup_insert_eq by exact Hy.
    rewrite <- Ep in Hc. destruct (IH ks0 x r Hv Hc) as [IH1 IH2].
    cbn zeta in IH1, IH2. rewrite Ep' in IH1, IH2. rewrite Ep in IH2.
    rewrite text_below_element, !ancestors_element.
    rewrite (isVoid_cc_type t a _ a ks0), Hnv, IH1.
    split; [reflexivity|]. cbn [map take drop app]. rewrite IH2. reflexivity.
Qed.

Lemma wrap_span_caret e :
  at_caret cc e = true ->
  let p := anchor_path e in
  Transforms.wrap_span (Tree.nodes_lowest cc (isBlock cc) e) =
    match lowest_index (isBlock cc) (chain (children e) p) with
    | Some i => Some (take i p, nth i p 0, nth i p 0)
    | None => None
    end.
Proof.
  intros H. destruct (at_caret_inv e H) as (pt & x & r & k & Hs & Hp & Hx & Hk).
  cbn zeta. unfold Tree.nodes_lowest, anchor_path, chain. rewrite Hs.
  destruct (caret_span pt) as [-> ->]. cbn [Range.anchor]. rewrite Hp, Hx.
  rewrite lowest_kids_caret, Nat.sub_0_r, Hx by lia.
  rewrite (lowest_in_caret _ _ _ Hk).
  destruct (lowest_index (isBlock cc) (ancestors k r)) as [i|] eqn:El;
    [|reflexivity].
  destruct (lowest_index_lookup _ _ _ El) as (n & Hn & _). rewrite Hn.
  assert (Hi : i < length (x :: r)).
  { apply lookup_lt_Some in Hn. pose proof (ancestors_length k r).
    cbn [length]. lia. }
  destruct (take_succ_parent (x :: r) i Hi) as [Hpar Hlast].
  unfold Transforms.wrap_span.
  cbn [map under fst snd List.last].
  change (x :: take i r) with (take (S i) (x :: r)).
  unfold Path.equals. rewrite bool_decide_eq_true_2 by reflexivity.
  rewrite Hpar.
  assert (Hlen : length (take i (x :: r)) = i)
    by (rewrite length_take; lia).
  rewrite Hlen, Hlast. reflexivity.
Qed.

Lemma path_split (p : Path) i :
  i < length p -> p = take i p ++ nth i p 0 :: drop (S i) p.
Proof.
  intros Hi. destruct (lookup_lt_is_Some_2 _ _ Hi) as [y Hy].
  rewrite (nth_lookup_Some _ _ 0 _ Hy). symmetry.
  apply take_drop_middle, Hy.
Qed.

(** A block wrapper put around the lowest block at a caret enters the
    chain of the caret just above that block. *)
Lemma wrapNodes_block_caret wt wa wks e i :
  at_caret cc e = true ->
  isVoid cc (Element wt wa []) = false ->
  lowest_index (isBlock cc) (chain (children e) (anchor_path e)) = Some i ->
  let e' := Transforms.wrapNodes_block cc (Element wt wa wks) e in
  let tys := map node_type (chain (children e) (anchor_path e)) in
  at_caret cc e' = true /\
  map node_type (chain (children e') (anchor_path e'))
  = take i tys ++ Some wt :: drop i tys.
Proof.
  intros Hc Hv Hi. cbn zeta.
  pose proof (wrap_span_caret e Hc) as Hw. cbn zeta in Hw. rewrite Hi in Hw.
  destruct (at_caret_inv e Hc) as (pt & x & r & k & Hs & Hp & Hx & Hk).
  assert (Hlen : i < length (anchor_path e)).
  { destruct (lowest_index_lookup _ _ _ Hi) as (n & Hn & _).
    apply lookup_lt_Some in Hn. unfold anchor_path, chain in *.
    rewrite Hs in *. cbn [Range.anchor] in *. rewrite Hp in *.
    rewrite Hx in Hn. pose proof (ancestors_length k r). cbn [length]. lia. }
  pose proof (path_split _ _ Hlen) as Hsplit.
  set (p := anchor_path e) in *. set (cp := take i p) in *.
  set (y := nth i p 0) in *. set (q := drop (S i) p) in *.
  assert (Hcl : length cp = i) by (unfold cp; rewrite length_take; lia).
  assert (Hct : caret_in_text cc (children e) (cp ++ y :: q) = true).
  { rewrite <- Hsplit. unfold p, anchor_path. rewrite Hs. cbn [Range.anchor].
    rewrite Hp. unfold caret_in_text. rewrite Hx. exact Hk. }
  destruct (wrap_at_chain wt wa wks cp (children e) y q Hv Hct) as [W1 W2].
  cbn zeta in W1, W2. rewrite <- Hsplit, Hcl in W2.
  unfold Transforms.wrapNodes_block, Transforms.wrap_run,
    Transforms.wrap_run_path.
  rewrite Hs, Hw. unfold at_caret, anchor_path.
  cbn [selection children Transforms.map_range Range.anchor Range.focus
       Point.path Point.offset].
  assert (Hpp : Point.path pt = p).
  { unfold p, anchor_path. rewrite Hs. reflexivity. }
  rewrite Hpp. unfold Transforms.map_range. cbn [Range.anchor Range.focus].
  rewrite caret_collapsed. cbn [andb].
  replace (Transforms.wrap_path cp y y p) with (cp ++ y :: 0 :: q)
    by (rewrite Hsplit at 1; symmetry; apply wrap_path_caret).
  split; [exact W1 | exact W2].
Qed.

(** *** The lowest block of a chain *)

Lemma lowest_index_app {A} (f : A -> bool) (l1 l2 : list A) :
  lowest_index f (l1 ++ l2) =
    match lowest_index f l2 with
    | Some j => Some (length l1 + j)
    | None => lowest_index f l1
    end.
Proof.
  induction l1 as [|x l1 IH]; cbn [app lowest_index length].
  - destruct (lowest_index f l2); reflexivity.
  - rewrite IH. destruct (lowest_index f l2); [reflexivity|].
    reflexivity.
Qed.

Lemma lowest_index_drop {A} (f : A -> bool) (l : list A) i :
  lowest_index f l = Some i ->
  i < length l /\ lowest_index f (drop i l) = Some 0.
Proof.
  intros H. destruct (lowest_index_lookup _ _ _ H) as (x & Hx & _).
  assert (Hi : i < length l) by (eapply lookup_lt_Some; eauto).
  split; [exact Hi|].
  rewrite <- (take_drop i l) in H at 1. rewrite lowest_index_app in H.
  rewrite length_take in H.
  destruct (lowest_index f (drop i l)) as [j|].
  - injection H as H. f_equal. lia.
  - destruct (lowest_index_lookup _ _ _ H) as (z & Hz & _).
    apply lookup_lt_Some in Hz. rewrite length_take in Hz. lia.
Qed.

Lemma lowest_index_insert {A} (f : A -> bool) (l : list A) i w :
  lowest_index f l = Some i ->
  lowest_index f (take i l ++ w :: drop i l) = Some (S i) /\
  (take i l ++ w :: drop i l) !! S i = l !! i.
Proof.
  intros H. destruct (lowest_index_drop _ _ _ H) as [Hi Hd]. split.
  - rewrite lowest_index_app. cbn [lowest_index]. rewrite Hd.
    rewrite length_take. f_equal. lia.
  - rewrite lookup_app_r by (rewrite length_take; lia).
    rewrite length_take. replace (S i - i `min` length l) with 1 by lia.
    change ((w :: drop i l) !! 1) with (drop i l !! 0).
    rewrite lookup_drop, Nat.add_0_r. reflexivity.
Qed.

Lemma caret_block_type_types e :
  caret_block_type cc e =
    let tys := map node_type (chain (children e) (anchor_path e)) in
    match lowest_index is_block_ty tys with
    | Some i => default None (tys !! i)
    | None => None
    end.
Proof.
  unfold caret_block_type. cbn zeta.
  rewrite (lowest_index_ext (isBlock cc) (fun n => is_block_ty (node_type n)))
    by apply isBlock_cc.
  rewrite (lowest_index_map node_type is_block_ty).
  destruct (lowest_index is_block_ty _) as [i|]; [|reflexivity].
  rewrite list_lookup_fmap. destruct (_ !! i); reflexivity.
Qed.

Lemma isBlockActive_types e format :
  at_caret cc e = true ->
  isBlockActive cc e format
  = existsb (is_ty format) (map node_type (chain (children e) (anchor_path e))).
Proof.
  intros H. unfold isBlockActive. rewrite (nodes_caret_exists _ e H).
  apply (existsb_types (is_ty format)).
Qed.

Lemma existsb_lookup {A} (f : A -> bool) (l : list A) i x :
  l !! i = Some x -> f x = true -> existsb f l = true.
Proof.
  intros Hl Hf. apply existsb_exists. exists x. split; [|exact Hf].
  apply list_elem_of_In. eapply list_elem_of_lookup_2, Hl.
Qed.

Lemma filter_insert_length {A} (f : A -> bool) (l : list A) i w :
  length (List.filter f (take i l ++ w :: drop i l))
  = length (List.filter f l) + (if f w then 1 else 0).
Proof.
  rewrite <- (take_drop i l) at 3. rewrite !List.filter_app, !length_app.
  cbn [List.filter]. destruct (f w); cbn [length]; lia.
Qed.

(** X12: in a document whose list containers hold only block elements, at
    a caret in a text that lies inside a block and inside no void element,
    [toggleBlock] with a format that is no void type ('math-block', 'image')
    and not the inline type 'link' leaves the caret in its text and gives
    the lowest block around the caret the type 'paragraph' when the format
    was active, 'list-item' when a list format is turned on and the format
    itself otherwise; a format that was not active is active afterwards.
    One list container around the caret is taken away, and one is put there
    when a list format is turned on: a list format turned on inside a list
    of the other type changes the list around the item. *)
Theorem toggleBlock_block_at_caret (format : string) (e : EditorState) :
  at_caret cc e = true ->
  forallb (lists_hold_blocks cc) (children e) = true ->
  existsb (isBlock cc) (chain (children e) (anchor_path e)) = true ->
  isVoid cc (Element format ∅ []) = false ->
  format <> "link" ->
  let e' := toggleBlock cc format e in
  let isActive := isBlockActive cc e format in
  let isList := JS.includes LIST_TYPES format in
  at_caret cc e' = true /\
  caret_block_type cc e'
  = Some (if isActive then "paragraph"
          else if isList then "list-item" else format) /\
  (isActive = false -> isBlockActive cc e' format = true) /\
  caret_list_depth e'
  = caret_list_depth e - 1 + (if negb isActive && isList then 1 else 0).
Proof.
  intros Hc Hh Hb Hv Hl. cbn zeta. unfold toggleBlock.
  set (ty := if isBlockActive cc e format then "paragraph"
             else if JS.includes LIST_TYPES format then "list-item"
                  else format).
  assert (Hty : isVoid cc (Element ty ∅ []) = false
                /\ is_block_ty (Some ty) = true
                /\ is_list_ty (Some ty) = false).
  { unfold ty. destruct (isBlockActive cc e format); [auto|].
    destruct (JS.includes LIST_TYPES format) eqn:Hf; [auto|].
    split; [exact Hv|]. split; [|exact Hf].
    cbn. apply negb_true_iff, String.eqb_neq, Hl. }
  destruct Hty as (Hty1 & Hty2 & Hty3).
  set (e1 := Transforms.unwrapNodes cc isListType true e).
  destruct (unwrapNodes_caret e Hc) as [Hc1 Ht1]. fold e1 in Hc1, Ht1.
  set (e2 := Transforms.setNodes cc (set_type ty) (isBlock cc) e1).
  destruct (setNodes_caret ty e1 Hc1) as (Hs2 & Ht2 & Hc2).
  fold e2 in Hs2, Ht2, Hc2. specialize (Hc2 Hty1).
  set (tys := map node_type (chain (children e) (anchor_path e))) in *.
  set (tys2 := map node_type (chain (children e2) (anchor_path e2))) in *.
  assert (Hch : chain_holds tys = true).
  { destruct (at_caret_inv e Hc) as (pt & x & r & k & Hs & Hpt & Hx & Hk).
    unfold tys, anchor_path, chain. rewrite Hs. cbn [Range.anchor].
    rewrite Hpt, Hx. apply chain_holds_of; [|exact Hk].
    exact (forallb_lookup (lists_hold_blocks cc) (children e) x k Hh Hx). }
  assert (Hb2 : existsb is_block_ty tys2 = true).
  { rewrite Ht2, (existsb_retype ty is_block_ty is_block_ty) by auto.
    rewrite Ht1. rewrite existsb_isBlock in Hb. fold tys in Hb.
    destruct (existsb is_list_ty tys) eqn:El.
    - apply block_below_list; [exact Hch | exact El].
    - rewrite drop_lowest_none by exact El. exact Hb. }
  assert (Hd2 : length (List.filter is_list_ty tys2) = caret_list_depth e - 1).
  { unfold caret_list_depth, list_depth. rewrite filter_types_length.
    fold tys. rewrite Ht2, Ht1.
    rewrite filter_retype_lowest by assumption.
    destruct (existsb is_list_ty tys) eqn:El.
    - pose proof (filter_drop_lowest is_list_ty _ El). lia.
    - rewrite drop_lowest_none by exact El.
      rewrite (filter_length_none _ _ El). reflexivity. }
  destruct (lowest_index is_block_ty tys2) as [i|] eqn:Ei;
    [|apply lowest_index_none in Ei; congruence].
  assert (Hi2 : tys2 !! i = Some (Some ty)).
  { pose proof Ei as Ei'. rewrite Ht2 in Ei'.
    apply lowest_index_retype in Ei'; [|exact Hty2]. rewrite Ht2. exact Ei'. }
  assert (Hplain : at_caret cc e2 = true /\
                   caret_block_type cc e2 = Some ty /\
                   existsb (is_ty ty) tys2 = true /\
                   caret_list_depth e2 = caret_list_depth e - 1 + 0).
  { split; [exact Hc2|]. split; [|split].
    - rewrite caret_block_type_types. cbn zeta. fold tys2. rewrite Ei, Hi2.
      reflexivity.
    - eapply existsb_lookup; [exact Hi2|]. cbn. apply String.eqb_refl.
    - unfold caret_list_depth at 1, list_depth.
      rewrite filter_types_length. fold tys2. lia. }
  destruct Hplain as (P1 & P2 & P3 & P4).
  destruct (isBlockActive cc e format) eqn:Ea; cbn [negb andb].
  { split; [exact P1|]. split; [exact P2|]. split; [discriminate|exact P4]. }
  destruct (JS.includes LIST_TYPES format) eqn:Hf.
  - assert (Hw : Transforms.wrapNodes cc (Element format ∅ []) false e2
                 = Transforms.wrapNodes_block cc (Element format ∅ []) e2).
    { unfold Transforms.wrapNodes. cbn.
      destruct (list_format_cases format Hf) as [-> | ->]; reflexivity. }
    rewrite Hw.
    assert (Ei' : lowest_index (isBlock cc)
                    (chain (children e2) (anchor_path e2)) = Some i).
    { rewrite (lowest_index_ext (isBlock cc)
                 (fun n => is_block_ty (node_type n))) by apply isBlock_cc.
      rewrite (lowest_index_map node_type is_block_ty). exact Ei. }
    destruct (wrapNodes_block_caret format ∅ [] e2 i Hc2 Hv Ei') as [W1 W2].
    cbn zeta in W1, W2. fold tys2 in W2.
    destruct (lowest_index_insert is_block_ty tys2 i (Some format) Ei)
      as [L1 L2].
    split; [exact W1|]. split; [|split].
    + rewrite caret_block_type_types. cbn zeta. rewrite W2, L1, L2, Hi2.
      reflexivity.
    + intros _. rewrite (isBlockActive_types _ _ W1), W2.
      rewrite existsb_app. cbn [existsb is_ty]. rewrite String.eqb_refl.
      rewrite orb_true_r. reflexivity.
    + unfold caret_list_depth at 1, list_depth.
      rewrite filter_types_length, W2, filter_insert_length, Hd2.
      cbn [is_list_ty]. rewrite Hf. reflexivity.
  - split; [exact P1|]. split; [exact P2|]. split; [|exact P4]. intros _.
    rewrite (isBlockActive_types _ _ P1). exact P3.
Qed.

End ToggleFacts.

Lemma toggleBlock_block_at_caret_witness :
  let e := doc listDocument (Some (caret [0; 1; 0] 0)) in
  at_caret codexClassify e = true /\
  isBlockActive codexClassify e "bulleted-list" = false /\
  caret_block_type codexClassify (toggleBlock codexClassify "bulleted-list" e)
  = Some "list-item" /\
  isBlockActive codexClassify (toggleBlock codexClassify "bulleted-list" e)
    "bulleted-list" = true /\
  caret_list_depth (toggleBlock codexClassify "bulleted-list" e) = 1.
Proof.
  cbn zeta.
  destruct (toggleBlock_block_at_caret "bulleted-list"
              (doc listDocument (Some (caret [0; 1; 0] 0)))
              eq_refl eq_refl eq_refl eq_refl ltac:(discriminate))
    as (H1 & H2 & H3 & H4).
  split; [reflexivity|]. split; [reflexivity|].
  split; [exact H2|]. split; [exact (H3 eq_refl) | exact H4].
Defined.

(** ** Nodes inserted at a caret *)

Section InsertFacts.
Local Abbreviation cc := codexClassify.

(** The node put in at depth [d] on the way to a caret is in the document,
    at the path that [insert_at] reports; a path into a Text of the new node
    is a path into a Text of the document. *)
Lemma insert_at_depth node o : forall d r ks x k,
  ks !! x = Some k -> text_below cc k r = true -> d <= length r ->
  exists ks' z q,
    Transforms.insert_at cc node d (x :: r) o ks = (ks', z :: q) /\
    Tree.node_at ks' (z :: q) = Some node /\
    forall lp, text_below cc node lp = true ->
      caret_in_text cc ks' ((z :: q) ++ lp) = true /\
      In node (chain ks' ((z :: q) ++ lp)).
Proof.
  induction d as [|d IH]; intros r ks x k Hx Hk Hd.
  - cbn [Transforms.insert_at]. rewrite Hx.
    destruct (Transforms.split_node cc k r o) as [l rr].
    eexists _, _, _. split; [reflexivity|].
    assert (Hxl : x < length ks) by (eapply lookup_lt_Some; eauto).
    assert (Hlook : (take x ks ++ l ++ [node] ++ rr ++ drop (S x) ks)
                      !! (x + length l) = Some node).
    { rewrite lookup_app_r by (rewrite length_take; lia).
      rewrite length_take.
      replace (x + length l - x `min` length ks) with (length l) by lia.
      rewrite lookup_app_r by lia. rewrite Nat.sub_diag. reflexivity. }
    split.
    + cbn [Tree.node_at]. rewrite Hlook. reflexivity.
    + intros lp Hlp.
      change ([x + length l] ++ lp) with ((x + length l) :: lp).
      unfold caret_in_text, chain. rewrite Hlook.
      split; [exact Hlp|]. destruct lp; left; reflexivity.
  - destruct r as [|y r]; [cbn in Hd; lia|]. cbn [length] in Hd.
    destruct k as [|t a ks0]; [discriminate|].
    cbn [text_below isElement isText negb node_children andb] in Hk.
    destruct (isVoid cc (Element t a ks0)) eqn:Ev; [discriminate|].
    destruct (ks0 !! y) as [k'|] eqn:Ey; [|discriminate].
    destruct (IH r ks0 y k' Ey Hk ltac:(lia)) as (ks' & z & q & Hi & Hn & Ht).
    cbn [Transforms.insert_at]. rewrite Hx, Hi.
    eexists _, _, _. split; [reflexivity|].
    assert (Hxl : x < length ks) by (eapply lookup_lt_Some; eauto).
    split.
    + cbn [Tree.node_at]. rewrite list_lookup_insert_eq by exact Hxl.
      rewrite descend_node_at. exact Hn.
    + intros lp Hlp. destruct (Ht lp Hlp) as [Ht1 Ht2].
      cbn [app] in Ht1, Ht2 |- *. unfold caret_in_text, chain.
      rewrite list_lookup_insert_eq by exact Hxl.
      cbn [text_below isElement isText negb node_children andb ancestors].
      rewrite (isVoid_cc_type t a _ a ks0), Ev. cbn [negb andb].
      unfold caret_in_text in Ht1. unfold chain in Ht2.
      destruct (ks' !! z) as [k1|]; [|discriminate].
      split; [exact Ht1|]. right. exact Ht2.
Qed.

(** [insertNodes] at a caret, for a node of any kind but a Text: the
    depth of the cut is that of the lowest node of the chain that matches
    the kind of the node. *)
Lemma insertNodes_at_caret deleteFragment node e i :
  at_caret cc e = true ->
  isText node = false ->
  lowest_index
    (if isInline cc node then Transforms.inline_or_text cc else isBlock cc)
    (chain (children e) (anchor_path e)) = Some i ->
  let e' := Transforms.insertNodes cc deleteFragment node e in
  exists ip,
    Tree.node_at (children e') ip = Some node /\
    selection e' =
      Some (caret (ip ++ fst (Transforms.last_leaf node))
              (snd (Transforms.last_leaf node))) /\
    forall lp, text_below cc node lp = true ->
      caret_in_text cc (children e') (ip ++ lp) = true /\
      In node (chain (children e') (ip ++ lp)).
Proof.
  intros H Ht Hi.
  destruct (at_caret_inv e H) as (pt & x & r & k & Hs & Hp & Hx & Hk).
  cbn zeta. unfold Transforms.insertNodes. rewrite Hs, caret_collapsed, Hs.
  cbn [Range.anchor]. rewrite Ht, Hp.
  unfold anchor_path, chain in Hi. rewrite Hs in Hi. cbn [Range.anchor] in Hi.
  rewrite Hp, Hx in Hi.
  set (m := if isInline cc node then Transforms.inline_or_text cc
            else isBlock cc) in *.
  unfold Transforms.match_depth.
  rewrite lowest_kids_caret, Nat.sub_0_r, Hx by lia.
  rewrite (lowest_in_caret _ _ _ Hk), Hi.
  destruct (lowest_index_lookup _ _ _ Hi) as (n & Hn & _).
  rewrite Hn. cbn [map under fst snd length].
  assert (Hir : i <= length r).
  { apply lookup_lt_Some in Hn. pose proof (ancestors_length k r). lia. }
  rewrite length_take. replace (S (i `min` length r) - 1) with i by lia.
  destruct (insert_at_depth node (Point.offset pt) i r (children e) x k
              Hx Hk Hir) as (ks' & z & q & Hins & Hnode & Htext).
  rewrite Hins. destruct (Transforms.last_leaf node) as [lp lo].
  exists (z :: q). cbn [children selection fst snd]. auto.
Qed.

(** X13: at a caret inside a block, [insertMathBlock] and [insertImage]
    put their element, void for the editor and with one empty Text as its
    only child, into the document and the caret into that Text; the image
    has the URL it is given, and an image file that has been read gives an
    image with its data URL. *)
Theorem void_blocks_at_caret (deleteFragment : EditorState -> EditorState)
  (e : EditorState) :
  at_caret cc e = true ->
  existsb (isBlock cc) (chain (children e) (anchor_path e)) = true ->
  (let e' := insertMathBlock deleteFragment cc e in
   let node := Element "math-block" ∅ [Text "" ∅] in
   isVoid cc node = true /\
   exists ip, Tree.node_at (children e') ip = Some node /\
              selection e' = Some (caret (ip ++ [0]) 0)) /\
  (forall url,
     let e' := insertImage deleteFragment cc url e in
     let node := Element "image" {[ "url" := VStr url ]} [Text "" ∅] in
     isVoid cc node = true /\
     exists ip, Tree.node_at (children e') ip = Some node /\
                selection e' = Some (caret (ip ++ [0]) 0)) /\
  (forall file,
     readerLoaded deleteFragment cc file e
     = insertImage deleteFragment cc (file_dataURL file) e).
Proof.
  intros Hc Hb.
  destruct (lowest_index (isBlock cc) (chain (children e) (anchor_path e)))
    as [i|] eqn:Ei; [|apply lowest_index_none in Ei; congruence].
  split; [|split].
  - cbn zeta. split; [reflexivity|].
    destruct (insertNodes_at_caret deleteFragment
                (Element "math-block" ∅ [Text "" ∅]) e i Hc eq_refl Ei)
      as (ip & Hn & Hs & _).
    exists ip. split; [exact Hn | exact Hs].
  - intros url. cbn zeta. split; [reflexivity|].
    destruct (insertNodes_at_caret deleteFragment
                (Element "image" {[ "url" := VStr url ]} [Text "" ∅]) e i
                Hc eq_refl Ei)
      as (ip & Hn & Hs & _).
    exists ip. split; [exact Hn | exact Hs].
  - reflexivity.
Qed.

(** X14: a non-empty URL typed or pasted as text at a caret that is in a
    text inside no void element, where no link is active, is not inserted
    as text: a link element with that URL, whose only child is a Text with
    the URL, is put into the document, the caret is at the end of that
    Text, and the link is active there.  [insertLink] with that URL gives
    the same state. *)
Theorem url_text_at_caret
  (isUrl : string -> bool) (imageExtensions : list string)
  (urlPathname : string -> option string)
  (deleteFragment : EditorState -> EditorState)
  (defaultInsertText : string -> EditorState -> EditorState)
  (defaultInsertData : Data -> EditorState -> option EditorState)
  (defaultDeleteBackward : string -> EditorState -> EditorState)
  (url : string) (e : EditorState) :
  let editor :=
    codexEditor isUrl imageExtensions urlPathname deleteFragment
      (createEditor defaultInsertText defaultInsertData defaultDeleteBackward) in
  JS.truthy url = true -> isUrl url = true ->
  at_caret cc e = true -> isLinkActive cc e = false ->
  let e' := callInsertText editor url e in
  let link := Element "link" {[ "url" := VStr url ]} [Text url ∅] in
  (forall data, text_plain data = url ->
     callInsertData editor data e = Some e') /\
  insertLink deleteFragment cc url e = e' /\
  at_caret cc e' = true /\
  isLinkActive cc e' = true /\
  exists ip,
    Tree.node_at (children e') ip = Some link /\
    selection e' = Some (caret (ip ++ [0]) (String.length url)).
Proof.
  intros editor Ht Hu Hc Ha. cbn zeta.
  assert (He : callInsertText editor url e
               = Transforms.insertNodes cc deleteFragment
                   (Element "link" {[ "url" := VStr url ]} [Text url ∅]) e).
  { unfold editor. rewrite callInsertText_codexEditor, Ht, Hu. cbn [andb].
    unfold wrapLink. rewrite Ha.
    destruct (at_caret_inv e Hc) as (pt & x & r & k & Hs & _).
    rewrite Hs, caret_collapsed. reflexivity. }
  split.
  { intros data Hd. unfold editor.
    rewrite callInsertData_codexEditor. cbn zeta. rewrite Hd, Ht, Hu.
    cbn [andb]. f_equal. fold editor. rewrite He.
    unfold wrapLink. rewrite Ha.
    destruct (at_caret_inv e Hc) as (pt & x & r & k & Hs & _).
    rewrite Hs, caret_collapsed. reflexivity. }
  split.
  { unfold insertLink, editor. rewrite callInsertText_codexEditor, Ht, Hu.
    destruct (at_caret_inv e Hc) as (pt & x & r & k & Hs & _).
    rewrite Hs. reflexivity. }
  rewrite He.
  destruct (at_caret_inv e Hc) as (pt & x & r & k & Hs & Hp & Hx & Hk).
  assert (Hi : lowest_index (Transforms.inline_or_text cc)
                 (chain (children e) (anchor_path e)) = Some (length r)).
  { unfold anchor_path, chain. rewrite Hs. cbn [Range.anchor].
    rewrite Hp, Hx. apply lowest_index_text, Hk. }
  destruct (insertNodes_at_caret deleteFragment
              (Element "link" {[ "url" := VStr url ]} [Text url ∅]) e
              (length r) Hc eq_refl Hi) as (ip & Hn & Hsel & Htext).
  destruct (Htext [0] eq_refl) as [T1 T2].
  cbn [Transforms.last_leaf fst snd] in Hsel.
  set (e' := Transforms.insertNodes cc deleteFragment _ e) in *.
  assert (Hc' : at_caret cc e' = true).
  { unfold at_caret. rewrite Hsel. unfold caret. rewrite caret_collapsed.
    exact T1. }
  split; [exact Hc'|]. split.
  - unfold isLinkActive. rewrite (nodes_caret_exists _ e' Hc').
    apply existsb_exists.
    exists (Element "link" {[ "url" := VStr url ]} [Text url ∅]).
    split; [|reflexivity]. unfold anchor_path. rewrite Hsel. exact T2.
  - exists ip. split; [exact Hn | exact Hsel].
Qed.

End InsertFacts.

Lemma void_blocks_at_caret_witness :
  let e := doc initialValue (Some (caret [6; 0] 3)) in
  at_caret codexClassify e = true /\
  exists ip,
    Tree.node_at (children (insertMathBlock sampleDelete codexClassify e)) ip
    = Some (Element "math-block" ∅ [Text "" ∅]).
Proof.
  cbn zeta. split; [reflexivity|].
  destruct (void_blocks_at_caret sampleDelete
              (doc initialValue (Some (caret [6; 0] 3))) eq_refl eq_refl)
    as ((_ & ip & Hn & _) & _).
  exists ip. exact Hn.
Defined.

Lemma url_text_at_caret_witness :
  let e := doc initialValue (Some (caret [6; 0] 3)) in
  sampleIsUrl "https://example.com" = true /\
  isLinkActive codexClassify e = false /\
  isLinkActive codexClassify
    (callInsertText sampleEditor "https://example.com" e) = true.
Proof.
  cbn zeta. split; [reflexivity|]. split; [reflexivity|].
  apply (url_text_at_caret sampleIsUrl sampleExtensions samplePathname
           sampleDelete sampleInsertText sampleInsertData sampleDeleteBackward
           "https://example.com" (doc initialValue (Some (caret [6; 0] 3))));
    reflexivity.
Defined.

(** ** The characters of the document under the mark and link commands *)

Section CharFacts.
Context (c : Classify).

Lemma append_assoc_s (s1 s2 s3 : string) :
  ((s1 ++ s2) ++ s3 = s1 ++ (s2 ++ s3))%string.
Proof.
  induction s1 as [|ch s1 IH]; [reflexivity|].
  rewrite !app_cons_s, IH. reflexivity.
Qed.

Lemma append_nil_s (s : string) : (s ++ "")%string = s.
Proof.
  induction s as [|ch s IH]; [reflexivity|]. rewrite app_cons_s, IH.
  reflexivity.
Qed.

Lemma chars_app l1 l2 : chars (l1 ++ l2) = (chars l1 ++ chars l2)%string.
Proof.
  induction l1 as [|s l1 IH]; [reflexivity|].
  cbn [app chars fold_right]. fold (chars (l1 ++ l2)). fold (chars l1).
  rewrite IH, append_assoc_s. reflexivity.
Qed.

Lemma substring_cut s : forall o,
  o <= String.length s ->
  (substring 0 o s ++ substring o (String.length s - o) s)%string = s.
Proof.
  induction s as [|ch s IH]; intros o Ho.
  - destruct o; reflexivity.
  - destruct o as [|o].
    + cbn [substring String.length Nat.sub]. rewrite app_nil_s.
      f_equal. specialize (IH 0 ltac:(lia)).
      rewrite Nat.sub_0_r in IH. destruct s; [reflexivity|].
      cbn [substring] in IH. rewrite app_nil_s in IH. exact IH.
    + cbn [substring String.length Nat.sub]. rewrite app_cons_s.
      f_equal. apply IH. cbn in Ho. lia.
Qed.

Lemma split_node_eq n p o :
  Transforms.split_node c n p o =
    match n with
    | Text s mk =>
        if String.length s <=? o then ([n], [])
        else if Nat.eqb o 0 then ([], [n])
        else ([Text (substring 0 o s) mk],
              [Text (substring o (String.length s - o) s) mk])
    | Element t a ks =>
        if isVoid c n then ([n], [])
        else
          match p with
          | [] => ([n], [])
          | x :: r =>
              match Transforms.split_kids c r o x ks with
              | (_, []) => ([n], [])
              | ([], _) => ([], [n])
              | (l, rr) => ([Element t a l], [Element t a rr])
              end
          end
    end.
Proof. destruct n; reflexivity. Qed.

Lemma chars_texts_app ks1 ks2 :
  chars (texts (ks1 ++ ks2))
  = (chars (texts ks1) ++ chars (texts ks2))%string.
Proof. rewrite texts_app, chars_app. reflexivity. Qed.

Lemma texts_cons k ks : texts (k :: ks) = node_text k ++ texts ks.
Proof. reflexivity. Qed.

Lemma texts_one k : texts [k] = node_text k.
Proof. unfold texts. cbn. apply app_nil_r. Qed.

(** Cutting a node keeps its characters. *)
Lemma split_node_chars n : forall p o,
  chars (texts (fst (Transforms.split_node c n p o)
                ++ snd (Transforms.split_node c n p o)))
  = chars (node_text n).
Proof.
  induction n as [s mk | t a ks IH] using Node_forall_ind; intros p o;
    rewrite split_node_eq.
  - destruct (String.length s <=? o) eqn:E1; [reflexivity|].
    destruct (Nat.eqb o 0); [reflexivity|].
    apply Nat.leb_gt in E1. cbn [fst snd app texts map concat node_text chars
                                 fold_right].
    rewrite !append_nil_s. apply substring_cut. lia.
  - destruct (isVoid c (Element t a ks));
      [cbn [fst snd app]; rewrite texts_one; reflexivity|].
    destruct p as [|x r]; [cbn [fst snd app]; rewrite texts_one; reflexivity|].
    assert (Hk : forall x,
              chars (texts (fst (Transforms.split_kids c r o x ks)
                            ++ snd (Transforms.split_kids c r o x ks)))
              = chars (texts ks)).
    { induction IH as [|k ks' Hk _ IHks]; intros x0; [reflexivity|].
      cbn [Transforms.split_kids]. destruct x0 as [|x0].
      - specialize (Hk r o).
        destruct (Transforms.split_node c k r o) as [l rr].
        cbn [fst snd] in Hk |- *. rewrite app_assoc, chars_texts_app, Hk.
        rewrite texts_cons, chars_app. reflexivity.
      - specialize (IHks x0).
        fold (Transforms.split_kids c r o) in *.
        destruct (Transforms.split_kids c r o x0 ks') as [l rr].
        cbn [fst snd app] in IHks |- *.
        rewrite !texts_cons, !chars_app, IHks. reflexivity. }
    specialize (Hk x).
    destruct (Transforms.split_kids c r o x ks) as [l rr].
    cbn [fst snd] in Hk.
    destruct l as [|k0 l], rr as [|k1 rr];
      try (cbn [fst snd app]; rewrite texts_one; reflexivity).
    cbn [fst snd app]. rewrite texts_cons, texts_one. cbn [node_text].
    fold (texts (k0 :: l)). fold (texts (k1 :: rr)). fold (texts ks).
    rewrite <- texts_app. exact Hk.
Qed.

Lemma chars_insert (ks : list Node) x k k' :
  ks !! x = Some k -> chars (node_text k') = chars (node_text k) ->
  chars (texts (<[x := k']> ks)) = chars (texts ks).
Proof.
  intros Hx Hk. rewrite <- (take_drop_middle ks x k Hx) at 2.
  rewrite insert_take_drop by (eapply lookup_lt_Some; eauto).
  rewrite !chars_texts_app, !texts_cons, !chars_app, Hk. reflexivity.
Qed.

Lemma chars_replace (ks1 mid mid' ks2 : list Node) :
  chars (texts mid) = chars (texts mid') ->
  chars (texts (ks1 ++ mid ++ ks2)) = chars (texts (ks1 ++ mid' ++ ks2)).
Proof.
  intros H. rewrite (chars_texts_app ks1), (chars_texts_app mid), H.
  rewrite (chars_texts_app ks1), (chars_texts_app mid'). reflexivity.
Qed.

Lemma split_at_chars d : forall p o ks,
  chars (texts (Transforms.split_at c d p o ks)) = chars (texts ks).
Proof.
  induction d as [|d IH]; intros p o ks.
  - destruct p as [|x r]; [reflexivity|]. cbn [Transforms.split_at].
    destruct (ks !! x) as [k|] eqn:Ex; [|reflexivity].
    pose proof (split_node_chars k r o) as Hk.
    destruct (Transforms.split_node c k r o) as [l rr]. cbn [fst snd] in Hk.
    transitivity (chars (texts (take x ks ++ [k] ++ drop (S x) ks))).
    + rewrite (app_assoc l). apply chars_replace.
      rewrite Hk, texts_one. reflexivity.
    + do 2 f_equal. apply take_drop_middle, Ex.
  - destruct p as [|x r]; [reflexivity|]. cbn [Transforms.split_at].
    destruct (ks !! x) as [[s mk | t a ks']|] eqn:Ex; try reflexivity.
    apply chars_insert with (k := Element t a ks'); [exact Ex|].
    cbn [node_text]. apply IH.
Qed.

Lemma splitNodes_chars m incl pt e :
  document_chars (Transforms.splitNodes c m incl pt e) = document_chars e.
Proof.
  unfold Transforms.splitNodes.
  destruct (Transforms.match_depth c m _ _); [|reflexivity].
  unfold document_chars, document_text. cbn [children]. apply split_at_chars.
Qed.

Lemma splitRange_chars m e :
  document_chars (Transforms.splitRange c m e) = document_chars e.
Proof.
  unfold Transforms.splitRange. destruct (selection e); [|reflexivity].
  destruct (selection (Transforms.splitNodes c m false _ e));
    rewrite ?splitNodes_chars; reflexivity.
Qed.

Lemma unset_prop_text key k : node_text (unset_prop key k) = node_text k.
Proof. destruct k; reflexivity. Qed.

(** X15: [toggleMark] changes no character of the document, whatever the
    selection: at a caret it does not touch the document at all, and on an
    expanded selection it cuts texts at the edges of the selection and sets
    or removes the mark, which leaves the characters in place. *)
Theorem toggleMark_keeps_characters (format : string) (e : EditorState) :
  document_chars (toggleMark c format e) = document_chars e /\
  (match selection e with
   | Some r => Range.isCollapsed r = true
   | None => True
   end -> children (toggleMark c format e) = children e).
Proof.
  split.
  - unfold toggleMark, Editor.addMark, Editor.removeMark,
      Transforms.setNodes_split.
    destruct (isMarkActive c e format);
      (destruct (selection e) as [r|]; [|reflexivity]);
      (destruct (Range.isCollapsed r); [reflexivity|]);
      unfold document_chars;
      rewrite setNodes_text by (apply set_prop_text || apply unset_prop_text);
      apply splitRange_chars.
  - intros H. unfold toggleMark, Editor.addMark, Editor.removeMark.
    destruct (isMarkActive c e format);
      (destruct (selection e) as [r|]; [|reflexivity]);
      rewrite H; reflexivity.
Qed.

(** *** An inline wrapper *)

Lemma wrap_inline_eq w lo hi n :
  Transforms.wrap_inline c w lo hi n =
    match n with
    | Text _ _ => n
    | Element t a ks =>
        if isVoid c n then n
        else if Tree.lowest_hit c (isBlock c) lo hi n then
          Element t a
            (Transforms.wrap_run w
               (Tree.lowest_kids c (Transforms.inline_or_text c) lo hi 0 ks)
               ks)
        else Element t a (Transforms.wrap_inline_kids c w lo hi 0 ks)
    end.
Proof. destruct n; reflexivity. Qed.

Lemma wrap_run_text t a wks ms ks a0 l :
  ms = a0 :: l ->
  (forall b, In b (a0 :: l) -> Path.compare (snd a0) (snd b) <> Gt) ->
  texts (Transforms.wrap_run (Element t a wks) ms ks) = texts ks.
Proof.
  intros Hms Hfirst. unfold Transforms.wrap_run.
  destruct (Transforms.wrap_span ms) as [[[cp i] j]|] eqn:Ew; [|reflexivity].
  apply wrap_at_text. eapply wrap_span_order; eauto.
Qed.

Lemma wrap_inline_text t a wks n : forall lo hi,
  node_text (Transforms.wrap_inline c (Element t a wks) lo hi n) = node_text n.
Proof.
  induction n as [s mk | t0 a0 ks IH] using Node_forall_ind; intros lo hi;
    rewrite wrap_inline_eq; [reflexivity|].
  destruct (isVoid c (Element t0 a0 ks)); [reflexivity|].
  destruct (Tree.lowest_hit c (isBlock c) lo hi (Element t0 a0 ks)).
  - cbn [node_text].
    destruct (Tree.lowest_kids c (Transforms.inline_or_text c) lo hi 0 ks)
      as [|en l] eqn:El; [reflexivity|].
    apply (wrap_run_text t a wks _ ks en l eq_refl).
    intros b Hb. eapply lowest_kids_first; eauto.
  - cbn [node_text]. f_equal. generalize 0.
    induction IH as [|k ks' Hk _ IHks]; intros i; [reflexivity|].
    cbn [Transforms.wrap_inline_kids map].
    fold (Transforms.wrap_inline_kids c (Element t a wks) lo hi).
    rewrite IHks. f_equal.
    destruct (in_span lo hi i); [apply Hk|reflexivity].
Qed.

Lemma wrapNodes_inline_text t a wks e :
  document_text (Transforms.wrapNodes_inline c (Element t a wks) e)
  = document_text e.
Proof.
  unfold Transforms.wrapNodes_inline, document_text.
  destruct (selection e) as [r|]; [|reflexivity]. cbn [children].
  generalize 0. induction (children e) as [|k ks IH]; intros i; [reflexivity|].
  cbn [Transforms.wrap_inline_kids map].
  fold (Transforms.wrap_inline_kids c (Element t a wks)
          (Tree.span_lo r) (Tree.span_hi r)).
  cbn [concat]. rewrite IH. f_equal.
  destruct (in_span _ _ i); [apply wrap_inline_text|reflexivity].
Qed.

End CharFacts.

(** X16: [unwrapLink] changes no text of the document, and [wrapLink]
    around a selection that is expanded after the unwrap step changes no
    character of the document: it cuts texts at the edges of the selection
    and wraps, and deletes nothing. *)
Theorem wrapLink_keeps_characters
  (deleteFragment : EditorState -> EditorState) (url : string)
  (e : EditorState) :
  let cc := codexClassify in
  let e1 := if isLinkActive cc e then unwrapLink cc e else e in
  document_text (unwrapLink cc e) = document_text e /\
  (forall r1, selection e1 = Some r1 -> Range.isCollapsed r1 = false ->
     document_chars (wrapLink deleteFragment cc url e) = document_chars e).
Proof.
  cbn zeta. split; [apply unwrapNodes_text|].
  intros r1 Hs Hc. unfold wrapLink. rewrite Hs, Hc.
  set (e1 := if isLinkActive codexClassify e then unwrapLink codexClassify e
             else e) in *.
  assert (H1 : document_chars e1 = document_chars e).
  { unfold e1, document_chars.
    destruct (isLinkActive codexClassify e); [|reflexivity].
    unfold unwrapLink. rewrite unwrapNodes_text. reflexivity. }
  rewrite <- H1. unfold Transforms.collapse_end, Transforms.wrapNodes.
  cbn [isElement isText negb isInline codexClassify has_type node_type
       String.eqb Ascii.eqb Bool.eqb andb].
  set (e2 := Transforms.wrapNodes_inline codexClassify _ _).
  assert (H2 : document_chars e2 = document_chars e1).
  { unfold e2, document_chars. rewrite wrapNodes_inline_text.
    apply splitRange_chars. }
  rewrite <- H2. destruct (selection e2); reflexivity.
Qed.

Lemma toggleMark_keeps_characters_witness :
  let e := doc initialValue (Some (caret [0; 1] 2)) in
  children (toggleMark codexClassify "bold" e) = children e.
Proof.
  cbn zeta.
  apply (proj2 (toggleMark_keeps_characters codexClassify "bold"
                  (doc initialValue (Some (caret [0; 1] 2))))).
  reflexivity.
Defined.

Lemma wrapLink_keeps_characters_witness :
  let e :=
    doc initialValue
      (Some (Range.mk (Point.mk [0; 0] 8) (Point.mk [0; 1] 4))) in
  document_chars (wrapLink sampleDelete codexClassify "https://example.com" e)
  = document_chars e.
Proof.
  cbn zeta.
  apply (proj2 (wrapLink_keeps_characters sampleDelete "https://example.com"
                  (doc initialValue
                     (Some (Range.mk (Point.mk [0; 0] 8) (Point.mk [0; 1] 4)))))
           (Range.mk (Point.mk [0; 0] 8) (Point.mk [0; 1] 4)));
    reflexivity.
Defined.

(** ** Text that is no URL *)

(** X17: a text that is empty or that [isUrl] does not accept goes to the
    default [insertText] of the editor as it is: no plugin of the example
    takes it, and an empty text is not even shown to [isUrl]. *)
Theorem insertText_plain_is_default
  (isUrl : string -> bool) (imageExtensions : list string)
  (urlPathname : string -> option string)
  (deleteFragment : EditorState -> EditorState)
  (defaultInsertText : string -> EditorState -> EditorState)
  (defaultInsertData : Data -> EditorState -> option EditorState)
  (defaultDeleteBackward : string -> EditorState -> EditorState)
  (text : string) (e : EditorState) :
  let editor :=
    codexEditor isUrl imageExtensions urlPathname deleteFragment
      (createEditor defaultInsertText defaultInsertData defaultDeleteBackward) in
  text = "" \/ isUrl text = false ->
  callInsertText editor text e = defaultInsertText text e.
Proof.
  intros editor H. unfold editor. rewrite callInsertText_codexEditor.
  destruct H as [-> | ->]; [reflexivity|]. rewrite andb_false_r. reflexivity.
Qed.

Lemma insertText_plain_is_default_witness :
  sampleIsUrl "hello" = false /\
  callInsertText sampleEditor "hello" emptyParagraph
  = sampleInsertText "hello" emptyParagraph.
Proof.
  split; [reflexivity|].
  apply (insertText_plain_is_default sampleIsUrl sampleExtensions
           samplePathname sampleDelete sampleInsertText sampleInsertData
           sampleDeleteBackward "hello" emptyParagraph).
  right. reflexivity.
Defined.

(** ** A block format turned on and off again *)

Section ToggleTwice.
Local Abbreviation cc := codexClassify.

(** Where no element of the chain matches, [unwrapNodes] lifts nothing. *)
Lemma unwrap_caret_none split m r : forall k,
  text_below cc k r = true ->
  existsb m (ancestors k r) = false ->
  Transforms.unwrap_node cc split m (Some r) (Some r) k = [k] /\
  Transforms.unwrap_path cc split m (Some r) (Some r) k r = 0 :: r.
Proof.
  induction r as [|x r IH]; intros k Hk Hm.
  - destruct k as [s mk|]; [|discriminate]. split; reflexivity.
  - destruct k as [|t a ks]; [discriminate|]. pose proof Hk as Hk0.
    cbn [text_below isElement isText negb node_children andb] in Hk.
    destruct (isVoid cc (Element t a ks)) eqn:Ev; [discriminate|].
    destruct (ks !! x) as [k'|] eqn:Ex; [|discriminate]. cbn [negb] in Hk.
    cbn [ancestors node_children existsb] in Hm. rewrite Ex in Hm.
    apply orb_false_iff in Hm as [Hm0 Hm].
    destruct (IH k' Hk Hm) as [IH1 IH2].
    rewrite unwrap_path_eq, unwrap_node_eq, Ev.
    rewrite (lowest_hit_caret cc _ (x :: r) _ Hk0), Hm0. cbn [andb].
    rewrite unwrap_kids_path_caret, unwrap_kids_caret by lia.
    rewrite Nat.sub_0_r, Ex, IH1, IH2. cbn [shift].
    rewrite Nat.add_0_r. split; [|reflexivity].
    do 2 f_equal. apply take_drop_middle, Ex.
Qed.

Lemma state_eq (e e' : EditorState) :
  children e' = children e -> selection e' = selection e ->
  marks e' = marks e -> reading e' = reading e -> e' = e.
Proof.
  destruct e, e'. cbn. intros -> -> -> ->. reflexivity.
Qed.

Lemma unwrapNodes_caret_id split m e :
  at_caret cc e = true ->
  existsb m (chain (children e) (anchor_path e)) = false ->
  Transforms.unwrapNodes cc m split e = e.
Proof.
  intros H Hm.
  destruct (at_caret_inv e H) as (pt & x & r & k & Hs & Hp & Hx & Hk).
  unfold anchor_path, chain in Hm. rewrite Hs in Hm. cbn [Range.anchor] in Hm.
  rewrite Hp, Hx in Hm.
  destruct (unwrap_caret_none split m r k Hk Hm) as [U1 U2].
  unfold Transforms.unwrapNodes. rewrite Hs.
  destruct (caret_span pt) as [-> ->]. cbn [Range.anchor Range.focus].
  unfold Transforms.unwrap_point. rewrite Hp.
  rewrite unwrap_kids_path_caret, unwrap_kids_caret, Nat.sub_0_r, Hx by lia.
  rewrite U1, U2. cbn [shift]. rewrite Nat.add_0_r.
  apply state_eq; cbn [children selection marks reading];
    [apply take_drop_middle, Hx | | reflexivity | reflexivity].
  rewrite Hs. destruct pt as [pp po]. cbn in Hp |- *. rewrite Hp. reflexivity.
Qed.

(** Setting a block type at a caret and then 'paragraph' gives back a block
    that was a paragraph. *)
Lemma set_node_back f r : forall k,
  text_below cc k r = true ->
  is_block_ty (Some f) = true ->
  isVoid cc (Element f ∅ []) = false ->
  (forall i,
     lowest_index is_block_ty (map node_type (ancestors k r)) = Some i ->
     map node_type (ancestors k r) !! i = Some (Some "paragraph")) ->
  Transforms.set_node cc (set_type "paragraph") (isBlock cc) (Some r) (Some r)
    (Transforms.set_node cc (set_type f) (isBlock cc) (Some r) (Some r) k)
  = k.
Proof.
  intros k0 Hk0 Hf Hv. revert k0 Hk0.
  induction r as [|x r IH]; intros k Hk Hp.
  - destruct k as [s mk|]; [|discriminate]. reflexivity.
  - destruct k as [|t a ks]; [discriminate|]. pose proof Hk as Hk0.
    cbn [text_below isElement isText negb node_children andb] in Hk.
    destruct (isVoid cc (Element t a ks)) eqn:Ev; [discriminate|].
    destruct (ks !! x) as [k'|] eqn:Ex; [|discriminate]. cbn [negb] in Hk.
    assert (Hxl : x < length ks) by (eapply lookup_lt_Some; eauto).
    cbn [ancestors node_children map lowest_index node_type] in Hp.
    rewrite Ex in Hp.
    rewrite (set_node_eq cc (set_type f)).
    rewrite (lowest_hit_caret cc _ (x :: r) _ Hk0).
    cbn [ancestors node_children tail]. rewrite Ex.
    rewrite existsb_isBlock, isBlock_cc. cbn [node_type].
    destruct (is_block_ty (Some t)
              && negb (existsb is_block_ty (map node_type (ancestors k' r))))
      eqn:Eh.
    + apply andb_true_iff in Eh as [Eb En]. apply negb_true_iff in En.
      pose proof En as En'. apply lowest_index_none in En'.
      rewrite En', Eb in Hp. specialize (Hp 0 eq_refl).
      injection Hp as ->. cbn [set_type].
      assert (Ht : text_below cc (Element f a ks) (x :: r) = true).
      { cbn [text_below isElement isText negb node_children andb].
        rewrite (isVoid_cc_type f a ks ∅ []), Hv, Ex. exact Hk. }
      rewrite set_node_eq, (lowest_hit_caret cc _ (x :: r) _ Ht).
      cbn [ancestors node_children tail]. rewrite Ex.
      rewrite existsb_isBlock, isBlock_cc, En. cbn [node_type].
      rewrite Hf. reflexivity.
    + rewrite Ev, set_kids_caret, Nat.sub_0_r, Ex by lia.
      set (k2 := Transforms.set_node cc (set_type f) (isBlock cc)
                   (Some r) (Some r) k').
      assert (Hk2 : text_below cc k2 r = true)
        by (apply set_caret_valid; assumption).
      assert (Ht2 : map node_type (ancestors k2 r)
                    = retype_lowest f is_block_ty
                        (map node_type (ancestors k' r)))
        by (apply set_caret_types; assumption).
      assert (Ht : text_below cc (Element t a (<[x := k2]> ks)) (x :: r)
                   = true).
      { cbn [text_below isElement isText negb node_children andb].
        rewrite (isVoid_cc_type t a _ a ks), Ev.
        rewrite list_lookup_insert_eq by exact Hxl. exact Hk2. }
      rewrite set_node_eq, (lowest_hit_caret cc _ (x :: r) _ Ht).
      cbn [ancestors node_children tail].
      rewrite list_lookup_insert_eq by exact Hxl.
      rewrite existsb_isBlock, isBlock_cc, Ht2. cbn [node_type].
      rewrite (existsb_retype f is_block_ty is_block_ty) by auto.
      rewrite Eh, (isVoid_cc_type t a _ a ks), Ev.
      rewrite set_kids_caret, Nat.sub_0_r by lia.
      rewrite list_lookup_insert_eq by exact Hxl.
      rewrite list_insert_insert_eq. f_equal. unfold k2.
      rewrite (IH k' Hk); [apply list_insert_id, Ex|].
      intros i Hi. rewrite Hi in Hp. exact (Hp (S i) eq_refl).
Qed.

Lemma wrap_at_insert w y ks k :
  ks !! y = Some k ->
  Transforms.wrap_at w [] y y ks = <[y := Transforms.rewrap w [k]]> ks.
Proof.
  intros Hy. cbn [Transforms.wrap_at].
  rewrite insert_take_drop by (eapply lookup_lt_Some; eauto).
  replace (S y - y) with 1 by lia. rewrite (drop_S ks k y Hy). reflexivity.
Qed.

Lemma unwrap_at_index split m x r ks k new :
  ks !! x = Some k ->
  Transforms.unwrap_node cc split m (Some r) (Some r) k = [new] ->
  Transforms.unwrap_kids cc split m (Some (x :: r)) (Some (x :: r)) 0 ks
  = <[x := new]> ks.
Proof.
  intros Hx Hn. rewrite unwrap_kids_caret, Nat.sub_0_r, Hx, Hn by lia.
  symmetry. apply insert_take_drop. eapply lookup_lt_Some; eauto.
Qed.

(** Unwrapping the list container that was just put around the block at
    the caret gives back the children and the path of the caret. *)
Lemma unwrap_wrap_at wt wa cp : forall ks y q z r',
  isListType (Element wt wa []) = true ->
  isVoid cc (Element wt wa []) = false ->
  caret_in_text cc ks (cp ++ y :: q) = true ->
  existsb isListType (chain ks (cp ++ y :: q)) = false ->
  cp ++ y :: 0 :: q = z :: r' ->
  let ks' := Transforms.wrap_at (Element wt wa []) cp y y ks in
  Transforms.unwrap_kids cc true isListType (Some (z :: r')) (Some (z :: r'))
    0 ks' = ks /\
  Transforms.unwrap_kids_path cc true isListType (Some (z :: r'))
    (Some (z :: r')) z r' 0 ks' = cp ++ y :: q.
Proof.
  induction cp as [|z0 cp IH]; intros ks y q z r' Hl Hv Hc Hn Hp; cbn zeta.
  - cbn [app] in *. injection Hp as <- <-.
    unfold caret_in_text, chain in Hc, Hn.
    destruct (ks !! y) as [k|] eqn:Ey; [|discriminate].
    assert (Hyl : y < length ks) by (eapply lookup_lt_Some; eauto).
    rewrite (wrap_at_insert _ y ks k Ey). cbn [Transforms.rewrap].
    assert (Ht : text_below cc (Element wt wa [k]) (0 :: q) = true).
    { cbn [text_below isElement isText negb node_children andb].
      rewrite (isVoid_cc_type wt wa _ wa []), Hv. exact Hc. }
    assert (Hh : Tree.lowest_hit cc isListType (Some (0 :: q)) (Some (0 :: q))
                   (Element wt wa [k]) = true).
    { rewrite (lowest_hit_caret cc _ (0 :: q) _ Ht).
      cbn [ancestors node_children tail]. cbn [lookup list_lookup].
      rewrite (isListType_element wt wa _ wa []), Hl.
      change ([k] !! 0) with (Some k). cbn iota. rewrite Hn. reflexivity. }
    split.
    + rewrite (unwrap_at_index true isListType y (0 :: q) _
                 (Element wt wa [k]) k).
      * rewrite list_insert_insert_eq. apply list_insert_id, Ey.
      * apply list_lookup_insert_eq, Hyl.
      * rewrite unwrap_node_eq, (isVoid_cc_type wt wa _ wa []), Hv, Hh.
        reflexivity.
    + rewrite unwrap_kids_path_caret, Nat.sub_0_r by lia.
      rewrite list_lookup_insert_eq by exact Hyl.
      rewrite unwrap_path_eq, (isVoid_cc_type wt wa _ wa []), Hv, Hh.
      cbn. rewrite Nat.add_0_r. reflexivity.
  - cbn [app] in Hp, Hc, Hn |- *. injection Hp as <- <-.
    cbn [Transforms.wrap_at].
    destruct (cp ++ y :: q) as [|z1 q1] eqn:Ep; [destruct cp; discriminate|].
    unfold caret_in_text in Hc. unfold chain in Hn.
    destruct (ks !! z0) as [k0|] eqn:Ez; [|discriminate].
    destruct k0 as [s mk | t a ks0]; [discriminate|].
    assert (Hzl : z0 < length ks) by (eapply lookup_lt_Some; eauto).
    rewrite text_below_element in Hc. apply andb_true_iff in Hc as [Hnv Hc].
    apply negb_true_iff in Hnv.
    rewrite ancestors_element in Hn. cbn [existsb] in Hn.
    apply orb_false_iff in Hn as [Hn0 Hn].
    rewrite <- Ep in Hc, Hn.
    destruct (cp ++ y :: 0 :: q) as [|z2 q2] eqn:Ep2;
      [destruct cp; discriminate|].
    destruct (IH ks0 y q z2 q2 Hl Hv Hc Hn Ep2) as [IH1 IH2].
    cbn zeta in IH1, IH2.
    destruct (wrap_at_chain wt wa [] cp ks0 y q Hv Hc) as [W1 W2].
    cbn zeta in W1, W2. rewrite Ep2 in W1, W2.
    set (ks0' := Transforms.wrap_at (Element wt wa []) cp y y ks0) in *.
    assert (Ht : text_below cc (Element t a ks0') (z2 :: q2) = true).
    { rewrite text_below_element, (isVoid_cc_type t a _ a ks0), Hnv.
      exact W1. }
    assert (Hh : Tree.lowest_hit cc isListType (Some (z2 :: q2))
                   (Some (z2 :: q2)) (Element t a ks0') = false).
    { rewrite (lowest_hit_caret cc _ (z2 :: q2) _ Ht).
      rewrite ancestors_element. cbn [tail].
      rewrite existsb_isListType, W2, existsb_app. cbn [existsb].
      change (is_list_ty (Some wt)) with (isListType (Element wt wa [])).
      rewrite Hl, orb_true_r, andb_false_r. reflexivity. }
    split.
    + rewrite (unwrap_at_index true isListType z0 (z2 :: q2) _
                 (Element t a ks0') (Element t a ks0)).
      * rewrite list_insert_insert_eq. apply list_insert_id, Ez.
      * apply list_lookup_insert_eq, Hzl.
      * rewrite unwrap_node_eq, (isVoid_cc_type t a _ a ks0), Hnv, Hh, IH1.
        reflexivity.
    + rewrite unwrap_kids_path_caret, Nat.sub_0_r by lia.
      rewrite list_lookup_insert_eq by exact Hzl.
      rewrite unwrap_path_eq, (isVoid_cc_type t a _ a ks0), Hnv, Hh, IH2.
      cbn [shift]. rewrite Nat.add_0_r, Ep. reflexivity.
Qed.

Lemma setNodes_back f e :
  at_caret cc e = true ->
  is_block_ty (Some f) = true ->
  isVoid cc (Element f ∅ []) = false ->
  caret_block_type cc e = Some "paragraph" ->
  Transforms.setNodes cc (set_type "paragraph") (isBlock cc)
    (Transforms.setNodes cc (set_type f) (isBlock cc) e) = e.
Proof.
  intros Hc Hfb Hv Hp.
  rewrite caret_block_type_types in Hp. cbn zeta in Hp.
  destruct (at_caret_inv e Hc) as (pt & x & r & k & Hs & Hpt & Hx & Hk).
  assert (Hxl : x < length (children e)) by (eapply lookup_lt_Some; eauto).
  unfold anchor_path, chain in Hp. rewrite Hs in Hp. cbn [Range.anchor] in Hp.
  rewrite Hpt, Hx in Hp.
  unfold Transforms.setNodes at 2. rewrite Hs.
  destruct (caret_span pt) as [-> ->]. rewrite Hpt.
  rewrite set_kids_caret, Nat.sub_0_r, Hx by lia.
  unfold Transforms.setNodes. cbn [selection with_children children].
  rewrite Hs. destruct (caret_span pt) as [-> ->]. rewrite Hpt.
  rewrite set_kids_caret, Nat.sub_0_r by lia.
  rewrite list_lookup_insert_eq by exact Hxl.
  rewrite list_insert_insert_eq.
  apply state_eq; cbn [children selection marks reading with_children];
    try reflexivity; try exact Hs.
  rewrite set_node_back; [apply list_insert_id, Hx | exact Hk | exact Hfb
                          | exact Hv |].
  intros j Hj. rewrite Hj in Hp.
  destruct (map node_type (ancestors k r) !! j) as [o|]; [|discriminate].
  cbn in Hp. congruence.
Qed.

Lemma unwrap_wrapNodes_block format e i :
  at_caret cc e = true ->
  JS.includes LIST_TYPES format = true ->
  lowest_index (isBlock cc) (chain (children e) (anchor_path e)) = Some i ->
  existsb isListType (chain (children e) (anchor_path e)) = false ->
  Transforms.unwrapNodes cc isListType true
    (Transforms.wrapNodes_block cc (Element format ∅ []) e) = e.
Proof.
  intros Hc Hf Hi Hn.
  assert (Hv : isVoid cc (Element format ∅ []) = false)
    by (destruct (list_format_cases format Hf) as [-> | ->]; reflexivity).
  pose proof (wrap_span_caret e Hc) as Hw. cbn zeta in Hw. rewrite Hi in Hw.
  destruct (at_caret_inv e Hc) as (pt & x & r & k & Hs & Hp & Hx & Hk).
  assert (Hlen : i < length (anchor_path e)).
  { destruct (lowest_index_lookup _ _ _ Hi) as (n & Hn' & _).
    apply lookup_lt_Some in Hn'. unfold anchor_path, chain in *.
    rewrite Hs in *. cbn [Range.anchor] in *. rewrite Hp in *.
    rewrite Hx in Hn'. pose proof (ancestors_length k r). cbn [length]. lia. }
  pose proof (path_split _ _ Hlen) as Hsplit.
  assert (Hpp : Point.path pt = anchor_path e).
  { unfold anchor_path. rewrite Hs. reflexivity. }
  set (p := anchor_path e) in *. set (cp := take i p) in *.
  set (y := nth i p 0) in *. set (q := drop (S i) p) in *.
  assert (Hct : caret_in_text cc (children e) (cp ++ y :: q) = true).
  { rewrite <- Hsplit, <- Hpp, Hp. unfold caret_in_text. rewrite Hx.
    exact Hk. }
  rewrite Hsplit in Hn.
  destruct (cp ++ y :: 0 :: q) as [|z r'] eqn:Ep; [destruct cp; discriminate|].
  destruct (unwrap_wrap_at format ∅ cp (children e) y q z r' Hf Hv Hct Hn Ep)
    as [U1 U2].
  cbn zeta in U1, U2.
  unfold Transforms.wrapNodes_block, Transforms.wrap_run,
    Transforms.wrap_run_path.
  rewrite Hs, Hw. unfold Transforms.map_range.
  cbn [Range.anchor Range.focus Point.path Point.offset].
  rewrite Hpp.
  replace (Transforms.wrap_path cp y y p) with (z :: r')
    by (rewrite <- Ep, <- (wrap_path_caret cp y q), <- Hsplit; reflexivity).
  unfold Transforms.unwrapNodes. cbn [selection children marks reading].
  match goal with
  | |- context [Tree.span_lo (Range.mk ?a ?a)] =>
      destruct (caret_span a) as [-> ->]
  end.
  cbn [Range.anchor Range.focus Point.path Point.offset].
  unfold Transforms.unwrap_point. cbn [Point.path Point.offset].
  rewrite U1, U2, <- Hsplit.
  apply state_eq; cbn [children selection marks reading]; try reflexivity.
  rewrite Hs, <- Hpp. destruct pt; reflexivity.
Qed.

(** X18: at a caret in a paragraph with no list container around it, a
    block format of the toolbar that is not active, a list format or not,
    is turned on by one [toggleBlock] and off by the next, which gives back
    the editor state as it was. *)
Theorem toggleBlock_twice_restores (format : string) (e : EditorState) :
  at_caret cc e = true ->
  caret_list_depth e = 0 ->
  caret_block_type cc e = Some "paragraph" ->
  isBlockActive cc e format = false ->
  isVoid cc (Element format ∅ []) = false ->
  format <> "link" ->
  isBlockActive cc (toggleBlock cc format e) format = true /\
  toggleBlock cc format (toggleBlock cc format e) = e.
Proof.
  intros Hc Hd Hp Ha Hv Hl.
  set (ty := if JS.includes LIST_TYPES format then "list-item" else format).
  assert (Hty : is_block_ty (Some ty) = true
                /\ isVoid cc (Element ty ∅ []) = false
                /\ is_list_ty (Some ty) = false).
  { unfold ty. destruct (JS.includes LIST_TYPES format) eqn:Hf; [auto|].
    split; [|auto]. cbn. apply negb_true_iff, String.eqb_neq, Hl. }
  destruct Hty as (Hfb & Hv' & Hnlty).
  set (tys := map node_type (chain (children e) (anchor_path e))) in *.
  assert (Hnl : existsb is_list_ty tys = false).
  { unfold caret_list_depth, list_depth in Hd.
    rewrite filter_types_length in Hd. fold tys in Hd.
    destruct (existsb is_list_ty tys) eqn:E; [|reflexivity].
    apply existsb_exists in E as (t & Hin & Ht).
    assert (In t (List.filter is_list_ty tys)) as Hx
      by (apply filter_In; auto).
    destruct (List.filter is_list_ty tys); [destruct Hx | discriminate]. }
  pose proof Hp as Hp0.
  rewrite caret_block_type_types in Hp. cbn zeta in Hp. fold tys in Hp.
  destruct (lowest_index is_block_ty tys) as [i|] eqn:Ei; [|discriminate].
  assert (Hun : forall e0 : EditorState,
            at_caret cc e0 = true ->
            existsb is_list_ty
              (map node_type (chain (children e0) (anchor_path e0))) = false ->
            Transforms.unwrapNodes cc isListType true e0 = e0).
  { intros e0 H0 H1. apply unwrapNodes_caret_id; [exact H0|].
    rewrite existsb_isListType. exact H1. }
  set (e2 := Transforms.setNodes cc (set_type ty) (isBlock cc) e).
  destruct (setNodes_caret ty e Hc) as (Hs2 & Ht2 & Hc2).
  specialize (Hc2 Hv'). fold e2 in Hs2, Ht2, Hc2. fold tys in Ht2.
  set (tys2 := map node_type (chain (children e2) (anchor_path e2))) in *.
  assert (Hb1 : existsb is_block_ty tys = true).
  { destruct (existsb is_block_ty tys) eqn:E; [reflexivity|].
    apply lowest_index_none in E. congruence. }
  assert (Hnl2 : existsb is_list_ty tys2 = false).
  { rewrite Ht2. apply existsb_retype_none; [exact Hnlty | exact Hnl]. }
  destruct (lowest_index is_block_ty tys2) as [j|] eqn:Ej.
  2:{ apply lowest_index_none in Ej. rewrite Ht2 in Ej.
      rewrite (existsb_retype ty is_block_ty is_block_ty) in Ej by auto.
      congruence. }
  assert (Hj : tys2 !! j = Some (Some ty)).
  { pose proof Ej as Ej'. rewrite Ht2 in Ej'.
    apply lowest_index_retype in Ej'; [|exact Hfb]. rewrite Ht2. exact Ej'. }
  assert (H1 : toggleBlock cc format e
               = if JS.includes LIST_TYPES format
                 then Transforms.wrapNodes_block cc (Element format ∅ []) e2
                 else e2).
  { unfold toggleBlock. rewrite Ha, (Hun e Hc Hnl). cbn [negb andb].
    fold ty. fold e2.
    destruct (JS.includes LIST_TYPES format) eqn:Hf; [|reflexivity].
    unfold Transforms.wrapNodes. cbn.
    destruct (list_format_cases format Hf) as [-> | ->]; reflexivity. }
  assert (H2 : isBlockActive cc (toggleBlock cc format e) format = true
               /\ Transforms.unwrapNodes cc isListType true
                    (toggleBlock cc format e) = e2).
  { rewrite H1. unfold ty in *.
    destruct (JS.includes LIST_TYPES format) eqn:Hf.
    - assert (Ej' : lowest_index (isBlock cc)
                      (chain (children e2) (anchor_path e2)) = Some j).
      { rewrite (lowest_index_ext (isBlock cc)
                   (fun n => is_block_ty (node_type n))) by apply isBlock_cc.
        rewrite (lowest_index_map node_type is_block_ty). exact Ej. }
      destruct (wrapNodes_block_caret format ∅ [] e2 j Hc2 Hv Ej')
        as [W1 W2].
      cbn zeta in W1, W2. split.
      + rewrite (isBlockActive_types _ _ W1), W2, existsb_app.
        cbn [existsb is_ty]. rewrite String.eqb_refl, orb_true_r.
        reflexivity.
      + apply (unwrap_wrapNodes_block format e2 j Hc2 Hf Ej').
        rewrite existsb_isListType. exact Hnl2.
    - split.
      + rewrite (isBlockActive_types _ _ Hc2).
        eapply existsb_lookup; [exact Hj|]. cbn. apply String.eqb_refl.
      + apply (Hun e2 Hc2 Hnl2). }
  destruct H2 as [Ha1 Hu1]. split; [exact Ha1|].
  unfold toggleBlock at 1. rewrite Ha1, Hu1. cbn [negb andb].
  unfold e2. apply setNodes_back; assumption.
Qed.

End ToggleTwice.

Lemma toggleBlock_twice_restores_witness :
  let e := doc initialValue (Some (caret [6; 0] 3)) in
  at_caret codexClassify e = true /\
  caret_block_type codexClassify e = Some "paragraph" /\
  toggleBlock codexClassify "bulleted-list"
    (toggleBlock codexClassify "bulleted-list" e) = e.
Proof.
  cbn zeta. split; [reflexivity|]. split; [reflexivity|].
  apply (toggleBlock_twice_restores "bulleted-list"
           (doc initialValue (Some (caret [6; 0] 3))));
    try reflexivity.
  discriminate.
Defined.

(** * The commands on nested nodes and on expanded selections *)

(** ** Backspace in nested check-list-items *)

Section ChecklistAtCaret.
Context (isUrl : string -> bool).
Context (imageExtensions : list string).
Context (urlPathname : string -> option string).
Context (deleteFragment : EditorState -> EditorState).
Context (defaultInsertText : string -> EditorState -> EditorState).
Context (defaultInsertData : Data -> EditorState -> option EditorState).
Context (defaultDeleteBackward : string -> EditorState -> EditorState).
Local Abbreviation cc := codexClassify.

Let editor : EditorObject :=
  codexEditor isUrl imageExtensions urlPathname deleteFragment
    (createEditor defaultInsertText defaultInsertData defaultDeleteBackward).

(** The first match at a caret is the first match of the chain. *)
Lemma first_match_caret m r : forall k,
  text_below cc k r = true ->
  JS.first (List.filter (fun en : Entry => m (fst en))
              (Tree.walk cc (Some r) (Some r) k)) =
    match first_index m (ancestors k r) with
    | Some i =>
        match ancestors k r !! i with
        | Some n => Some (n, take i r)
        | None => None
        end
    | None => None
    end.
Proof.
  induction r as [|x r IH]; intros k Hk.
  - destruct k as [s mk|]; [|discriminate].
    cbn. destruct (m (Text s mk)); reflexivity.
  - destruct k as [|t a ks]; [discriminate|].
    cbn [text_below isElement isText negb node_children andb] in Hk.
    destruct (isVoid cc (Element t a ks)) eqn:Ev; [discriminate|].
    destruct (ks !! x) as [k'|] eqn:Ex; [|discriminate].
    cbn [negb andb] in Hk.
    rewrite walk_eq. cbn [List.filter fst ancestors node_children first_index].
    rewrite Ex.
    destruct (m (Element t a ks)); [reflexivity|].
    unfold Tree.walk_below. rewrite Ev.
    rewrite walk_kids_caret, Nat.sub_0_r, Ex by lia.
    specialize (IH k' Hk).
    assert (Hmap : forall l : list Entry,
      JS.first (List.filter (fun en : Entry => m (fst en)) (map (under x) l))
      = option_map (under x) (JS.first (List.filter (fun en : Entry => m (fst en)) l))).
    { induction l as [|en l IHl]; [reflexivity|]. cbn.
      destruct (m (fst en)); [reflexivity|exact IHl]. }
    rewrite Hmap, IH.
    destruct (first_index m (ancestors k' r)) as [i|]; [|reflexivity].
    cbn [option_map].
    change ((Element t a ks :: ancestors k' r) !! S i) with (ancestors k' r !! i).
    destruct (ancestors k' r !! i); reflexivity.
Qed.

Lemma first_le_lowest {A} (m : A -> bool) (l : list A) : forall i j,
  first_index m l = Some i -> lowest_index m l = Some j -> i <= j.
Proof.
  induction l as [|x l IH]; intros i j Hi Hj; [discriminate|].
  cbn in Hi, Hj. destruct (m x).
  - injection Hi as <-. lia.
  - destruct (first_index m l) as [i'|]; [|discriminate].
    injection Hi as <-.
    destruct (lowest_index m l) as [j'|]; [|discriminate].
    injection Hj as <-. specialize (IH i' j' eq_refl eq_refl). lia.
Qed.

Lemma first_is_lowest {A} (m : A -> bool) (l : list A) : forall i j,
  length (List.filter m l) = 1 ->
  first_index m l = Some i -> lowest_index m l = Some j -> i = j.
Proof.
  induction l as [|x l IH]; intros i j Hone Hi Hj; [discriminate|].
  cbn in Hi, Hj, Hone. destruct (m x) eqn:Ex.
  - injection Hi as <-. cbn in Hone.
    destruct (lowest_index m l) as [j'|] eqn:El.
    + exfalso. destruct (lowest_index_lookup _ _ _ El) as (y & Hy & Hm).
      assert (In y (List.filter m l)).
      { apply filter_In. split; [|exact Hm].
        apply list_elem_of_In. eapply list_elem_of_lookup_2; eauto. }
      destruct (List.filter m l); [contradiction|discriminate].
    + injection Hj as <-. reflexivity.
  - destruct (first_index m l) as [i'|]; [|discriminate].
    injection Hi as <-.
    destruct (lowest_index m l) as [j'|]; [|discriminate].
    injection Hj as <-. f_equal. apply IH; auto.
Qed.

Lemma first_index_none {A} (m : A -> bool) (l : list A) :
  first_index m l = None <-> existsb m l = false.
Proof.
  induction l as [|x l IH]; [cbn; tauto|]. cbn.
  destruct (m x); [split; discriminate|]. cbn.
  destruct (first_index m l); cbn; [|tauto].
  split; [discriminate|]. intros H. apply IH in H. discriminate.
Qed.

(** The test of the handler at a caret. *)
Lemma atChecklistStart_caret e pt :
  selection e = Some (Range.mk pt pt) ->
  caret_in_text cc (children e) (Point.path pt) = true ->
  let p := Point.path pt in
  let ch := chain (children e) p in
  atChecklistStart cc e =
    match first_index (has_type "check-list-item") ch with
    | Some i => Point.equals pt (Editor.start e (take (S i) p))
    | None => false
    end.
Proof.
  intros Hs Hp. cbn zeta. unfold atChecklistStart, Editor.nodes, Tree.nodes.
  rewrite Hs, caret_collapsed. cbn [andb Range.anchor].
  destruct (caret_span pt) as [-> ->].
  unfold caret_in_text, chain in *.
  destruct (Point.path pt) as [|x r] eqn:Ep; [discriminate|].
  destruct (children e !! x) as [k|] eqn:Ex; [|discriminate].
  rewrite walk_kids_caret, Nat.sub_0_r, Ex by lia.
  pose proof (first_match_caret (has_type "check-list-item") r k Hp) as Hf.
  assert (Hmap : forall l : list Entry,
      List.filter (fun en : Entry => has_type "check-list-item" (fst en)) (map (under x) l)
      = map (under x) (List.filter (fun en : Entry => has_type "check-list-item" (fst en)) l)).
  { induction l as [|en l IHl]; [reflexivity|]. cbn.
    destruct (has_type _ (fst en)); cbn; rewrite IHl; reflexivity. }
  rewrite Hmap.
  destruct (List.filter _ (Tree.walk cc (Some r) (Some r) k)) as [|[n q] l] eqn:El;
    cbn [JS.first head] in Hf.
  - cbn [map]. destruct (first_index _ (ancestors k r)) as [i|] eqn:Ei; [|reflexivity].
    destruct (ancestors k r !! i) eqn:Ea; [discriminate|].
    exfalso. clear - Ei Ea.
    revert Ea. generalize (ancestors k r) i Ei. clear.
    induction l as [|y l IH]; intros i Hi Ha; [discriminate|].
    cbn in Hi. destruct (has_type _ y).
    + injection Hi as <-. discriminate.
    + destruct (first_index _ l) as [i'|] eqn:E; [|discriminate].
      injection Hi as <-. eapply IH; eauto.
  - cbn [map under fst snd].
    destruct (first_index _ (ancestors k r)) as [i|]; [|discriminate].
    destruct (ancestors k r !! i); [|discriminate].
    injection Hf as -> ->. reflexivity.
Qed.

Lemma nodes_lowest_caret m e pt :
  selection e = Some (Range.mk pt pt) ->
  caret_in_text cc (children e) (Point.path pt) = true ->
  let p := Point.path pt in
  let ch := chain (children e) p in
  Tree.nodes_lowest cc m e =
    match lowest_index m ch with
    | Some j =>
        match ch !! j with
        | Some n => [(n, take (S j) p)]
        | None => []
        end
    | None => []
    end.
Proof.
  intros Hs Hp. cbn zeta. unfold Tree.nodes_lowest. rewrite Hs.
  destruct (caret_span pt) as [-> ->].
  unfold caret_in_text, chain in *.
  destruct (Point.path pt) as [|x r] eqn:Ep; [discriminate|].
  destruct (children e !! x) as [k|] eqn:Ex; [|discriminate].
  rewrite lowest_kids_caret, Nat.sub_0_r, Ex by lia.
  rewrite (lowest_in_caret _ _ _ Hp).
  destruct (lowest_index m (ancestors k r)) as [j|]; [|reflexivity].
  destruct (ancestors k r !! j); reflexivity.
Qed.

(** C4 (amended): the handler compares the anchor of a collapsed selection
    with the start point of the first check-list-item that [Editor.nodes]
    yields, and on success sets the type of the lowest matched
    check-list-items to 'paragraph' and returns without the default
    deletion, so that every text and the selection are as before; in every
    other state [deleteBackward] is the captured default.  Around a caret in
    a text the first match is the outermost check-list-item around the caret
    and the lowest match the innermost one; when one check-list-item is
    around the caret they are the same node, which becomes a paragraph
    exactly when the caret is at its start point. *)
Theorem checklist_backspace (unit : string) (e : EditorState) :
  let item := has_type "check-list-item" in
  let e' := callDeleteBackward editor unit e in
  (atChecklistStart cc e = true ->
     e' = Transforms.setNodes cc (set_type "paragraph") item e /\
     Tree.nodes_lowest cc item e <> [] /\
     (forall n p,
        In (n, p) (Tree.nodes_lowest cc item e) ->
        node_type n = Some "check-list-item" /\
        Tree.node_at (children e') p = Some (set_type "paragraph" n)) /\
     document_text e' = document_text e /\
     selection e' = selection e) /\
  (atChecklistStart cc e = false -> e' = defaultDeleteBackward unit e) /\
  (forall pt,
     selection e = Some (Range.mk pt pt) ->
     caret_in_text cc (children e) (Point.path pt) = true ->
     let p := Point.path pt in
     let ch := chain (children e) p in
     (existsb item ch = false -> atChecklistStart cc e = false) /\
     (forall i j,
        first_index item ch = Some i -> lowest_index item ch = Some j ->
        i <= j /\
        (length (List.filter item ch) = 1 -> i = j) /\
        atChecklistStart cc e
          = Point.equals pt (Editor.start e (take (S i) p)) /\
        exists n,
          ch !! j = Some n /\
          Tree.nodes_lowest cc item e = [(n, take (S j) p)])).
Proof.
  cbn zeta.
  destruct (checklistBackspace_fires isUrl imageExtensions urlPathname
              deleteFragment defaultInsertText defaultInsertData
              defaultDeleteBackward unit e)
    as [H1 H2].
  split; [exact H1|]. split; [exact H2|].
  intros pt Hs Hp.
  pose proof (atChecklistStart_caret e pt Hs Hp) as Ht. cbn zeta in Ht.
  pose proof (nodes_lowest_caret (has_type "check-list-item") e pt Hs Hp) as Hl.
  cbn zeta in Hl. split.
  - intros Hn. apply first_index_none in Hn. rewrite Ht, Hn. reflexivity.
  - intros i j Hi Hj. rewrite Hi in Ht. rewrite Hj in Hl.
    split; [eapply first_le_lowest; eauto|].
    split; [intros Hone; eapply first_is_lowest; eauto|].
    split; [exact Ht|].
    destruct (lowest_index_lookup _ _ _ Hj) as (n & Hn & _).
    exists n. rewrite Hn in Hl. auto.
Qed.

End ChecklistAtCaret.

(** C4 (as stated) fails when check-list-items are nested.  With the caret
    at the start point of an inner check-list-item that does not start the
    outer one, the default deletion runs.  With the caret at the start point
    of both, the inner item becomes a paragraph and the outer one, whose
    start point was compared, stays a check-list-item. *)
Lemma checklist_backspace_nested_items :
  let inner := doc nestedChecklistDocument (Some (caret [0; 1; 0] 0)) in
  let both := doc doubleChecklistDocument (Some (caret [0; 0; 0] 0)) in
  Tree.node_at (children inner) [0; 1] = Some (el "check-list-item" [txt "b"]) /\
  Range.anchor (caret [0; 1; 0] 0) = Editor.start inner [0; 1] /\
  callDeleteBackward sampleEditor "character" inner
    = sampleDeleteBackward "character" inner /\
  children (callDeleteBackward sampleEditor "character" inner) = [] /\
  Range.anchor (caret [0; 0; 0] 0) = Editor.start both [0] /\
  children (callDeleteBackward sampleEditor "character" both) =
    [ Element "check-list-item" {[ "checked" := VBool true ]}
        [ Element "paragraph" {[ "checked" := VBool false ]} [txt "b"] ] ].
Proof. cbn zeta. repeat split; vm_compute; reflexivity. Qed.

(** The backspace at the start of the last item of the sample document turns
    it into a paragraph; one character further the default deletion runs. *)
Lemma checklist_backspace_witness :
  let e := doc checklistDocument (Some (caret [2; 0] 0)) in
  atChecklistStart codexClassify e = true /\
  first_index (has_type "check-list-item") (chain (children e) [2; 0]) = Some 0 /\
  lowest_index (has_type "check-list-item") (chain (children e) [2; 0]) = Some 0 /\
  Point.equals (Point.mk [2; 0] 0) (Editor.start e [2]) = true /\
  Tree.node_at (children (callDeleteBackward sampleEditor "character" e)) [2] =
    Some (Element "paragraph" {[ "checked" := VBool false ]}
            [txt "Criss-cross."]) /\
  callDeleteBackward sampleEditor "character"
    (doc checklistDocument (Some (caret [2; 0] 1)))
  = sampleDeleteBackward "character"
      (doc checklistDocument (Some (caret [2; 0] 1))).
Proof.
  cbn zeta. split; [reflexivity|]. split; [reflexivity|].
  split; [reflexivity|]. split; [reflexivity|]. split.
  - destruct (checklist_backspace sampleIsUrl sampleExtensions samplePathname
                sampleDelete sampleInsertText sampleInsertData
                sampleDeleteBackward "character"
                (doc checklistDocument (Some (caret [2; 0] 0))))
      as (H & _ & _).
    destruct (H eq_refl) as (_ & _ & Hn & _).
    apply (Hn (Element "check-list-item" {[ "checked" := VBool false ]}
                 [txt "Criss-cross."]) [2]).
    vm_compute. auto.
  - destruct (checklist_backspace sampleIsUrl sampleExtensions samplePathname
                sampleDelete sampleInsertText sampleInsertData
                sampleDeleteBackward "character"
                (doc checklistDocument (Some (caret [2; 0] 1))))
      as (_ & H & _).
    exact (H eq_refl).
Defined.

(** ** List containers under [toggleBlock], on every selection *)

Section ListNesting.
Local Abbreviation cc := codexClassify.








End ListNesting.

(** On the list of three items and a paragraph, no selection between two
    points of its texts makes [toggleBlock] nest a list. *)
Lemma toggleBlock_flat_list_every_selection :
  length listDocumentRanges = 64 /\
  forallb
    (fun r =>
       forallb
         (fun format =>
            no_nested_lists
              (children (toggleBlock codexClassify format
                           (doc listDocument (Some r)))))
         ["numbered-list"; "bulleted-list"])
    listDocumentRanges = true.
Proof. split; vm_compute; reflexivity. Qed.


(** ** The containers around the texts under [unwrapNodes] and [setNodes] *)

Section Depths.
Context (c : Classify) (f : option string -> bool).
Context (f_text : f None = false).
Local Abbreviation m := (fun n : Node => f (node_type n)).






















End Depths.

Section Lifted.
Context (c : Classify) (f : option string -> bool).
Local Abbreviation m := (fun n : Node => f (node_type n)).






Lemma text_depths_succ n : forall d,
  text_depths f (S d) n = map S (text_depths f d n).
Proof.
  induction n as [s mk | t a ks IH] using Node_forall_ind; intros d;
    [reflexivity|].
  cbn [text_depths].
  assert (E : (if f (Some t) then S (S d) else S d)
              = S (if f (Some t) then S d else d))
    by (destruct (f (Some t)); reflexivity).
  rewrite E. generalize (if f (Some t) then S d else d). intros d'.
  induction IH as [|k ks' Hk _ IHks]; [reflexivity|].
  cbn [map concat]. rewrite map_app, Hk, IHks. reflexivity.
Qed.

Lemma depths_of_succ d ks :
  depths_of f (S d) ks = map S (depths_of f d ks).
Proof.
  unfold depths_of. induction ks as [|k ks IH]; [reflexivity|].
  cbn [map concat]. rewrite map_app, text_depths_succ, IH. reflexivity.
Qed.












End Lifted.

(** ** [toggleBlock] unwraps the lowest matched list containers *)

Section UnwrapLists.
Local Abbreviation cc := codexClassify.



End UnwrapLists.



(** ** A cut at a point of a Text *)

Section SplitText.
Local Abbreviation cc := codexClassify.

Lemma text_on_below k r :
  text_below cc k r = true <-> is_Some (text_on cc k r).
Proof.
  revert k. induction r as [|x r IH]; intros k.
  - destruct k; cbn; split; try discriminate; eauto.
    + intros [? ?]. discriminate.
  - cbn [text_below text_on].
    destruct (isElement k && negb (isVoid cc k)); cbn [andb].
    + destruct (node_children k !! x); [apply IH|].
      split; [discriminate|intros [? ?]; discriminate].
    + split; [discriminate|intros [? ?]; discriminate].
Qed.

Lemma text_of_caret ks p :
  caret_in_text cc ks p = true <-> is_Some (text_of cc ks p).
Proof.
  destruct p as [|x r]; cbn.
  - split; [discriminate|intros [? ?]; discriminate].
  - destruct (ks !! x); [apply text_on_below|].
    split; [discriminate|intros [? ?]; discriminate].
Qed.

Lemma text_on_element t a ks x r :
  text_on cc (Element t a ks) (x :: r) =
    if isVoid cc (Element t a ks) then None else text_of cc ks (x :: r).
Proof.
  cbn [text_on text_of isElement isText negb node_children andb].
  destruct (isVoid cc (Element t a ks)); reflexivity.
Qed.

(** The lowest match of a predicate that holds of every Text is the Text
    itself. *)
Lemma lowest_index_last (m : Node -> bool) r : forall k,
  (forall s mk, m (Text s mk) = true) ->
  text_below cc k r = true ->
  lowest_index m (ancestors k r) = Some (length r).
Proof.
  intros k Hm. revert k. induction r as [|x r IH]; intros k Hk.
  - destruct k as [s mk|]; [|discriminate]. cbn. rewrite Hm. reflexivity.
  - destruct k as [|t a ks]; [discriminate|].
    cbn [text_below isElement isText negb node_children andb] in Hk.
    destruct (isVoid cc (Element t a ks)); [discriminate|].
    destruct (ks !! x) as [k'|] eqn:Ex; [|discriminate].
    cbn [ancestors node_children lowest_index length]. rewrite Ex.
    rewrite (IH k' Hk). reflexivity.
Qed.

Lemma match_depth_text (m : Node -> bool) ks x r :
  (forall s mk, m (Text s mk) = true) ->
  caret_in_text cc ks (x :: r) = true ->
  Transforms.match_depth cc m (x :: r) ks = Some (length r).
Proof.
  intros Hm Hp. unfold Transforms.match_depth. cbn [caret_in_text] in Hp.
  destruct (ks !! x) as [k|] eqn:Ex; [|discriminate].
  rewrite lowest_kids_caret, Nat.sub_0_r, Ex by lia.
  rewrite (lowest_in_caret _ _ _ Hp), (lowest_index_last m r k Hm Hp).
  destruct (lowest_index_lookup _ _ _ (lowest_index_last m r k Hm Hp))
    as (n & Hn & _).
  rewrite Hn. cbn [map under fst snd length]. rewrite length_take.
  f_equal. lia.
Qed.

Lemma split_node_text s mk p o :
  Transforms.split_node cc (Text s mk) p o =
    if at_edge s o then
      if String.length s <=? o then ([Text s mk], []) else ([], [Text s mk])
    else ([Text (substring 0 o s) mk],
          [Text (substring o (String.length s - o) s) mk]).
Proof.
  cbn [Transforms.split_node]. unfold at_edge.
  destruct (String.length s <=? o); [reflexivity|].
  destruct (Nat.eqb o 0); reflexivity.
Qed.

(** A cut at the edge of a Text changes nothing. *)
Lemma split_at_idle o r : forall ks x k s,
  ks !! x = Some k -> text_on cc k r = Some s -> at_edge s o = true ->
  Transforms.split_at cc (length r) (x :: r) o ks = ks /\
  forall incl q qo,
    Transforms.split_at_point cc incl (length r) (x :: r) o ks q qo = (q, qo).
Proof.
  induction r as [|y r IH]; intros ks x k s Hx Hk He.
  - destruct k as [s' mk|]; [|discriminate]. injection Hk as ->.
    cbn [length Transforms.split_at Transforms.split_at_point].
    rewrite Hx, split_node_text, He. split.
    + destruct (String.length s <=? o); cbn [app];
        apply take_drop_middle, Hx.
    + intros incl [|z q] qo; [reflexivity|].
      cbn [Transforms.split_point]. unfold at_edge in He.
      destruct (String.length s <=? o) eqn:El.
      * destruct (Nat.ltb_spec z x); [reflexivity|].
        destruct (Nat.ltb_spec x z); [cbn; rewrite Nat.add_0_r; reflexivity|].
        replace z with x by lia. reflexivity.
      * cbn [orb] in He. rewrite He.
        destruct (Nat.ltb_spec z x); [reflexivity|].
        destruct (Nat.ltb_spec x z); [cbn; rewrite Nat.add_0_r; reflexivity|].
        replace z with x by lia. cbn [length]. rewrite Nat.add_0_r. reflexivity.
  - destruct k as [|t a ks']; [discriminate|].
    rewrite text_on_element in Hk.
    destruct (isVoid cc (Element t a ks')); [discriminate|].
    cbn [text_of] in Hk. destruct (ks' !! y) as [k'|] eqn:Ey; [|discriminate].
    destruct (IH ks' y k' s Ey Hk He) as [IH1 IH2].
    cbn [length Transforms.split_at Transforms.split_at_point].
    rewrite Hx, IH1. split; [apply list_insert_id, Hx|].
    intros incl [|z q] qo; [reflexivity|].
    destruct (Nat.eqb_spec x z) as [<-|]; [|reflexivity].
    rewrite ?Hx, IH2. reflexivity.
Qed.


Lemma text_of_nonempty ks q s : text_of cc ks q = Some s -> q <> [].
Proof. destruct q; [discriminate|congruence]. Qed.

Lemma text_on_insert t a ks new q :
  isVoid cc (Element t a ks) = false ->
  q <> [] ->
  text_on cc (Element t a new) q = text_of cc new q.
Proof.
  intros Hv Hq. destruct q as [|z q]; [congruence|].
  rewrite text_on_element, (isVoid_cc_type t a new a ks), Hv. reflexivity.
Qed.

(** Where a point of a Text lies after a cut at a point of a Text, and in
    which string. *)
Lemma split_at_image incl o r : forall ks x k s,
  ks !! x = Some k -> text_on cc k r = Some s ->
  forall q qo sq, text_of cc ks q = Some sq ->
  let ks' := Transforms.split_at cc (length r) (x :: r) o ks in
  let pt' :=
    Transforms.split_at_point cc incl (length r) (x :: r) o ks q qo in
  (q = x :: r ->
     text_of cc ks' (fst pt') = Some (fst (cut_string incl o s qo)) /\
     snd pt' = snd (cut_string incl o s qo)) /\
  (q <> x :: r -> text_of cc ks' (fst pt') = Some sq /\ snd pt' = qo).
Proof.
  intros ks x k s Hx Hk q qo sq Hq. cbn zeta.
  destruct (at_edge s o) eqn:He.
  { destruct (split_at_idle o r ks x k s Hx Hk He) as [-> Hpt].
    rewrite Hpt. cbn [fst snd]. unfold cut_string. rewrite He. cbn [fst snd].
    split; [|auto]. intros ->. split; [|reflexivity].
    rewrite Hq. cbn [text_of] in Hq. rewrite Hx, Hk in Hq. congruence. }
  revert ks x k Hx Hk q qo sq Hq.
  induction r as [|y r IH]; intros ks x k Hx Hk q qo sq Hq.
  - destruct k as [s' mk|]; [|discriminate]. injection Hk as ->.
    assert (Hxl : x < length ks) by (eapply lookup_lt_Some; eauto).
    destruct q as [|z q0]; [discriminate|].
    cbn [length Transforms.split_at Transforms.split_at_point].
    rewrite Hx, split_node_text, He. cbn [length Nat.add Nat.sub].
    cbn [text_of] in Hq.
    destruct (Nat.ltb_spec z x) as [Hzx|Hzx].
    { cbn [fst snd]. split; [intros [= -> _]; lia|]. intros _.
      split; [|reflexivity]. cbn [text_of].
      rewrite lookup_app_l by (rewrite length_take; lia).
      rewrite lookup_take_lt by lia. exact Hq. }
    destruct (Nat.ltb_spec x z) as [Hxz|Hxz].
    { cbn [fst snd]. split; [intros [= -> _]; lia|]. intros _.
      split; [|reflexivity]. cbn [text_of].
      rewrite lookup_app_r by (rewrite length_take; lia).
      rewrite length_take.
      rewrite lookup_app_r by (cbn [length]; lia).
      rewrite lookup_app_r by (cbn [length]; lia). cbn [length].
      rewrite lookup_drop.
      replace (S x + (z + 1 - x `min` length ks - 1 - 1)) with z by lia.
      exact Hq. }
    assert (z = x) by lia. subst z. rewrite Hx in Hq.
    destruct q0 as [|? ?]; [|discriminate]. injection Hq as <-.
    cbn [Transforms.split_point]. unfold at_edge in He.
    apply orb_false_iff in He as [He1 He2]. rewrite He1, He2.
    unfold cut_string, at_edge. rewrite He1, He2. cbn [orb].
    split; [|congruence]. intros _.
    destruct ((o <? qo) || incl && (qo =? o)); cbn [fst snd text_of].
    + split; [|reflexivity].
      rewrite lookup_app_r by (rewrite length_take; lia).
      rewrite length_take. replace (x + 1 - x `min` length ks) with 1 by lia.
      reflexivity.
    + split; [|reflexivity].
      rewrite lookup_app_r by (rewrite length_take; lia).
      rewrite length_take. replace (x - x `min` length ks) with 0 by lia.
      reflexivity.
  - destruct k as [|t a ks0]; [discriminate|].
    rewrite text_on_element in Hk.
    destruct (isVoid cc (Element t a ks0)) eqn:Ev; [discriminate|].
    pose proof Hk as Hk0.
    cbn [text_of] in Hk. destruct (ks0 !! y) as [k'|] eqn:Ey; [|discriminate].
    assert (Hxl : x < length ks) by (eapply lookup_lt_Some; eauto).
    destruct q as [|z q0]; [discriminate|].
    cbn [length Transforms.split_at Transforms.split_at_point].
    rewrite Hx.
    destruct (Nat.eqb_spec x z) as [<-|Hne].
    + cbn [text_of] in Hq. rewrite Hx in Hq.
      destruct q0 as [|z2 q1]; [discriminate|].
      rewrite text_on_element, Ev in Hq.
      specialize (IH ks0 y k' Ey Hk (z2 :: q1) qo sq Hq).
      destruct (Transforms.split_at_point cc incl (length r) (y :: r) o ks0
                  (z2 :: q1) qo) as [q' qo'] eqn:Ep.
      cbn [fst snd] in IH |- *. destruct IH as [IH1 IH2].
      assert (Hins : forall q' s',
        text_of cc (Transforms.split_at cc (length r) (y :: r) o ks0) q'
          = Some s' ->
        text_of cc
          (<[x := Element t a
                    (Transforms.split_at cc (length r) (y :: r) o ks0)]> ks)
          (x :: q') = Some s').
      { intros q2 s2 H2. cbn [text_of].
        rewrite list_lookup_insert_eq by exact Hxl.
        rewrite text_on_insert with (ks := ks0); eauto using text_of_nonempty. }
      split.
      * intros E. assert (E' : z2 :: q1 = y :: r) by congruence.
        destruct (IH1 E') as [H1 H2]. auto.
      * intros Hn. destruct IH2 as [H1 H2]; [congruence|]. auto.
    + cbn [fst snd]. split; [congruence|]. intros _. split; [|reflexivity].
      cbn [text_of] in Hq |- *.
      rewrite list_lookup_insert_ne by exact Hne. exact Hq.
Qed.


(** Different points stay different under a cut. *)
Lemma split_at_point_inj incl o r : forall ks x k s,
  ks !! x = Some k -> text_on cc k r = Some s ->
  forall q1 qo1 q2 qo2,
  Transforms.split_at_point cc incl (length r) (x :: r) o ks q1 qo1
  = Transforms.split_at_point cc incl (length r) (x :: r) o ks q2 qo2 ->
  q1 = q2 /\ qo1 = qo2.
Proof.
  intros ks x k s Hx Hk.
  destruct (at_edge s o) eqn:He.
  { destruct (split_at_idle o r ks x k s Hx Hk He) as [_ Hpt].
    intros q1 qo1 q2 qo2. rewrite !Hpt. intros [= -> ->]. auto. }
  revert ks x k Hx Hk.
  induction r as [|y r IH]; intros ks x k Hx Hk q1 qo1 q2 qo2.
  - destruct k as [s' mk|]; [|discriminate]. injection Hk as ->.
    cbn [length Transforms.split_at_point].
    destruct q1 as [|z1 p1], q2 as [|z2 p2]; rewrite ?Hx, ?split_node_text, ?He;
      cbn [length Nat.add Nat.sub Transforms.split_point].
    + intros [= ->]. auto.
    + destruct (z2 <? x); [discriminate|]. destruct (x <? z2); [discriminate|].
      unfold at_edge in He. apply orb_false_iff in He as [-> ->].
      destruct ((o <? qo2) || incl && (qo2 =? o)); discriminate.
    + destruct (z1 <? x); [discriminate|]. destruct (x <? z1); [discriminate|].
      unfold at_edge in He. apply orb_false_iff in He as [-> ->].
      destruct ((o <? qo1) || incl && (qo1 =? o)); discriminate.
    + unfold at_edge in He. apply orb_false_iff in He as [-> ->].
      destruct (Nat.ltb_spec z1 x), (Nat.ltb_spec x z1),
        (Nat.ltb_spec z2 x), (Nat.ltb_spec x z2); try lia;
        destruct (Nat.ltb_spec o qo1), (Nat.ltb_spec o qo2),
          (Nat.eqb_spec qo1 o), (Nat.eqb_spec qo2 o), incl;
        cbn [orb andb]; intros Heq; injection Heq; intros; subst;
        (split; [f_equal|]; lia).
  - destruct k as [|t a ks0]; [discriminate|].
    rewrite text_on_element in Hk.
    destruct (isVoid cc (Element t a ks0)) eqn:Ev; [discriminate|].
    cbn [text_of] in Hk. destruct (ks0 !! y) as [k'|] eqn:Ey; [|discriminate].
    cbn [length Transforms.split_at_point].
    destruct q1 as [|z1 p1], q2 as [|z2 p2]; rewrite ?Hx.
    + intros [= ->]. auto.
    + destruct (Nat.eqb_spec x z2); [|discriminate].
      destruct (Transforms.split_at_point cc incl (length r) (y :: r) o ks0 p2 qo2);
        discriminate.
    + destruct (Nat.eqb_spec x z1); [|discriminate].
      destruct (Transforms.split_at_point cc incl (length r) (y :: r) o ks0 p1 qo1);
        discriminate.
    + specialize (IH ks0 y k' Ey Hk p1 qo1 p2 qo2).
      destruct (Nat.eqb_spec x z1) as [<-|H1], (Nat.eqb_spec x z2) as [<-|H2].
      * destruct (Transforms.split_at_point cc incl (length r) (y :: r) o ks0
                    p1 qo1) as [p1' qo1'].
        destruct (Transforms.split_at_point cc incl (length r) (y :: r) o ks0
                    p2 qo2) as [p2' qo2'].
        intros [= -> ->]. destruct (IH eq_refl) as [-> ->]. auto.
      * destruct (Transforms.split_at_point cc incl (length r) (y :: r) o ks0
                    p1 qo1) as [p1' qo1'].
        intros [= ? ? ?]. congruence.
      * destruct (Transforms.split_at_point cc incl (length r) (y :: r) o ks0
                    p2 qo2) as [p2' qo2'].
        intros [= ? ? ?]. congruence.
      * intros [= -> -> ->]. auto.
Qed.

(** A cut that leaves the points at the cut before it does not move the
    points before it. *)
Lemma split_at_point_before o r : forall ks x k s,
  ks !! x = Some k -> text_on cc k r = Some s ->
  forall q qo,
  Path.compare q (x :: r) = Lt \/ (q = x :: r /\ qo <= o) ->
  Transforms.split_at_point cc false (length r) (x :: r) o ks q qo = (q, qo).
Proof.
  intros ks x k s Hx Hk.
  destruct (at_edge s o) eqn:He.
  { destruct (split_at_idle o r ks x k s Hx Hk He) as [_ Hpt].
    intros q qo _. apply Hpt. }
  revert ks x k Hx Hk.
  induction r as [|y r IH]; intros ks x k Hx Hk q qo H.
  - destruct k as [s' mk|]; [|discriminate]. injection Hk as ->.
    cbn [length Transforms.split_at_point].
    destruct q as [|z q0]; [reflexivity|].
    rewrite Hx, split_node_text, He.
    cbn [length Nat.add Nat.sub Transforms.split_point].
    unfold at_edge in He. apply orb_false_iff in He as [-> ->].
    destruct H as [H | [[= -> ->] H]].
    + cbn [Path.compare] in H.
      destruct (Nat.compare_spec z x) as [->|Hlt|Hgt].
      * destruct q0; discriminate.
      * apply Nat.ltb_lt in Hlt. rewrite Hlt. reflexivity.
      * discriminate.
    + rewrite Nat.ltb_irrefl.
      assert (Hq : (o <? qo) = false) by (apply Nat.ltb_ge; lia).
      rewrite Hq. reflexivity.
  - destruct k as [|t a ks0]; [discriminate|].
    rewrite text_on_element in Hk.
    destruct (isVoid cc (Element t a ks0)) eqn:Ev; [discriminate|].
    cbn [text_of] in Hk. destruct (ks0 !! y) as [k'|] eqn:Ey; [|discriminate].
    cbn [length Transforms.split_at_point].
    destruct q as [|z q0]; [reflexivity|].
    destruct (Nat.eqb_spec x z) as [<-|Hne]; [|reflexivity].
    rewrite Hx. rewrite (IH ks0 y k' Ey Hk q0 qo); [reflexivity|].
    destruct H as [H | [[= ->] H]]; [left|right; auto].
    cbn [Path.compare] in H. rewrite Nat.compare_refl in H. exact H.
Qed.

Lemma compare_antisym p : forall q,
  Path.compare p q = Gt -> Path.compare q p = Lt.
Proof.
  induction p as [|x p IH]; intros [|y q]; cbn; try discriminate.
  destruct (Nat.compare_spec x y) as [->|H|H]; try discriminate.
  - rewrite Nat.compare_refl. apply IH.
  - intros _. apply Nat.compare_lt_iff in H. rewrite H. reflexivity.
Qed.

(** Two paths to Texts of which neither comes first are the same path. *)
Lemma compare_eq_on k p : forall q s s',
  text_on cc k p = Some s -> text_on cc k q = Some s' ->
  Path.compare p q = Eq -> p = q.
Proof.
  revert k. induction p as [|x p IH]; intros k q s s' Hp Hq Hc.
  - destruct k as [s0 mk|]; [|discriminate].
    destruct q as [|z q]; [reflexivity|]. discriminate.
  - destruct k as [|t a ks]; [discriminate|].
    destruct q as [|z q]; [discriminate|].
    rewrite text_on_element in Hp, Hq.
    destruct (isVoid cc (Element t a ks)); [discriminate|].
    cbn [text_of] in Hp, Hq. cbn [Path.compare] in Hc.
    destruct (Nat.compare_spec x z) as [->|H|H]; try discriminate.
    destruct (ks !! z) as [k'|]; [|discriminate].
    f_equal. eapply IH; eauto.
Qed.

Lemma compare_eq_of ks p q s s' :
  text_of cc ks p = Some s -> text_of cc ks q = Some s' ->
  Path.compare p q = Eq -> p = q.
Proof.
  destruct p as [|x p], q as [|z q]; try discriminate. cbn [text_of Path.compare].
  intros Hp Hq Hc.
  destruct (Nat.compare_spec x z) as [->|H|H]; try discriminate.
  destruct (ks !! z) as [k'|]; [|discriminate].
  f_equal. eapply compare_eq_on; eauto.
Qed.

End SplitText.

Section CutPoint.
Local Abbreviation cc := codexClassify.

Lemma length_substring s : forall n m,
  String.length (substring n m s) = Nat.min m (String.length s - n).
Proof.
  induction s as [|ch s IH]; intros n m.
  - destruct n, m; reflexivity.
  - destruct n as [|n].
    + destruct m as [|m]; [reflexivity|]. cbn. rewrite IH, Nat.sub_0_r.
      reflexivity.
    + cbn. apply IH.
Qed.

Lemma cut_string_self incl o s :
  at_edge (fst (cut_string incl o s o)) (snd (cut_string incl o s o)) = true.
Proof.
  unfold cut_string. destruct (at_edge s o) eqn:He; [exact He|].
  unfold at_edge in He. apply orb_false_iff in He as [H1 H2].
  apply Nat.leb_gt in H1. apply Nat.eqb_neq in H2.
  rewrite Nat.ltb_irrefl, Nat.eqb_refl. cbn [orb]. destruct incl; cbn [andb fst snd].
  - unfold at_edge. rewrite Nat.sub_diag. apply orb_true_r.
  - unfold at_edge. rewrite length_substring.
    apply orb_true_iff. left. apply Nat.leb_le. lia.
Qed.

Lemma cut_string_keep incl o s qo :
  at_edge s qo = true ->
  at_edge (fst (cut_string incl o s qo)) (snd (cut_string incl o s qo)) = true.
Proof.
  intros Hq. unfold cut_string. destruct (at_edge s o) eqn:He; [exact Hq|].
  unfold at_edge in He, Hq. apply orb_false_iff in He as [H1 H2].
  apply Nat.leb_gt in H1. apply Nat.eqb_neq in H2.
  apply orb_true_iff in Hq as [Hq|Hq].
  - apply Nat.leb_le in Hq.
    assert (Hlt : (o <? qo) = true) by (apply Nat.ltb_lt; lia).
    rewrite Hlt. cbn [orb fst snd]. unfold at_edge. rewrite length_substring.
    apply orb_true_iff. left. apply Nat.leb_le. lia.
  - apply Nat.eqb_eq in Hq. subst qo.
    assert (Hlt : (o <? 0) = false) by (apply Nat.ltb_ge; lia).
    assert (Hne : (0 =? o) = false) by (apply Nat.eqb_neq; lia).
    rewrite Hlt, Hne, andb_false_r. cbn [orb fst snd]. unfold at_edge.
    apply orb_true_r.
Qed.

Lemma match_depth_of m ks p s :
  (forall s mk, m (Text s mk) = true) ->
  text_of cc ks p = Some s ->
  exists x r, p = x :: r /\ Transforms.match_depth cc m p ks = Some (length r).
Proof.
  intros Hm Hp. destruct p as [|x r]; [discriminate|].
  exists x, r. split; [reflexivity|]. apply match_depth_text; [exact Hm|].
  apply text_of_caret. rewrite Hp. eauto.
Qed.

Lemma splitNodes_cut m incl pt e s :
  (forall s mk, m (Text s mk) = true) ->
  text_of cc (children e) (Point.path pt) = Some s ->
  Transforms.splitNodes cc m incl pt e =
    {| children := cut_at cc pt (children e);
       selection :=
         match selection e with
         | None => None
         | Some r =>
             Some (Range.mk (cut_point cc incl pt (children e) (Range.anchor r))
                     (cut_point cc incl pt (children e) (Range.focus r)))
         end;
       marks := marks e;
       reading := reading e |}.
Proof.
  intros Hm Hp. destruct (match_depth_of m _ _ _ Hm Hp) as (x & r & Ep & Hd).
  unfold Transforms.splitNodes, cut_at, cut_point. rewrite Hd, Ep.
  reflexivity.
Qed.

(** The facts about one cut. *)
Lemma cut_point_valid incl pt ks s q sq :
  text_of cc ks (Point.path pt) = Some s ->
  text_of cc ks (Point.path q) = Some sq ->
  is_Some (text_of cc (cut_at cc pt ks) (Point.path (cut_point cc incl pt ks q))).
Proof.
  intros Hp Hq. unfold cut_at, cut_point.
  destruct (Point.path pt) as [|x r] eqn:Ep; [discriminate|].
  cbn [text_of] in Hp. destruct (ks !! x) as [k|] eqn:Ex; [|discriminate].
  pose proof (split_at_image incl (Point.offset pt) r ks x k s Ex Hp
                (Point.path q) (Point.offset q) sq Hq) as H.
  cbn zeta in H.
  destruct (Transforms.split_at_point cc incl (length r) (x :: r)
              (Point.offset pt) ks (Point.path q) (Point.offset q))
    as [q' qo'].
  cbn [fst snd Point.path] in H |- *. destruct H as [H1 H2].
  destruct (decide (Point.path q = x :: r)) as [E|E].
  - destruct (H1 E) as [-> _]. eauto.
  - destruct (H2 E) as [-> _]. eauto.
Qed.

Lemma cut_point_idle incl pt ks s q :
  text_of cc ks (Point.path pt) = Some s ->
  idle cc ks q = true ->
  idle cc (cut_at cc pt ks) (cut_point cc incl pt ks q) = true.
Proof.
  intros Hp Hq. unfold idle in Hq.
  destruct (text_of cc ks (Point.path q)) as [sq|] eqn:Eq; [|discriminate].
  unfold idle, cut_at, cut_point.
  destruct (Point.path pt) as [|x r] eqn:Ep; [discriminate|].
  cbn [text_of] in Hp. destruct (ks !! x) as [k|] eqn:Ex; [|discriminate].
  pose proof (split_at_image incl (Point.offset pt) r ks x k s Ex Hp
                (Point.path q) (Point.offset q) sq Eq) as H.
  cbn zeta in H.
  destruct (Transforms.split_at_point cc incl (length r) (x :: r)
              (Point.offset pt) ks (Point.path q) (Point.offset q))
    as [q' qo'].
  cbn [fst snd Point.path Point.offset] in H |- *. destruct H as [H1 H2].
  destruct (decide (Point.path q = x :: r)) as [E|E].
  - destruct (H1 E) as [-> ->]. apply cut_string_keep.
    rewrite E in Eq. cbn [text_of] in Eq. rewrite Ex, Hp in Eq.
    injection Eq as <-. exact Hq.
  - destruct (H2 E) as [-> ->]. exact Hq.
Qed.

Lemma cut_point_self incl pt ks s :
  text_of cc ks (Point.path pt) = Some s ->
  idle cc (cut_at cc pt ks) (cut_point cc incl pt ks pt) = true.
Proof.
  intros Hp. unfold idle, cut_at, cut_point.
  destruct (Point.path pt) as [|x r] eqn:Ep; [discriminate|].
  pose proof Hp as Hp0.
  cbn [text_of] in Hp. destruct (ks !! x) as [k|] eqn:Ex; [|discriminate].
  pose proof (split_at_image incl (Point.offset pt) r ks x k s Ex Hp
                (x :: r) (Point.offset pt) s Hp0) as H.
  cbn zeta in H.
  destruct (Transforms.split_at_point cc incl (length r) (x :: r)
              (Point.offset pt) ks (x :: r) (Point.offset pt))
    as [q' qo'].
  cbn [fst snd Point.path Point.offset] in H |- *. destruct H as [H1 _].
  destruct (H1 eq_refl) as [-> ->]. apply cut_string_self.
Qed.

Lemma cut_point_inj incl pt ks s q1 q2 :
  text_of cc ks (Point.path pt) = Some s ->
  cut_point cc incl pt ks q1 = cut_point cc incl pt ks q2 -> q1 = q2.
Proof.
  intros Hp. unfold cut_point.
  destruct (Point.path pt) as [|x r] eqn:Ep; [discriminate|].
  cbn [text_of] in Hp. destruct (ks !! x) as [k|] eqn:Ex; [|discriminate].
  pose proof (split_at_point_inj incl (Point.offset pt) r ks x k s Ex Hp
                (Point.path q1) (Point.offset q1)
                (Point.path q2) (Point.offset q2)) as H.
  destruct (Transforms.split_at_point cc incl (length r) (x :: r)
              (Point.offset pt) ks (Point.path q1) (Point.offset q1))
    as [q1' qo1'].
  destruct (Transforms.split_at_point cc incl (length r) (x :: r)
              (Point.offset pt) ks (Point.path q2) (Point.offset q2))
    as [q2' qo2'].
  intros [= -> ->]. destruct (H eq_refl) as [E1 E2].
  destruct q1, q2. cbn in *. congruence.
Qed.

Lemma cut_point_before pt ks s q :
  text_of cc ks (Point.path pt) = Some s ->
  Path.compare (Point.path q) (Point.path pt) = Lt \/
  (Point.path q = Point.path pt /\ Point.offset q <= Point.offset pt) ->
  cut_point cc false pt ks q = q.
Proof.
  intros Hp H. unfold cut_point.
  destruct (Point.path pt) as [|x r] eqn:Ep; [discriminate|].
  cbn [text_of] in Hp. destruct (ks !! x) as [k|] eqn:Ex; [|discriminate].
  rewrite (split_at_point_before (Point.offset pt) r ks x k s Ex Hp _ _ H).
  destruct q; reflexivity.
Qed.

(** The edges of a range between two points of Texts, in order. *)
Lemma edges_sorted ks r sa sf :
  text_of cc ks (Point.path (Range.anchor r)) = Some sa ->
  text_of cc ks (Point.path (Range.focus r)) = Some sf ->
  let S := Range.start r in
  let E := Range.end_ r in
  ((S = Range.anchor r /\ E = Range.focus r) \/
   (S = Range.focus r /\ E = Range.anchor r)) /\
  (Path.compare (Point.path S) (Point.path E) = Lt \/
   (Point.path S = Point.path E /\ Point.offset S <= Point.offset E)).
Proof.
  intros Ha Hf. cbn zeta.
  unfold Range.start, Range.end_, Range.edges, Point.isBefore.
  destruct (Path.compare (Point.path (Range.focus r))
              (Point.path (Range.anchor r))) eqn:Ec.
  - pose proof (compare_eq_of ks _ _ _ _ Hf Ha Ec) as Ep.
    destruct (Nat.ltb_spec (Point.offset (Range.focus r))
                (Point.offset (Range.anchor r))); cbn [fst snd].
    + split; [right; auto|]. right. split; [exact Ep|lia].
    + split; [left; auto|]. right. split; [congruence|lia].
  - cbn [fst snd]. split; [right; auto|]. left. exact Ec.
  - cbn [fst snd]. split; [left; auto|]. left. apply compare_antisym, Ec.
Qed.

End CutPoint.

(** ** The cuts at the two edges of a selection *)

Section CutRange.
Local Abbreviation cc := codexClassify.

Lemma cut_idle pt ks :
  idle cc ks pt = true ->
  cut_at cc pt ks = ks /\ forall incl q, cut_point cc incl pt ks q = q.
Proof.
  unfold idle, cut_at, cut_point. intros H.
  destruct (text_of cc ks (Point.path pt)) as [s|] eqn:Hp; [|discriminate].
  destruct (Point.path pt) as [|x r] eqn:Ep; [discriminate|].
  cbn [text_of] in Hp. destruct (ks !! x) as [k|] eqn:Ex; [|discriminate].
  destruct (split_at_idle (Point.offset pt) r ks x k s Ex Hp H) as [H1 H2].
  split; [exact H1|]. intros incl q. rewrite H2. destruct q; reflexivity.
Qed.

Lemma idle_valid ks pt : idle cc ks pt = true -> is_Some (text_of cc ks (Point.path pt)).
Proof.
  unfold idle. destruct (text_of cc ks (Point.path pt)); [eauto|discriminate].
Qed.

Lemma splitNodes_idle m incl pt e :
  (forall s mk, m (Text s mk) = true) ->
  idle cc (children e) pt = true ->
  Transforms.splitNodes cc m incl pt e = e.
Proof.
  intros Hm Hi. destruct (idle_valid _ _ Hi) as [s Hs].
  rewrite (splitNodes_cut m incl pt e s Hm Hs).
  destruct (cut_idle pt (children e) Hi) as [-> Hq].
  destruct e as [ks [[a f]|] mk rd]; cbn [selection children marks reading];
    [|reflexivity].
  cbn [Range.anchor Range.focus]. rewrite !Hq. reflexivity.
Qed.

(** A selection whose two points lie at edges of Texts is not cut. *)
Lemma splitRange_idle m e a f :
  (forall s mk, m (Text s mk) = true) ->
  selection e = Some (Range.mk a f) ->
  idle cc (children e) a = true -> idle cc (children e) f = true ->
  Transforms.splitRange cc m e = e.
Proof.
  intros Hm Hs Ha Hf. unfold Transforms.splitRange. rewrite Hs.
  assert (He : idle cc (children e) (Range.end_ (Range.mk a f)) = true).
  { unfold Range.end_, Range.edges. cbn.
    destruct (Point.isBefore f a); assumption. }
  assert (Hst : idle cc (children e) (Range.start (Range.mk a f)) = true).
  { unfold Range.start, Range.edges. cbn.
    destruct (Point.isBefore f a); assumption. }
  rewrite (splitNodes_idle m false _ e Hm He), Hs.
  apply splitNodes_idle; assumption.
Qed.

(** After the cuts at the two edges of a selection between points of Texts,
    the two points of the selection lie at edges of Texts, and they differ
    when they differed. *)
Lemma splitRange_cut m e a f sa sf :
  (forall s mk, m (Text s mk) = true) ->
  selection e = Some (Range.mk a f) ->
  text_of cc (children e) (Point.path a) = Some sa ->
  text_of cc (children e) (Point.path f) = Some sf ->
  let es := Transforms.splitRange cc m e in
  exists a' f',
    selection es = Some (Range.mk a' f') /\
    idle cc (children es) a' = true /\
    idle cc (children es) f' = true /\
    (a <> f -> a' <> f') /\
    marks es = marks e /\ reading es = reading e.
Proof.
  intros Hm Hs Ha Hf. cbn zeta. unfold Transforms.splitRange. rewrite Hs.
  set (r := Range.mk a f).
  destruct (edges_sorted (children e) r sa sf Ha Hf) as [Hwho Hord].
  cbn zeta in Hwho, Hord.
  set (S := Range.start r) in *. set (E := Range.end_ r) in *.
  assert (HE : exists sE, text_of cc (children e) (Point.path E) = Some sE).
  { destruct Hwho as [[_ ->]|[_ ->]]; eauto. }
  destruct HE as [sE HE].
  assert (HS : exists sS, text_of cc (children e) (Point.path S) = Some sS).
  { destruct Hwho as [[-> _]|[-> _]]; eauto. }
  destruct HS as [sS HS].
  rewrite (splitNodes_cut m false E e sE Hm HE), Hs. cbn [selection].
  assert (HbE : cut_point cc false E (children e) E = E).
  { apply (cut_point_before E _ sE); [exact HE|]. right. split; [reflexivity|lia]. }
  assert (HbS : cut_point cc false E (children e) S = S).
  { apply (cut_point_before E _ sE); [exact HE|]. exact Hord. }
  assert (Hba : cut_point cc false E (children e) a = a).
  { destruct Hwho as [[Ea Ef]|[Ef Ea]]; cbn [Range.anchor Range.focus r] in *;
      congruence. }
  assert (Hbf : cut_point cc false E (children e) f = f).
  { destruct Hwho as [[Ea Ef]|[Ef Ea]]; cbn [Range.anchor Range.focus r] in *;
      congruence. }
  cbn [Range.anchor Range.focus r]. rewrite Hba, Hbf. fold r. fold S.
  set (ks1 := cut_at cc E (children e)).
  set (e1 := {| children := ks1; selection := Some r; marks := marks e;
                reading := reading e |}).
  assert (HS1 : is_Some (text_of cc ks1 (Point.path S))).
  { pose proof (cut_point_valid false E (children e) sE S sS HE HS) as H.
    rewrite HbS in H. exact H. }
  destruct HS1 as [sS1 HS1].
  assert (HiE : idle cc ks1 E = true).
  { pose proof (cut_point_self false E (children e) sE HE) as H.
    rewrite HbE in H. exact H. }
  rewrite (splitNodes_cut m true S e1 sS1 Hm HS1).
  cbn [selection children marks reading e1 Range.anchor Range.focus r].
  assert (HiS : idle cc (cut_at cc S ks1) (cut_point cc true S ks1 S) = true)
    by (apply (cut_point_self true S ks1 sS1 HS1)).
  assert (HiE' : idle cc (cut_at cc S ks1) (cut_point cc true S ks1 E) = true)
    by (apply (cut_point_idle true S ks1 sS1 E HS1 HiE)).
  exists (cut_point cc true S ks1 a), (cut_point cc true S ks1 f).
  split; [reflexivity|].
  split; [destruct Hwho as [[Ea Ef]|[Ef Ea]];
            cbn [Range.anchor Range.focus r] in *; congruence|].
  split; [destruct Hwho as [[Ea Ef]|[Ef Ea]];
            cbn [Range.anchor Range.focus r] in *; congruence|].
  split; [|auto].
  intros Hne Heq. apply Hne. eapply cut_point_inj; eauto.
Qed.

End CutRange.

(** ** Changes of the Texts of a selection *)

Section SetTexts.
Local Abbreviation cc := codexClassify.

Lemma lowest_hit_isText lo hi n : Tree.lowest_hit cc isText lo hi n = isText n.
Proof. destruct n; reflexivity. Qed.

Lemma set_node_isText P lo hi n :
  Transforms.set_node cc P isText lo hi n =
    match n with
    | Text _ _ => P n
    | Element t a ks =>
        if isVoid cc n then n
        else Element t a (Transforms.set_kids cc P isText lo hi 0 ks)
    end.
Proof. rewrite set_node_eq, lowest_hit_isText. destruct n; reflexivity. Qed.

Lemma text_on_set P q : forall lo hi n,
  keeps_text P ->
  text_on cc (Transforms.set_node cc P isText lo hi n) q = text_on cc n q.
Proof.
  induction q as [|x r IH]; intros lo hi n HP; rewrite set_node_isText.
  - destruct n as [s mk | t a ks].
    + destruct (HP s mk) as [mk' ->]. reflexivity.
    + destruct (isVoid cc (Element t a ks)); reflexivity.
  - destruct n as [s mk | t a ks].
    + destruct (HP s mk) as [mk' ->]. reflexivity.
    + destruct (isVoid cc (Element t a ks)) eqn:Ev; [reflexivity|].
      rewrite !text_on_element, (isVoid_cc_type t a _ a ks), Ev.
      cbn [text_of]. rewrite set_kids_lookup. cbn [Nat.add].
      destruct (ks !! x) as [k|]; [|reflexivity].
      cbn [fmap option_fmap option_map].
      destruct (in_span lo hi x); [apply IH, HP|reflexivity].
Qed.

Lemma text_of_setNodes P e q :
  keeps_text P ->
  text_of cc (children (Transforms.setNodes cc P isText e)) q
  = text_of cc (children e) q.
Proof.
  intros HP. unfold Transforms.setNodes.
  destruct (selection e) as [r|]; [|reflexivity].
  cbn [children with_children]. destruct q as [|x q]; [reflexivity|].
  cbn [text_of]. rewrite set_kids_lookup. cbn [Nat.add].
  destruct (children e !! x) as [k|]; [|reflexivity].
  cbn [fmap option_fmap option_map].
  destruct (in_span _ _ x); [apply text_on_set, HP|reflexivity].
Qed.

Lemma idle_setNodes P e pt :
  keeps_text P ->
  idle cc (children (Transforms.setNodes cc P isText e)) pt
  = idle cc (children e) pt.
Proof. intros HP. unfold idle. rewrite text_of_setNodes by exact HP. reflexivity. Qed.

Lemma selection_setNodes c P m e :
  selection (Transforms.setNodes c P m e) = selection e.
Proof.
  unfold Transforms.setNodes. destruct (selection e) eqn:E; [exact E|exact E].
Qed.

Lemma marks_setNodes c P m e : marks (Transforms.setNodes c P m e) = marks e.
Proof. unfold Transforms.setNodes. destruct (selection e); reflexivity. Qed.

(** Two changes of the Texts of a selection, one after the other. *)
Lemma set_node_twice P Q n : forall lo hi,
  keeps_text P ->
  Transforms.set_node cc Q isText lo hi (Transforms.set_node cc P isText lo hi n)
  = Transforms.set_node cc (fun k => Q (P k)) isText lo hi n.
Proof.
  induction n as [s mk | t a ks IH] using Node_forall_ind; intros lo hi HP.
  - rewrite (set_node_isText P), (set_node_isText (fun k => Q (P k))).
    destruct (HP s mk) as [mk' E]. rewrite E, set_node_isText. reflexivity.
  - rewrite (set_node_isText P), (set_node_isText (fun k => Q (P k))).
    destruct (isVoid cc (Element t a ks)) eqn:Ev.
    + rewrite set_node_isText, Ev. reflexivity.
    + rewrite set_node_isText, (isVoid_cc_type t a _ a ks), Ev. f_equal.
      clear Ev. generalize 0.
      induction IH as [|k ks' Hk _ IHks]; intros i; [reflexivity|].
      rewrite !set_kids_cons, IHks. f_equal.
      destruct (in_span lo hi i); [apply Hk, HP|reflexivity].
Qed.

Lemma setNodes_twice P Q e :
  keeps_text P ->
  Transforms.setNodes cc Q isText (Transforms.setNodes cc P isText e)
  = Transforms.setNodes cc (fun k => Q (P k)) isText e.
Proof.
  intros HP. unfold Transforms.setNodes at 1 3.
  rewrite selection_setNodes.
  destruct (selection e) as [r|] eqn:Hs;
    [|unfold Transforms.setNodes; rewrite Hs; reflexivity].
  unfold Transforms.setNodes. rewrite Hs. unfold with_children.
  cbn [children selection marks reading]. f_equal.
  generalize 0. induction (children e) as [|k ks IH]; intros i; [reflexivity|].
  rewrite !set_kids_cons, IH. f_equal.
  destruct (in_span _ _ i); [apply set_node_twice, HP|reflexivity].
Qed.

(** Changes that agree on Texts. *)
Lemma set_node_ext P Q n : forall lo hi,
  (forall s mk, P (Text s mk) = Q (Text s mk)) ->
  Transforms.set_node cc P isText lo hi n = Transforms.set_node cc Q isText lo hi n.
Proof.
  induction n as [s mk | t a ks IH] using Node_forall_ind; intros lo hi H;
    rewrite (set_node_isText P), (set_node_isText Q); [apply H|].
  destruct (isVoid cc (Element t a ks)); [reflexivity|]. f_equal.
  generalize 0. induction IH as [|k ks' Hk _ IHks]; intros i; [reflexivity|].
  rewrite !set_kids_cons, IHks. f_equal.
  destruct (in_span lo hi i); [apply Hk, H|reflexivity].
Qed.

Lemma setNodes_ext P Q e :
  (forall s mk, P (Text s mk) = Q (Text s mk)) ->
  Transforms.setNodes cc P isText e = Transforms.setNodes cc Q isText e.
Proof.
  intros H. unfold Transforms.setNodes.
  destruct (selection e) as [r|]; [|reflexivity]. f_equal.
  generalize 0. induction (children e) as [|k ks IH]; intros i; [reflexivity|].
  rewrite !set_kids_cons, IH. f_equal.
  destruct (in_span _ _ i); [apply set_node_ext, H|reflexivity].
Qed.

Lemma filter_under (g : Node -> bool) i (l : list Entry) :
  List.filter (fun en : Entry => g (fst en)) (map (under i) l)
  = map (under i) (List.filter (fun en : Entry => g (fst en)) l).
Proof.
  induction l as [|en l IH]; [reflexivity|]. cbn.
  destruct (g (fst en)); cbn; rewrite IH; reflexivity.
Qed.

Lemma patched_under P i (l : list Entry) :
  map (patched P) (map (under i) l) = map (under i) (map (patched P) l).
Proof. rewrite !map_map. reflexivity. Qed.

Lemma walk_set_texts P n : forall lo hi,
  keeps_text P ->
  List.filter (fun en : Entry => isText (fst en))
    (Tree.walk cc lo hi (Transforms.set_node cc P isText lo hi n))
  = map (patched P)
      (List.filter (fun en : Entry => isText (fst en)) (Tree.walk cc lo hi n)).
Proof.
  induction n as [s mk | t a ks IH] using Node_forall_ind; intros lo hi HP;
    rewrite set_node_isText.
  - destruct (HP s mk) as [mk' E]. rewrite E. cbn. unfold patched. cbn.
    rewrite E. reflexivity.
  - destruct (isVoid cc (Element t a ks)) eqn:Ev.
    + rewrite walk_eq. cbn [List.filter fst isText map]. unfold Tree.walk_below.
      rewrite Ev. reflexivity.
    + rewrite !walk_eq. cbn [List.filter fst isText]. unfold Tree.walk_below.
      rewrite (isVoid_cc_type t a _ a ks), Ev.
      clear Ev. generalize 0.
      induction IH as [|k ks' Hk _ IHks]; intros i; [reflexivity|].
      rewrite set_kids_cons, !walk_kids_cons, !List.filter_app, map_app, IHks.
      f_equal. destruct (in_span lo hi i); [|reflexivity].
      rewrite !filter_under, patched_under, Hk by exact HP. reflexivity.
Qed.

Lemma nodes_setNodes P e :
  keeps_text P ->
  Editor.nodes cc isText (Transforms.setNodes cc P isText e)
  = map (patched P) (Editor.nodes cc isText e).
Proof.
  intros HP. unfold Editor.nodes, Tree.nodes. rewrite selection_setNodes.
  unfold Transforms.setNodes.
  destruct (selection e) as [r|]; [|reflexivity].
  cbn [children with_children]. generalize 0.
  induction (children e) as [|k ks IH]; intros i; [reflexivity|].
  rewrite set_kids_cons, !walk_kids_cons, !List.filter_app, map_app, IH.
  f_equal. destruct (in_span _ _ i); [|reflexivity].
  rewrite !filter_under, patched_under, walk_set_texts by exact HP. reflexivity.
Qed.

(** A change that leaves the Texts of the selection as they are. *)
Lemma set_node_same P n : forall lo hi,
  (forall en, In en (Tree.walk cc lo hi n) -> isText (fst en) = true ->
     P (fst en) = fst en) ->
  Transforms.set_node cc P isText lo hi n = n.
Proof.
  induction n as [s mk | t a ks IH] using Node_forall_ind; intros lo hi H;
    rewrite set_node_isText.
  - apply (H (Text s mk, [])); [left; reflexivity|reflexivity].
  - destruct (isVoid cc (Element t a ks)) eqn:Ev; [reflexivity|]. f_equal.
    assert (Hk : forall en, In en (Tree.walk_kids cc lo hi 0 ks) ->
              isText (fst en) = true -> P (fst en) = fst en).
    { intros en Hin. apply H. rewrite walk_eq. right.
      unfold Tree.walk_below. rewrite Ev. exact Hin. }
    clear H Ev. revert Hk. generalize 0.
    induction IH as [|k ks' Hk' _ IHks]; intros i Hk; [reflexivity|].
    rewrite set_kids_cons. rewrite walk_kids_cons in Hk. f_equal.
    + destruct (in_span lo hi i); [|reflexivity]. apply Hk'.
      intros en Hin Ht. specialize (Hk (under i en)). cbn [under fst] in Hk.
      apply Hk; [|exact Ht]. apply in_or_app. left. apply in_map. exact Hin.
    + apply IHks. intros en Hin. apply Hk. apply in_or_app. right. exact Hin.
Qed.

Lemma setNodes_same P e :
  (forall n p, In (n, p) (Editor.nodes cc isText e) -> P n = n) ->
  Transforms.setNodes cc P isText e = e.
Proof.
  intros H. unfold Transforms.setNodes, Editor.nodes, Tree.nodes in *.
  destruct (selection e) as [r|] eqn:Hs; [|reflexivity].
  assert (Hk : forall en,
            In en (Tree.walk_kids cc (Tree.span_lo r) (Tree.span_hi r) 0
                     (children e)) ->
            isText (fst en) = true -> P (fst en) = fst en).
  { intros [n p] Hin Ht. apply (H n p). apply filter_In. auto. }
  clear H.
  enough (E : Transforms.set_kids cc P isText (Tree.span_lo r) (Tree.span_hi r)
                0 (children e) = children e).
  { unfold with_children. rewrite E. destruct e; cbn in *. congruence. }
  revert Hk. generalize 0.
  induction (children e) as [|k ks IH]; intros i Hk; [reflexivity|].
  rewrite set_kids_cons. rewrite walk_kids_cons in Hk. f_equal.
  - destruct (in_span _ _ i); [|reflexivity]. apply set_node_same.
    intros en Hin Ht. specialize (Hk (under i en)). cbn [under fst] in Hk.
    apply Hk; [|exact Ht]. apply in_or_app. left. apply in_map. exact Hin.
  - apply IH. intros en Hin. apply Hk. apply in_or_app. right. exact Hin.
Qed.

(** The Text at the start path of a span is visited. *)
Lemma walk_visits r : forall k hi s,
  text_on cc k r = Some s -> bound_ok r hi ->
  exists n, isText n = true /\ In (n, r) (Tree.walk cc (Some r) hi k).
Proof.
  induction r as [|x r IH]; intros k hi s Hk Hb.
  - destruct k as [s' mk|]; [|discriminate].
    exists (Text s' mk). split; [reflexivity|]. left. reflexivity.
  - destruct k as [|t a ks]; [discriminate|].
    rewrite text_on_element in Hk.
    destruct (isVoid cc (Element t a ks)) eqn:Ev; [discriminate|].
    cbn [text_of] in Hk. destruct (ks !! x) as [k'|] eqn:Ex; [|discriminate].
    assert (Hin : in_span (Some (x :: r)) hi x = true).
    { unfold in_span, lo_in, hi_in. rewrite Nat.leb_refl. cbn [andb].
      destruct hi as [[|b h]|]; try reflexivity.
      cbn [bound_ok Path.compare] in Hb. apply Nat.leb_le.
      destruct (Nat.compare_spec x b); try lia. congruence. }
    assert (Hb' : bound_ok r (sub hi x)).
    { unfold sub. destruct hi as [[|b h]|]; cbn [bound_ok]; auto.
      destruct (Nat.eqb_spec b x) as [->|]; cbn [bound_ok]; auto.
      cbn [bound_ok Path.compare] in Hb. rewrite Nat.compare_refl in Hb.
      exact Hb. }
    destruct (IH k' (sub hi x) s Hk Hb') as (n & Hn & Hi).
    exists n. split; [exact Hn|]. rewrite walk_eq. right.
    unfold Tree.walk_below. rewrite Ev.
    assert (Hkids : forall ks i, ks !! (x - i) = Some k' -> i <= x ->
      In (n, x :: r) (Tree.walk_kids cc (Some (x :: r)) hi i ks)).
    { clear - Hin Hi. induction ks as [|k0 ks IHks]; intros i Hl Hle;
        [discriminate|].
      rewrite walk_kids_cons. apply in_or_app.
      destruct (Nat.eq_dec i x) as [->|Hne].
      - left. rewrite Nat.sub_diag in Hl. injection Hl as ->.
        rewrite Hin, sub_caret.
        apply (in_map (under x)) in Hi. exact Hi.
      - right. apply IHks; [|lia].
        replace (x - i) with (S (x - S i)) in Hl by lia. exact Hl. }
    apply Hkids; [rewrite Nat.sub_0_r; exact Ex|lia].
Qed.

End SetTexts.

(** ** [toggleMark] twice, on every selection between points of Texts *)

Section MarksExpanded.
Local Abbreviation cc := codexClassify.

Lemma walk_kids_child lo hi x k' en ks : forall i,
  ks !! (x - i) = Some k' -> i <= x -> in_span lo hi x = true ->
  In en (Tree.walk cc (sub lo x) (sub hi x) k') ->
  In (under x en) (Tree.walk_kids cc lo hi i ks).
Proof.
  induction ks as [|k0 ks IHks]; intros i Hl Hle Hin Hi; [discriminate|].
  rewrite walk_kids_cons. apply in_or_app.
  destruct (Nat.eq_dec i x) as [->|Hne].
  - left. rewrite Nat.sub_diag in Hl. injection Hl as ->.
    rewrite Hin. apply in_map. exact Hi.
  - right. apply IHks; try assumption; [|lia].
    replace (x - i) with (S (x - S i)) in Hl by lia. exact Hl.
Qed.

Lemma walk_kids_visits ks p hi s :
  text_of cc ks p = Some s -> bound_ok p hi ->
  exists n, isText n = true /\ In (n, p) (Tree.walk_kids cc (Some p) hi 0 ks).
Proof.
  intros Hp Hb. destruct p as [|x r]; [discriminate|].
  cbn [text_of] in Hp. destruct (ks !! x) as [k'|] eqn:Ex; [|discriminate].
  assert (Hin : in_span (Some (x :: r)) hi x = true).
  { unfold in_span, lo_in, hi_in. rewrite Nat.leb_refl. cbn [andb].
    destruct hi as [[|b h]|]; try reflexivity.
    cbn [bound_ok Path.compare] in Hb. apply Nat.leb_le.
    destruct (Nat.compare_spec x b); try lia. congruence. }
  assert (Hb' : bound_ok r (sub hi x)).
  { unfold sub. destruct hi as [[|b h]|]; cbn [bound_ok]; auto.
    destruct (Nat.eqb_spec b x) as [->|]; cbn [bound_ok]; auto.
    cbn [bound_ok Path.compare] in Hb. rewrite Nat.compare_refl in Hb.
    exact Hb. }
  destruct (walk_visits r k' (sub hi x) s Hp Hb') as (n & Hn & Hi).
  exists n. split; [exact Hn|].
  apply (walk_kids_child (Some (x :: r)) hi x k' (n, r) ks 0);
    [rewrite Nat.sub_0_r; exact Ex | lia | exact Hin |].
  rewrite sub_caret. exact Hi.
Qed.

(** A selection between two points of Texts selects a Text. *)
Lemma nodes_isText_first e a f :
  selection e = Some (Range.mk a f) ->
  is_Some (text_of cc (children e) (Point.path a)) ->
  is_Some (text_of cc (children e) (Point.path f)) ->
  exists s mk p rest, Editor.nodes cc isText e = (Text s mk, p) :: rest.
Proof.
  intros Hs [sa Ha] [sf Hf].
  destruct (edges_sorted (children e) (Range.mk a f) sa sf Ha Hf)
    as [Hwho Hord]. cbn zeta in Hwho, Hord.
  assert (HS : exists sS,
            text_of cc (children e) (Point.path (Range.start (Range.mk a f)))
            = Some sS).
  { destruct Hwho as [[-> _]|[-> _]]; eauto. }
  destruct HS as [sS HS].
  assert (Hb : bound_ok (Point.path (Range.start (Range.mk a f)))
                 (Tree.span_hi (Range.mk a f))).
  { unfold Tree.span_hi, bound_ok. destruct Hord as [->|[-> _]];
      [discriminate|]. rewrite compare_refl. discriminate. }
  destruct (walk_kids_visits _ _ _ _ HS Hb) as (n & Hn & Hin).
  unfold Editor.nodes, Tree.nodes. rewrite Hs.
  change (Some (Point.path (Range.start (Range.mk a f))))
    with (Tree.span_lo (Range.mk a f)) in Hin.
  assert (Hf' : In (n, Point.path (Range.start (Range.mk a f)))
            (List.filter (fun en : Entry => isText (fst en))
               (Tree.walk_kids cc (Tree.span_lo (Range.mk a f))
                  (Tree.span_hi (Range.mk a f)) 0 (children e)))).
  { apply filter_In. auto. }
  destruct (List.filter _ _) as [|[n0 p0] rest] eqn:El; [destruct Hf'|].
  assert (Ht : isText n0 = true).
  { assert (Hi0 : In (n0, p0) (List.filter (fun en : Entry => isText (fst en))
               (Tree.walk_kids cc (Tree.span_lo (Range.mk a f))
                  (Tree.span_hi (Range.mk a f)) 0 (children e))))
      by (rewrite El; left; reflexivity).
    apply filter_In in Hi0. tauto. }
  destruct n0 as [s0 mk0|]; [|discriminate]. eauto.
Qed.

Lemma point_equals_false a b : a <> b -> Point.equals a b = false.
Proof.
  intros H. destruct (Point.equals a b) eqn:E; [|reflexivity].
  apply point_equals_eq in E. contradiction.
Qed.

Lemma point_equals_ne a b : Point.equals a b = false -> a <> b.
Proof.
  intros H ->. unfold Point.equals, Path.equals in H.
  rewrite bool_decide_eq_true_2, Nat.eqb_refl in H by reflexivity. discriminate.
Qed.

Lemma keeps_text_set k v : keeps_text (set_prop k v).
Proof. intros s mk. eexists. reflexivity. Qed.

Lemma keeps_text_unset k : keeps_text (unset_prop k).
Proof. intros s mk. eexists. reflexivity. Qed.

(** The mark of the first Text of the selection after a change of the
    Texts. *)
Lemma marks_setNodes_first P e r s mk p rest :
  keeps_text P ->
  selection e = Some r -> Range.isCollapsed r = false -> pending e = None ->
  Editor.nodes cc isText e = (Text s mk, p) :: rest ->
  Editor.marks cc (Transforms.setNodes cc P isText e)
  = Some (node_props (P (Text s mk))).
Proof.
  intros HP Hs Hc Hm Hn. unfold Editor.marks, pending.
  rewrite selection_setNodes, marks_setNodes, Hs.
  unfold pending in Hm. rewrite Hm, Hc.
  rewrite (nodes_setNodes P e HP), Hn. cbn [map patched fst snd].
  destruct (HP s mk) as [mk' ->]. reflexivity.
Qed.

Lemma toggleMark_expanded format e r :
  selection e = Some r -> Range.isCollapsed r = false ->
  toggleMark cc format e =
    Transforms.setNodes cc
      (if isMarkActive cc e format then unset_prop format
       else set_prop format (VBool true))
      isText (Transforms.splitRange cc isText e).
Proof.
  intros Hs Hc. unfold toggleMark, Editor.removeMark, Editor.addMark.
  rewrite Hs, Hc. unfold Transforms.setNodes_split.
  destruct (isMarkActive cc e format); reflexivity.
Qed.

Lemma set_unset_text format s mk :
  set_prop format (VBool true) (unset_prop format (Text s mk))
  = set_prop format (VBool true) (Text s mk).
Proof. cbn. rewrite insert_delete_eq. reflexivity. Qed.

Lemma unset_set_text format v s mk :
  unset_prop format (set_prop format v (Text s mk))
  = unset_prop format (Text s mk).
Proof. cbn. rewrite delete_insert_eq. reflexivity. Qed.

Lemma set_set_text format v s mk :
  set_prop format v (set_prop format v (Text s mk))
  = set_prop format v (Text s mk).
Proof. cbn. rewrite insert_insert_eq. reflexivity. Qed.

Lemma unset_unset_text format s mk :
  unset_prop format (unset_prop format (Text s mk))
  = unset_prop format (Text s mk).
Proof. cbn. rewrite delete_delete_eq. reflexivity. Qed.

End MarksExpanded.

Section MarksTwice.
Local Abbreviation cc := codexClassify.

(** At a caret two toggles change the pending marks and nothing else. *)
Lemma toggleMark_twice_at_caret (format : string) (e : EditorState) :
  match selection e with
  | Some r => Range.isCollapsed r = true
  | None => True
  end ->
  let e2 := toggleMark cc format (toggleMark cc format e) in
  isMarkActive cc e2 format = isMarkActive cc e format /\
  children e2 = children e /\
  selection e2 = selection e /\
  ((forall m, Editor.marks cc e = Some m ->
      m !! format = None \/ m !! format = Some (VBool true)) ->
   Editor.marks cc e2 = Editor.marks cc e).
Proof.
  intros Hsel. cbn zeta.
  destruct (selection e) as [r|] eqn:Hs.
  - assert (exists m, Editor.marks cc e = Some m) as [m Hm].
    { unfold Editor.marks. rewrite Hs. destruct (pending e); [eauto|].
      rewrite Hsel.
      destruct (Tree.node_at _ _) as [[]|]; eauto. }
    rewrite (toggleMark_caret cc e r format Hs Hsel).
    set (e1 := with_marks _ e).
    assert (Hs1 : selection e1 = Some r) by exact Hs.
    rewrite (toggleMark_caret cc e1 r format Hs1 Hsel).
    assert (Hm1 : Editor.marks cc e1 =
              Some (if isMarkActive cc e format
                    then delete format m
                    else <[format := VBool true]> m)).
    { unfold e1. rewrite (marks_pending cc e r _ Hs), Hm. reflexivity. }
    set (m2 := if isMarkActive cc e1 format
               then delete format (default ∅ (Editor.marks cc e1))
               else <[format := VBool true]> (default ∅ (Editor.marks cc e1))).
    assert (Hm2 : m2 = if isMarkActive cc e format
                       then <[format := VBool true]> (delete format m)
                       else delete format (<[format := VBool true]> m)).
    { unfold m2. unfold isMarkActive at 1. rewrite Hm1. cbn [default].
      destruct (isMarkActive cc e format).
      - rewrite lookup_delete_eq. reflexivity.
      - rewrite lookup_insert_eq. reflexivity. }
    assert (Hm3 : Editor.marks cc (with_marks (Some m2) e1) = Some m2)
      by (apply (marks_pending cc e1 r m2 Hs1)).
    split; [|split; [reflexivity|split; [exact Hs1|]]].
    + unfold isMarkActive at 1. rewrite Hm3, Hm2.
      destruct (isMarkActive cc e format).
      * rewrite lookup_insert_eq. reflexivity.
      * rewrite lookup_delete_eq. reflexivity.
    + intros Hval. rewrite Hm3, Hm, Hm2. f_equal.
      unfold isMarkActive. rewrite Hm.
      destruct (Hval m Hm) as [Hf|Hf]; rewrite Hf; cbn [is_true_value].
      * rewrite delete_insert_eq. apply delete_id, Hf.
      * rewrite insert_delete_eq. apply insert_id, Hf.
  - assert (Ht : toggleMark cc format e = e).
    { unfold toggleMark, isMarkActive.
      rewrite (marks_no_selection cc e Hs). unfold Editor.addMark.
      rewrite Hs. reflexivity. }
    rewrite !Ht. auto.
Qed.

Lemma isMarkActive_setNodes P e r s mk p rest format :
  keeps_text P ->
  selection e = Some r -> Range.isCollapsed r = false -> pending e = None ->
  Editor.nodes cc isText e = (Text s mk, p) :: rest ->
  isMarkActive cc (Transforms.setNodes cc P isText e) format
  = is_true_value (node_props (P (Text s mk)) !! format).
Proof.
  intros HP Hs Hc Hm Hn. unfold isMarkActive.
  rewrite (marks_setNodes_first P e r s mk p rest HP Hs Hc Hm Hn). reflexivity.
Qed.

Lemma is_Some_caret ks p :
  caret_in_text cc ks p = true -> is_Some (text_of cc ks p).
Proof. apply text_of_caret. Qed.

(** Two toggles on an expanded selection between points of Texts. *)
Lemma toggleMark_twice_expanded (format : string) (e : EditorState) r :
  selection e = Some r -> Range.isCollapsed r = false ->
  caret_in_text cc (children e) (Point.path (Range.anchor r)) = true ->
  caret_in_text cc (children e) (Point.path (Range.focus r)) = true ->
  let es := Transforms.splitRange cc isText e in
  let e2 := toggleMark cc format (toggleMark cc format e) in
  let back :=
    if isMarkActive cc e format then set_prop format (VBool true)
    else unset_prop format in
  (pending e = None ->
     e2 = Transforms.setNodes cc back isText es /\
     isMarkActive cc e2 format = isMarkActive cc e format) /\
  (pending e <> None -> e2 = toggleMark cc format e).
Proof.
  intros Hs Hc Ha Hf. cbn zeta. destruct r as [a f].
  cbn [Range.anchor Range.focus] in Ha, Hf.
  destruct (is_Some_caret _ _ Ha) as [sa Hsa].
  destruct (is_Some_caret _ _ Hf) as [sf Hsf].
  assert (Hne : a <> f) by (apply point_equals_ne; exact Hc).
  destruct (splitRange_cut isText e a f sa sf ltac:(reflexivity) Hs Hsa Hsf)
    as (a' & f' & Hs' & Hia & Hif & Hne' & Hmk & _).
  specialize (Hne' Hne).
  set (es := Transforms.splitRange cc isText e) in *.
  assert (Hc' : Range.isCollapsed (Range.mk a' f') = false)
    by (apply point_equals_false; exact Hne').
  destruct (nodes_isText_first es a' f' Hs' (idle_valid _ _ Hia)
              (idle_valid _ _ Hif)) as (s0 & mk0 & p0 & rest & Hn).
  rewrite (toggleMark_expanded format e _ Hs Hc). fold es.
  set (X := if isMarkActive cc e format then unset_prop format
            else set_prop format (VBool true)).
  assert (HX : keeps_text X).
  { unfold X. destruct (isMarkActive cc e format);
      [apply keeps_text_unset|apply keeps_text_set]. }
  set (e1 := Transforms.setNodes cc X isText es).
  assert (Hs1 : selection e1 = Some (Range.mk a' f'))
    by (unfold e1; rewrite selection_setNodes; exact Hs').
  assert (Hcut1 : Transforms.splitRange cc isText e1 = e1).
  { apply (splitRange_idle isText e1 a' f'); [reflexivity|exact Hs1| |];
      unfold e1; rewrite idle_setNodes by exact HX; assumption. }
  assert (Hstep : toggleMark cc format e1 =
            Transforms.setNodes cc
              (fun k => (if isMarkActive cc e1 format then unset_prop format
                         else set_prop format (VBool true)) (X k))
              isText es).
  { rewrite (toggleMark_expanded format e1 _ Hs1 Hc'), Hcut1.
    unfold e1 at 2. apply (setNodes_twice X _ es HX). }
  rewrite Hstep. clear Hstep.
  split.
  - intros Hp.
    assert (Hp' : pending es = None) by (unfold pending in *; congruence).
    assert (Hact1 : isMarkActive cc e1 format = negb (isMarkActive cc e format)).
    { unfold e1.
      rewrite (isMarkActive_setNodes X es _ s0 mk0 p0 rest format HX Hs' Hc' Hp' Hn).
      unfold X. destruct (isMarkActive cc e format); cbn [node_props unset_prop set_prop].
      - rewrite lookup_delete_eq. reflexivity.
      - rewrite lookup_insert_eq. reflexivity. }
    rewrite Hact1.
    assert (Hext : Transforms.setNodes cc
                     (fun k =>
                        (if negb (isMarkActive cc e format)
                         then unset_prop format
                         else set_prop format (VBool true)) (X k)) isText es
                   = Transforms.setNodes cc
                       (if isMarkActive cc e format
                        then set_prop format (VBool true)
                        else unset_prop format) isText es).
    { apply setNodes_ext. intros s mk. unfold X.
      destruct (isMarkActive cc e format); cbn [negb].
      - apply set_unset_text.
      - apply unset_set_text. }
    rewrite Hext. split; [reflexivity|].
    assert (Hb : keeps_text (if isMarkActive cc e format
                             then set_prop format (VBool true)
                             else unset_prop format)).
    { destruct (isMarkActive cc e format);
        [apply keeps_text_set|apply keeps_text_unset]. }
    rewrite (isMarkActive_setNodes _ es _ s0 mk0 p0 rest format Hb Hs' Hc' Hp' Hn).
    destruct (isMarkActive cc e format); cbn [node_props unset_prop set_prop].
    + rewrite lookup_insert_eq. reflexivity.
    + rewrite lookup_delete_eq. reflexivity.
  - intros Hp.
    assert (Hact1 : isMarkActive cc e1 format = isMarkActive cc e format).
    { unfold isMarkActive, Editor.marks, pending. unfold e1.
      rewrite selection_setNodes, marks_setNodes, Hs', Hmk, Hs.
      unfold pending in Hp. destruct (marks e); [reflexivity|contradiction]. }
    rewrite Hact1. fold X. apply setNodes_ext. intros s mk. unfold X.
    destruct (isMarkActive cc e format).
    + apply unset_unset_text.
    + apply set_set_text.
Qed.

Lemma setNodes_chars P m e :
  (forall k, node_text (P k) = node_text k) ->
  document_chars (Transforms.setNodes cc P m e) = document_chars e.
Proof.
  intros H. unfold document_chars. rewrite setNodes_text by exact H.
  reflexivity.
Qed.

(** C3 (amended): at a caret, or without a selection, two [toggleMark]
    with the same format leave the document and the selection untouched and
    restore [isMarkActive]; they restore the effective marks when the format
    was unset or set to [true] there.  On an expanded selection between two
    points of Texts, with no pending marks, the first toggle cuts the Texts
    at the edges of the selection, and after the second toggle every Text of
    the selection carries the mark as the first one did at the start: [true]
    when it was active, not at all otherwise.  So [isMarkActive] is restored
    on every such selection, and the marks of the Texts are restored exactly
    when the Texts of the selection agreed with the first one; the document
    is then the cut document, which is the document itself when the edges
    of the selection lie at edges of Texts. *)
Theorem toggleMark_twice (format : string) (e : EditorState) :
  let e2 := toggleMark cc format (toggleMark cc format e) in
  (match selection e with
   | Some r => Range.isCollapsed r = true
   | None => True
   end ->
   isMarkActive cc e2 format = isMarkActive cc e format /\
   children e2 = children e /\
   selection e2 = selection e /\
   ((forall m, Editor.marks cc e = Some m ->
       m !! format = None \/ m !! format = Some (VBool true)) ->
    Editor.marks cc e2 = Editor.marks cc e)) /\
  (forall r,
     selection e = Some r -> Range.isCollapsed r = false ->
     caret_in_text cc (children e) (Point.path (Range.anchor r)) = true ->
     caret_in_text cc (children e) (Point.path (Range.focus r)) = true ->
     let es := Transforms.splitRange cc isText e in
     let back :=
       if isMarkActive cc e format then set_prop format (VBool true)
       else unset_prop format in
     (idle cc (children e) (Range.anchor r) = true ->
      idle cc (children e) (Range.focus r) = true -> es = e) /\
     document_chars es = document_chars e /\
     (pending e <> None -> e2 = toggleMark cc format e) /\
     (pending e = None ->
      e2 = Transforms.setNodes cc back isText es /\
      isMarkActive cc e2 format = isMarkActive cc e format /\
      document_chars e2 = document_chars e /\
      ((forall n p, In (n, p) (Editor.nodes cc isText es) ->
          node_props n !! format
          = if isMarkActive cc e format then Some (VBool true) else None) ->
       e2 = es))).
Proof.
  cbn zeta. split; [apply toggleMark_twice_at_caret|].
  intros r Hs Hc Ha Hf.
  destruct (toggleMark_twice_expanded format e r Hs Hc Ha Hf) as [H1 H2].
  cbn zeta in H1, H2.
  split; [|split; [apply splitRange_chars|split; [exact H2|]]].
  - intros Hia Hif. destruct r as [a f].
    apply (splitRange_idle isText e a f); auto.
  - intros Hp. destruct (H1 Hp) as [He2 Hact]. split; [exact He2|].
    split; [exact Hact|]. split.
    + rewrite He2, setNodes_chars, splitRange_chars; [reflexivity|].
      intros k. destruct (isMarkActive cc e format);
        [apply set_prop_text|apply unset_prop_text].
    + intros Hu. rewrite He2. apply setNodes_same. intros n p Hin.
      specialize (Hu n p Hin).
      assert (Ht : isText n = true).
      { unfold Editor.nodes, Tree.nodes in Hin.
        destruct (selection (Transforms.splitRange cc isText e));
          [|destruct Hin].
        apply filter_In in Hin. tauto. }
      destruct n as [s mk|]; [|discriminate]. cbn [node_props] in Hu.
      destruct (isMarkActive cc e format); cbn [set_prop unset_prop]; f_equal.
      * apply insert_id, Hu.
      * apply delete_id, Hu.
Qed.

End MarksTwice.

(** A selection inside one Text: the Text is cut at the edges of the
    selection, the middle part gets the mark and loses it again. *)
Lemma toggleMark_twice_witness :
  let e :=
    doc [el "paragraph" [txt "hello world"; txt "!"]]
      (Some (Range.mk (Point.mk [0; 0] 2) (Point.mk [0; 0] 7))) in
  let e2 := toggleMark codexClassify "bold" (toggleMark codexClassify "bold" e) in
  Range.isCollapsed (Range.mk (Point.mk [0; 0] 2) (Point.mk [0; 0] 7)) = false /\
  pending e = None /\
  children (toggleMark codexClassify "bold" e) =
    [ el "paragraph"
        [ txt "he"; Text "llo w" {[ "bold" := VBool true ]}; txt "orld";
          txt "!" ] ] /\
  children e2 =
    [el "paragraph" [txt "he"; txt "llo w"; txt "orld"; txt "!"]] /\
  e2 = Transforms.splitRange codexClassify isText e /\
  isMarkActive codexClassify e2 "bold" = isMarkActive codexClassify e "bold".
Proof.
  cbn zeta. split; [reflexivity|]. split; [reflexivity|].
  split; [vm_compute; reflexivity|]. split; [vm_compute; reflexivity|].
  destruct (toggleMark_twice "bold"
              (doc [el "paragraph" [txt "hello world"; txt "!"]]
                 (Some (Range.mk (Point.mk [0; 0] 2) (Point.mk [0; 0] 7)))))
    as [_ H].
  destruct (H _ eq_refl eq_refl eq_refl eq_refl) as (_ & _ & _ & H').
  destruct (H' eq_refl) as (_ & Hact & _ & Hsame).
  split; [|exact Hact]. apply Hsame.
  intros n p Hin. vm_compute in Hin.
  destruct Hin as [[= <- <-]|[]]. reflexivity.
Defined.

(** ** New elements under [wrapNodes] *)

Section WrapFacts.
Local Abbreviation cc := codexClassify.

Lemma built_in_app w ks1 ks2 :
  built_in w (ks1 ++ ks2) = built_in w ks1 + built_in w ks2.
Proof. unfold built_in. rewrite map_app, list_sum_app. reflexivity. Qed.

Lemma built_in_cons w k ks : built_in w (k :: ks) = count_built w k + built_in w ks.
Proof. reflexivity. Qed.

Lemma built_in_middle w ks x k :
  ks !! x = Some k ->
  built_in w ks
  = built_in w (take x ks) + count_built w k + built_in w (drop (S x) ks).
Proof.
  intros H. rewrite <- (take_drop_middle ks x k H) at 1.
  rewrite built_in_app, built_in_cons. lia.
Qed.

Lemma built_in_insert w ks x k k' :
  ks !! x = Some k ->
  built_in w (<[x := k']> ks) + count_built w k
  = built_in w ks + count_built w k'.
Proof.
  intros H. assert (Hx : x < length ks) by (eapply lookup_lt_Some; eauto).
  rewrite (built_in_middle w ks x k H).
  rewrite insert_take_drop by exact Hx.
  rewrite built_in_app, built_in_cons. lia.
Qed.

Lemma count_built_element w t a ks :
  count_built w (Element t a ks)
  = (if built_from w (Element t a []) then 1 else 0) + built_in w ks.
Proof. destruct w; reflexivity. Qed.

Lemma built_from_rewrap t a wks ks :
  built_from (Element t a wks) (Transforms.rewrap (Element t a wks) ks) = true.
Proof. cbn. apply bool_decide_eq_true. auto. Qed.

Lemma built_in_run w ks i j :
  i <= j ->
  built_in w ks
  = built_in w (take i ks) + built_in w (take (S j - i) (drop i ks))
    + built_in w (drop (S j) ks).
Proof.
  intros H. rewrite <- (take_mid_drop ks i (S j)) at 1 by lia.
  rewrite !built_in_app. lia.
Qed.

(** Wrapping a run adds one element built from the wrapper. *)
Lemma wrap_at_built t a wks i j cp : forall ks,
  i <= j ->
  built_in (Element t a wks) ks
  <= built_in (Element t a wks) (Transforms.wrap_at (Element t a wks) cp i j ks).
Proof.
  induction cp as [|x cp IH]; intros ks Hij; cbn [Transforms.wrap_at].
  - pose proof (built_in_run (Element t a wks) ks i j Hij) as Hks.
    rewrite !built_in_app, built_in_cons.
    change (Transforms.rewrap (Element t a wks) ?l) with (Element t a l).
    rewrite count_built_element. change (built_in _ []) with 0. lia.
  - destruct (ks !! x) as [[s mk | t' a' ks']|] eqn:Ex; try lia.
    pose proof (built_in_insert (Element t a wks) ks x _
                  (Element t' a' (Transforms.wrap_at (Element t a wks) cp i j ks'))
                  Ex) as H.
    rewrite !count_built_element in H. specialize (IH ks' Hij). lia.
Qed.

Lemma wrap_at_built_new t a wks i j cp : forall ks n,
  i <= j ->
  Tree.node_at ks (cp ++ [i]) = Some n ->
  built_in (Element t a wks) (Transforms.wrap_at (Element t a wks) cp i j ks)
  = S (built_in (Element t a wks) ks).
Proof.
  induction cp as [|x cp IH]; intros ks n Hij Hn; cbn [Transforms.wrap_at].
  - pose proof (built_in_run (Element t a wks) ks i j Hij) as Hks.
    rewrite !built_in_app, built_in_cons.
    change (Transforms.rewrap (Element t a wks) ?l) with (Element t a l).
    rewrite count_built_element. cbn [built_from].
    rewrite bool_decide_eq_true_2 by auto. change (built_in _ []) with 0. lia.
  - cbn [app Tree.node_at] in Hn.
    destruct (ks !! x) as [k|] eqn:Ex; [|discriminate].
    destruct k as [s mk | t' a' ks'].
    { destruct cp; cbn in Hn; discriminate. }
    assert (Hn' : Tree.node_at ks' (cp ++ [i]) = Some n).
    { destruct cp as [|y cp]; cbn [app Tree.descend node_children] in Hn |- *;
        exact Hn. }
    pose proof (built_in_insert (Element t a wks) ks x _
                  (Element t' a' (Transforms.wrap_at (Element t a wks) cp i j ks'))
                  Ex) as H.
    rewrite !count_built_element in H. specialize (IH ks' n Hij Hn'). lia.
Qed.

(** The lowest matches are nodes of the tree, at their paths. *)
Lemma lowest_in_valid m n : forall lo hi n' p,
  In (n', p) (Tree.lowest_in cc m lo hi n) -> Tree.descend n p = Some n'.
Proof.
  induction n as [s mk | t a ks IH] using Node_forall_ind;
    intros lo hi n' p H; rewrite lowest_in_below in H.
  - cbn in H. destruct (m (Text s mk)); [|destruct H].
    destruct H as [[= <- <-]|[]]. reflexivity.
  - destruct (Tree.lowest_below cc m lo hi (Element t a ks)) as [|e0 l0] eqn:Eb.
    { destruct (m (Element t a ks)); [|destruct H].
      destruct H as [[= <- <-]|[]]. reflexivity. }
    rewrite <- Eb in H. unfold Tree.lowest_below in H.
    destruct (isVoid cc (Element t a ks)); [destruct H|].
    apply lowest_kids_In in H as (x & r & k & -> & Hx & _ & Hin).
    cbn [Tree.descend node_children Nat.add]. rewrite Hx.
    rewrite Forall_lookup in IH. exact (IH x k Hx _ _ _ _ Hin).
Qed.

Lemma lowest_kids_valid m lo hi ks n' p :
  In (n', p) (Tree.lowest_kids cc m lo hi 0 ks) ->
  p <> [] /\ Tree.node_at ks p = Some n'.
Proof.
  intros H. apply lowest_kids_In in H as (x & r & k & -> & Hx & _ & Hin).
  split; [discriminate|]. cbn [Tree.node_at Nat.add]. rewrite Hx.
  eapply lowest_in_valid; eauto.
Qed.

(** No lowest match lies below another one. *)
Lemma lowest_in_apart m n : forall lo hi n1 n2 p q,
  In (n1, p) (Tree.lowest_in cc m lo hi n) ->
  In (n2, p ++ q) (Tree.lowest_in cc m lo hi n) -> q = [].
Proof.
  induction n as [s mk | t a ks IH] using Node_forall_ind;
    intros lo hi n1 n2 p q H1 H2; rewrite lowest_in_below in H1, H2.
  - cbn in H1, H2. destruct (m (Text s mk)); [|destruct H1].
    destruct H1 as [[= <- <-]|[]]. destruct H2 as [[= _ E]|[]].
    symmetry. exact E.
  - destruct (Tree.lowest_below cc m lo hi (Element t a ks)) as [|e0 l0] eqn:Eb.
    { destruct (m (Element t a ks)); [|destruct H1].
      destruct H1 as [[= <- <-]|[]]. destruct H2 as [[= _ E]|[]].
      symmetry. exact E. }
    rewrite <- Eb in H1, H2. unfold Tree.lowest_below in H1, H2.
    destruct (isVoid cc (Element t a ks)); [destruct H1|].
    apply lowest_kids_In in H1 as (x & r & k & -> & Hx & _ & Hin).
    apply lowest_kids_In in H2 as (x2 & r2 & k2 & E & Hx2 & _ & Hin2).
    cbn [Nat.add app] in E. injection E as <- <-.
    rewrite Hx in Hx2. injection Hx2 as <-.
    rewrite Forall_lookup in IH. exact (IH x k Hx _ _ _ _ _ _ Hin Hin2).
Qed.

Lemma lowest_kids_apart m lo hi ks n1 n2 p q :
  In (n1, p) (Tree.lowest_kids cc m lo hi 0 ks) ->
  In (n2, p ++ q) (Tree.lowest_kids cc m lo hi 0 ks) -> q = [].
Proof.
  intros H1 H2.
  apply lowest_kids_In in H1 as (x & r & k & -> & Hx & _ & Hin).
  apply lowest_kids_In in H2 as (x2 & r2 & k2 & E & Hx2 & _ & Hin2).
  cbn [Nat.add app] in E. injection E as <- <-.
  rewrite Hx in Hx2. injection Hx2 as <-.
  exact (lowest_in_apart m k _ _ _ _ _ _ Hin Hin2).
Qed.

Lemma common_split : forall p q,
  exists p' q', p = Path.common p q ++ p' /\ q = Path.common p q ++ q'.
Proof.
  induction p as [|x p IH]; intros q; [exists [], q; auto|].
  destruct q as [|y q]; [exists (x :: p), []; auto|].
  cbn [Path.common]. destruct (Nat.eqb_spec x y) as [->|Hne].
  - destruct (IH q) as (p' & q' & Hp & Hq). exists p', q'.
    cbn [app]. split; congruence.
  - exists (x :: p), (y :: q). auto.
Qed.

(** The run of the lowest matches below a list of children. *)
Lemma wrap_span_kids m lo hi ks a l :
  Tree.lowest_kids cc m lo hi 0 ks = a :: l ->
  exists cp i j rest n,
    Transforms.wrap_span (a :: l) = Some (cp, i, j) /\
    snd a = cp ++ i :: rest /\ i <= j /\
    Tree.node_at ks (cp ++ [i]) = Some n.
Proof.
  intros E.
  assert (Hij : forall cp i j,
            Transforms.wrap_span (a :: l) = Some (cp, i, j) -> i <= j).
  { intros cp i j. apply (wrap_span_order (a :: l) a l); [reflexivity|].
    intros b Hb. eapply (lowest_kids_first cc); eauto. }
  assert (Ha : In (fst a, snd a) (Tree.lowest_kids cc m lo hi 0 ks)).
  { rewrite <- surjective_pairing, E. left. reflexivity. }
  assert (Hz : In (fst (List.last (a :: l) a), snd (List.last (a :: l) a))
                 (Tree.lowest_kids cc m lo hi 0 ks)).
  { rewrite <- surjective_pairing, E.
    destruct (exists_last (l := a :: l)) as (l' & y & El); [discriminate|].
    rewrite El, last_last. rewrite <- El. rewrite El. apply in_or_app.
    right. left. reflexivity. }
  unfold Transforms.wrap_span in *.
  set (fp := snd a) in *. set (lp := snd (List.last (a :: l) a)) in *.
  destruct (lowest_kids_valid _ _ _ _ _ _ Ha) as [Hne Hv].
  assert (Hpre : forall cp i rest, fp = cp ++ i :: rest ->
            exists n, Tree.node_at ks (cp ++ [i]) = Some n).
  { intros cp i rest Efp. rewrite Efp in Hv. clear -Hv. revert ks Hv.
    induction cp as [|y cp IH]; intros ks Hv.
    - cbn [app Tree.node_at] in Hv |- *.
      destruct (ks !! i) as [k|]; [|discriminate]. eauto.
    - cbn [app Tree.node_at] in Hv |- *.
      destruct (ks !! y) as [k|]; [|discriminate].
      destruct k as [s mk | t0 a0 ks'].
      { destruct cp; cbn in Hv; discriminate. }
      specialize (IH ks').
      destruct cp as [|y' cp]; cbn [app Tree.descend node_children Tree.node_at]
        in Hv, IH |- *; apply IH; exact Hv. }
  assert (Hsp : exists cp i j rest,
            (if Path.equals fp lp then Path.parent fp else Path.common fp lp)
            = cp /\
            fp !! length cp = Some i /\ lp !! length cp = Some j /\
            fp = cp ++ i :: rest).
  { unfold Path.equals. destruct (bool_decide (fp = lp)) eqn:Ee.
    - unfold Path.parent.
      destruct (exists_last Hne) as (cp & i & Efp).
      apply bool_decide_eq_true in Ee. rewrite <- Ee, Efp.
      rewrite removelast_last.
      exists cp, i, i, []. rewrite list_lookup_middle by reflexivity. auto.
    - apply bool_decide_eq_false in Ee.
      destruct (common_split fp lp) as (p' & q' & Hp & Hq).
      destruct p' as [|i rest].
      { exfalso. apply Ee. rewrite app_nil_r in Hp.
        rewrite <- Hp in Hq. rewrite Hq in Hz.
        pose proof (lowest_kids_apart _ _ _ _ _ _ _ _ Ha Hz) as E0.
        rewrite E0, app_nil_r in Hq. congruence. }
      destruct q' as [|j rest'].
      { exfalso. apply Ee. rewrite app_nil_r in Hq.
        rewrite <- Hq in Hp. rewrite Hp in Ha.
        pose proof (lowest_kids_apart _ _ _ _ _ _ _ _ Hz Ha) as E0.
        discriminate. }
      exists (Path.common fp lp), i, j, rest.
      split; [reflexivity|]. split; [|split; [|exact Hp]].
      + pose proof (list_lookup_middle (Path.common fp lp) rest i _ eq_refl)
          as Hl.
        rewrite <- Hp in Hl. exact Hl.
      + pose proof (list_lookup_middle (Path.common fp lp) rest' j _ eq_refl)
          as Hl.
        rewrite <- Hq in Hl. exact Hl. }
  destruct Hsp as (cp & i & j & rest & Hcp & Hi & Hj & Hfp).
  destruct (Hpre cp i rest Hfp) as [n Hn].
  exists cp, i, j, rest, n.
  assert (Hw : match
                 fp !! length (if Path.equals fp lp then Path.parent fp
                               else Path.common fp lp)
               with
               | Some i0 =>
                   match
                     lp !! length (if Path.equals fp lp then Path.parent fp
                                   else Path.common fp lp)
                   with
                   | Some j0 =>
                       Some (if Path.equals fp lp then Path.parent fp
                             else Path.common fp lp, i0, j0)
                   | None => None
                   end
               | None => None
               end = Some (cp, i, j)).
  { rewrite Hcp, Hi, Hj. reflexivity. }
  split; [exact Hw|]. split; [exact Hfp|]. split; [|exact Hn].
  apply (Hij cp i j Hw).
Qed.

End WrapFacts.

Section WrapInline.
Local Abbreviation cc := codexClassify.
Context (t : string) (a : gmap string Value) (wks : list Node).
Local Abbreviation w := (Element t a wks).

(** The run of the lowest matches below an element is wrapped in one new
    element. *)
Lemma wrap_run_built m lo hi ks :
  built_in w (Transforms.wrap_run w (Tree.lowest_kids cc m lo hi 0 ks) ks)
  = built_in w ks
    + match Tree.lowest_kids cc m lo hi 0 ks with [] => 0 | _ => 1 end.
Proof.
  unfold Transforms.wrap_run.
  destruct (Tree.lowest_kids cc m lo hi 0 ks) as [|a0 l] eqn:E;
    [unfold Transforms.wrap_span; lia|].
  destruct (wrap_span_kids m lo hi ks a0 l E)
    as (cp & i & j & rest & n & Hs & _ & Hij & Hn).
  rewrite Hs. rewrite (wrap_at_built_new t a wks i j cp ks n Hij Hn). lia.
Qed.

Lemma wrap_inline_kids_cons lo hi i k ks :
  Transforms.wrap_inline_kids cc w lo hi i (k :: ks) =
    (if in_span lo hi i
     then Transforms.wrap_inline cc w (sub lo i) (sub hi i) k else k)
    :: Transforms.wrap_inline_kids cc w lo hi (S i) ks.
Proof. reflexivity. Qed.

(** [wrapNodes] with an inline wrapper takes no element away. *)
Lemma wrap_inline_built n : forall lo hi,
  count_built w n <= count_built w (Transforms.wrap_inline cc w lo hi n).
Proof.
  induction n as [s mk | t' a' ks IH] using Node_forall_ind; intros lo hi.
  - cbn. lia.
  - rewrite wrap_inline_eq.
    destruct (isVoid cc (Element t' a' ks)); [lia|].
    destruct (Tree.lowest_hit cc (isBlock cc) lo hi (Element t' a' ks)).
    + rewrite !count_built_element, wrap_run_built. lia.
    + rewrite !count_built_element.
      enough (Hk : forall i, built_in w ks
                <= built_in w (Transforms.wrap_inline_kids cc w lo hi i ks))
        by (specialize (Hk 0); lia).
      induction IH as [|k ks' Hk _ IHks]; intros i; [cbn; lia|].
      rewrite wrap_inline_kids_cons, !built_in_cons.
      specialize (IHks (S i)).
      destruct (in_span lo hi i); [specialize (Hk (sub lo i) (sub hi i))|];
        lia.
Qed.

Lemma wrap_inline_kids_built lo hi ks : forall i,
  built_in w ks <= built_in w (Transforms.wrap_inline_kids cc w lo hi i ks).
Proof.
  induction ks as [|k ks IH]; intros i; [cbn; lia|].
  rewrite wrap_inline_kids_cons, !built_in_cons. specialize (IH (S i)).
  destruct (in_span lo hi i);
    [pose proof (wrap_inline_built k (sub lo i) (sub hi i))|]; lia.
Qed.

Lemma wrap_inline_kids_new lo hi ks : forall i x k,
  ks !! x = Some k -> in_span lo hi (i + x) = true ->
  count_built w k
  < count_built w
      (Transforms.wrap_inline cc w (sub lo (i + x)) (sub hi (i + x)) k) ->
  built_in w ks < built_in w (Transforms.wrap_inline_kids cc w lo hi i ks).
Proof.
  induction ks as [|k0 ks IH]; intros i x k Hx Hin Hlt; [discriminate|].
  rewrite wrap_inline_kids_cons, !built_in_cons. destruct x as [|x].
  - injection Hx as ->. rewrite Nat.add_0_r in Hin, Hlt. rewrite Hin.
    pose proof (wrap_inline_kids_built lo hi ks (S i)). lia.
  - cbn [lookup list_lookup] in Hx.
    rewrite Nat.add_succ_r in Hin, Hlt.
    specialize (IH (S i) x k Hx Hin Hlt).
    destruct (in_span lo hi i);
      [pose proof (wrap_inline_built k0 (sub lo i) (sub hi i))|]; lia.
Qed.

(** The traversal finds no block where there is none. *)
Lemma no_blocks_walk n : forall lo hi,
  no_blocks cc n = true ->
  existsb (fun en : Entry => isBlock cc (fst en)) (Tree.walk cc lo hi n) = false.
Proof.
  induction n as [s mk | t' a' ks IH] using Node_forall_ind; intros lo hi H.
  - reflexivity.
  - rewrite walk_eq. cbn [existsb fst].
    cbn [no_blocks] in H. apply andb_true_iff in H as [Hb Hk].
    apply negb_true_iff in Hb. rewrite Hb. cbn [orb].
    unfold Tree.walk_below.
    destruct (isVoid cc (Element t' a' ks)); [reflexivity|].
    clear Hb. revert Hk. generalize 0.
    induction IH as [|k ks' Hk' _ IHks]; intros i Hk; [reflexivity|].
    cbn [forallb] in Hk. apply andb_true_iff in Hk as [H1 H2].
    rewrite walk_kids_cons, existsb_app, (IHks _ H2), orb_false_r.
    destruct (in_span lo hi i); [|reflexivity].
    rewrite (existsb_under (isBlock cc)). apply Hk', H1.
Qed.

Lemma no_blocks_walk_kids lo hi ks : forall i,
  forallb (no_blocks cc) ks = true ->
  existsb (fun en : Entry => isBlock cc (fst en)) (Tree.walk_kids cc lo hi i ks)
  = false.
Proof.
  induction ks as [|k ks IH]; intros i H; [reflexivity|].
  cbn [forallb] in H. apply andb_true_iff in H as [H1 H2].
  rewrite walk_kids_cons, existsb_app, (IH _ H2), orb_false_r.
  destruct (in_span lo hi i); [|reflexivity].
  rewrite (existsb_under (isBlock cc)). apply no_blocks_walk, H1.
Qed.

Lemma in_span_start x r hi :
  bound_ok (x :: r) hi -> in_span (Some (x :: r)) hi x = true.
Proof.
  intros Hb. unfold in_span, lo_in, hi_in. rewrite Nat.leb_refl. cbn [andb].
  destruct hi as [[|b h]|]; try reflexivity.
  cbn [bound_ok Path.compare] in Hb. apply Nat.leb_le.
  destruct (Nat.compare_spec x b); try lia. congruence.
Qed.

Lemma bound_ok_sub x r hi : bound_ok (x :: r) hi -> bound_ok r (sub hi x).
Proof.
  intros Hb. unfold sub. destruct hi as [[|b h]|]; cbn [bound_ok]; auto.
  destruct (Nat.eqb_spec b x) as [->|]; cbn [bound_ok]; auto.
  cbn [bound_ok Path.compare] in Hb. rewrite Nat.compare_refl in Hb.
  exact Hb.
Qed.

Lemma forallb_lookup_true {A} (f : A -> bool) (l : list A) x k :
  forallb f l = true -> l !! x = Some k -> f k = true.
Proof.
  intros H0 Hx. revert x H0 Hx. induction l as [|y l IH]; intros x H0 Hx; [discriminate|].
  cbn [forallb] in H0. apply andb_true_iff in H0 as [H1 H2].
  destruct x as [|x]; [injection Hx as <-; exact H1|].
  exact (IH x H2 Hx).
Qed.

(** In the lowest block around the start of the span, the texts and inline
    elements of the span are wrapped. *)
Lemma wrap_inline_new r : forall k hi s,
  text_on cc k r = Some s -> bound_ok r hi ->
  isBlock cc k = true -> blocks_sorted cc k = true ->
  count_built w k
  < count_built w (Transforms.wrap_inline cc w (Some r) hi k).
Proof.
  induction r as [|x r IH]; intros k hi s Hk Hb Hblock Hsorted.
  - destruct k; [discriminate Hblock|discriminate Hk].
  - destruct k as [s' mk | t' a' ks]; [discriminate Hk|].
    rewrite text_on_element in Hk.
    destruct (isVoid cc (Element t' a' ks)) eqn:Ev; [discriminate|].
    pose proof Hk as Hof. cbn [text_of] in Hk.
    destruct (ks !! x) as [k'|] eqn:Ex; [|discriminate].
    cbn [blocks_sorted] in Hsorted.
    apply andb_true_iff in Hsorted as [Hkinds Hsub].
    pose proof (in_span_start x r hi Hb) as Hin.
    pose proof (bound_ok_sub x r hi Hb) as Hb'.
    rewrite wrap_inline_eq, Ev.
    destruct (isBlock cc k') eqn:Ebk.
    + assert (Hh : Tree.lowest_hit cc (isBlock cc) (Some (x :: r)) hi
                     (Element t' a' ks) = false).
      { unfold Tree.lowest_hit. rewrite Hblock. cbn [andb].
        apply negb_false_iff. unfold Tree.walk_below. rewrite Ev.
        apply existsb_exists. exists (under x (k', [])). split; [|exact Ebk].
        apply (walk_kids_child (Some (x :: r)) hi x k' (k', []) ks 0);
          [rewrite Nat.sub_0_r; exact Ex | lia | exact Hin |].
        rewrite walk_eq. left. reflexivity. }
      rewrite Hh, !count_built_element.
      enough (built_in w ks
              < built_in w
                  (Transforms.wrap_inline_kids cc w (Some (x :: r)) hi 0 ks))
        by lia.
      apply (wrap_inline_kids_new _ _ ks 0 x k' Ex); [exact Hin|].
      cbn [Nat.add]. rewrite sub_caret.
      apply (IH k' (sub hi x) s Hk Hb' Ebk).
      exact (forallb_lookup_true _ _ _ _ Hsub Ex).
    + assert (Hnb : forallb (no_blocks cc) ks = true).
      { apply orb_true_iff in Hkinds as [Hall|Hnone]; [|exact Hnone].
        rewrite (forallb_lookup_true _ _ _ _ Hall Ex) in Ebk. discriminate. }
      assert (Hh : Tree.lowest_hit cc (isBlock cc) (Some (x :: r)) hi
                     (Element t' a' ks) = true).
      { unfold Tree.lowest_hit. rewrite Hblock. cbn [andb].
        apply negb_true_iff. unfold Tree.walk_below. rewrite Ev.
        apply no_blocks_walk_kids, Hnb. }
      rewrite Hh, !count_built_element, wrap_run_built.
      destruct (Tree.lowest_kids cc (Transforms.inline_or_text cc)
                  (Some (x :: r)) hi 0 ks) as [|e0 l0] eqn:El; [|lia].
      exfalso. apply lowest_kids_nil in El.
      destruct (walk_kids_visits ks (x :: r) hi s Hof Hb) as (n & Hn & Hi).
      assert (Ht : existsb (fun en : Entry => Transforms.inline_or_text cc (fst en))
                     (Tree.walk_kids cc (Some (x :: r)) hi 0 ks) = true).
      { apply existsb_exists. exists (n, x :: r). split; [exact Hi|].
        cbn [fst]. unfold Transforms.inline_or_text. rewrite Hn. reflexivity. }
      exact (eq_true_false_abs _ Ht El).
Qed.

(** [wrapNodes] with an inline wrapper, on a selection between two points
    of Texts of a document in the layout of blocks: the document gets a new
    element built from the wrapper. *)
Lemma wrapNodes_inline_new e r sa sf :
  selection e = Some r ->
  text_of cc (children e) (Point.path (Range.anchor r)) = Some sa ->
  text_of cc (children e) (Point.path (Range.focus r)) = Some sf ->
  block_layout cc (children e) = true ->
  built_in w (children e)
  < built_in w (children (Transforms.wrapNodes_inline cc w e)).
Proof.
  intros Hs Ha Hf Hl. unfold Transforms.wrapNodes_inline. rewrite Hs.
  cbn [children]. unfold Tree.span_lo, Tree.span_hi.
  destruct (edges_sorted (children e) r sa sf Ha Hf) as [Hwho Hord].
  cbn zeta in Hwho, Hord.
  set (S := Range.start r) in *. set (E := Range.end_ r) in *.
  assert (HS : exists sS, text_of cc (children e) (Point.path S) = Some sS).
  { destruct Hwho as [[-> _]|[-> _]]; eauto. }
  destruct HS as [sS HS].
  assert (Hb : bound_ok (Point.path S) (Some (Point.path E))).
  { cbn [bound_ok]. destruct Hord as [-> | [-> _]]; [discriminate|].
    rewrite compare_refl. discriminate. }
  destruct (Point.path S) as [|x rS] eqn:EpS; [discriminate|].
  cbn [text_of] in HS.
  destruct (children e !! x) as [k|] eqn:Ex; [|discriminate].
  unfold block_layout in Hl. apply andb_true_iff in Hl as [Hblocks Hsorted].
  apply (wrap_inline_kids_new _ _ (children e) 0 x k Ex).
  - apply in_span_start, Hb.
  - cbn [Nat.add]. rewrite sub_caret.
    apply (wrap_inline_new rS k _ sS HS (bound_ok_sub x rS _ Hb)).
    + exact (forallb_lookup_true _ _ _ _ Hblocks Ex).
    + exact (forallb_lookup_true _ _ _ _ Hsorted Ex).
Qed.

End WrapInline.

(** ** The cuts at the edges of a selection keep the layout of the document *)

Section CutLayout.
Local Abbreviation cc := codexClassify.

Lemma forallb_middle {A} (f : A -> bool) (l : list A) x k new :
  l !! x = Some k -> forallb f l = true -> forallb f new = true ->
  forallb f (take x l ++ new ++ drop (S x) l) = true.
Proof.
  intros Hx H Hn. rewrite <- (take_drop_middle l x k Hx) in H.
  rewrite forallb_app in H. cbn [forallb] in H.
  apply andb_true_iff in H as [H1 H2]. apply andb_true_iff in H2 as [_ H2].
  rewrite !forallb_app, H1, Hn, H2. reflexivity.
Qed.

(** A cut of a Text keeps the elements of the document and its layout. *)
Lemma split_at_layout w o r : forall ks x k s,
  ks !! x = Some k -> text_on cc k r = Some s ->
  let ks' := Transforms.split_at cc (length r) (x :: r) o ks in
  built_in w ks' = built_in w ks /\
  (forallb (isBlock cc) ks = true -> forallb (isBlock cc) ks' = true) /\
  (forallb (no_blocks cc) ks = true -> forallb (no_blocks cc) ks' = true) /\
  (forallb (blocks_sorted cc) ks = true ->
   forallb (blocks_sorted cc) ks' = true).
Proof.
  induction r as [|y r IH]; intros ks x k s Hx Hk; cbn zeta.
  - destruct k as [s' mk|]; [|discriminate].
    cbn [length Transforms.split_at]. rewrite Hx, split_node_text.
    assert (Hnew : forall new,
      Forall (fun n => isText n = true) new ->
      built_in w (take x ks ++ new ++ drop (S x) ks) = built_in w ks /\
      (forallb (isBlock cc) ks = true ->
       forallb (isBlock cc) (take x ks ++ new ++ drop (S x) ks) = true) /\
      (forallb (no_blocks cc) ks = true ->
       forallb (no_blocks cc) (take x ks ++ new ++ drop (S x) ks) = true) /\
      (forallb (blocks_sorted cc) ks = true ->
       forallb (blocks_sorted cc) (take x ks ++ new ++ drop (S x) ks) = true)).
    { intros new Hnew.
      assert (H0 : built_in w new = 0 /\ forallb (no_blocks cc) new = true /\
                   forallb (blocks_sorted cc) new = true).
      { induction Hnew as [|n new Hn _ IHn]; [auto|].
        destruct n as [s0 mk0|]; [|discriminate]. exact IHn. }
      destruct H0 as (Hb0 & Hn0 & Hs0).
      split; [|split; [|split]].
      - rewrite (built_in_middle w ks x _ Hx), !built_in_app, Hb0.
        cbn [count_built]. lia.
      - intros H. pose proof (forallb_lookup_true _ _ _ _ H Hx) as Hc.
        discriminate Hc.
      - intros H. eapply forallb_middle; eauto.
      - intros H. eapply forallb_middle; eauto. }
    destruct (at_edge s' o); [destruct (String.length s' <=? o)|];
      cbn [app]; rewrite ?app_nil_r.
    + apply (Hnew [Text s' mk]). repeat constructor.
    + apply (Hnew [Text s' mk]). repeat constructor.
    + apply (Hnew [Text (substring 0 o s') mk;
                   Text (substring o (String.length s' - o) s') mk]).
      repeat constructor.
  - destruct k as [s' mk | t a ks0]; [discriminate|].
    rewrite text_on_element in Hk.
    destruct (isVoid cc (Element t a ks0)) eqn:Ev; [discriminate|].
    cbn [text_of] in Hk.
    destruct (ks0 !! y) as [k'|] eqn:Ey; [|discriminate].
    cbn [length Transforms.split_at]. rewrite Hx.
    fold (Transforms.split_at cc (length r) (y :: r) o ks0).
    destruct (IH ks0 y k' s Ey Hk) as (Hb & Hblk & Hnb & Hso).
    set (new := Transforms.split_at cc (length r) (y :: r) o ks0) in *.
    split; [|split; [|split]].
    + pose proof (built_in_insert w ks x _ (Element t a new) Hx) as H.
      rewrite !count_built_element in H. lia.
    + intros H. apply forallb_insert; [exact H|].
      exact (forallb_lookup_true _ _ _ _ H Hx).
    + intros H. apply forallb_insert; [exact H|].
      pose proof (forallb_lookup_true _ _ _ _ H Hx) as Hc.
      cbn [no_blocks] in Hc |- *. apply andb_true_iff in Hc as [Hc1 Hc2].
      apply andb_true_iff. split; [exact Hc1|]. apply Hnb, Hc2.
    + intros H. apply forallb_insert; [exact H|].
      pose proof (forallb_lookup_true _ _ _ _ H Hx) as Hc.
      cbn [blocks_sorted] in Hc |- *. apply andb_true_iff in Hc as [Hc1 Hc2].
      apply andb_true_iff. split; [|apply Hso, Hc2].
      apply orb_true_iff in Hc1 as [Hall|Hnone]; apply orb_true_iff;
        [left; apply Hblk, Hall | right; apply Hnb, Hnone].
Qed.

Lemma cut_at_layout w pt ks s :
  text_of cc ks (Point.path pt) = Some s ->
  built_in w (cut_at cc pt ks) = built_in w ks /\
  (block_layout cc ks = true -> block_layout cc (cut_at cc pt ks) = true).
Proof.
  intros H. unfold cut_at. destruct (Point.path pt) as [|x r]; [discriminate|].
  cbn [text_of] in H. destruct (ks !! x) as [k|] eqn:Ex; [|discriminate].
  destruct (split_at_layout w (Point.offset pt) r ks x k s Ex H)
    as (Hb & Hblk & _ & Hso).
  split; [exact Hb|]. unfold block_layout. rewrite !andb_true_iff.
  intros [H1 H2]. auto.
Qed.

(** The cuts at the two edges of a selection between points of Texts keep
    the elements of the document and its layout. *)
Lemma splitRange_layout w m e a f sa sf :
  (forall s mk, m (Text s mk) = true) ->
  selection e = Some (Range.mk a f) ->
  text_of cc (children e) (Point.path a) = Some sa ->
  text_of cc (children e) (Point.path f) = Some sf ->
  let es := Transforms.splitRange cc m e in
  built_in w (children es) = built_in w (children e) /\
  (block_layout cc (children e) = true ->
   block_layout cc (children es) = true).
Proof.
  intros Hm Hs Ha Hf. cbn zeta. unfold Transforms.splitRange. rewrite Hs.
  set (r := Range.mk a f).
  destruct (edges_sorted (children e) r sa sf Ha Hf) as [Hwho Hord].
  cbn zeta in Hwho, Hord.
  set (S := Range.start r) in *. set (E := Range.end_ r) in *.
  assert (HE : exists sE, text_of cc (children e) (Point.path E) = Some sE).
  { destruct Hwho as [[_ ->]|[_ ->]]; eauto. }
  destruct HE as [sE HE].
  assert (HS : exists sS, text_of cc (children e) (Point.path S) = Some sS).
  { destruct Hwho as [[-> _]|[-> _]]; eauto. }
  destruct HS as [sS HS].
  rewrite (splitNodes_cut m false E e sE Hm HE), Hs. cbn [selection].
  assert (HbS : cut_point cc false E (children e) S = S).
  { apply (cut_point_before E _ sE); [exact HE|]. exact Hord. }
  assert (Hba : cut_point cc false E (children e) a = a).
  { destruct Hwho as [[Ea Ef]|[Ef Ea]]; cbn [Range.anchor Range.focus r] in *;
      [congruence|].
    rewrite <- Ea. apply (cut_point_before E _ sE); [exact HE|].
    right. split; [reflexivity|lia]. }
  assert (Hbf : cut_point cc false E (children e) f = f).
  { destruct Hwho as [[Ea Ef]|[Ef Ea]]; cbn [Range.anchor Range.focus r] in *;
      [|congruence].
    rewrite <- Ef. apply (cut_point_before E _ sE); [exact HE|].
    right. split; [reflexivity|lia]. }
  cbn [Range.anchor Range.focus r]. rewrite Hba, Hbf. fold r. fold S.
  set (ks1 := cut_at cc E (children e)).
  set (e1 := {| children := ks1; selection := Some r; marks := marks e;
                reading := reading e |}).
  assert (HS1 : is_Some (text_of cc ks1 (Point.path S))).
  { pose proof (cut_point_valid false E (children e) sE S sS HE HS) as H.
    rewrite HbS in H. exact H. }
  destruct HS1 as [sS1 HS1].
  rewrite (splitNodes_cut m true S e1 sS1 Hm HS1). cbn [children e1].
  destruct (cut_at_layout w E (children e) sE HE) as [Hb1 Hl1].
  destruct (cut_at_layout w S ks1 sS1 HS1) as [Hb2 Hl2].
  fold ks1 in Hb1, Hl1. split; [lia|]. intros H. apply Hl2, Hl1, H.
Qed.

End CutLayout.

Section Unvisited.
Local Abbreviation cc := codexClassify.
Context (f : option string -> bool).



End Unvisited.

(** ** The elements that [wrapLink] keeps *)

Section KeptElements.
Local Abbreviation cc := codexClassify.

Lemma built_from_kids w t a ks :
  built_from w (Element t a ks) = built_from w (Element t a []).
Proof. destruct w; reflexivity. Qed.

Lemma halves_built w t a before inside after :
  built_from w (Element t a []) = false ->
  built_in w (Transforms.halves t a before inside after)
  = built_in w before + built_in w inside + built_in w after.
Proof.
  intros H. unfold Transforms.halves. rewrite !built_in_app.
  destruct before as [|b0 before], after as [|a0 after];
    rewrite ?built_in_cons, ?count_built_element, ?H;
    change (built_in w []) with 0; rewrite ?built_in_cons; lia.
Qed.

(** [unwrapNodes] keeps the elements that it does not match. *)
Lemma unwrap_node_built w split (m : Node -> bool) n :
  (forall k, m k = true -> built_from w k = false) ->
  forall lo hi,
  built_in w (Transforms.unwrap_node cc split m lo hi n) = count_built w n.
Proof.
  intros Hm.
  induction n as [s mk | t a ks IH] using Node_forall_ind; intros lo hi;
    rewrite unwrap_node_eq; [reflexivity|].
  destruct (isVoid cc (Element t a ks));
    [rewrite built_in_cons; change (built_in w []) with 0; lia|].
  destruct (Tree.lowest_hit cc m lo hi (Element t a ks)) eqn:Eh.
  - cbn zeta.
    assert (Hw : built_from w (Element t a []) = false).
    { rewrite <- (built_from_kids w t a ks). apply Hm.
      unfold Tree.lowest_hit in Eh. apply andb_true_iff in Eh as [Eh _].
      exact Eh. }
    set (i := if split then lo_idx lo else 0).
    set (j := if split then hi_idx hi (length ks) else length ks).
    destruct (take (j - i) (drop i ks)) as [|k0 inside] eqn:Ei;
      [rewrite built_in_cons; change (built_in w []) with 0; lia|].
    rewrite <- Ei, (halves_built w t a _ _ _ Hw), count_built_element, Hw.
    destruct (Nat.le_gt_cases i j) as [Hij|Hij].
    + rewrite <- (take_mid_drop ks i j Hij) at 4. rewrite !built_in_app. lia.
    + replace (j - i) with 0 in Ei by lia. discriminate.
  - rewrite built_in_cons, !count_built_element.
    change (built_in w []) with 0.
    enough (Hk : forall i,
              built_in w (Transforms.unwrap_kids cc split m lo hi i ks)
              = built_in w ks) by (rewrite Hk; lia).
    clear Eh.
    induction IH as [|k ks' Hk _ IHks]; intros i; [reflexivity|].
    rewrite unwrap_kids_cons, built_in_app, built_in_cons, IHks.
    destruct (in_span lo hi i); [rewrite Hk; reflexivity|].
    rewrite built_in_cons. change (built_in w []) with 0. lia.
Qed.

Lemma unwrapNodes_built w (m : Node -> bool) split e :
  (forall k, m k = true -> built_from w k = false) ->
  built_in w (children (Transforms.unwrapNodes cc m split e))
  = built_in w (children e).
Proof.
  intros Hm. unfold Transforms.unwrapNodes.
  destruct (selection e) as [r|]; [|reflexivity]. cbn [children].
  generalize 0. induction (children e) as [|k ks IH]; intros i; [reflexivity|].
  rewrite unwrap_kids_cons, built_in_app, built_in_cons, IH.
  destruct (in_span _ _ i); [rewrite (unwrap_node_built w split m k Hm)|];
    [reflexivity|].
  rewrite built_in_cons. change (built_in w []) with 0. lia.
Qed.

(** An element of another type is not built from a link. *)
Lemma built_from_other w k :
  has_type "link" w = false -> has_type "link" k = true ->
  built_from w k = false.
Proof.
  destruct w as [|t a ks], k as [|t' a' ks']; try reflexivity.
  unfold has_type. cbn [node_type built_from]. intros Hw Hk.
  apply String.eqb_eq in Hk. subst t'.
  apply bool_decide_eq_false. intros [<- _].
  rewrite String.eqb_refl in Hw. discriminate.
Qed.

(** [insertNodes] into a Text adds the node and nothing else. *)
Lemma insert_at_built w node o r : forall ks x k s,
  ks !! x = Some k -> text_on cc k r = Some s ->
  built_in w (fst (Transforms.insert_at cc node (length r) (x :: r) o ks))
  = built_in w ks + count_built w node.
Proof.
  induction r as [|y r IH]; intros ks x k s Hx Hk.
  - destruct k as [s' mk|]; [|discriminate].
    cbn [length Transforms.insert_at]. rewrite Hx, split_node_text.
    rewrite (built_in_middle w ks x _ Hx).
    destruct (at_edge s' o); [destruct (String.length s' <=? o)|];
      cbn [fst]; rewrite !built_in_app, ?built_in_cons;
      change (built_in w []) with 0; cbn [count_built]; lia.
  - destruct k as [s' mk | t a ks0]; [discriminate|].
    rewrite text_on_element in Hk.
    destruct (isVoid cc (Element t a ks0)) eqn:Ev; [discriminate|].
    cbn [text_of] in Hk.
    destruct (ks0 !! y) as [k'|] eqn:Ey; [|discriminate].
    cbn [length Transforms.insert_at]. rewrite Hx.
    specialize (IH ks0 y k' s Ey Hk).
    destruct (Transforms.insert_at cc node (length r) (y :: r) o ks0)
      as [ks'' ip].
    cbn [fst] in IH |- *.
    pose proof (built_in_insert w ks x _ (Element t a ks'') Hx) as H.
    rewrite !count_built_element in H. lia.
Qed.

Lemma insertNodes_caret_built w deleteFragment node e :
  at_caret cc e = true ->
  isText node = false -> isInline cc node = true ->
  built_in w (children (Transforms.insertNodes cc deleteFragment node e))
  = built_in w (children e) + count_built w node.
Proof.
  intros H Ht Hi.
  destruct (at_caret_inv e H) as (pt & x & r & k & Hs & Hp & Hx & Hk).
  unfold Transforms.insertNodes. rewrite Hs, caret_collapsed, Hs.
  cbn [Range.anchor]. rewrite Ht, Hi, Hp.
  unfold Transforms.match_depth.
  rewrite lowest_kids_caret, Nat.sub_0_r, Hx by lia.
  rewrite (lowest_in_caret _ _ _ Hk), (lowest_index_text r k Hk).
  destruct (lowest_index_lookup _ _ _ (lowest_index_text r k Hk))
    as (n & Hn & _).
  rewrite Hn. cbn [map under fst snd length].
  rewrite firstn_all.
  replace (S (length r) - 1) with (length r) by lia.
  apply text_on_below in Hk as [s Hk].
  pose proof (insert_at_built w node (Point.offset pt) r (children e) x k s
                Hx Hk) as Hb.
  destruct (Transforms.insert_at cc node (length r) (x :: r) (Point.offset pt)
              (children e)) as [ks' ip].
  destruct (Transforms.last_leaf node) as [lp lo].
  cbn [children fst] in Hb |- *. exact Hb.
Qed.

(** [wrapNodes] keeps the elements that are not built from the wrapper. *)
Lemma wrap_at_other w t a wks i j cp : forall ks,
  built_from w (Element t a []) = false -> i <= j ->
  built_in w (Transforms.wrap_at (Element t a wks) cp i j ks) = built_in w ks.
Proof.
  induction cp as [|x cp IH]; intros ks Hw Hij; cbn [Transforms.wrap_at].
  - pose proof (built_in_run w ks i j Hij) as Hks.
    rewrite !built_in_app, built_in_cons.
    change (Transforms.rewrap (Element t a wks) ?l) with (Element t a l).
    rewrite count_built_element, Hw. change (built_in w []) with 0. lia.
  - destruct (ks !! x) as [[s mk | t' a' ks']|] eqn:Ex; try reflexivity.
    pose proof (built_in_insert w ks x _
                  (Element t' a' (Transforms.wrap_at (Element t a wks) cp i j ks'))
                  Ex) as H.
    rewrite !count_built_element in H. specialize (IH ks' Hw Hij). lia.
Qed.

Lemma wrap_run_other w t a wks m lo hi ks :
  built_from w (Element t a []) = false ->
  built_in w (Transforms.wrap_run (Element t a wks)
                (Tree.lowest_kids cc m lo hi 0 ks) ks)
  = built_in w ks.
Proof.
  intros Hw. unfold Transforms.wrap_run.
  destruct (Tree.lowest_kids cc m lo hi 0 ks) as [|a0 l] eqn:E;
    [reflexivity|].
  destruct (wrap_span_kids m lo hi ks a0 l E)
    as (cp & i & j & rest & n & Hs & _ & Hij & _).
  rewrite Hs. apply wrap_at_other; assumption.
Qed.

Lemma wrap_inline_other w t a wks n :
  built_from w (Element t a []) = false ->
  forall lo hi,
  count_built w (Transforms.wrap_inline cc (Element t a wks) lo hi n)
  = count_built w n.
Proof.
  intros Hw.
  induction n as [s mk | t' a' ks IH] using Node_forall_ind; intros lo hi.
  - reflexivity.
  - rewrite wrap_inline_eq.
    destruct (isVoid cc (Element t' a' ks)); [reflexivity|].
    destruct (Tree.lowest_hit cc (isBlock cc) lo hi (Element t' a' ks)).
    + rewrite !count_built_element, (wrap_run_other w t a wks _ _ _ _ Hw).
      reflexivity.
    + rewrite !count_built_element. f_equal.
      generalize 0.
      induction IH as [|k ks' Hk _ IHks]; intros i; [reflexivity|].
      rewrite wrap_inline_kids_cons, !built_in_cons, IHks.
      destruct (in_span lo hi i); [rewrite Hk|]; reflexivity.
Qed.

Lemma wrapNodes_inline_other w t a wks e :
  built_from w (Element t a []) = false ->
  built_in w (children (Transforms.wrapNodes_inline cc (Element t a wks) e))
  = built_in w (children e).
Proof.
  intros Hw. unfold Transforms.wrapNodes_inline.
  destruct (selection e) as [r|]; [|reflexivity]. cbn [children].
  generalize 0. induction (children e) as [|k ks IH]; intros i; [reflexivity|].
  rewrite wrap_inline_kids_cons, !built_in_cons, IH.
  destruct (in_span _ _ i); [rewrite (wrap_inline_other w t a wks k Hw)|];
    reflexivity.
Qed.

End KeptElements.

(** ** What [unwrapNodes] without [split] keeps *)

Section UnwrapKeeps.
Local Abbreviation cc := codexClassify.
Context (m : Node -> bool).

(** Without [split] a lowest match is replaced by its children. *)
Lemma unwrap_node_whole lo hi t a ks :
  isVoid cc (Element t a ks) = false ->
  Tree.lowest_hit cc m lo hi (Element t a ks) = true ->
  Transforms.unwrap_node cc false m lo hi (Element t a ks)
  = match ks with [] => [Element t a ks] | _ => ks end.
Proof.
  intros Ev Eh. rewrite unwrap_node_eq, Ev, Eh. cbn zeta.
  rewrite Nat.sub_0_r, drop_0, firstn_all.
  destruct ks as [|k ks]; [reflexivity|].
  unfold Transforms.halves. rewrite take_0, drop_all, app_nil_r. reflexivity.
Qed.

Lemma unwrap_path_whole lo hi t a ks x k r :
  isVoid cc (Element t a ks) = false ->
  Tree.lowest_hit cc m lo hi (Element t a ks) = true ->
  ks !! x = Some k ->
  Transforms.unwrap_path cc false m lo hi (Element t a ks) (x :: r) = x :: r.
Proof.
  intros Ev Eh Hx. rewrite unwrap_path_eq, Ev, Eh. cbn zeta.
  rewrite Nat.sub_0_r, drop_0, firstn_all, take_0.
  assert (Hl : (x <? length ks) = true).
  { apply Nat.ltb_lt. eapply lookup_lt_Some; eauto. }
  assert (H0 : (x <? 0) = false) by (apply Nat.ltb_ge; lia).
  rewrite H0, Hl, Nat.sub_0_r.
  destruct ks as [|k0 ks]; [discriminate|reflexivity].
Qed.

(** A point of a Text stays a point of that Text. *)
Lemma unwrap_path_text r : forall k lo hi s,
  text_on cc k r = Some s ->
  exists z q k',
    Transforms.unwrap_path cc false m lo hi k r = z :: q /\
    Transforms.unwrap_node cc false m lo hi k !! z = Some k' /\
    text_on cc k' q = Some s.
Proof.
  induction r as [|x r IH]; intros k lo hi s Hk.
  - destruct k as [s' mk|]; [|discriminate].
    exists 0, [], (Text s' mk). auto.
  - destruct k as [s' mk | t a ks]; [discriminate|].
    pose proof Hk as Hon. rewrite text_on_element in Hk.
    destruct (isVoid cc (Element t a ks)) eqn:Ev; [discriminate|].
    cbn [text_of] in Hk. destruct (ks !! x) as [k'|] eqn:Ex; [|discriminate].
    destruct (Tree.lowest_hit cc m lo hi (Element t a ks)) eqn:Eh.
    + rewrite (unwrap_path_whole lo hi t a ks x k' r Ev Eh Ex),
        (unwrap_node_whole lo hi t a ks Ev Eh).
      exists x, r, k'. split; [reflexivity|]. split; [|exact Hk].
      destruct ks; [discriminate|exact Ex].
    + rewrite unwrap_path_eq, unwrap_node_eq, Ev, Eh.
      assert (Hkids : forall ks i,
        i <= x -> ks !! (x - i) = Some k' ->
        exists z q,
          Transforms.unwrap_kids_path cc false m lo hi x r i ks = z :: q /\
          text_of cc (Transforms.unwrap_kids cc false m lo hi i ks) (z :: q)
          = Some s).
      { clear Ex Ev Eh Hon ks. intros ks.
        induction ks as [|k0 ks IHks]; intros i Hi Hl; [discriminate|].
        rewrite unwrap_kids_path_cons, unwrap_kids_cons.
        destruct (Nat.eqb_spec x i) as [->|Hne].
        - rewrite Nat.sub_diag in Hl. injection Hl as ->.
          destruct (in_span lo hi i).
          + destruct (IH k' (sub lo i) (sub hi i) s Hk)
              as (z & q & k1 & Hp & Hn & Ht).
            exists z, q. split; [exact Hp|]. cbn [text_of].
            rewrite (lookup_app_l_Some _ _ _ _ Hn). exact Ht.
          + exists 0, r. split; [reflexivity|]. exact Hk.
        - replace (x - i) with (S (x - S i)) in Hl by lia.
          cbn [lookup list_lookup] in Hl.
          destruct (IHks (S i) ltac:(lia) Hl) as (z & q & Hp & Ht).
          rewrite Hp. cbn [shift].
          eexists _, q. split; [reflexivity|]. cbn [text_of] in Ht |- *.
          rewrite lookup_app_r by lia.
          replace (_ + z - _) with z by lia. exact Ht. }
      destruct (Hkids ks 0 ltac:(lia) ltac:(rewrite Nat.sub_0_r; exact Ex))
        as (z & q & Hp & Ht).
      rewrite Hp. eexists 0, (z :: q), _. split; [reflexivity|].
      split; [reflexivity|].
      rewrite (text_on_insert t a ks _ (z :: q) Ev); [exact Ht|discriminate].
Qed.

Lemma unwrap_kids_path_text lo hi x r k s : forall ks i,
  i <= x -> ks !! (x - i) = Some k -> text_on cc k r = Some s ->
  text_of cc (Transforms.unwrap_kids cc false m lo hi i ks)
    (Transforms.unwrap_kids_path cc false m lo hi x r i ks) = Some s.
Proof.
  induction ks as [|k0 ks IHks]; intros i Hi Hl Hk; [discriminate|].
  rewrite unwrap_kids_path_cons, unwrap_kids_cons.
  destruct (Nat.eqb_spec x i) as [->|Hne].
  - rewrite Nat.sub_diag in Hl. injection Hl as ->.
    destruct (in_span lo hi i); [|exact Hk].
    destruct (unwrap_path_text r k (sub lo i) (sub hi i) s Hk)
      as (z & q & k1 & Hp & Hn & Ht).
    rewrite Hp. cbn [text_of].
    rewrite (lookup_app_l_Some _ _ _ _ Hn). exact Ht.
  - replace (x - i) with (S (x - S i)) in Hl by lia.
    cbn [lookup list_lookup] in Hl.
    specialize (IHks (S i) ltac:(lia) Hl Hk).
    destruct (Transforms.unwrap_kids_path cc false m lo hi x r (S i) ks)
      as [|z q]; [discriminate|].
    cbn [shift text_of] in IHks |- *.
    rewrite lookup_app_r by lia.
    replace (_ + z - _) with z by lia. exact IHks.
Qed.

(** The edges of the selection stay points of Texts. *)
Lemma unwrapNodes_edges e r :
  selection e = Some r ->
  exists r1,
    selection (Transforms.unwrapNodes cc m false e) = Some r1 /\
    (caret_in_text cc (children e) (Point.path (Range.anchor r)) = true ->
     caret_in_text cc (children (Transforms.unwrapNodes cc m false e))
       (Point.path (Range.anchor r1)) = true) /\
    (caret_in_text cc (children e) (Point.path (Range.focus r)) = true ->
     caret_in_text cc (children (Transforms.unwrapNodes cc m false e))
       (Point.path (Range.focus r1)) = true).
Proof.
  intros Hs. unfold Transforms.unwrapNodes. rewrite Hs.
  eexists. split; [reflexivity|]. cbn [children Range.anchor Range.focus].
  assert (Hpt : forall pt,
    caret_in_text cc (children e) (Point.path pt) = true ->
    caret_in_text cc
      (Transforms.unwrap_kids cc false m (Tree.span_lo r) (Tree.span_hi r) 0
         (children e))
      (Point.path
         (Transforms.unwrap_point cc false m (Tree.span_lo r) (Tree.span_hi r)
            (children e) pt)) = true).
  { intros pt H. apply text_of_caret in H as [s H]. apply text_of_caret.
    exists s. unfold Transforms.unwrap_point.
    destruct (Point.path pt) as [|x q]; [discriminate|].
    cbn [Point.path]. cbn [text_of] in H.
    destruct (children e !! x) as [k|] eqn:Ex; [|discriminate].
    apply (unwrap_kids_path_text _ _ x q k s); [lia| |exact H].
    rewrite Nat.sub_0_r. exact Ex. }
  split; apply Hpt.
Qed.

Context (m_inline : forall k, m k = true -> isBlock cc k = false).

Lemma unwrap_kids_forallb (P : Node -> bool) lo hi ks : forall i,
  Forall (fun k => forall lo hi, P k = true ->
            forallb P (Transforms.unwrap_node cc false m lo hi k) = true) ks ->
  forallb P ks = true ->
  forallb P (Transforms.unwrap_kids cc false m lo hi i ks) = true.
Proof.
  induction ks as [|k ks IH]; intros i HF H; [reflexivity|].
  inversion HF as [|? ? Hk HF']; subst.
  cbn [forallb] in H. apply andb_true_iff in H as [H1 H2].
  rewrite unwrap_kids_cons, forallb_app, (IH _ HF' H2), andb_true_r.
  destruct (in_span lo hi i); [apply Hk, H1|].
  cbn [forallb]. rewrite H1. reflexivity.
Qed.

(** The layout of the document in blocks stays. *)
Lemma unwrap_node_layout n : forall lo hi,
  let l := Transforms.unwrap_node cc false m lo hi n in
  (isBlock cc n = true -> forallb (isBlock cc) l = true) /\
  (no_blocks cc n = true -> forallb (no_blocks cc) l = true) /\
  (blocks_sorted cc n = true -> forallb (blocks_sorted cc) l = true).
Proof.
  induction n as [s mk | t a ks IH] using Node_forall_ind; intros lo hi;
    cbn zeta.
  - cbn. auto.
  - destruct (isVoid cc (Element t a ks)) eqn:Ev.
    { rewrite unwrap_node_eq, Ev. cbn [forallb]. rewrite !andb_true_r. auto. }
    destruct (Tree.lowest_hit cc m lo hi (Element t a ks)) eqn:Eh.
    + rewrite (unwrap_node_whole lo hi t a ks Ev Eh).
      assert (Hnb : isBlock cc (Element t a ks) = false).
      { apply m_inline. unfold Tree.lowest_hit in Eh.
        apply andb_true_iff in Eh as [Eh _]. exact Eh. }
      split; [rewrite Hnb; discriminate|].
      destruct ks as [|k ks]; [cbn [forallb]; rewrite !andb_true_r; auto|].
      split.
      * cbn [no_blocks]. rewrite andb_true_iff. tauto.
      * cbn [blocks_sorted]. rewrite andb_true_iff. tauto.
    + rewrite unwrap_node_eq, Ev, Eh. cbn [forallb]. rewrite !andb_true_r.
      assert (HkB : forallb (isBlock cc) ks = true ->
                forallb (isBlock cc)
                  (Transforms.unwrap_kids cc false m lo hi 0 ks) = true).
      { apply unwrap_kids_forallb. eapply Forall_impl; [exact IH|].
        intros k Hk lo' hi'. apply (Hk lo' hi'). }
      assert (HkN : forallb (no_blocks cc) ks = true ->
                forallb (no_blocks cc)
                  (Transforms.unwrap_kids cc false m lo hi 0 ks) = true).
      { apply unwrap_kids_forallb. eapply Forall_impl; [exact IH|].
        intros k Hk lo' hi'. apply (Hk lo' hi'). }
      assert (HkS : forallb (blocks_sorted cc) ks = true ->
                forallb (blocks_sorted cc)
                  (Transforms.unwrap_kids cc false m lo hi 0 ks) = true).
      { apply unwrap_kids_forallb. eapply Forall_impl; [exact IH|].
        intros k Hk lo' hi'. apply (Hk lo' hi'). }
      split; [auto|]. split.
      * cbn [no_blocks]. rewrite !andb_true_iff. intros [H1 H2].
        split; [exact H1|auto].
      * cbn [blocks_sorted]. rewrite !andb_true_iff, !orb_true_iff.
        intros [[H1|H1] H2]; auto.
Qed.

Lemma unwrapNodes_layout e :
  block_layout cc (children e) = true ->
  block_layout cc (children (Transforms.unwrapNodes cc m false e)) = true.
Proof.
  unfold block_layout, Transforms.unwrapNodes.
  destruct (selection e) as [r|]; [|auto]. cbn [children].
  rewrite !andb_true_iff. intros [H1 H2]. split.
  - apply unwrap_kids_forallb; [|exact H1]. apply Forall_forall.
    intros k _ lo hi. apply (unwrap_node_layout k lo hi).
  - apply unwrap_kids_forallb; [|exact H2]. apply Forall_forall.
    intros k _ lo hi. apply (unwrap_node_layout k lo hi).
Qed.

End UnwrapKeeps.

(** ** [wrapLink], step by step, on every selection *)

Section LinkSteps.
Context (deleteFragment : EditorState -> EditorState).
Local Abbreviation cc := codexClassify.

Lemma collapse_end_children e :
  children (Transforms.collapse_end e) = children e.
Proof. unfold Transforms.collapse_end. destruct (selection e); reflexivity. Qed.

Lemma isLinkActive_no_selection e :
  selection e = None -> isLinkActive cc e = false.
Proof.
  intros H. unfold isLinkActive, Editor.nodes, Tree.nodes. rewrite H.
  reflexivity.
Qed.

(** Without a selection [wrapLink] changes nothing. *)
Lemma wrapLink_without_selection url e :
  selection e = None -> wrapLink deleteFragment cc url e = e.
Proof.
  intros H. unfold wrapLink. rewrite (isLinkActive_no_selection e H), H.
  unfold Transforms.wrapNodes. cbn [isElement isText negb andb isInline cc
    codexClassify has_type node_type].
  change (String.eqb "link" "link") with true. cbn match.
  unfold Transforms.splitRange. rewrite H.
  unfold Transforms.wrapNodes_inline. rewrite H.
  unfold Transforms.collapse_end. rewrite H. reflexivity.
Qed.

Lemma unwrapLink_selection e :
  is_Some (selection (if isLinkActive cc e then unwrapLink cc e else e))
  <-> is_Some (selection e).
Proof.
  destruct (isLinkActive cc e); [|tauto].
  unfold unwrapLink, Transforms.unwrapNodes.
  destruct (selection e) as [r|] eqn:Hr; cbn [selection]; [|rewrite Hr].
  - split; eauto.
  - tauto.
Qed.


(** The second step, by the selection left by the first. *)
Lemma wrapLink_branches url e sel1 :
  let e1 := if isLinkActive cc e then unwrapLink cc e else e in
  let link ks := Element "link" {[ "url" := VStr url ]} ks in
  let e' := wrapLink deleteFragment cc url e in
  selection e1 = Some sel1 ->
  (Range.isCollapsed sel1 = true ->
   e' = Transforms.insertNodes cc deleteFragment (link [Text url ∅]) e1) /\
  (Range.isCollapsed sel1 = false ->
   e' = Transforms.collapse_end (Transforms.wrapNodes cc (link []) true e1) /\
   (exists r2,
      selection (Transforms.wrapNodes cc (link []) true e1) = Some r2 /\
      selection e' = Some (Range.mk (Range.end_ r2) (Range.end_ r2))) /\
   document_chars e' = document_chars e).
Proof.
  cbn zeta. set (e1 := if isLinkActive cc e then unwrapLink cc e else e).
  intros Hs1. unfold wrapLink. fold e1. rewrite Hs1.
  split; intros Hc; rewrite Hc; [reflexivity|]. split; [reflexivity|].
  split.
  - destruct (wrapNodes_selection cc
                (Element "link" {[ "url" := VStr url ]} []) true e1
                ltac:(rewrite Hs1; eauto)) as [r2 Hr2].
    exists r2. split; [exact Hr2|].
    unfold Transforms.collapse_end. rewrite Hr2. reflexivity.
  - unfold document_chars, document_text. rewrite collapse_end_children.
    unfold Transforms.wrapNodes. cbn [isElement isText negb andb isInline cc
      codexClassify has_type node_type].
    change (String.eqb "link" "link") with true. cbn match.
    fold (document_text
            (Transforms.wrapNodes_inline cc
               (Element "link" {[ "url" := VStr url ]} [])
               (Transforms.splitRange cc (Transforms.inline_or_text cc) e1))).
    rewrite wrapNodes_inline_text.
    fold (document_chars
            (Transforms.splitRange cc (Transforms.inline_or_text cc) e1)).
    rewrite splitRange_chars. unfold document_chars. f_equal.
    unfold e1. destruct (isLinkActive cc e); [|reflexivity].
    apply unwrapNodes_text.
Qed.

(** On a selection between two points of Texts of a document in the layout
    of blocks, the wrap adds a link element. *)
Lemma wrapNodes_link_new url e1 sel1 :
  let link := Element "link" {[ "url" := VStr url ]} [] in
  selection e1 = Some sel1 ->
  caret_in_text cc (children e1) (Point.path (Range.anchor sel1)) = true ->
  caret_in_text cc (children e1) (Point.path (Range.focus sel1)) = true ->
  block_layout cc (children e1) = true ->
  built_in link (children e1)
  < built_in link
      (children (Transforms.collapse_end (Transforms.wrapNodes cc link true e1))).
Proof.
  cbn zeta. intros Hs Ha Hf Hl. destruct sel1 as [a f].
  cbn [Range.anchor Range.focus] in Ha, Hf.
  apply text_of_caret in Ha as [sa Ha]. apply text_of_caret in Hf as [sf Hf].
  rewrite collapse_end_children.
  unfold Transforms.wrapNodes. cbn [isElement isText negb andb isInline cc
    codexClassify has_type node_type].
  change (String.eqb "link" "link") with true. cbn match.
  assert (Hm : forall s mk, Transforms.inline_or_text cc (Text s mk) = true)
    by reflexivity.
  destruct (splitRange_layout (Element "link" {[ "url" := VStr url ]} [])
              (Transforms.inline_or_text cc) e1 a f sa sf Hm Hs Ha Hf)
    as [Hb Hlay].
  destruct (splitRange_cut (Transforms.inline_or_text cc) e1 a f sa sf
              Hm Hs Ha Hf)
    as (a' & f' & Hs' & Hia & Hif & _).
  set (es := Transforms.splitRange cc (Transforms.inline_or_text cc) e1) in *.
  destruct (idle_valid _ _ Hia) as [sa' Ha'].
  destruct (idle_valid _ _ Hif) as [sf' Hf'].
  rewrite <- Hb.
  apply (wrapNodes_inline_new "link" {[ "url" := VStr url ]} [] es
           (Range.mk a' f') sa' sf' Hs' Ha' Hf' (Hlay Hl)).
Qed.

(** The first step keeps every element that is no link. *)
Lemma unwrapLink_other w e :
  has_type "link" w = false ->
  built_in w (children (if isLinkActive cc e then unwrapLink cc e else e))
  = built_in w (children e).
Proof.
  intros Hw. destruct (isLinkActive cc e); [|reflexivity].
  apply unwrapNodes_built. intros k Hk. apply built_from_other; assumption.
Qed.

Lemma link_no_block k : has_type "link" k = true -> isBlock cc k = false.
Proof.
  intros H. unfold isBlock. cbn [isInline codexClassify]. rewrite H.
  apply andb_false_r.
Qed.

(** The first step keeps the edges of the selection in their Texts, and
    the layout of the document in blocks. *)
Lemma unwrapLink_keeps e r :
  let e1 := if isLinkActive cc e then unwrapLink cc e else e in
  selection e = Some r ->
  exists r1,
    selection e1 = Some r1 /\
    (caret_in_text cc (children e) (Point.path (Range.anchor r)) = true ->
     caret_in_text cc (children e1) (Point.path (Range.anchor r1)) = true) /\
    (caret_in_text cc (children e) (Point.path (Range.focus r)) = true ->
     caret_in_text cc (children e1) (Point.path (Range.focus r1)) = true) /\
    (block_layout cc (children e) = true ->
     block_layout cc (children e1) = true).
Proof.
  cbn zeta. intros Hs. destruct (isLinkActive cc e).
  - destruct (unwrapNodes_edges (has_type "link") e r Hs)
      as (r1 & Hs1 & Ha & Hf).
    exists r1. split; [exact Hs1|]. split; [exact Ha|]. split; [exact Hf|].
    apply (unwrapNodes_layout (has_type "link") link_no_block).
  - exists r. auto.
Qed.

(** The wrap keeps every element that is no link, on a selection between
    two points of Texts. *)
Lemma wrapNodes_link_other url w e1 sel1 :
  let link := Element "link" {[ "url" := VStr url ]} [] in
  has_type "link" w = false ->
  selection e1 = Some sel1 ->
  caret_in_text cc (children e1) (Point.path (Range.anchor sel1)) = true ->
  caret_in_text cc (children e1) (Point.path (Range.focus sel1)) = true ->
  built_in w
    (children (Transforms.collapse_end (Transforms.wrapNodes cc link true e1)))
  = built_in w (children e1).
Proof.
  cbn zeta. intros Hw Hs Ha Hf. destruct sel1 as [a f].
  cbn [Range.anchor Range.focus] in Ha, Hf.
  apply text_of_caret in Ha as [sa Ha]. apply text_of_caret in Hf as [sf Hf].
  rewrite collapse_end_children.
  unfold Transforms.wrapNodes. cbn [isElement isText negb andb isInline cc
    codexClassify has_type node_type].
  change (String.eqb "link" "link") with true. cbn match.
  assert (Hm : forall s mk, Transforms.inline_or_text cc (Text s mk) = true)
    by reflexivity.
  destruct (splitRange_layout w (Transforms.inline_or_text cc) e1 a f sa sf
              Hm Hs Ha Hf) as [Hb _].
  rewrite <- Hb. apply wrapNodes_inline_other.
  apply built_from_other; [exact Hw|reflexivity].
Qed.

(** At a caret in a Text. *)
Lemma wrapLink_at_caret url e :
  let e1 := if isLinkActive cc e then unwrapLink cc e else e in
  let link ks := Element "link" {[ "url" := VStr url ]} ks in
  let e' := wrapLink deleteFragment cc url e in
  at_caret cc e = true ->
  at_caret cc e1 = true /\
  caret_link_depth e1 = caret_link_depth e - 1 /\
  (exists ip,
     Tree.node_at (children e') ip = Some (link [Text url ∅]) /\
     selection e' = Some (caret (ip ++ [0]) (String.length url))) /\
  built_in (link []) (children e') = S (built_in (link []) (children e1)) /\
  (forall w, has_type "link" w = false ->
     built_in w (children e') = built_in w (children e)).
Proof.
  cbn zeta. set (e1 := if isLinkActive cc e then unwrapLink cc e else e).
  intros Hc.
  assert (H1 : at_caret cc e1 = true /\
               caret_link_depth e1 = caret_link_depth e - 1).
  { unfold e1, isLinkActive. rewrite (nodes_caret_exists _ e Hc).
    unfold caret_link_depth in *.
    destruct (existsb (has_type "link") (chain (children e) (anchor_path e)))
      eqn:Ea.
    - destruct (unwrapNodes_caret_types false is_link_ty e eq_refl Hc)
        as [Hc1 Ht1].
      change (fun n => is_link_ty (node_type n)) with (has_type "link")
        in Hc1, Ht1.
      split; [exact Hc1|]. unfold unwrapLink.
      rewrite !filter_link_length, Ht1.
      change (has_type "link") with (fun n => is_link_ty (node_type n)) in Ea.
      rewrite (existsb_types is_link_ty) in Ea.
      pose proof (filter_drop_lowest is_link_ty _ Ea). lia.
    - split; [exact Hc|]. rewrite (filter_length_none _ _ Ea). reflexivity. }
  destruct H1 as [Hc1 Hd1]. split; [exact Hc1|]. split; [exact Hd1|].
  unfold wrapLink. fold e1.
  destruct (at_caret_inv e1 Hc1) as (pt & x & r & k & Hs & _).
  rewrite Hs, caret_collapsed.
  split; [|split].
  - destruct (insertNodes_caret deleteFragment
                (Element "link" {[ "url" := VStr url ]} [Text url ∅]) e1 Hc1
                eq_refl eq_refl) as (ip & Hn & Hsl).
    exists ip. split; [exact Hn|exact Hsl].
  - rewrite (insertNodes_caret_built _ deleteFragment
               (Element "link" {[ "url" := VStr url ]} [Text url ∅]) e1 Hc1
               eq_refl eq_refl).
    cbn [count_built built_from map list_sum].
    rewrite bool_decide_eq_true_2 by auto. change (list_sum [0]) with 0. lia.
  - intros w Hw.
    rewrite (insertNodes_caret_built _ deleteFragment
               (Element "link" {[ "url" := VStr url ]} [Text url ∅]) e1 Hc1
               eq_refl eq_refl).
    rewrite count_built_element,
      (built_from_other w (Element "link" {[ "url" := VStr url ]} []) Hw eq_refl).
    change (built_in w [Text url ∅]) with 0.
    unfold e1. rewrite (unwrapLink_other w e Hw). lia.
Qed.


End LinkSteps.



(** ** A pasted URL in the composed editor *)

Section PastedUrl.
Context (isUrl : string -> bool).
Context (imageExtensions : list string).
Context (urlPathname : string -> option string).
Context (deleteFragment : EditorState -> EditorState).
Context (defaultInsertText : string -> EditorState -> EditorState).
Context (defaultInsertData : Data -> EditorState -> option EditorState).
Context (defaultDeleteBackward : string -> EditorState -> EditorState).
Local Abbreviation cc := codexClassify.

Let editor : EditorObject :=
  codexEditor isUrl imageExtensions urlPathname deleteFragment
    (createEditor defaultInsertText defaultInsertData defaultDeleteBackward).

(** C9 (amended): a payload whose plain text is a URL is handled by the
    links plugin, whatever its files and whatever image extension its path
    ends in: the composed [insertData] returns without error the state of
    [wrapLink] on that text, and reaches neither the images plugin nor the
    default behaviour.  At a caret in a Text outside void elements, the link
    element whose single child is the Text of the url is in the document,
    with the caret at its end: there is one more element of type 'link' with
    this url than after the removal of the matched link elements.  On a
    selection between two points of Texts outside void elements that is
    still expanded once the matched link elements are taken away, the
    characters of the document are kept and the selection is collapsed, and
    in a document whose top-level nodes are blocks and in which the children
    of an element are all blocks or hold no block, the document has more
    elements of type 'link' with this url than before the wrap.  In both
    cases the elements of every other type are as many as before, with the
    properties they had: no image element is made.  Without a selection the
    state is returned unchanged. *)
Theorem insertData_url_makes_link (data : Data) (e : EditorState) :
  JS.truthy (text_plain data) = true ->
  isUrl (text_plain data) = true ->
  let url := text_plain data in
  let link ks := Element "link" {[ "url" := VStr url ]} ks in
  let e1 := if isLinkActive cc e then unwrapLink cc e else e in
  exists e',
    callInsertData editor data e = Some e' /\
    e' = wrapLink deleteFragment cc url e /\
    (at_caret cc e = true ->
     (exists ip,
        Tree.node_at (children e') ip = Some (link [Text url ∅]) /\
        selection e' = Some (caret (ip ++ [0]) (String.length url))) /\
     built_in (link []) (children e') = S (built_in (link []) (children e1)) /\
     (forall w, has_type "link" w = false ->
        built_in w (children e') = built_in w (children e))) /\
    (forall r sel1, selection e = Some r -> selection e1 = Some sel1 ->
       Range.isCollapsed sel1 = false ->
       caret_in_text cc (children e) (Point.path (Range.anchor r)) = true ->
       caret_in_text cc (children e) (Point.path (Range.focus r)) = true ->
       (block_layout cc (children e) = true ->
        built_in (link []) (children e1) < built_in (link []) (children e')) /\
       (forall w, has_type "link" w = false ->
          built_in w (children e') = built_in w (children e)) /\
       document_chars e' = document_chars e /\
       exists pt, selection e' = Some (Range.mk pt pt)) /\
    (selection e = None -> e' = e).
Proof.
  intros Ht Hu. cbn zeta.
  exists (wrapLink deleteFragment cc (text_plain data) e).
  split.
  { unfold editor. rewrite callInsertData_codexEditor. cbn zeta.
    rewrite Ht, Hu. reflexivity. }
  split; [reflexivity|]. split; [|split].
  - intros Hc.
    destruct (wrapLink_at_caret deleteFragment (text_plain data) e Hc)
      as (_ & _ & H). exact H.
  - intros r sel1 Hs Hs1 Hc Ha Hf.
    destruct (wrapLink_branches deleteFragment (text_plain data) e sel1 Hs1)
      as [_ Hexp].
    destruct (Hexp Hc) as (He & (r2 & _ & Hsel) & Hch).
    destruct (unwrapLink_keeps e r Hs) as (r1 & Hr1 & Ha1 & Hf1 & Hl1).
    rewrite Hs1 in Hr1. injection Hr1 as <-.
    split; [|split; [|split; [exact Hch|eauto]]].
    + intros Hl. rewrite He.
      apply (wrapNodes_link_new (text_plain data) _ sel1 Hs1
               (Ha1 Ha) (Hf1 Hf) (Hl1 Hl)).
    + intros w Hw. rewrite He.
      rewrite (wrapNodes_link_other (text_plain data) w _ sel1 Hw Hs1
                 (Ha1 Ha) (Hf1 Hf)).
      apply unwrapLink_other, Hw.
  - apply wrapLink_without_selection.
Qed.

End PastedUrl.

(** C9 (as stated) fails where [wrapLink] makes no link: without a
    selection, at the caret that [insertImage] leaves in the placeholder of
    the image, and on an expanded selection over the children of a paragraph
    that holds an image between its texts, the pasted URL leaves the
    document as it is, without any link element. *)
Lemma insertData_url_without_link :
  let link :=
    Element "link" {[ "url" := VStr "https://example.com/cat.png" ]} [] in
  JS.truthy (text_plain imageUrlPaste) = true /\
  sampleIsUrl (text_plain imageUrlPaste) = true /\
  (let e := doc [el "paragraph" [txt "a"]] None in
   callInsertData sampleEditor imageUrlPaste e = Some e /\
   built_in link (children e) = 0) /\
  (let e :=
     insertImage sampleDelete codexClassify "https://example.com/cat.png"
       emptyParagraph in
   selection e = Some (caret [1; 0] 0) /\
   callInsertData sampleEditor imageUrlPaste e = Some e /\
   built_in link (children e) = 0) /\
  (let e :=
     doc mixedParagraph
       (Some (Range.mk (Point.mk [0; 0] 0) (Point.mk [0; 2] 1))) in
   option_map children (callInsertData sampleEditor imageUrlPaste e)
   = Some (children e) /\
   built_in link (children e) = 0).
Proof. cbn zeta. repeat split; vm_compute; reflexivity. Qed.

(** The pasted image URL at the caret of an empty paragraph. *)
Lemma insertData_url_makes_link_witness :
  JS.truthy (text_plain imageUrlPaste) = true /\
  sampleIsUrl (text_plain imageUrlPaste) = true /\
  isImageUrl sampleIsUrl sampleExtensions samplePathname
    (text_plain imageUrlPaste) = Some true /\
  at_caret codexClassify emptyParagraph = true /\
  exists e',
    callInsertData sampleEditor imageUrlPaste emptyParagraph = Some e' /\
    (exists ip,
       Tree.node_at (children e') ip
       = Some (Element "link" {[ "url" := VStr "https://example.com/cat.png" ]}
                 [Text "https://example.com/cat.png" ∅]) /\
       selection e'
       = Some (caret (ip ++ [0])
                 (String.length "https://example.com/cat.png"))) /\
    built_in (Element "image" {[ "url" := VStr "https://example.com/cat.png" ]} [])
      (children e') = 0.
Proof.
  split; [reflexivity|]. split; [reflexivity|]. split; [reflexivity|].
  split; [reflexivity|].
  destruct (insertData_url_makes_link sampleIsUrl sampleExtensions
              samplePathname sampleDelete sampleInsertText sampleInsertData
              sampleDeleteBackward imageUrlPaste emptyParagraph
              eq_refl eq_refl) as (e' & Hcall & _ & Hcaret & _).
  exists e'. split; [exact Hcall|].
  destruct (Hcaret eq_refl) as (Hlink & _ & Hother).
  split; [exact Hlink|]. rewrite Hother; reflexivity.
Defined.
